(** * RecStep rule analyzer: [rule_analyzer/translator.py]

    A shallow embedding of the functions that turn a parsed Datalog rule
    into the mapping structures used for SQL generation, followed by the
    properties established about them.

    The development has two layers.

    - A typed, purely functional layer (top level).  Python dictionaries are
      insertion-ordered association lists, exceptions are the left summand
      of a sum type, loops are folds.
    - An object-store layer ([Module Heap]).  Every list, dict and object is
      a cell of a store and is reached through a reference, so that
      aliasing and in-place mutation are visible.  It is used for the
      statements about what a call may modify. *)

From Stdlib Require Import List String Ascii Bool Arith ZArith Lia Sorted.
From Stdlib Require Import DecimalString.
Import ListNotations.
Local Open Scope string_scope.
Local Open Scope list_scope.
Local Open Scope nat_scope.

(** ** Exceptions *)

Inductive PyErr : Type :=
| KeyError
| IndexError
| TypeError
| ValueError
| AttributeError
| RecursionError
| Exception_ (msg : string).

Definition result (A : Type) : Type := (PyErr + A)%type.

Definition ok {A} (x : A) : result A := inr x.
Definition raise {A} (e : PyErr) : result A := inl e.

(** ** Hashable keys *)

Class Key (K : Type) : Type := {
  key_eqb : K -> K -> bool;
  key_eqb_spec : forall x y, reflect (x = y) (key_eqb x y)
}.

#[export] Instance Key_string : Key string :=
  {| key_eqb := String.eqb; key_eqb_spec := String.eqb_spec |}.

#[export] Instance Key_nat : Key nat :=
  {| key_eqb := Nat.eqb; key_eqb_spec := Nat.eqb_spec |}.

(** ** Insertion-ordered dictionaries

    [dict] and [collections.OrderedDict] both iterate in insertion order;
    assigning to an existing key keeps its place. *)

Abbreviation odict K V := (list (K * V)).

Section OrderedDict.
Context {K V : Type} `{Key K}.
Implicit Types (d : odict K V).

(** [d[k]], [None] standing for [KeyError]. *)
Fixpoint od_get (k : K) (d : odict K V) : option V :=
  match d with
  | [] => None
  | (k', v) :: r => if key_eqb k k' then Some v else od_get k r
  end.

(** [k in d] *)
Definition od_mem (k : K) (d : odict K V) : bool :=
  match od_get k d with Some _ => true | None => false end.

(** [d[k] = v] *)
Fixpoint od_set (k : K) (v : V) (d : odict K V) : odict K V :=
  match d with
  | [] => [(k, v)]
  | (k', v') :: r =>
      if key_eqb k k' then (k', v) :: r else (k', v') :: od_set k v r
  end.

(** In-place mutation of the object stored under [k]: [f] is applied to
    [d[k]]; nothing happens when [k] is absent. *)
Fixpoint od_modify (k : K) (f : V -> V) (d : odict K V) : odict K V :=
  match d with
  | [] => []
  | (k', v') :: r =>
      if key_eqb k k' then (k', f v') :: r else (k', v') :: od_modify k f r
  end.

(** [for k in d] visits [od_keys d] in order. *)
Definition od_keys (d : odict K V) : list K := map fst d.

(** [len(d)] *)
Definition od_len (d : odict K V) : nat := List.length d.

(** A Python dictionary holds each key once. *)
Definition od_wf (d : odict K V) : Prop := NoDup (od_keys d).
End OrderedDict.


(** [for i in range(len(l)): x = l[i]; s = body i x s] *)
Definition for_range {St A : Type} (l : list A) (body : nat -> A -> St -> St) (s : St) : St :=
  fold_left
    (fun s i => match nth_error l i with Some x => body i x s | None => s end)
    (seq 0 (List.length l)) s.

(** ** Parsed rule structures *)

(** An argument object: [arg.type] and [arg.name].  For the arguments of
    body atoms and negated atoms the name is a string (a variable name or
    the text of a constant). *)
Module Arg.
Record t : Type := mk { type : string; name : string }.
End Arg.

(** An atom: [atom['name']] and [atom['arg_list']]. *)
Module Atom.
Record t : Type := mk { name : string; arg_list : list Arg.t }.
End Atom.

(** A comparison: [comparison['lhs']] and [comparison['rhs']] are pairs
    (operand text, operand tag), the tag being ['var'] or ['num']. *)
Module Comparison.
Record t : Type := mk { lhs : string * string; rhs : string * string; op : string }.
End Comparison.

(** The dictionary [{'atom_index': _, 'arg_index': _}]. *)
Module Mapping.
Record t : Type := mk { atom_index : nat; arg_index : nat }.
End Mapping.

(** ** Variable-occurrence index *)

(** argument name -> atom index -> list of argument indices *)
Definition index : Type := odict string (odict nat (list nat)).

Definition index_argument (atom_index arg_index : nat) (arg : Arg.t) (m : index) : index :=
  if negb (Arg.type arg =? "variable")%string then m
  else
    let m1 := if negb (od_mem (Arg.name arg) m) then od_set (Arg.name arg) [] m else m in
    let m2 :=
      od_modify (Arg.name arg)
        (fun inner => if negb (od_mem atom_index inner) then od_set atom_index [] inner else inner)
        m1 in
    od_modify (Arg.name arg)
      (od_modify atom_index (fun l => l ++ [arg_index])) m2.

Definition extract_variable_arg_to_atom_map (body_atoms : list Atom.t) : index :=
  for_range body_atoms
    (fun atom_index atom variable_arg_to_atom_map =>
       for_range (Atom.arg_list atom)
         (fun arg_index arg m => index_argument atom_index arg_index arg m)
         variable_arg_to_atom_map)
    [].

(** The two nested [for] loops of the resolver return at the first
    argument index they reach. *)
Fixpoint first_atom_arg (atom_index_to_arg_index_map : odict nat (list nat)) : option Mapping.t :=
  match atom_index_to_arg_index_map with
  | [] => None
  | (atom_index, arg_indices) :: rest =>
      match arg_indices with
      | arg_index :: _ => Some (Mapping.mk atom_index arg_index)
      | [] => first_atom_arg rest
      end
  end.

(** [variable_arg_to_atom_map[var_name]] raises [KeyError] for a missing
    name; the result is [None] when the loops fall through. *)
Definition search_argument_mapping_in_body_atoms
    (variable_arg_to_atom_map : index) (var_name : string) : result (option Mapping.t) :=
  match od_get var_name variable_arg_to_atom_map with
  | None => raise KeyError
  | Some atom_index_to_arg_index_map => ok (first_atom_arg atom_index_to_arg_index_map)
  end.

(** ** Join map *)

(** [for atom in d: if len(d[atom]) > 1: join_on_var = True; break] *)
Fixpoint repeated_in_some_atom (occ : odict nat (list nat)) : bool :=
  match occ with
  | [] => false
  | (_, arg_indices) :: rest =>
      if 1 <? List.length arg_indices then true else repeated_in_some_atom rest
  end.

Definition extract_join_map (variable_arg_to_atom_map : index) : index :=
  fold_left
    (fun join_map var =>
       match od_get var variable_arg_to_atom_map with
       | None => join_map
       | Some occ =>
           let join_on_var := (1 <? od_len occ) || repeated_in_some_atom occ in
           if join_on_var then od_set var occ join_map else join_map
       end)
    (od_keys variable_arg_to_atom_map) [].

(** ** Comparison map *)

(** The state of a loop that may raise: [Raised e s] keeps the local state
    [s] reached when [e] was raised. *)
Inductive outcome (St : Type) : Type :=
| Normal (s : St)
| Raised (e : PyErr) (s : St).

Arguments Normal {St} s.
Arguments Raised {St} e s.

Fixpoint loop_outcome {St A : Type} (body : St -> A -> outcome St) (l : list A) (s : St)
  : outcome St :=
  match l with
  | [] => Normal s
  | x :: rest =>
      match body s x with
      | Normal s' => loop_outcome body rest s'
      | Raised e s' => Raised e s'
      end
  end.

Definition outcome_result {St : Type} (o : outcome St) : result St :=
  match o with
  | Normal s => ok s
  | Raised e _ => raise e
  end.

Definition no_variable_side_message : string :=
  "At least one side of the comparison has to be variable in the body relations".

Section Comparisons.
(** Python's [float] on the text of an operand: [None] is [ValueError]. *)
Context {F : Type} (float : string -> option F).

(** The other side of a comparison record: ['other_side_type'] is ['num']
    with ['numerical_value'], or ['var'] with the two indices. *)
Inductive other_side : Type :=
| OtherNum (numerical_value : F)
| OtherVar (other_side_atom_index other_side_arg_index : nat).

Definition other_side_type (o : other_side) : string :=
  match o with
  | OtherNum _ => "num"
  | OtherVar _ _ => "var"
  end.

Record comparison_struct : Type := mk_comparison_struct {
  base_variable_side : string;
  compare_op : string;
  other : other_side
}.

Definition comparison_map : Type := odict nat (odict nat (list comparison_struct)).

(** One iteration of the loop over [body_comparisons]. *)
Definition comparison_step (variable_arg_to_atom_map : index)
    (comparison_map0 : comparison_map) (comparison : Comparison.t) : outcome comparison_map :=
  let lhs_arg := fst (Comparison.lhs comparison) in
  let rhs_arg := fst (Comparison.rhs comparison) in
  let lhs_arg_type := snd (Comparison.lhs comparison) in
  let rhs_arg_type := snd (Comparison.rhs comparison) in
  if negb (lhs_arg_type =? "var")%string && negb (rhs_arg_type =? "var")%string
  then Raised (Exception_ no_variable_side_message) comparison_map0
  else
    let '(base_side, base_var, compare_arg, compare_arg_type) :=
      if (lhs_arg_type =? "var")%string
      then ("l", lhs_arg, rhs_arg, rhs_arg_type)
      else ("r", rhs_arg, lhs_arg, lhs_arg_type) in
    match search_argument_mapping_in_body_atoms variable_arg_to_atom_map base_var with
    | inl e => Raised e comparison_map0
    | inr None => Raised TypeError comparison_map0
    | inr (Some arg_to_body_atom_arg_map) =>
        let mapped_atom_index := Mapping.atom_index arg_to_body_atom_arg_map in
        let mapped_arg_index := Mapping.arg_index arg_to_body_atom_arg_map in
        let m1 :=
          if negb (od_mem mapped_atom_index comparison_map0)
          then od_set mapped_atom_index [] comparison_map0 else comparison_map0 in
        let m2 :=
          od_modify mapped_atom_index
            (fun inner => if negb (od_mem mapped_arg_index inner)
                          then od_set mapped_arg_index [] inner else inner) m1 in
        let finish (o : other_side) :=
          Normal (od_modify mapped_atom_index
                    (od_modify mapped_arg_index
                       (fun l => l ++ [mk_comparison_struct base_side (Comparison.op comparison) o]))
                    m2) in
        if (compare_arg_type =? "num")%string then
          match float compare_arg with
          | None => Raised ValueError m2
          | Some v => finish (OtherNum v)
          end
        else
          match search_argument_mapping_in_body_atoms variable_arg_to_atom_map compare_arg with
          | inl e => Raised e m2
          | inr None => Raised TypeError m2
          | inr (Some other_side_atom_arg_indices) =>
              finish (OtherVar (Mapping.atom_index other_side_atom_arg_indices)
                               (Mapping.arg_index other_side_atom_arg_indices))
          end
    end.

Definition comparison_loop (body_comparisons : list Comparison.t)
    (variable_arg_to_atom_map : index) : outcome comparison_map :=
  loop_outcome (comparison_step variable_arg_to_atom_map) body_comparisons [].

Definition extract_comparison_map (body_comparisons : list Comparison.t)
    (variable_arg_to_atom_map : index) : result comparison_map :=
  outcome_result (comparison_loop body_comparisons variable_arg_to_atom_map).
End Comparisons.

(** ** Negation map *)

(** The dictionary [{'arg_name': _, 'arg_type': _}] kept per position. *)
Module NegArg.
Record t : Type := mk { arg_name : string; arg_type : string }.
End NegArg.

Definition negation_map_t : Type := odict nat (odict nat NegArg.t).
Definition anti_join_map_t : Type := odict nat (odict nat Mapping.t).

(** The returned dictionary [{'negation_map': _, 'anti_join_map': _}]. *)
Module NegationMaps.
Record t : Type := mk { negation_map : negation_map_t; anti_join_map : anti_join_map_t }.
End NegationMaps.

Fixpoint fold_result {St A : Type} (body : St -> A -> result St) (l : list A) (s : St)
  : result St :=
  match l with
  | [] => ok s
  | x :: rest =>
      match body s x with
      | inl e => inl e
      | inr s' => fold_result body rest s'
      end
  end.

(** Body of the inner loop of the first pass: the entry of one argument is
    written into [negation_map[negation_index]]. *)
Definition record_negation_argument (negation_index arg_index : nat)
    (negation_arg : Arg.t) (negation_map : negation_map_t) : negation_map_t :=
  od_modify negation_index
    (od_set arg_index (NegArg.mk (Arg.name negation_arg) (Arg.type negation_arg)))
    negation_map.

(** Body of the outer loop of the first pass. *)
Definition record_negation_atom (negation_index : nat) (negation : Atom.t)
    (negation_map : negation_map_t) : negation_map_t :=
  for_range (Atom.arg_list negation)
    (record_negation_argument negation_index)
    (od_set negation_index [] negation_map).

(** First loop: one entry per negated atom and per argument position. *)
Definition build_negation_map (body_negation_atoms : list Atom.t) : negation_map_t :=
  for_range body_negation_atoms record_negation_atom [].

(** Body of the inner loop of the second pass, for one argument index. *)
Definition anti_join_argument (variable_arg_to_atom_map : index)
    (negation_atom_index : nat) (negation_atom_map : odict nat NegArg.t)
    (anti_join_map : anti_join_map_t) (arg_index : nat) : result anti_join_map_t :=
  match od_get arg_index negation_atom_map with
  | None => raise KeyError
  | Some entry =>
      if (NegArg.arg_type entry =? "variable")%string then
        match search_argument_mapping_in_body_atoms variable_arg_to_atom_map
                (NegArg.arg_name entry) with
        | inl e => inl e
        | inr None => ok anti_join_map
        | inr (Some arg_to_body_atom_arg_map) =>
            let m1 :=
              if negb (od_mem negation_atom_index anti_join_map)
              then od_set negation_atom_index [] anti_join_map else anti_join_map in
            ok (od_modify negation_atom_index
                  (od_set arg_index arg_to_body_atom_arg_map) m1)
        end
      else ok anti_join_map
  end.

Definition build_anti_join_map (negation_map : negation_map_t)
    (variable_arg_to_atom_map : index) : result anti_join_map_t :=
  fold_result
    (fun anti_join_map negation_atom_index =>
       match od_get negation_atom_index negation_map with
       | None => raise KeyError
       | Some negation_atom_map =>
           fold_result
             (anti_join_argument variable_arg_to_atom_map negation_atom_index negation_atom_map)
             (od_keys negation_atom_map) anti_join_map
       end)
    (od_keys negation_map) [].

Definition extract_negation_map (body_negation_atoms : list Atom.t)
    (variable_arg_to_atom_map : index) : result NegationMaps.t :=
  let negation_map := build_negation_map body_negation_atoms in
  match build_anti_join_map negation_map variable_arg_to_atom_map with
  | inl e => inl e
  | inr anti_join_map => ok (NegationMaps.mk negation_map anti_join_map)
  end.

(** ** Recursive atom aliases *)

(** An alias entry [{'alias': _, 'type': _}]. *)
Module Alias.
Record t : Type := mk { alias : string; type : string }.

Definition eqb (x y : t) : bool :=
  ((alias x =? alias y) && (type x =? type y))%string.
End Alias.

(** The dictionary [{'body_atom_eval_names': _, 'idb_num': _}]. *)
Module AtomAliases.
Record t : Type := mk { body_atom_eval_names : list (list Alias.t); idb_num : nat }.
End AtomAliases.

(** [str(z)] for an integer, as [format] renders it. *)
Definition string_of_Z (z : Z) : string := NilZero.string_of_int (Z.to_int z).

(** In-place mutation of the [i]-th element of a list. *)
Fixpoint list_modify {A : Type} (i : nat) (f : A -> A) (l : list A) : list A :=
  match l, i with
  | [], _ => []
  | x :: r, 0 => f x :: r
  | x :: r, S j => x :: list_modify j f r
  end.

Section RecursiveAliases.
(** [eval_idb_to_rule_maps] is keyed by relation name; only membership
    of a name is consulted. *)
Context {R : Type}.

Definition build_recursive_atom_aliases (body_atoms : list Atom.t)
    (eval_idb_to_rule_maps : odict string R) (iter_num : Z) : AtomAliases.t :=
  let '(body_atom_eval_names, idb_num) :=
    fold_left
      (fun '(names, idb_num) atom =>
         let idb_num :=
           if od_mem (Atom.name atom) eval_idb_to_rule_maps then idb_num + 1 else idb_num in
         (names ++ [[]], idb_num))
      body_atoms ([], 0) in
  let body_atom_eval_names :=
    for_range body_atoms
      (fun i atom names =>
         let atom_name := Atom.name atom in
         if negb (od_mem atom_name eval_idb_to_rule_maps) then
           list_modify i (fun l => l ++ [Alias.mk atom_name "default"]) names
         else
           let prev_idb_name := (atom_name ++ "_prev")%string in
           let delta_idb_name :=
             (atom_name ++ "_delta_" ++ string_of_Z (iter_num - 1))%string in
           list_modify i
             (fun l => (l ++ [Alias.mk prev_idb_name "prev"])
                         ++ [Alias.mk delta_idb_name "delta"])
             names)
      body_atom_eval_names in
  AtomAliases.mk body_atom_eval_names idb_num.
End RecursiveAliases.

(** [group == other] on lists of alias entries. *)
Fixpoint group_eqb (g1 g2 : list Alias.t) : bool :=
  match g1, g2 with
  | [], [] => true
  | x :: r1, y :: r2 => Alias.eqb x y && group_eqb r1 r2
  | _, _ => false
  end.

(** [l.remove(g)]: drops the first element equal to [g]; [None] is the
    [ValueError] raised when there is none. *)
Fixpoint list_remove (g : list Alias.t) (l : list (list Alias.t)) : option (list (list Alias.t)) :=
  match l with
  | [] => None
  | x :: r =>
      if group_eqb x g then Some r
      else match list_remove g r with
           | None => None
           | Some r' => Some (x :: r')
           end
  end.

(** One iteration of the loop over [range(body_atom_num)], given the alias
    list of the current atom. *)
Definition extend_groups (atom_eval_name_groups : list (list Alias.t))
    (atom_eval_names : list Alias.t) : result (list (list Alias.t)) :=
  if List.length atom_eval_name_groups =? 0 then
    ok (map (fun atom_eval_name => [atom_eval_name]) atom_eval_names)
  else
    match nth_error atom_eval_names 0 with
    | None => raise IndexError
    | Some first_name =>
        if 1 <? List.length atom_eval_names then
          let group_increasing_factor := List.length atom_eval_names - 1 in
          (* the deep copies are taken before the groups are extended *)
          let groups_to_be_added := repeat atom_eval_name_groups group_increasing_factor in
          let extended := map (fun group => group ++ [first_name]) atom_eval_name_groups in
          fold_result
            (fun groups k =>
               match nth_error groups_to_be_added k, nth_error atom_eval_names (k + 1) with
               | Some copies, Some name_k =>
                   ok (groups ++ map (fun group => group ++ [name_k]) copies)
               | _, _ => raise IndexError
               end)
            (seq 0 group_increasing_factor) extended
        else
          ok (map (fun group => group ++ [first_name]) atom_eval_name_groups)
    end.

Definition prev_count (group : list Alias.t) : nat :=
  fold_left
    (fun n alias => if (Alias.type alias =? "prev")%string then n + 1 else n)
    group 0.

(** The final [for group in atom_eval_name_groups] loop, which removes from
    the list it is iterating: the iterator holds a position [i] into the
    current list.  [fuel] bounds the number of iterations. *)
Fixpoint remove_all_prev (fuel i idb_num : nat) (groups : list (list Alias.t))
  : result (list (list Alias.t)) :=
  match fuel with
  | 0 => ok groups
  | S fuel' =>
      match nth_error groups i with
      | None => ok groups
      | Some group =>
          if prev_count group =? idb_num then
            match list_remove group groups with
            | None => raise ValueError
            | Some groups' => remove_all_prev fuel' (S i) idb_num groups'
            end
          else remove_all_prev fuel' (S i) idb_num groups
      end
  end.

Definition expand_alias_groups (body_atoms : list Atom.t)
    (body_atom_eval_names : list (list Alias.t)) : result (list (list Alias.t)) :=
  fold_result
    (fun groups atom_index =>
       match nth_error body_atom_eval_names atom_index with
       | None => raise IndexError
       | Some atom_eval_names => extend_groups groups atom_eval_names
       end)
    (seq 0 (List.length body_atoms)) [].

Definition build_recursive_atom_alias_groups (body_atoms : list Atom.t)
    (atom_aliases_map : AtomAliases.t) : result (list (list Alias.t)) :=
  match expand_alias_groups body_atoms (AtomAliases.body_atom_eval_names atom_aliases_map) with
  | inl e => inl e
  | inr atom_eval_name_groups =>
      remove_all_prev (List.length atom_eval_name_groups) 0
        (AtomAliases.idb_num atom_aliases_map) atom_eval_name_groups
  end.

(** * Object-store layer

    The same functions over a store of mutable cells.  A Python list, dict
    or attribute object is a cell; a variable or a container slot holds a
    [val], which for those objects is a reference.  Assigning
    [join_map[var] = variable_arg_to_atom_map[var]] therefore shares one
    inner dictionary between two outer ones, and [group.append(...)]
    changes the one list object every holder of the reference sees. *)

Module Heap.
Section Store.
(** The floating-point type and the three facts about [float] objects the
    code relies on: parsing a string, converting an integer, equality. *)
Context {F : Type}.
Context (float_of_string : string -> option F).
Context (float_of_int : Z -> F).
Context (float_eqb : F -> F -> bool).

Definition addr : Type := nat.

Inductive val : Type :=
| VNone
| VInt (z : Z)
| VStr (s : string)
| VFloat (f : F)
| VRef (a : addr).

Inductive cell : Type :=
| CList (items : list val)
| CDict (entries : list (val * val))
| CObj (attrs : list (string * val)).

Definition heap : Type := list cell.

(** [==] between immutable values; two references are compared by
    identity (structural comparison of containers is [py_eq] below). *)
Definition val_eqb (x y : val) : bool :=
  match x, y with
  | VNone, VNone => true
  | VInt a, VInt b => Z.eqb a b
  | VStr a, VStr b => String.eqb a b
  | VFloat a, VFloat b => float_eqb a b
  | VInt a, VFloat b => float_eqb (float_of_int a) b
  | VFloat a, VInt b => float_eqb a (float_of_int b)
  | VRef a, VRef b => Nat.eqb a b
  | _, _ => false
  end.

(** ** The store monad: a computation returns the new store together with
    a value or a raised exception. *)
Definition M (A : Type) : Type := heap -> heap * result A.

Definition ret {A} (x : A) : M A := fun h => (h, ok x).
Definition throw {A} (e : PyErr) : M A := fun h => (h, raise e).
Definition bind {A B} (m : M A) (f : A -> M B) : M B :=
  fun h =>
    match m h with
    | (h', inl e) => (h', inl e)
    | (h', inr x) => f x h'
    end.

Notation "x <- m ;; k" := (bind m (fun x => k))
  (at level 61, m at next level, right associativity).
Notation "m ;;; k" := (bind m (fun _ => k))
  (at level 61, right associativity).

(** ** Cells *)

Definition alloc (c : cell) : M val :=
  fun h => (h ++ [c], ok (VRef (List.length h))).

Definition load (a : addr) : M cell :=
  fun h =>
    match nth_error h a with
    | Some c => (h, ok c)
    | None => (h, raise TypeError)
    end.

Fixpoint upd {A} (i : nat) (x : A) (l : list A) : list A :=
  match l, i with
  | [], _ => []
  | _ :: r, 0 => x :: r
  | y :: r, S j => y :: upd j x r
  end.

Definition store (a : addr) (c : cell) : M unit :=
  fun h => (upd a c h, ok tt).

Definition new_list : M val := alloc (CList []).
Definition new_dict : M val := alloc (CDict []).

(** ** Dictionaries held in a cell *)

Fixpoint entries_get (k : val) (d : list (val * val)) : option val :=
  match d with
  | [] => None
  | (k', v) :: r => if val_eqb k k' then Some v else entries_get k r
  end.

Fixpoint entries_set (k v : val) (d : list (val * val)) : list (val * val) :=
  match d with
  | [] => [(k, v)]
  | (k', v') :: r =>
      if val_eqb k k' then (k', v) :: r else (k', v') :: entries_set k v r
  end.

Fixpoint attrs_get (name : string) (attrs : list (string * val)) : option val :=
  match attrs with
  | [] => None
  | (n, v) :: r => if String.eqb name n then Some v else attrs_get name r
  end.

Fixpoint attrs_set (name : string) (v : val) (attrs : list (string * val))
  : list (string * val) :=
  match attrs with
  | [] => [(name, v)]
  | (n, v') :: r =>
      if String.eqb name n then (n, v) :: r else (n, v') :: attrs_set name v r
  end.

(** Lists and dicts are unhashable; other objects hash by identity. *)
Definition hashable (k : val) : M unit :=
  match k with
  | VRef a =>
      c <- load a ;;
      match c with
      | CObj _ => ret tt
      | _ => throw TypeError
      end
  | _ => ret tt
  end.

(** Position denoted by a Python index into a sequence of length [n]. *)
Definition sequence_index (z : Z) (n : nat) : option nat :=
  let z' := if (z <? 0)%Z then (z + Z.of_nat n)%Z else z in
  if ((0 <=? z') && (z' <? Z.of_nat n))%Z then Some (Z.to_nat z') else None.

Definition string_item (s : string) (i : nat) : option val :=
  match String.get i s with
  | Some c => Some (VStr (String c EmptyString))
  | None => None
  end.

(** [v[k]] *)
Definition py_getitem (v k : val) : M val :=
  match v with
  | VStr s =>
      match k with
      | VInt z =>
          match sequence_index z (String.length s) with
          | Some i =>
              match string_item s i with
              | Some c => ret c
              | None => throw IndexError
              end
          | None => throw IndexError
          end
      | _ => throw TypeError
      end
  | VRef a =>
      c <- load a ;;
      match c with
      | CList items =>
          match k with
          | VInt z =>
              match sequence_index z (List.length items) with
              | Some i =>
                  match nth_error items i with
                  | Some x => ret x
                  | None => throw IndexError
                  end
              | None => throw IndexError
              end
          | _ => throw TypeError
          end
      | CDict entries =>
          hashable k ;;;
          match entries_get k entries with
          | Some x => ret x
          | None => throw KeyError
          end
      | CObj _ => throw TypeError
      end
  | _ => throw TypeError
  end.

(** [v.name] *)
Definition py_getattr (v : val) (name : string) : M val :=
  match v with
  | VRef a =>
      c <- load a ;;
      match c with
      | CObj attrs =>
          match attrs_get name attrs with
          | Some x => ret x
          | None => throw AttributeError
          end
      | _ => throw AttributeError
      end
  | _ => throw AttributeError
  end.

(** [v[k] = x] *)
Definition py_setitem (v k x : val) : M unit :=
  match v with
  | VRef a =>
      c <- load a ;;
      match c with
      | CDict entries =>
          hashable k ;;;
          store a (CDict (entries_set k x entries))
      | CList items =>
          match k with
          | VInt z =>
              match sequence_index z (List.length items) with
              | Some i => store a (CList (upd i x items))
              | None => throw IndexError
              end
          | _ => throw TypeError
          end
      | CObj _ => throw TypeError
      end
  | _ => throw TypeError
  end.

(** [setattr(v, name, x)], used when an object is copied. *)
Definition py_setattr (v : val) (name : string) (x : val) : M unit :=
  match v with
  | VRef a =>
      c <- load a ;;
      match c with
      | CObj attrs => store a (CObj (attrs_set name x attrs))
      | _ => throw AttributeError
      end
  | _ => throw AttributeError
  end.

(** [v.append(x)] *)
Definition py_append (v x : val) : M unit :=
  match v with
  | VRef a =>
      c <- load a ;;
      match c with
      | CList items => store a (CList (items ++ [x]))
      | _ => throw AttributeError
      end
  | _ => throw AttributeError
  end.

(** [k in v] for a dict (membership of a key) or a list (of an element,
    immutable elements being compared by value). *)
Definition py_contains (k v : val) : M bool :=
  match v with
  | VRef a =>
      c <- load a ;;
      match c with
      | CDict entries =>
          hashable k ;;;
          ret (match entries_get k entries with Some _ => true | None => false end)
      | CList items => ret (existsb (val_eqb k) items)
      | CObj _ => throw TypeError
      end
  | _ => throw TypeError
  end.

(** [len(v)] *)
Definition py_len (v : val) : M nat :=
  match v with
  | VStr s => ret (String.length s)
  | VRef a =>
      c <- load a ;;
      match c with
      | CList items => ret (List.length items)
      | CDict entries => ret (List.length entries)
      | CObj _ => throw TypeError
      end
  | _ => throw TypeError
  end.

(** ** Strings and numbers *)

Definition lower_ascii (c : ascii) : ascii :=
  let n := nat_of_ascii c in
  if (65 <=? n) && (n <=? 90) then ascii_of_nat (n + 32) else c.

Fixpoint lower_string (s : string) : string :=
  match s with
  | EmptyString => EmptyString
  | String c r => String (lower_ascii c) (lower_string r)
  end.

(** [v.lower()] (ASCII letters) *)
Definition py_lower (v : val) : M val :=
  match v with
  | VStr s => ret (VStr (lower_string s))
  | _ => throw AttributeError
  end.

(** The text [format] substitutes for [{}].  Only strings, integers and
    [None] are rendered; the names and counters formatted by this module
    are of those kinds. *)
Definition py_str (v : val) : M string :=
  match v with
  | VStr s => ret s
  | VInt z => ret (string_of_Z z)
  | VNone => ret "None"
  | _ => throw TypeError
  end.

(** [v - 1] *)
Definition py_pred (v : val) : M val :=
  match v with
  | VInt z => ret (VInt (z - 1))
  | _ => throw TypeError
  end.

(** [float(v)] *)
Definition py_float (v : val) : M val :=
  match v with
  | VStr s =>
      match float_of_string s with
      | Some f => ret (VFloat f)
      | None => throw ValueError
      end
  | VInt z => ret (VFloat (float_of_int z))
  | VFloat f => ret (VFloat f)
  | _ => throw TypeError
  end.

Definition vnat (n : nat) : val := VInt (Z.of_nat n).

(** ** Loops *)

(** What the body of a loop asks for when it ends: go on ([continue] or
    falling off the end) or leave the loop ([break], [return]). *)
Inductive control (St : Type) : Type :=
| Continue (s : St)
| Break (s : St).

Arguments Continue {St} s.
Arguments Break {St} s.

(** A loop over a fixed sequence of items, threading the local
    variables [s]. *)
Fixpoint for_each {X St : Type} (l : list X) (s : St) (body : St -> X -> M (control St)) : M St :=
  match l with
  | [] => ret s
  | x :: rest =>
      c <- body s x ;;
      match c with
      | Continue s' => for_each rest s' body
      | Break s' => ret s'
      end
  end.

(** [for i in range(n)] *)
Definition for_range {St : Type} (n : nat) (s : St) (body : St -> nat -> M (control St)) : M St :=
  for_each (seq 0 n) s body.

(** The list iterator: it holds the list object and a position, and reads
    the list again at every step, so that removals made by the body shift
    the elements under it.  [fuel] is the length on entry; no loop of
    this module lengthens the list it iterates. *)
Fixpoint iterate_list {St : Type} (fuel i : nat) (lst : val) (s : St)
    (body : St -> val -> M (control St)) : M St :=
  match fuel with
  | 0 => ret s
  | S fuel' =>
      n <- py_len lst ;;
      if i <? n then
        x <- py_getitem lst (vnat i) ;;
        c <- body s x ;;
        match c with
        | Continue s' => iterate_list fuel' (S i) lst s' body
        | Break s' => ret s'
        end
      else ret s
  end.

(** [for x in v]: the elements of a list, or the keys of a dict. *)
Definition py_for {St : Type} (v : val) (s : St) (body : St -> val -> M (control St)) : M St :=
  match v with
  | VRef a =>
      c <- load a ;;
      match c with
      | CList items => iterate_list (List.length items) 0 v s body
      | CDict entries => for_each (map fst entries) s body
      | CObj _ => throw TypeError
      end
  | _ => throw TypeError
  end.

(** Loops without local variables and without [break]. *)
Definition for_range_ (n : nat) (body : nat -> M unit) : M unit :=
  for_range n tt (fun _ i => body i ;;; ret (Continue tt)).

Definition py_for_ (v : val) (body : val -> M unit) : M unit :=
  py_for v tt (fun _ x => body x ;;; ret (Continue tt)).

(** ** Structural equality, [list.remove], [deepcopy] *)

(** [x == y].  Containers are compared element by element; [fuel] bounds
    the nesting depth (Python raises [RecursionError] beyond its own
    limit). *)
Fixpoint py_eq (fuel : nat) (x y : val) : M bool :=
  match fuel with
  | 0 => throw RecursionError
  | S fuel' =>
      match x, y with
      | VRef a, VRef b =>
          if Nat.eqb a b then ret true
          else
            ca <- load a ;;
            cb <- load b ;;
            match ca, cb with
            | CList la, CList lb =>
                if negb (List.length la =? List.length lb) then ret false
                else
                  for_each (combine la lb) true
                    (fun _ '(u, v) =>
                       e <- py_eq fuel' u v ;;
                       if e then ret (Continue true) else ret (Break false))
            | CDict da, CDict db =>
                if negb (List.length da =? List.length db) then ret false
                else
                  for_each da true
                    (fun _ '(k, u) =>
                       match entries_get k db with
                       | None => ret (Break false)
                       | Some v =>
                           e <- py_eq fuel' u v ;;
                           if e then ret (Continue true) else ret (Break false)
                       end)
            | _, _ => ret false
            end
      | _, _ => ret (val_eqb x y)
      end
  end.

(** Splits a list at its first element equal to [x]. *)
Fixpoint remove_first (fuel : nat) (x : val) (items : list val) : M (option (list val)) :=
  match items with
  | [] => ret None
  | y :: rest =>
      e <- py_eq fuel y x ;;
      if e then ret (Some rest)
      else
        r <- remove_first fuel x rest ;;
        match r with
        | None => ret None
        | Some rest' => ret (Some (y :: rest'))
        end
  end.

(** [v.remove(x)] *)
Definition py_list_remove (fuel : nat) (v x : val) : M unit :=
  match v with
  | VRef a =>
      c <- load a ;;
      match c with
      | CList items =>
          r <- remove_first fuel x items ;;
          match r with
          | None => throw ValueError
          | Some items' => store a (CList items')
          end
      | _ => throw AttributeError
      end
  | _ => throw AttributeError
  end.

(** [copy.deepcopy]: [memo] maps the address of an object already copied
    to its copy.  The copy of a container is created empty, recorded in
    [memo], and then filled. *)
Definition memo_t : Type := list (addr * val).

Fixpoint memo_get (a : addr) (memo : memo_t) : option val :=
  match memo with
  | [] => None
  | (b, v) :: r => if Nat.eqb a b then Some v else memo_get a r
  end.

Fixpoint deepcopy_memo (fuel : nat) (x : val) (memo : memo_t) : M (val * memo_t) :=
  match fuel with
  | 0 => throw RecursionError
  | S fuel' =>
      match x with
      | VRef a =>
          match memo_get a memo with
          | Some y => ret (y, memo)
          | None =>
              c <- load a ;;
              match c with
              | CList items =>
                  y <- new_list ;;
                  memo' <- for_each items ((a, y) :: memo)
                    (fun memo item =>
                       r <- deepcopy_memo fuel' item memo ;;
                       py_append y (fst r) ;;;
                       ret (Continue (snd r))) ;;
                  ret (y, memo')
              | CDict entries =>
                  y <- new_dict ;;
                  memo' <- for_each entries ((a, y) :: memo)
                    (fun memo '(key, value) =>
                       rk <- deepcopy_memo fuel' key memo ;;
                       rv <- deepcopy_memo fuel' value (snd rk) ;;
                       py_setitem y (fst rk) (fst rv) ;;;
                       ret (Continue (snd rv))) ;;
                  ret (y, memo')
              | CObj attrs =>
                  y <- alloc (CObj []) ;;
                  memo' <- for_each attrs ((a, y) :: memo)
                    (fun memo '(name, value) =>
                       rv <- deepcopy_memo fuel' value memo ;;
                       py_setattr y name (fst rv) ;;;
                       ret (Continue (snd rv))) ;;
                  ret (y, memo')
              end
          end
      | _ => ret (x, memo)
      end
  end.

Definition deepcopy (fuel : nat) (x : val) : M val :=
  r <- deepcopy_memo fuel x [] ;;
  ret (fst r).

(** ** The functions of [translator.py] *)

(** The interpreter's recursion limit, which bounds the depth reached by
    [deepcopy] and by [==] on nested containers. *)
Context (recursion_limit : nat).

(** A dict display [{'k1': v1, ...}] *)
Definition dict_of (l : list (string * val)) : M val :=
  alloc (CDict (map (fun kv => (VStr (fst kv), snd kv)) l)).

Definition is_str (v : val) (s : string) : bool := val_eqb v (VStr s).

Definition extract_variable_arg_to_atom_map (body_atoms : val) : M val :=
  body_atom_num <- py_len body_atoms ;;
  variable_arg_to_atom_map <- new_dict ;;
  for_range_ body_atom_num (fun atom_index =>
    atom <- py_getitem body_atoms (vnat atom_index) ;;
    atom_arg_list <- py_getitem atom (VStr "arg_list") ;;
    atom_arg_num <- py_len atom_arg_list ;;
    for_range_ atom_arg_num (fun arg_index =>
      arg <- py_getitem atom_arg_list (vnat arg_index) ;;
      arg_type <- py_getattr arg "type" ;;
      if negb (is_str arg_type "variable") then ret tt
      else
        arg_name <- py_getattr arg "name" ;;
        known <- py_contains arg_name variable_arg_to_atom_map ;;
        (if negb known then
           d <- new_dict ;;
           py_setitem variable_arg_to_atom_map arg_name d
         else ret tt) ;;;
        inner <- py_getitem variable_arg_to_atom_map arg_name ;;
        seen <- py_contains (vnat atom_index) inner ;;
        (if negb seen then
           l <- new_list ;;
           inner1 <- py_getitem variable_arg_to_atom_map arg_name ;;
           py_setitem inner1 (vnat atom_index) l
         else ret tt) ;;;
        inner2 <- py_getitem variable_arg_to_atom_map arg_name ;;
        positions <- py_getitem inner2 (vnat atom_index) ;;
        py_append positions (vnat arg_index))) ;;;
  ret variable_arg_to_atom_map.

Definition search_argument_mapping_in_body_atoms
    (variable_arg_to_atom_map var_name : val) : M val :=
  atom_index_to_arg_index_map <- py_getitem variable_arg_to_atom_map var_name ;;
  found <- py_for atom_index_to_arg_index_map None (fun _ atom_index =>
    arg_indices <- py_getitem atom_index_to_arg_index_map atom_index ;;
    inner <- py_for arg_indices None (fun _ arg_index =>
      d <- dict_of [("atom_index", atom_index); ("arg_index", arg_index)] ;;
      ret (Break (Some d))) ;;
    match inner with
    | Some d => ret (Break (Some d))
    | None => ret (Continue None)
    end) ;;
  match found with
  | Some d => ret d
  | None => ret VNone
  end.

(** The dict built for a math expression [{'lhs': _, 'rhs': _, 'op': _}]. *)
Definition math_expr_mapping (variable_arg_to_atom_map math_expr : val) : M val :=
  lhs_variable_arg_name <- py_getitem math_expr (VStr "lhs") ;;
  rhs_variable_arg_name <- py_getitem math_expr (VStr "rhs") ;;
  math_op <- py_getitem math_expr (VStr "op") ;;
  lhs_variable_arg_mapping <-
    search_argument_mapping_in_body_atoms variable_arg_to_atom_map lhs_variable_arg_name ;;
  rhs_variable_arg_mapping <-
    search_argument_mapping_in_body_atoms variable_arg_to_atom_map rhs_variable_arg_name ;;
  dict_of [("type", VStr "math_expr"); ("lhs_map", lhs_variable_arg_mapping);
           ("rhs_map", rhs_variable_arg_mapping); ("math_op", math_op)].

Definition extract_selection_map (head variable_arg_to_atom_map : val) : M val :=
  head_arg_list <- py_getitem head (VStr "arg_list") ;;
  head_arg_num <- py_len head_arg_list ;;
  head_arg_to_body_atom_arg_map <- new_dict ;;
  head_arg_type_map <- new_list ;;
  head_aggregation_map <- new_dict ;;
  for_range_ head_arg_num (fun arg_index =>
    head_arg <- py_getitem head_arg_list (vnat arg_index) ;;
    t1 <- py_getattr head_arg "type" ;;
    if is_str t1 "variable" then
      head_arg_name <- py_getattr head_arg "name" ;;
      py_append head_arg_type_map (VStr "var") ;;;
      m <- search_argument_mapping_in_body_atoms variable_arg_to_atom_map head_arg_name ;;
      py_setitem head_arg_to_body_atom_arg_map (vnat arg_index) m
    else
    t2 <- py_getattr head_arg "type" ;;
    if is_str t2 "aggregation" then
      name1 <- py_getattr head_arg "name" ;;
      head_arg_name <- py_getitem name1 (VStr "agg_arg") ;;
      py_append head_arg_type_map (VStr "agg") ;;;
      name2 <- py_getattr head_arg "name" ;;
      agg_op <- py_getitem name2 (VStr "agg_op") ;;
      py_setitem head_aggregation_map (vnat arg_index) agg_op ;;;
      k1 <- py_getitem head_arg_name (VStr "type") ;;
      if is_str k1 "attribute" then
        content <- py_getitem head_arg_name (VStr "content") ;;
        head_arg_to_body_arg_map <-
          search_argument_mapping_in_body_atoms variable_arg_to_atom_map content ;;
        d <- dict_of [("type", VStr "attribute"); ("map", head_arg_to_body_arg_map)] ;;
        py_setitem head_arg_to_body_atom_arg_map (vnat arg_index) d
      else
      k2 <- py_getitem head_arg_name (VStr "type") ;;
      if is_str k2 "math_expr" then
        math_expr <- py_getitem head_arg_name (VStr "content") ;;
        d <- math_expr_mapping variable_arg_to_atom_map math_expr ;;
        py_setitem head_arg_to_body_atom_arg_map (vnat arg_index) d
      else ret tt
    else
    t3 <- py_getattr head_arg "type" ;;
    if is_str t3 "math_expr" then
      py_append head_arg_type_map (VStr "math_expr") ;;;
      math_expr <- py_getattr head_arg "name" ;;
      d <- math_expr_mapping variable_arg_to_atom_map math_expr ;;
      py_setitem head_arg_to_body_atom_arg_map (vnat arg_index) d
    else
    t4 <- py_getattr head_arg "type" ;;
    if is_str t4 "constant" then
      py_append head_arg_type_map (VStr "constant") ;;;
      name <- py_getattr head_arg "name" ;;
      py_setitem head_arg_to_body_atom_arg_map (vnat arg_index) name
    else ret tt) ;;;
  dict_of [("head_arg_to_body_atom_arg_map", head_arg_to_body_atom_arg_map);
           ("head_arg_type_map", head_arg_type_map);
           ("head_aggregation_map", head_aggregation_map)].

Definition extract_join_map (variable_arg_to_atom_map : val) : M val :=
  join_map <- new_dict ;;
  py_for_ variable_arg_to_atom_map (fun var =>
    occ <- py_getitem variable_arg_to_atom_map var ;;
    atoms <- py_len occ ;;
    occ1 <- py_getitem variable_arg_to_atom_map var ;;
    join_on_var <- py_for occ1 (1 <? atoms) (fun join_on_var atom =>
      occ2 <- py_getitem variable_arg_to_atom_map var ;;
      arg_indices <- py_getitem occ2 atom ;;
      n <- py_len arg_indices ;;
      if 1 <? n then ret (Break true) else ret (Continue join_on_var)) ;;
    if join_on_var : bool then
      occ3 <- py_getitem variable_arg_to_atom_map var ;;
      py_setitem join_map var occ3
    else ret tt) ;;;
  ret join_map.

Definition extract_comparison_map (body_comparisons variable_arg_to_atom_map : val) : M val :=
  comparison_map <- new_dict ;;
  py_for_ body_comparisons (fun comparison =>
    lhs <- py_getitem comparison (VStr "lhs") ;;
    rhs <- py_getitem comparison (VStr "rhs") ;;
    lhs_arg <- py_getitem lhs (VInt 0) ;;
    rhs_arg <- py_getitem rhs (VInt 0) ;;
    lhs_arg_type <- py_getitem lhs (VInt 1) ;;
    rhs_arg_type <- py_getitem rhs (VInt 1) ;;
    if negb (is_str lhs_arg_type "var") && negb (is_str rhs_arg_type "var") then
      throw (Exception_ no_variable_side_message)
    else
      let '(base_side, base_var, compare_arg, compare_arg_type) :=
        if is_str lhs_arg_type "var"
        then ("l", lhs_arg, rhs_arg, rhs_arg_type)
        else ("r", rhs_arg, lhs_arg, lhs_arg_type) in
      arg_to_body_atom_arg_map <-
        search_argument_mapping_in_body_atoms variable_arg_to_atom_map base_var ;;
      mapped_atom_index <- py_getitem arg_to_body_atom_arg_map (VStr "atom_index") ;;
      mapped_arg_index <- py_getitem arg_to_body_atom_arg_map (VStr "arg_index") ;;
      known <- py_contains mapped_atom_index comparison_map ;;
      (if negb known then
         d <- new_dict ;;
         py_setitem comparison_map mapped_atom_index d
       else ret tt) ;;;
      inner <- py_getitem comparison_map mapped_atom_index ;;
      seen <- py_contains mapped_arg_index inner ;;
      (if negb seen then
         l <- new_list ;;
         inner1 <- py_getitem comparison_map mapped_atom_index ;;
         py_setitem inner1 mapped_arg_index l
       else ret tt) ;;;
      comparison_struct <- new_dict ;;
      py_setitem comparison_struct (VStr "base_variable_side") (VStr base_side) ;;;
      compare_op <- py_getitem comparison (VStr "op") ;;
      py_setitem comparison_struct (VStr "compare_op") compare_op ;;;
      (if is_str compare_arg_type "num" then
         py_setitem comparison_struct (VStr "other_side_type") (VStr "num") ;;;
         numerical_value <- py_float compare_arg ;;
         py_setitem comparison_struct (VStr "numerical_value") numerical_value
       else
         other_side_atom_arg_indices <-
           search_argument_mapping_in_body_atoms variable_arg_to_atom_map compare_arg ;;
         py_setitem comparison_struct (VStr "other_side_type") (VStr "var") ;;;
         a <- py_getitem other_side_atom_arg_indices (VStr "atom_index") ;;
         py_setitem comparison_struct (VStr "other_side_atom_index") a ;;;
         b <- py_getitem other_side_atom_arg_indices (VStr "arg_index") ;;
         py_setitem comparison_struct (VStr "other_side_arg_index") b) ;;;
      inner2 <- py_getitem comparison_map mapped_atom_index ;;
      records <- py_getitem inner2 mapped_arg_index ;;
      py_append records comparison_struct) ;;;
  ret comparison_map.

Definition extract_constant_constraint_map (body_atoms : val) : M val :=
  body_atom_num <- py_len body_atoms ;;
  constant_constraint_map <- new_dict ;;
  for_range_ body_atom_num (fun atom_index =>
    atom <- py_getitem body_atoms (vnat atom_index) ;;
    atom_arg_list <- py_getitem atom (VStr "arg_list") ;;
    atom_arg_num <- py_len atom_arg_list ;;
    for_range_ atom_arg_num (fun arg_index =>
      arg1 <- py_getitem atom_arg_list (vnat arg_index) ;;
      arg_type <- py_getattr arg1 "type" ;;
      arg2 <- py_getitem atom_arg_list (vnat arg_index) ;;
      arg_name <- py_getattr arg2 "name" ;;
      if is_str arg_type "constant" then
        known <- py_contains (vnat atom_index) constant_constraint_map ;;
        (if negb known then
           d <- new_dict ;;
           py_setitem constant_constraint_map (vnat atom_index) d
         else ret tt) ;;;
        inner <- py_getitem constant_constraint_map (vnat atom_index) ;;
        py_setitem inner (vnat arg_index) arg_name
      else ret tt)) ;;;
  ret constant_constraint_map.

Definition extract_negation_map (body_negation_atoms variable_arg_to_atom_map : val) : M val :=
  body_negation_num <- py_len body_negation_atoms ;;
  negation_map <- new_dict ;;
  anti_join_map <- new_dict ;;
  for_range_ body_negation_num (fun negation_index =>
    negation <- py_getitem body_negation_atoms (vnat negation_index) ;;
    negation_arg_list <- py_getitem negation (VStr "arg_list") ;;
    negation_arg_num <- py_len negation_arg_list ;;
    d <- new_dict ;;
    py_setitem negation_map (vnat negation_index) d ;;;
    negation_atom_map <- py_getitem negation_map (vnat negation_index) ;;
    for_range_ negation_arg_num (fun arg_index =>
      negation_arg <- py_getitem negation_arg_list (vnat arg_index) ;;
      negation_arg_name <- py_getattr negation_arg "name" ;;
      negation_arg_type <- py_getattr negation_arg "type" ;;
      e <- new_dict ;;
      py_setitem negation_atom_map (vnat arg_index) e ;;;
      e1 <- py_getitem negation_atom_map (vnat arg_index) ;;
      py_setitem e1 (VStr "arg_name") negation_arg_name ;;;
      e2 <- py_getitem negation_atom_map (vnat arg_index) ;;
      py_setitem e2 (VStr "arg_type") negation_arg_type)) ;;;
  py_for_ negation_map (fun negation_atom_index =>
    negation_atom_map <- py_getitem negation_map negation_atom_index ;;
    py_for_ negation_atom_map (fun arg_index =>
      e1 <- py_getitem negation_atom_map arg_index ;;
      arg_type <- py_getitem e1 (VStr "arg_type") ;;
      if is_str arg_type "variable" then
        e2 <- py_getitem negation_atom_map arg_index ;;
        arg_name <- py_getitem e2 (VStr "arg_name") ;;
        arg_to_body_atom_arg_map <-
          search_argument_mapping_in_body_atoms variable_arg_to_atom_map arg_name ;;
        match arg_to_body_atom_arg_map with
        | VNone => ret tt
        | _ =>
            known <- py_contains negation_atom_index anti_join_map ;;
            (if negb known then
               d <- new_dict ;;
               py_setitem anti_join_map negation_atom_index d
             else ret tt) ;;;
            inner <- py_getitem anti_join_map negation_atom_index ;;
            py_setitem inner arg_index arg_to_body_atom_arg_map
        end
      else ret tt)) ;;;
  dict_of [("negation_map", negation_map); ("anti_join_map", anti_join_map)].

(** ["{}_{}".format(atom['name'][0].lower(), naming_index)], with an
    optional fixed prefix. *)
Definition atom_alias (prefix : string) (atom : val) (naming_index : nat) : M val :=
  name <- py_getitem atom (VStr "name") ;;
  initial <- py_getitem name (VInt 0) ;;
  lowered <- py_lower initial ;;
  s1 <- py_str lowered ;;
  s2 <- py_str (vnat naming_index) ;;
  ret (VStr (prefix ++ s1 ++ "_" ++ s2)).

Definition build_atom_aliases (body_atoms : val) : M val :=
  body_atom_alias_list <- new_list ;;
  py_for body_atoms 0 (fun body_atom_naming_index atom =>
    alias <- atom_alias "" atom body_atom_naming_index ;;
    py_append body_atom_alias_list alias ;;;
    ret (Continue (body_atom_naming_index + 1))) ;;;
  ret body_atom_alias_list.

Definition build_negation_atom_aliases (negation_atoms : val) : M val :=
  negation_atom_aliases <- new_list ;;
  py_for negation_atoms 0 (fun negation_atom_naming_index negation_atom =>
    alias <- atom_alias "neg_" negation_atom negation_atom_naming_index ;;
    py_append negation_atom_aliases alias ;;;
    ret (Continue (negation_atom_naming_index + 1))) ;;;
  ret negation_atom_aliases.

Definition build_recursive_atom_aliases
    (body_atoms eval_idb_to_rule_maps iter_num : val) : M val :=
  body_atom_num <- py_len body_atoms ;;
  body_atom_eval_names <- new_list ;;
  idb_num <- py_for body_atoms 0 (fun idb_num atom =>
    name <- py_getitem atom (VStr "name") ;;
    is_idb <- py_contains name eval_idb_to_rule_maps ;;
    atom_alias_list <- new_list ;;
    py_append body_atom_eval_names atom_alias_list ;;;
    ret (Continue (if is_idb : bool then idb_num + 1 else idb_num))) ;;
  for_range_ body_atom_num (fun i =>
    atom <- py_getitem body_atoms (vnat i) ;;
    atom_name <- py_getitem atom (VStr "name") ;;
    atom_alias_list <- py_getitem body_atom_eval_names (vnat i) ;;
    is_idb <- py_contains atom_name eval_idb_to_rule_maps ;;
    if negb is_idb then
      d <- dict_of [("alias", atom_name); ("type", VStr "default")] ;;
      py_append atom_alias_list d
    else
      s <- py_str atom_name ;;
      let prev_idb_name := VStr (s ++ "_prev") in
      s' <- py_str atom_name ;;
      previous <- py_pred iter_num ;;
      n <- py_str previous ;;
      let delta_idb_name := VStr (s' ++ "_delta_" ++ n) in
      d1 <- dict_of [("alias", prev_idb_name); ("type", VStr "prev")] ;;
      py_append atom_alias_list d1 ;;;
      d2 <- dict_of [("alias", delta_idb_name); ("type", VStr "delta")] ;;
      py_append atom_alias_list d2) ;;;
  dict_of [("body_atom_eval_names", body_atom_eval_names); ("idb_num", vnat idb_num)].

Definition build_recursive_atom_alias_groups (body_atoms atom_aliases_map : val) : M val :=
  body_atom_num <- py_len body_atoms ;;
  body_atom_eval_names <- py_getitem atom_aliases_map (VStr "body_atom_eval_names") ;;
  idb_num <- py_getitem atom_aliases_map (VStr "idb_num") ;;
  atom_eval_name_groups <- new_list ;;
  for_range_ body_atom_num (fun atom_index =>
    atom_eval_names <- py_getitem body_atom_eval_names (vnat atom_index) ;;
    groups <- py_len atom_eval_name_groups ;;
    if groups =? 0 then
      py_for_ atom_eval_names (fun atom_eval_name =>
        group <- alloc (CList [atom_eval_name]) ;;
        py_append atom_eval_name_groups group)
    else
      names <- py_len atom_eval_names ;;
      if 1 <? names then
        names' <- py_len atom_eval_names ;;
        let group_increasing_factor := names' - 1 in
        groups_to_be_added <- new_list ;;
        for_range_ group_increasing_factor (fun i =>
          copy <- deepcopy recursion_limit atom_eval_name_groups ;;
          py_append groups_to_be_added copy) ;;;
        py_for_ atom_eval_name_groups (fun group =>
          first_name <- py_getitem atom_eval_names (VInt 0) ;;
          py_append group first_name) ;;;
        for_range_ group_increasing_factor (fun k =>
          copies <- py_getitem groups_to_be_added (vnat k) ;;
          py_for_ copies (fun group =>
            name_k <- py_getitem atom_eval_names (vnat (k + 1)) ;;
            py_append group name_k ;;;
            py_append atom_eval_name_groups group))
      else
        py_for_ atom_eval_name_groups (fun group =>
          first_name <- py_getitem atom_eval_names (VInt 0) ;;
          py_append group first_name)) ;;;
  py_for_ atom_eval_name_groups (fun group =>
    prev_count <- py_for group 0 (fun prev_count alias =>
      t <- py_getitem alias (VStr "type") ;;
      ret (Continue (if is_str t "prev" then prev_count + 1 else prev_count))) ;;
    if val_eqb (vnat prev_count) idb_num
    then py_list_remove recursion_limit atom_eval_name_groups group
    else ret tt) ;;;
  ret atom_eval_name_groups.
End Store.

Arguments Continue {St} s.
Arguments Break {St} s.
End Heap.

(** * Typed layer, continued: selection, constants and atom aliases *)

From Stdlib Require Import DecimalZ.

(** [for i in range(len(l)): x = l[i]; ...] with a body that may raise. *)
Definition for_range_result {St A : Type} (l : list A)
    (body : St -> nat -> A -> result St) (s : St) : result St :=
  fold_result
    (fun s i => match nth_error l i with Some x => body s i x | None => raise IndexError end)
    (seq 0 (List.length l)) s.

(** ** Head arguments *)

(** A math expression [{'lhs': _, 'rhs': _, 'op': _}]; both operands are
    looked up as variable names. *)
Module MathExpr.
Record t : Type := mk { lhs : string; rhs : string; op : string }.
End MathExpr.

(** [agg_arg['content']]: a variable name or a math expression. *)
Inductive agg_content : Type :=
| ContentName (var_name : string)
| ContentMath (math_expr : MathExpr.t).

(** [{'type': _, 'content': _}] *)
Module AggArg.
Record t : Type := mk { type : string; content : agg_content }.
End AggArg.

(** [{'agg_arg': _, 'agg_op': _}] *)
Module Aggregation.
Record t : Type := mk { agg_arg : AggArg.t; agg_op : string }.
End Aggregation.

(** [head_arg.name]: a string for a variable, a dictionary for an
    aggregation or a math expression, the text of the literal for a
    constant. *)
Inductive head_name : Type :=
| NameText (text : string)
| NameAggregation (aggregation : Aggregation.t)
| NameMath (math_expr : MathExpr.t).

Module HeadArg.
Record t : Type := mk { type : string; name : head_name }.
End HeadArg.

Module Head.
Record t : Type := mk { name : string; arg_list : list HeadArg.t }.
End Head.

(** A value of [head_arg_to_body_atom_arg_map]:
    - the resolver's answer for a variable;
    - [{'type': 'attribute', 'map': _}];
    - [{'type': 'math_expr', 'lhs_map': _, 'rhs_map': _, 'math_op': _}];
    - [head_arg.name] itself for a constant. *)
Inductive head_source : Type :=
| FromBody (mapping : option Mapping.t)
| FromAttribute (map : option Mapping.t)
| FromMath (lhs_map rhs_map : option Mapping.t) (math_op : string)
| FromConstant (name : head_name).

(** The returned dictionary. *)
Module SelectionMap.
Record t : Type := mk {
  head_arg_to_body_atom_arg_map : odict nat head_source;
  head_arg_type_map : list string;
  head_aggregation_map : odict nat string
}.
End SelectionMap.

(** The two look-ups made for a math expression. *)
Definition math_expr_source (variable_arg_to_atom_map : index) (math_expr : MathExpr.t)
  : result head_source :=
  let lhs_variable_arg_name := MathExpr.lhs math_expr in
  let rhs_variable_arg_name := MathExpr.rhs math_expr in
  let math_op := MathExpr.op math_expr in
  match search_argument_mapping_in_body_atoms variable_arg_to_atom_map lhs_variable_arg_name with
  | inl e => inl e
  | inr lhs_variable_arg_mapping =>
      match search_argument_mapping_in_body_atoms variable_arg_to_atom_map
              rhs_variable_arg_name with
      | inl e => inl e
      | inr rhs_variable_arg_mapping =>
          ok (FromMath lhs_variable_arg_mapping rhs_variable_arg_mapping math_op)
      end
  end.

(** One iteration of the loop over the head arguments.  Subscripting a
    string with a key, or using a dictionary as a key, is [TypeError];
    a dictionary without the key asked for is [KeyError]. *)
Definition select_head_argument (variable_arg_to_atom_map : index)
    (s : SelectionMap.t) (arg_index : nat) (head_arg : HeadArg.t) : result SelectionMap.t :=
  let m := SelectionMap.head_arg_to_body_atom_arg_map s in
  let types := SelectionMap.head_arg_type_map s in
  let aggs := SelectionMap.head_aggregation_map s in
  if (HeadArg.type head_arg =? "variable")%string then
    match HeadArg.name head_arg with
    | NameText head_arg_name =>
        match search_argument_mapping_in_body_atoms variable_arg_to_atom_map head_arg_name with
        | inl e => inl e
        | inr found =>
            ok (SelectionMap.mk (od_set arg_index (FromBody found) m) (types ++ ["var"]) aggs)
        end
    | _ => raise TypeError
    end
  else if (HeadArg.type head_arg =? "aggregation")%string then
    match HeadArg.name head_arg with
    | NameAggregation aggregation =>
        let head_arg_name := Aggregation.agg_arg aggregation in
        let types := types ++ ["agg"] in
        let aggs := od_set arg_index (Aggregation.agg_op aggregation) aggs in
        if (AggArg.type head_arg_name =? "attribute")%string then
          match AggArg.content head_arg_name with
          | ContentName var_name =>
              match search_argument_mapping_in_body_atoms variable_arg_to_atom_map var_name with
              | inl e => inl e
              | inr head_arg_to_body_arg_map =>
                  ok (SelectionMap.mk
                        (od_set arg_index (FromAttribute head_arg_to_body_arg_map) m)
                        types aggs)
              end
          | ContentMath _ => raise TypeError
          end
        else if (AggArg.type head_arg_name =? "math_expr")%string then
          match AggArg.content head_arg_name with
          | ContentMath math_expr =>
              match math_expr_source variable_arg_to_atom_map math_expr with
              | inl e => inl e
              | inr source => ok (SelectionMap.mk (od_set arg_index source m) types aggs)
              end
          | ContentName _ => raise TypeError
          end
        else ok (SelectionMap.mk m types aggs)
    | NameText _ => raise TypeError
    | NameMath _ => raise KeyError
    end
  else if (HeadArg.type head_arg =? "math_expr")%string then
    match HeadArg.name head_arg with
    | NameMath math_expr =>
        match math_expr_source variable_arg_to_atom_map math_expr with
        | inl e => inl e
        | inr source =>
            ok (SelectionMap.mk (od_set arg_index source m) (types ++ ["math_expr"]) aggs)
        end
    | NameText _ => raise TypeError
    | NameAggregation _ => raise KeyError
    end
  else if (HeadArg.type head_arg =? "constant")%string then
    ok (SelectionMap.mk (od_set arg_index (FromConstant (HeadArg.name head_arg)) m)
          (types ++ ["constant"]) aggs)
  else ok s.

Definition extract_selection_map (head : Head.t) (variable_arg_to_atom_map : index)
  : result SelectionMap.t :=
  for_range_result (Head.arg_list head)
    (select_head_argument variable_arg_to_atom_map)
    (SelectionMap.mk [] [] []).

(** ** Constant constraints *)

(** atom index -> argument index -> text of the constant *)
Definition constant_constraint_map_t : Type := odict nat (odict nat string).

Definition record_constant (atom_index arg_index : nat) (arg : Arg.t)
    (constant_constraint_map : constant_constraint_map_t) : constant_constraint_map_t :=
  let arg_type := Arg.type arg in
  let arg_name := Arg.name arg in
  if (arg_type =? "constant")%string then
    let m1 :=
      if negb (od_mem atom_index constant_constraint_map)
      then od_set atom_index [] constant_constraint_map else constant_constraint_map in
    od_modify atom_index (od_set arg_index arg_name) m1
  else constant_constraint_map.

Definition extract_constant_constraint_map (body_atoms : list Atom.t)
  : constant_constraint_map_t :=
  for_range body_atoms
    (fun atom_index atom constant_constraint_map =>
       for_range (Atom.arg_list atom)
         (fun arg_index arg m => record_constant atom_index arg_index arg m)
         constant_constraint_map)
    [].

(** ** Atom aliases *)

(** A text is held as the bytes of its UTF-8 encoding, in which the
    ASCII characters, and only they, are the bytes below 128. *)
Definition is_ascii (c : ascii) : bool := Nat.ltb (nat_of_ascii c) 128.

(** [name[0].lower()]; [None] is the [IndexError] of [name[0]] on an
    empty name.  When the first byte is below 128 it is the first
    character, and [str.lower] maps [A]-[Z] to [a]-[z] and every other
    ASCII character to itself.  Otherwise the first character is not an
    ASCII one and [str.lower] follows the Unicode tables (['É'] gives
    ['é'], the Kelvin sign gives ['k'], ['İ'] gives two characters):
    [unicode_lower name] stands for the text Python gives there. *)
Definition initial_lower (unicode_lower : string -> string) (name : string) : option string :=
  match name with
  | EmptyString => None
  | String c _ =>
      Some (if is_ascii c then String (Heap.lower_ascii c) EmptyString
            else unicode_lower name)
  end.

(** ["<prefix>{}_{}".format(atom['name'][0].lower(), naming_index)] *)
Definition atom_alias (unicode_lower : string -> string) (prefix : string) (atom : Atom.t)
    (naming_index : nat) : result string :=
  match initial_lower unicode_lower (Atom.name atom) with
  | None => raise IndexError
  | Some initial =>
      ok (prefix ++ initial ++ "_" ++ string_of_Z (Z.of_nat naming_index))%string
  end.

Definition build_atom_aliases (unicode_lower : string -> string) (body_atoms : list Atom.t)
  : result (list string) :=
  match
    fold_result
      (fun '(body_atom_alias_list, body_atom_naming_index) atom =>
         match atom_alias unicode_lower "" atom body_atom_naming_index with
         | inl e => inl e
         | inr alias => ok (body_atom_alias_list ++ [alias], body_atom_naming_index + 1)
         end)
      body_atoms ([], 0)
  with
  | inl e => inl e
  | inr (body_atom_alias_list, _) => ok body_atom_alias_list
  end.

Definition build_negation_atom_aliases (unicode_lower : string -> string)
    (negation_atoms : list Atom.t) : result (list string) :=
  match
    fold_result
      (fun '(negation_atom_aliases, negation_atom_naming_index) negation_atom =>
         match atom_alias unicode_lower "neg_" negation_atom negation_atom_naming_index with
         | inl e => inl e
         | inr alias => ok (negation_atom_aliases ++ [alias], negation_atom_naming_index + 1)
         end)
      negation_atoms ([], 0)
  with
  | inl e => inl e
  | inr (negation_atom_aliases, _) => ok negation_atom_aliases
  end.

(** * Typed layer, continued: [float] on integer literals *)

From Stdlib Require Import SpecFloat.

(** ** The builtin [float] in IEEE 754 binary64 *)

(** The text of a decimal integer literal: an optional sign followed by
    one or more of the digits [0]-[9].  The result is the sign and the
    magnitude. *)
Definition integer_literal (text : string) : option (bool * Z) :=
  match text with
  | String "-" digits =>
      option_map (fun d => (true, Z.of_uint d)) (NilZero.uint_of_string digits)
  | String "+" digits =>
      option_map (fun d => (false, Z.of_uint d)) (NilZero.uint_of_string digits)
  | _ => option_map (fun d => (false, Z.of_uint d)) (NilZero.uint_of_string text)
  end.

(** The integer a sign and a magnitude stand for. *)
Definition signed (negative : bool) (magnitude : Z) : Z :=
  if negative then (- magnitude)%Z else magnitude.

(** The binary64 number (53 bits of precision, exponents below 1024)
    nearest to an integer, a tie going to the even mantissa and a
    magnitude out of range to infinity; a zero keeps the sign written. *)
Definition nearest_double (negative : bool) (magnitude : Z) : spec_float :=
  binary_normalize 53 1024 (signed negative magnitude) 0 negative.

(** [float(text)].  CPython converts a decimal text to the nearest
    double, so on an integer literal the result is [nearest_double].
    The other texts [float] accepts (fractions, exponents, [inf], [nan],
    surrounding blanks, underscores between digits) or rejects with
    [ValueError] are left to [other], [None] being the [ValueError]. *)
Definition float_of_text (other : string -> option spec_float) (text : string)
  : option spec_float :=
  match integer_literal text with
  | Some (negative, magnitude) => Some (nearest_double negative magnitude)
  | None => other text
  end.

(** * Reference notions used in the statements *)

(** [for_range] written as a recursion over the list, the index counted
    from [j]. *)
Fixpoint fold_from {St A : Type} (j : nat) (l : list A) (body : nat -> A -> St -> St) (s : St) : St :=
  match l with
  | [] => s
  | x :: r => fold_from (S j) r body (body j x s)
  end.

(** [arg] is a variable-typed argument named [v]. *)
Definition is_variable (v : string) (arg : Arg.t) : bool :=
  ((Arg.type arg =? "variable") && (Arg.name arg =? v))%string.

(** Variable [v] stands at argument position [p] of body atom [a]. *)
Definition occurs_at (body_atoms : list Atom.t) (v : string) (a p : nat) : Prop :=
  exists atom arg,
    nth_error body_atoms a = Some atom /\
    nth_error (Atom.arg_list atom) p = Some arg /\
    Arg.type arg = "variable" /\ Arg.name arg = v.

(** The positions of [v] in an argument list, counted from [i]. *)
Fixpoint positions_from (v : string) (i : nat) (args : list Arg.t) : list nat :=
  match args with
  | [] => []
  | arg :: r =>
      if is_variable v arg then i :: positions_from v (S i) r
      else positions_from v (S i) r
  end.

(** The entry of atom [j] in the occurrence map of a variable. *)
Definition atom_entry (j : nat) (ps : list nat) : odict nat (list nat) :=
  match ps with
  | [] => []
  | _ => [(j, ps)]
  end.

(** The occurrence map of [v] over the atoms of a body, counted from [j]. *)
Fixpoint occurrences_from (v : string) (j : nat) (body_atoms : list Atom.t)
  : odict nat (list nat) :=
  match body_atoms with
  | [] => []
  | atom :: r =>
      atom_entry j (positions_from v 0 (Atom.arg_list atom)) ++ occurrences_from v (S j) r
  end.

(** What [d.get(k)] finds when the value stored for a present key is the
    non-empty map [occ]. *)
Definition lookup_of {A : Type} (occ : list A) : option (list A) :=
  match occ with
  | [] => None
  | _ => Some occ
  end.

(** [(a, p)] comes before or at [(a', p')] in the scan order. *)
Definition scan_le (a p a' p' : nat) : Prop := a < a' \/ (a = a' /\ p <= p').

Definition occ_or_empty (o : option (odict nat (list nat))) : odict nat (list nat) :=
  match o with
  | Some occ => occ
  | None => []
  end.

(** What indexing one argument does to the entry of a variable [v]. *)
Definition add_position (atom_index arg_index : nat) (inner : odict nat (list nat))
  : odict nat (list nat) :=
  od_modify atom_index (fun l => l ++ [arg_index])
    (if negb (od_mem atom_index inner) then od_set atom_index [] inner else inner).


(** The test [extract_join_map] applies to the occurrence map of a variable. *)
Definition needs_join (occ : odict nat (list nat)) : bool :=
  (1 <? od_len occ) || repeated_in_some_atom occ.

(** [v] appears in two different body atoms. *)
Definition in_several_atoms (body_atoms : list Atom.t) (v : string) : Prop :=
  exists a p a' p', a <> a' /\ occurs_at body_atoms v a p /\ occurs_at body_atoms v a' p'.

(** [v] appears at two different positions of one body atom. *)
Definition repeated_in_atom (body_atoms : list Atom.t) (v : string) : Prop :=
  exists a p p', p <> p' /\ occurs_at body_atoms v a p /\ occurs_at body_atoms v a p'.

(** [if k not in d: d[k] = <empty>] *)
Definition ensure {X : Type} (k : nat) (d : odict nat (list X)) : odict nat (list X) :=
  if negb (od_mem k d) then od_set k [] d else d.

Definition list_or_empty {X : Type} (o : option (list X)) : list X :=
  match o with
  | Some l => l
  | None => []
  end.

(** Sum of a measure over the values of a dictionary. *)
Definition total {K V : Type} (w : V -> nat) (d : odict K V) : nat :=
  list_sum (map (fun e => w (snd e)) d).

Section ComparisonNotions.
Context {F : Type}.

(** The records attached to argument [p] of atom [a]. *)
Definition records_at (m : comparison_map (F:=F)) (a p : nat) : list (comparison_struct (F:=F)) :=
  list_or_empty (od_get p (list_or_empty (od_get a m))).

(** The number of records held by a comparison map. *)
Definition record_count (m : comparison_map (F:=F)) : nat :=
  total (total (@List.length (comparison_struct (F:=F)))) m.

(** Appending record [r] at argument [p] of atom [a], the two levels being
    created when missing. *)
Definition add_record (a p : nat) (r : comparison_struct (F:=F))
    (m : comparison_map (F:=F)) : comparison_map (F:=F) :=
  od_modify a (od_modify p (fun l => l ++ [r])) (od_modify a (ensure p) (ensure a m)).

(** Neither operand of the comparison is tagged ['var']. *)
Definition no_variable_side (c : Comparison.t) : Prop :=
  snd (Comparison.lhs c) <> "var" /\ snd (Comparison.rhs c) <> "var".

(** The operand chosen as base, and the letter recorded for it. *)
Definition base_var (c : Comparison.t) : string :=
  if (snd (Comparison.lhs c) =? "var")%string
  then fst (Comparison.lhs c) else fst (Comparison.rhs c).

Definition base_side (c : Comparison.t) : string :=
  if (snd (Comparison.lhs c) =? "var")%string then "l" else "r".

(** An operand as the parser produces it: tagged ['var'] and naming a
    variable of the positive body, or tagged ['num'] and carrying text
    that [float] accepts. *)
Definition operand_ok (float : string -> option F) (body_atoms : list Atom.t)
    (operand : string * string) : Prop :=
  (snd operand = "var" /\ exists a p, occurs_at body_atoms (fst operand) a p) \/
  (snd operand = "num" /\ float (fst operand) <> None).

Definition comparison_ok (float : string -> option F) (body_atoms : list Atom.t)
    (c : Comparison.t) : Prop :=
  operand_ok float body_atoms (Comparison.lhs c) /\
  operand_ok float body_atoms (Comparison.rhs c).

(** The map holds a record for [c] at the position its base variable
    resolves to. *)
Definition covered (idx : index) (m : comparison_map (F:=F)) (c : Comparison.t) : Prop :=
  exists a p r,
    search_argument_mapping_in_body_atoms idx (base_var c) = ok (Some (Mapping.mk a p)) /\
    In r (records_at m a p) /\
    compare_op r = Comparison.op c /\
    base_variable_side r = base_side c.
End ComparisonNotions.

(** The negation map written as a function of the negated atoms. *)
Fixpoint negation_entries_from (j : nat) (args : list Arg.t) : odict nat NegArg.t :=
  match args with
  | [] => []
  | arg :: r => (j, NegArg.mk (Arg.name arg) (Arg.type arg)) :: negation_entries_from (S j) r
  end.

Fixpoint negation_map_from (i : nat) (atoms : list Atom.t) : negation_map_t :=
  match atoms with
  | [] => []
  | atom :: r => (i, negation_entries_from 0 (Atom.arg_list atom)) :: negation_map_from (S i) r
  end.

Section AliasNotions.
Context {R : Type}.

(** The candidate aliases of one body atom. *)
Definition alias_choices (eval_idb_to_rule_maps : odict string R) (iter_num : Z)
    (atom : Atom.t) : list Alias.t :=
  if od_mem (Atom.name atom) eval_idb_to_rule_maps then
    [Alias.mk (Atom.name atom ++ "_prev")%string "prev";
     Alias.mk (Atom.name atom ++ "_delta_" ++ string_of_Z (iter_num - 1))%string "delta"]
  else [Alias.mk (Atom.name atom) "default"].

(** The number of body atoms whose relation is being evaluated. *)
Definition idb_count (eval_idb_to_rule_maps : odict string R)
    (body_atoms : list Atom.t) : nat :=
  List.length (filter (fun atom => od_mem (Atom.name atom) eval_idb_to_rule_maps) body_atoms).

(** [group] assigns to every atom one of its candidate aliases. *)
Definition group_of (eval_idb_to_rule_maps : odict string R) (iter_num : Z)
    (body_atoms : list Atom.t) (group : list Alias.t) : Prop :=
  Forall2 (fun atom alias => In alias (alias_choices eval_idb_to_rule_maps iter_num atom))
    body_atoms group.

(** The state of the expansion after the atoms [done]: nothing yet, or
    [2 ^ k] groups of which the first alone has [k] aliases of type
    ['prev'], [k] being the number of evaluated atoms among [done]. *)
Definition expansion_state (eval_idb_to_rule_maps : odict string R) (iter_num : Z)
    (done : list Atom.t) (groups : list (list Alias.t)) : Prop :=
  (done = [] /\ groups = []) \/
  (done <> [] /\
   exists h t,
     groups = h :: t /\
     prev_count h = idb_count eval_idb_to_rule_maps done /\
     (forall g, In g t -> prev_count g < idb_count eval_idb_to_rule_maps done) /\
     List.length groups = 2 ^ idb_count eval_idb_to_rule_maps done /\
     (forall g, In g groups -> group_of eval_idb_to_rule_maps iter_num done g)).
End AliasNotions.

(** * Ownership typing of the cells a call allocates

    To show that a call leaves every object that existed before it
    untouched, the cells it allocates are given types.  The type of a cell
    is its kind together with the type of the values it holds; a value is
    either of unknown origin ([Any]) or a reference to a cell of the call
    with a known type ([Fresh]).  A write is allowed only through a [Fresh]
    reference. *)

Inductive kind : Type := KList | KDict | KObj.

Inductive ty : Type :=
| Any
| Fresh (k : kind) (t : ty).

(** The types of the cells allocated so far, in allocation order. *)
Definition env : Type := list (kind * ty).

Definition env_prefix (G G' : env) : Prop := exists D, G' = G ++ D.

Section StoreTyping.
Context {F : Type}.

Definition kind_of (c : Heap.cell (F:=F)) : kind :=
  match c with
  | Heap.CList _ => KList
  | Heap.CDict _ => KDict
  | Heap.CObj _ => KObj
  end.

(** The values a cell holds: elements, dict values, attribute values. *)
Definition children (c : Heap.cell (F:=F)) : list (Heap.val (F:=F)) :=
  match c with
  | Heap.CList items => items
  | Heap.CDict entries => map snd entries
  | Heap.CObj attrs => map snd attrs
  end.

(** The store in which the call starts. *)
Context (h0 : Heap.heap (F:=F)).

Definition has_type (G : env) (v : Heap.val (F:=F)) (t : ty) : Prop :=
  match t with
  | Any => True
  | Fresh k t' => exists i, v = Heap.VRef (List.length h0 + i) /\ nth_error G i = Some (k, t')
  end.

Definition cell_typed (G : env) (c : Heap.cell (F:=F)) (kt : kind * ty) : Prop :=
  kind_of c = fst kt /\ Forall (fun v => has_type G v (snd kt)) (children c).

(** The current store is the initial one followed by well-typed cells. *)
Definition extends (G : env) (h : Heap.heap (F:=F)) : Prop :=
  exists hf, h = h0 ++ hf /\ Forall2 (cell_typed G) hf G.

(** [m] keeps the store an extension of the initial one, raising or not,
    and its result satisfies [Q]. *)
Definition spec {A : Type} (G : env) (m : Heap.M (F:=F) A) (Q : env -> A -> Prop) : Prop :=
  forall h, extends G h ->
    exists G', env_prefix G G' /\ extends G' (fst (m h)) /\
               forall x, snd (m h) = inr x -> Q G' x.

(** [m] does not modify the store, and its result satisfies [P]. *)
Definition reads {A : Type} (G : env) (m : Heap.M (F:=F) A) (P : A -> Prop) : Prop :=
  forall h, extends G h -> fst (m h) = h /\ forall x, snd (m h) = inr x -> P x.

(** [m] modifies the store within its typing. *)
Definition writes {A : Type} (G : env) (m : Heap.M (F:=F) A) : Prop :=
  forall h, extends G h -> extends G (fst (m h)).

(** [m] never modifies the store. *)
Definition pure_read {A : Type} (m : Heap.M (F:=F) A) : Prop :=
  forall h, fst (m h) = h.

Definition control_state {St : Type} (c : Heap.control St) : St :=
  match c with
  | Heap.Continue s => s
  | Heap.Break s => s
  end.

(** The copies recorded by [deepcopy] have the type of their originals,
    and every recorded original is an existing cell. *)
Definition memo_ok (G : env) (memo : Heap.memo_t (F:=F)) : Prop :=
  forall a y, Heap.memo_get a memo = Some y ->
    a < List.length h0 + List.length G /\
    forall i kt, a = List.length h0 + i -> nth_error G i = Some kt ->
                 has_type G y (Fresh (fst kt) (snd kt)).

(** The type given to the copy of the cell at [a]: that of [a] when the
    call allocated it, unknown contents otherwise. *)
Definition copy_child_type (G : env) (a : nat) : ty :=
  if List.length h0 <=? a then
    match nth_error G (a - List.length h0) with
    | Some kt => snd kt
    | None => Any
    end
  else Any.
End StoreTyping.

(** Every cell of [h] is still there, unchanged, in [h']. *)
Definition unchanged {F : Type} (h h' : Heap.heap (F:=F)) : Prop :=
  exists hf, h' = h ++ hf.

(** * Reference notions, continued *)

(** Body atom [a] has the constant [c] at argument position [p]. *)
Definition constant_at (body_atoms : list Atom.t) (a p : nat) (c : string) : Prop :=
  exists atom arg,
    nth_error body_atoms a = Some atom /\
    nth_error (Atom.arg_list atom) p = Some arg /\
    Arg.type arg = "constant" /\ Arg.name arg = c.

(** The entry of key [j] in a two-level dictionary whose inner
    dictionaries are created on first use. *)
Definition sparse_entry {V : Type} (j : nat) (inner : odict nat V) : odict nat (odict nat V) :=
  match inner with
  | [] => []
  | _ => [(j, inner)]
  end.

Section Picked.
(** What is recorded for an element, if anything. *)
Context {A V : Type} (pick : A -> option V).

(** The recorded elements of a list with their positions, counted from [i]. *)
Fixpoint picked_from (i : nat) (l : list A) : odict nat V :=
  match l with
  | [] => []
  | x :: r =>
      match pick x with
      | Some v => (i, v) :: picked_from (S i) r
      | None => picked_from (S i) r
      end
  end.
End Picked.

Section SparseMaps.
(** What is recorded for an argument, if anything. *)
Context {V : Type} (pick : Arg.t -> option V).

(** One entry per atom that has a recorded argument, atoms counted from [j]. *)
Fixpoint sparse_map_from (j : nat) (atoms : list Atom.t) : odict nat (odict nat V) :=
  match atoms with
  | [] => []
  | atom :: r =>
      sparse_entry j (picked_from pick 0 (Atom.arg_list atom)) ++ sparse_map_from (S j) r
  end.
End SparseMaps.

(** The text recorded for a constant argument. *)
Definition pick_constant (arg : Arg.t) : option string :=
  if (Arg.type arg =? "constant")%string then Some (Arg.name arg) else None.

(** The pair recorded for a variable of a negated atom that the resolver
    finds. *)
Definition pick_anti_join (variable_arg_to_atom_map : index) (arg : Arg.t) : option Mapping.t :=
  if (Arg.type arg =? "variable")%string then
    match search_argument_mapping_in_body_atoms variable_arg_to_atom_map (Arg.name arg) with
    | inr (Some found) => Some found
    | _ => None
    end
  else None.

(** Some variable argument of the atoms is not a key of the index. *)
Definition unmatched_variable (atoms : list Atom.t) (variable_arg_to_atom_map : index) : Prop :=
  exists atom arg,
    In atom atoms /\ In arg (Atom.arg_list atom) /\
    Arg.type arg = "variable" /\ od_get (Arg.name arg) variable_arg_to_atom_map = None.

Definition unmatched_variableb (atoms : list Atom.t) (variable_arg_to_atom_map : index) : bool :=
  existsb
    (fun atom =>
       existsb
         (fun arg => (Arg.type arg =? "variable")%string
                     && negb (od_mem (Arg.name arg) variable_arg_to_atom_map))
         (Atom.arg_list atom))
    atoms.

(** [if i not in m: m[i] = dict()] followed by [m[i][j] = v]. *)
Definition put_entry {V : Type} (i j : nat) (v : V) (m : odict nat (odict nat V))
  : odict nat (odict nat V) :=
  od_modify i (od_set j v) (if negb (od_mem i m) then od_set i [] m else m).

(** The alias given to the atom numbered [i] whose relation name has the
    lower-cased first character [initial]. *)
Definition alias_text (prefix initial : string) (i : nat) : string :=
  (prefix ++ initial ++ "_" ++ string_of_Z (Z.of_nat i))%string.

(** The lower-cased first character of a name that starts with [c]. *)
Definition lowered (unicode_lower : string -> string) (c : ascii) (name : string) : string :=
  if is_ascii c then String (Heap.lower_ascii c) EmptyString else unicode_lower name.

(** The character does not occur in the text. *)
Fixpoint absent (c : ascii) (s : string) : Prop :=
  match s with
  | EmptyString => True
  | String c' s' => c' <> c /\ absent c s'
  end.

(** The loop shared by the two alias builders, from a given state. *)
Definition naming_loop (unicode_lower : string -> string) (prefix : string)
    (atoms : list Atom.t) (start : list string * nat) : result (list string * nat) :=
  fold_result
    (fun '(aliases, naming_index) atom =>
       match atom_alias unicode_lower prefix atom naming_index with
       | inl e => inl e
       | inr alias => ok (aliases ++ [alias], naming_index + 1)
       end)
    atoms start.

(** The operand compared with the base variable, and its tag. *)
Definition compare_arg (c : Comparison.t) : string :=
  if (snd (Comparison.lhs c) =? "var")%string
  then fst (Comparison.rhs c) else fst (Comparison.lhs c).

Definition compare_arg_type (c : Comparison.t) : string :=
  if (snd (Comparison.lhs c) =? "var")%string
  then snd (Comparison.rhs c) else snd (Comparison.lhs c).

(** [v] is a variable of the body. *)
Definition body_variable (body_atoms : list Atom.t) (v : string) : Prop :=
  exists a p, occurs_at body_atoms v a p.

(** The group holds an alias of type ['delta']. *)
Definition has_delta (group : list Alias.t) : Prop :=
  exists alias, In alias group /\ Alias.type alias = "delta".

(** The test of the removal loop. *)
Definition all_prev (idb_num : nat) (group : list Alias.t) : bool :=
  prev_count group =? idb_num.

(** No two neighbours of the list satisfy [q]. *)
Fixpoint no_adjacent {A : Type} (q : A -> bool) (l : list A) : bool :=
  match l with
  | [] => true
  | x :: r =>
      match r with
      | [] => true
      | y :: _ => negb (q x && q y) && no_adjacent q r
      end
  end.

(** The second, fourth, ... elements of a list. *)
Fixpoint odd_positions {A : Type} (l : list A) : list A :=
  match l with
  | [] => []
  | _ :: r =>
      match r with
      | [] => []
      | y :: r' => y :: odd_positions r'
      end
  end.

(** Every way of extending a group of [groups] by a candidate, candidate
    by candidate. *)
Definition extensions (groups : list (list Alias.t)) (choices : list Alias.t)
  : list (list Alias.t) :=
  flat_map (fun x => map (fun g => g ++ [x]) groups) choices.

(** The expansion after the atoms [done] holds every assignment of
    candidates to them, once. *)
Definition expansion_complete {R : Type} (eval_idb_to_rule_maps : odict string R)
    (iter_num : Z) (done : list Atom.t) (groups : list (list Alias.t)) : Prop :=
  NoDup groups /\
  (done = [] -> groups = []) /\
  (done <> [] ->
   groups <> [] /\
   forall g, group_of eval_idb_to_rule_maps iter_num done g -> In g groups).

(** [for_range_result] written as a recursion over the list, the index
    counted from [j]. *)
Fixpoint fold_result_from {St A : Type} (j : nat) (l : list A)
    (body : St -> nat -> A -> result St) (s : St) : result St :=
  match l with
  | [] => ok s
  | x :: r =>
      match body s j x with
      | inl e => inl e
      | inr s' => fold_result_from (S j) r body s'
      end
  end.

(** The tag appended to [head_arg_type_map] for a recognised argument type. *)
Definition type_tag (type : string) : option string :=
  if (type =? "variable")%string then Some "var"
  else if (type =? "aggregation")%string then Some "agg"
  else if (type =? "math_expr")%string then Some "math_expr"
  else if (type =? "constant")%string then Some "constant"
  else None.

Definition type_tags (head_arg : HeadArg.t) : list string :=
  match type_tag (HeadArg.type head_arg) with
  | Some tag => [tag]
  | None => []
  end.

(** The operator recorded in [head_aggregation_map] for an aggregation. *)
Definition pick_aggregation (head_arg : HeadArg.t) : option string :=
  if (HeadArg.type head_arg =? "aggregation")%string then
    match HeadArg.name head_arg with
    | NameAggregation aggregation => Some (Aggregation.agg_op aggregation)
    | _ => None
    end
  else None.

(** A head argument as the parser produces it, with the variable names it
    refers to. *)
Inductive head_arg_shape : HeadArg.t -> list string -> Prop :=
| ShapeVariable v :
    head_arg_shape (HeadArg.mk "variable" (NameText v)) [v]
| ShapeAttribute v agg_op :
    head_arg_shape
      (HeadArg.mk "aggregation"
         (NameAggregation (Aggregation.mk (AggArg.mk "attribute" (ContentName v)) agg_op)))
      [v]
| ShapeAggregatedMath math_expr agg_op :
    head_arg_shape
      (HeadArg.mk "aggregation"
         (NameAggregation
            (Aggregation.mk (AggArg.mk "math_expr" (ContentMath math_expr)) agg_op)))
      [MathExpr.lhs math_expr; MathExpr.rhs math_expr]
| ShapeMath math_expr :
    head_arg_shape (HeadArg.mk "math_expr" (NameMath math_expr))
      [MathExpr.lhs math_expr; MathExpr.rhs math_expr]
| ShapeConstant name :
    head_arg_shape (HeadArg.mk "constant" name) [].

(** What [head_arg_to_body_atom_arg_map] holds for a head argument whose
    variables the resolver finds. *)
Inductive selected (variable_arg_to_atom_map : index) : HeadArg.t -> head_source -> Prop :=
| SelectedVariable v found :
    search_argument_mapping_in_body_atoms variable_arg_to_atom_map v = ok (Some found) ->
    selected variable_arg_to_atom_map
      (HeadArg.mk "variable" (NameText v)) (FromBody (Some found))
| SelectedAttribute v agg_op found :
    search_argument_mapping_in_body_atoms variable_arg_to_atom_map v = ok (Some found) ->
    selected variable_arg_to_atom_map
      (HeadArg.mk "aggregation"
         (NameAggregation (Aggregation.mk (AggArg.mk "attribute" (ContentName v)) agg_op)))
      (FromAttribute (Some found))
| SelectedAggregatedMath math_expr agg_op found_lhs found_rhs :
    search_argument_mapping_in_body_atoms variable_arg_to_atom_map (MathExpr.lhs math_expr)
      = ok (Some found_lhs) ->
    search_argument_mapping_in_body_atoms variable_arg_to_atom_map (MathExpr.rhs math_expr)
      = ok (Some found_rhs) ->
    selected variable_arg_to_atom_map
      (HeadArg.mk "aggregation"
         (NameAggregation
            (Aggregation.mk (AggArg.mk "math_expr" (ContentMath math_expr)) agg_op)))
      (FromMath (Some found_lhs) (Some found_rhs) (MathExpr.op math_expr))
| SelectedMath math_expr found_lhs found_rhs :
    search_argument_mapping_in_body_atoms variable_arg_to_atom_map (MathExpr.lhs math_expr)
      = ok (Some found_lhs) ->
    search_argument_mapping_in_body_atoms variable_arg_to_atom_map (MathExpr.rhs math_expr)
      = ok (Some found_rhs) ->
    selected variable_arg_to_atom_map
      (HeadArg.mk "math_expr" (NameMath math_expr))
      (FromMath (Some found_lhs) (Some found_rhs) (MathExpr.op math_expr))
| SelectedConstant name :
    selected variable_arg_to_atom_map (HeadArg.mk "constant" name) (FromConstant name).

(** The values [l] under the keys [j], [j + 1], ... *)
Fixpoint indexed_from {V : Type} (j : nat) (l : list V) : odict nat V :=
  match l with
  | [] => []
  | v :: r => (j, v) :: indexed_from (S j) r
  end.

(** The store reached by a computation is the store [h] before the call
    followed by one dictionary, each of whose values is the value the
    dictionary [entries] holds under the same key. *)
Definition shares_with {F A : Type} (float_of_int : Z -> F) (float_eqb : F -> F -> bool)
    (h : Heap.heap (F:=F)) (entries : list (Heap.val (F:=F) * Heap.val (F:=F)))
    (run : Heap.heap (F:=F) * result A) : Prop :=
  exists joined,
    fst run = h ++ [Heap.CDict joined] /\
    forall k v, In (k, v) joined ->
      Heap.entries_get float_of_int float_eqb k entries = Some v.

(** The body of the loop of [Heap.extract_join_map], for one key [var]. *)
Definition join_map_iteration {F : Type} (float_of_int : Z -> F) (float_eqb : F -> F -> bool)
    (variable_arg_to_atom_map join_map var : Heap.val (F:=F)) : Heap.M (F:=F) unit :=
  Heap.bind (Heap.py_getitem float_of_int float_eqb variable_arg_to_atom_map var) (fun occ =>
  Heap.bind (Heap.py_len occ) (fun atoms =>
  Heap.bind (Heap.py_getitem float_of_int float_eqb variable_arg_to_atom_map var) (fun occ1 =>
  Heap.bind
    (Heap.py_for float_of_int float_eqb occ1 (1 <? atoms) (fun join_on_var atom =>
       Heap.bind (Heap.py_getitem float_of_int float_eqb variable_arg_to_atom_map var)
         (fun occ2 =>
       Heap.bind (Heap.py_getitem float_of_int float_eqb occ2 atom) (fun arg_indices =>
       Heap.bind (Heap.py_len arg_indices) (fun n =>
       if 1 <? n then Heap.ret (Heap.Break true)
       else Heap.ret (Heap.Continue join_on_var))))))
    (fun join_on_var : bool =>
       if join_on_var then
         Heap.bind (Heap.py_getitem float_of_int float_eqb variable_arg_to_atom_map var)
           (fun occ3 => Heap.py_setitem float_of_int float_eqb join_map var occ3)
       else Heap.ret tt)))).

(** The names of the variable arguments of a body, in scan order. *)
Definition variable_names (body_atoms : list Atom.t) : list string :=
  flat_map
    (fun atom =>
       map Arg.name
         (filter (fun arg => (Arg.type arg =? "variable")%string) (Atom.arg_list atom)))
    body_atoms.

(** A name joins the end of the list the first time it is met. *)
Definition add_key (keys : list string) (v : string) : list string :=
  if existsb (String.eqb v) keys then keys else keys ++ [v].

Definition first_occurrences (names : list string) : list string :=
  fold_left add_key names [].

(** ** Reference definitions for the numerical value *)

(** The integer a double is equal to, when it is equal to one. *)
Definition integer_value (x : spec_float) : option Z :=
  match x with
  | S754_zero _ => Some 0%Z
  | S754_finite s m e =>
      let n := if s then Zneg m else Zpos m in
      if (0 <=? e)%Z then Some (n * 2 ^ e)%Z
      else if (n mod 2 ^ (- e) =? 0)%Z then Some (n / 2 ^ (- e))%Z else None
  | _ => None
  end.

(** * Properties of the typed layer *)

(** ** Dictionaries *)

Section OrderedDictFacts.
Context {K V : Type} `{Key K}.
Implicit Types (d : odict K V) (k : K) (v : V).

Lemma key_eqb_refl k : key_eqb k k = true.
Proof. destruct (key_eqb_spec k k); congruence. Qed.

Lemma key_eqb_neq k k' : k <> k' -> key_eqb k k' = false.
Proof. intros Hn. destruct (key_eqb_spec k k'); congruence. Qed.

Lemma od_get_app d1 d2 k :
  od_get k (d1 ++ d2) =
  match od_get k d1 with Some v => Some v | None => od_get k d2 end.
Proof.
  induction d1 as [|[k' v'] d1 IH]; simpl; [reflexivity|].
  destruct (key_eqb k k'); auto.
Qed.

Lemma od_get_In d k v : od_get k d = Some v -> In (k, v) d.
Proof.
  induction d as [|[k' v'] d IH]; simpl; [discriminate|].
  destruct (key_eqb_spec k k') as [->|Hne].
  - intros [= ->]. now left.
  - intros Hg. right. auto.
Qed.

Lemma od_get_None d k : od_get k d = None <-> ~ In k (od_keys d).
Proof.
  induction d as [|[k' v'] d IH]; simpl.
  - split; auto.
  - destruct (key_eqb_spec k k') as [->|Hne].
    + split; [discriminate|]. intros Hn. exfalso. apply Hn. now left.
    + rewrite IH. split.
      * intros Hn [He|Hi]; [congruence | auto].
      * intros Hn Hi. apply Hn. now right.
Qed.

Lemma od_get_Some_keys d k v : od_get k d = Some v -> In k (od_keys d).
Proof.
  intros Hg. apply od_get_In in Hg. apply in_map_iff. exists (k, v). auto.
Qed.

Lemma od_keys_get d k : In k (od_keys d) -> exists v, od_get k d = Some v.
Proof.
  intros Hi. destruct (od_get k d) eqn:E; eauto.
  apply od_get_None in E. contradiction.
Qed.

Lemma In_od_get d k v : od_wf d -> In (k, v) d -> od_get k d = Some v.
Proof.
  unfold od_wf, od_keys. induction d as [|[k' v'] d IH]; simpl; [tauto|].
  intros Hnd [He|Hi].
  - inversion He; subst. now rewrite key_eqb_refl.
  - inversion Hnd as [|? ? Hni Hnd']; subst.
    destruct (key_eqb_spec k k') as [->|Hne].
    + exfalso. apply Hni. apply in_map_iff. exists (k', v). auto.
    + auto.
Qed.

Lemma od_mem_true d k : od_mem k d = true <-> In k (od_keys d).
Proof.
  unfold od_mem. destruct (od_get k d) eqn:E.
  - split; auto. intros _. eapply od_get_Some_keys; eauto.
  - split; [discriminate|]. intros Hi. apply od_get_None in E. contradiction.
Qed.

Lemma od_mem_false d k : od_mem k d = false <-> od_get k d = None.
Proof. unfold od_mem. destruct (od_get k d); split; congruence. Qed.

Lemma od_set_absent d k v : od_get k d = None -> od_set k v d = d ++ [(k, v)].
Proof.
  induction d as [|[k' v'] d IH]; simpl; [reflexivity|].
  destruct (key_eqb k k'); [discriminate|]. intros Hg. now rewrite IH.
Qed.

Lemma od_get_set d k k' v :
  od_get k' (od_set k v d) = if key_eqb k' k then Some v else od_get k' d.
Proof.
  induction d as [|[k0 v0] d IH]; simpl.
  - reflexivity.
  - destruct (key_eqb_spec k k0) as [->|Hne]; simpl.
    + destruct (key_eqb k' k0); reflexivity.
    + rewrite IH. destruct (key_eqb_spec k' k0) as [->|Hne'].
      * rewrite key_eqb_neq by congruence. reflexivity.
      * reflexivity.
Qed.

Lemma od_get_modify d k k' f :
  od_get k' (od_modify k f d) =
  if key_eqb k' k then option_map f (od_get k' d) else od_get k' d.
Proof.
  induction d as [|[k0 v0] d IH]; simpl.
  - destruct (key_eqb k' k); reflexivity.
  - destruct (key_eqb_spec k k0) as [->|Hne]; simpl.
    + destruct (key_eqb k' k0); reflexivity.
    + rewrite IH. destruct (key_eqb_spec k' k0) as [->|Hne'].
      * rewrite key_eqb_neq by congruence. reflexivity.
      * reflexivity.
Qed.

Lemma od_modify_absent d k f : od_get k d = None -> od_modify k f d = d.
Proof.
  induction d as [|[k' v'] d IH]; simpl; [reflexivity|].
  destruct (key_eqb k k'); [discriminate|]. intros Hg. now rewrite IH.
Qed.

Lemma od_modify_app_last d k v f :
  od_get k d = None -> od_modify k f (d ++ [(k, v)]) = d ++ [(k, f v)].
Proof.
  induction d as [|[k' v'] d IH]; simpl.
  - now rewrite key_eqb_refl.
  - destruct (key_eqb k k'); [discriminate|]. intros Hg. now rewrite IH.
Qed.

Lemma od_keys_set d k v :
  od_keys (od_set k v d) = if od_mem k d then od_keys d else od_keys d ++ [k].
Proof.
  unfold od_mem, od_keys. induction d as [|[k' v'] d IH]; simpl; [reflexivity|].
  destruct (key_eqb k k'); simpl; [reflexivity|].
  rewrite IH. destruct (od_get k d); reflexivity.
Qed.

Lemma od_keys_modify d k f : od_keys (od_modify k f d) = od_keys d.
Proof.
  unfold od_keys. induction d as [|[k' v'] d IH]; simpl; [reflexivity|].
  destruct (key_eqb k k'); simpl; congruence.
Qed.

Lemma od_wf_set d k v : od_wf d -> od_wf (od_set k v d).
Proof.
  unfold od_wf. rewrite od_keys_set. intros Hnd.
  destruct (od_mem k d) eqn:E; [assumption|].
  apply od_mem_false, od_get_None in E.
  apply NoDup_app; repeat split; auto.
  - constructor; [simpl; tauto | constructor].
  - intros x Hx [<-|[]]. contradiction.
Qed.

Lemma od_wf_modify d k f : od_wf d -> od_wf (od_modify k f d).
Proof. unfold od_wf. now rewrite od_keys_modify. Qed.
End OrderedDictFacts.

(** ** Loops over [range(len(l))] *)

Lemma for_range_shift {St A : Type} (body : nat -> A -> St -> St) (l pre : list A) (s : St) :
  fold_left
    (fun s i => match nth_error (pre ++ l) i with Some x => body i x s | None => s end)
    (seq (List.length pre) (List.length l)) s
  = fold_from (List.length pre) l body s.
Proof.
  revert pre s. induction l as [|x r IH]; intros pre s; simpl; [reflexivity|].
  rewrite nth_error_app2 by lia. rewrite Nat.sub_diag. simpl.
  specialize (IH (pre ++ [x]) (body (List.length pre) x s)).
  rewrite <- app_assoc in IH. simpl in IH.
  rewrite length_app in IH. simpl in IH. rewrite Nat.add_1_r in IH.
  exact IH.
Qed.

Lemma for_range_fold_from {St A : Type} (l : list A) (body : nat -> A -> St -> St) (s : St) :
  for_range l body s = fold_from 0 l body s.
Proof. exact (for_range_shift body l [] s). Qed.

(** ** The variable-occurrence index *)

Lemma is_variable_true v arg :
  is_variable v arg = true <-> Arg.type arg = "variable" /\ Arg.name arg = v.
Proof.
  unfold is_variable. rewrite andb_true_iff, !String.eqb_eq. tauto.
Qed.

Lemma occ_or_empty_lookup_of (occ : odict nat (list nat)) :
  occ_or_empty (lookup_of occ) = occ.
Proof. destruct occ; reflexivity. Qed.

Lemma lookup_of_snoc {A} (occ : list A) x : lookup_of (occ ++ [x]) = Some (occ ++ [x]).
Proof. destruct occ; reflexivity. Qed.

Lemma index_argument_get v atom_index arg_index arg m :
  od_get v (index_argument atom_index arg_index arg m) =
  if is_variable v arg
  then Some (add_position atom_index arg_index (occ_or_empty (od_get v m)))
  else od_get v m.
Proof.
  unfold index_argument, is_variable.
  destruct (Arg.type arg =? "variable")%string eqn:Et; simpl; [|reflexivity].
  rewrite !od_get_modify.
  change (key_eqb v (Arg.name arg)) with (v =? Arg.name arg)%string.
  rewrite (String.eqb_sym (Arg.name arg) v).
  destruct (String.eqb_spec v (Arg.name arg)) as [->|Hne].
  - unfold od_mem. destruct (od_get (Arg.name arg) m) as [o|] eqn:Eg; simpl.
    + rewrite Eg. reflexivity.
    + rewrite od_get_set. simpl. rewrite String.eqb_refl. reflexivity.
  - destruct (negb (od_mem (Arg.name arg) m)); [|reflexivity].
    rewrite od_get_set.
    change (key_eqb v (Arg.name arg)) with (v =? Arg.name arg)%string.
    destruct (String.eqb_spec v (Arg.name arg)); [contradiction|reflexivity].
Qed.

Lemma add_position_new occ j p :
  od_get j occ = None -> add_position j p occ = occ ++ [(j, [p])].
Proof.
  intros Hg. unfold add_position, od_mem. rewrite Hg. simpl.
  rewrite od_set_absent by assumption. now rewrite od_modify_app_last.
Qed.

Lemma add_position_last occ j ps p :
  od_get j occ = None -> add_position j p (occ ++ [(j, ps)]) = occ ++ [(j, ps ++ [p])].
Proof.
  intros Hg. unfold add_position, od_mem.
  rewrite od_get_app, Hg. simpl. rewrite Nat.eqb_refl. simpl.
  now rewrite od_modify_app_last.
Qed.

Lemma add_position_entry occ j ps p :
  od_get j occ = None ->
  add_position j p (occ ++ atom_entry j ps) = occ ++ [(j, ps ++ [p])].
Proof.
  intros Hg. destruct ps as [|q ps]; simpl.
  - rewrite app_nil_r. now apply add_position_new.
  - now apply add_position_last.
Qed.

Lemma atom_entry_snoc j ps p : atom_entry j (ps ++ [p]) = [(j, ps ++ [p])].
Proof. destruct ps; reflexivity. Qed.

(** The inner loop, over the arguments of atom [j]. *)
Lemma index_arguments_get v j args : forall i (m : index) (occ : odict nat (list nat)) ps,
  od_get j occ = None ->
  od_get v m = lookup_of (occ ++ atom_entry j ps) ->
  od_get v (fold_from i args (index_argument j) m) =
  lookup_of (occ ++ atom_entry j (ps ++ positions_from v i args)).
Proof.
  induction args as [|arg r IH]; intros i m occ ps Hj Hm; simpl.
  - now rewrite app_nil_r.
  - destruct (is_variable v arg) eqn:Ev.
    + replace (ps ++ i :: positions_from v (S i) r)
        with ((ps ++ [i]) ++ positions_from v (S i) r)
        by (rewrite <- app_assoc; reflexivity).
      apply IH; [assumption|].
      rewrite index_argument_get, Ev, Hm, occ_or_empty_lookup_of.
      rewrite add_position_entry by assumption.
      now rewrite atom_entry_snoc, lookup_of_snoc.
    + apply IH; [assumption|].
      now rewrite index_argument_get, Ev.
Qed.

Lemma od_get_above (occ : odict nat (list nat)) j :
  (forall k, In k (od_keys occ) -> k < j) -> od_get j occ = None.
Proof.
  intros Hlt. apply od_get_None. intros Hi. apply Hlt in Hi. lia.
Qed.

Lemma atom_entry_keys j ps k : In k (od_keys (atom_entry j ps)) -> k = j.
Proof. destruct ps; simpl; [tauto|]. intros [->|[]]. reflexivity. Qed.

(** The outer loop, over the atoms from index [j] on. *)
Lemma index_atoms_get v body_atoms : forall j (m : index) (occ : odict nat (list nat)),
  (forall k, In k (od_keys occ) -> k < j) ->
  od_get v m = lookup_of occ ->
  od_get v
    (fold_from j body_atoms
       (fun atom_index atom m =>
          for_range (Atom.arg_list atom)
            (fun arg_index arg m => index_argument atom_index arg_index arg m) m)
       m) =
  lookup_of (occ ++ occurrences_from v j body_atoms).
Proof.
  induction body_atoms as [|atom r IH]; intros j m occ Hlt Hm; simpl.
  - now rewrite app_nil_r.
  - rewrite app_assoc. apply IH.
    + intros k Hk. unfold od_keys in Hk. rewrite map_app in Hk.
      apply in_app_or in Hk. destruct Hk as [Hk|Hk].
      * apply Hlt in Hk. lia.
      * apply atom_entry_keys in Hk. lia.
    + rewrite for_range_fold_from.
      apply (index_arguments_get v j (Atom.arg_list atom) 0 m occ []).
      * now apply od_get_above.
      * simpl. now rewrite app_nil_r.
Qed.

(** The entry of every name in the index built from a body. *)
Lemma extract_variable_arg_to_atom_map_get body_atoms v :
  od_get v (extract_variable_arg_to_atom_map body_atoms) =
  lookup_of (occurrences_from v 0 body_atoms).
Proof.
  unfold extract_variable_arg_to_atom_map. rewrite for_range_fold_from.
  apply (index_atoms_get v body_atoms 0 [] []); simpl; tauto.
Qed.

(** ** Positions and occurrence maps *)

Lemma positions_from_In v args : forall i p,
  In p (positions_from v i args) <->
  i <= p /\ exists arg, nth_error args (p - i) = Some arg /\ is_variable v arg = true.
Proof.
  induction args as [|arg r IH]; intros i p; simpl.
  - split; [tauto|]. intros [_ [arg [Hn _]]]. destruct (p - i); discriminate.
  - assert (Hr : In p (positions_from v (S i) r) <->
                 i < p /\ exists arg', nth_error (arg :: r) (p - i) = Some arg'
                                       /\ is_variable v arg' = true).
    { rewrite IH. split.
      - intros [Hle [arg' [Hn Hv]]]. split; [lia|]. exists arg'. split; [|assumption].
        replace (p - i) with (S (p - S i)) by lia. exact Hn.
      - intros [Hlt [arg' [Hn Hv]]]. split; [lia|]. exists arg'. split; [|assumption].
        replace (p - i) with (S (p - S i)) in Hn by lia. exact Hn. }
    destruct (is_variable v arg) eqn:Ev; simpl; rewrite ?Hr.
    + split.
      * intros [<-|[Hlt Hex]]; [|split; [lia|assumption]].
        split; [lia|]. exists arg. rewrite Nat.sub_diag. auto.
      * intros [Hle Hex]. destruct (Nat.eq_dec i p) as [->|Hne]; [now left|].
        right. split; [lia|assumption].
    + split.
      * intros [Hlt Hex]. split; [lia|assumption].
      * intros [Hle [arg' [Hn Hv]]].
        destruct (Nat.eq_dec i p) as [->|Hne].
        -- rewrite Nat.sub_diag in Hn. simpl in Hn. congruence.
        -- split; [lia|]. eauto.
Qed.

Lemma positions_from_lower v args i p : In p (positions_from v i args) -> i <= p.
Proof. intros Hi. now apply positions_from_In in Hi. Qed.

Lemma positions_from_sorted v args : forall i, StronglySorted lt (positions_from v i args).
Proof.
  induction args as [|arg r IH]; intros i; simpl; [constructor|].
  destruct (is_variable v arg); [|apply IH].
  constructor; [apply IH|].
  apply Forall_forall. intros p Hp. apply positions_from_lower in Hp. lia.
Qed.

Lemma occurrences_from_In v body_atoms : forall j a ps,
  In (a, ps) (occurrences_from v j body_atoms) <->
  j <= a /\ ps <> [] /\
  exists atom, nth_error body_atoms (a - j) = Some atom /\
               ps = positions_from v 0 (Atom.arg_list atom).
Proof.
  induction body_atoms as [|atom r IH]; intros j a ps; simpl.
  - split; [tauto|]. intros [_ [_ [atom [Hn _]]]]. destruct (a - j); discriminate.
  - rewrite in_app_iff, IH. split.
    + intros [Hin|[Hle [Hne [atom' [Hn Hps]]]]].
      * destruct (positions_from v 0 (Atom.arg_list atom)) as [|q qs] eqn:Ep;
          simpl in Hin; [tauto|].
        destruct Hin as [[= <- <-]|[]].
        split; [lia|]. split; [discriminate|].
        exists atom. rewrite Nat.sub_diag. auto.
      * split; [lia|]. split; [assumption|]. exists atom'. split; [|assumption].
        replace (a - j) with (S (a - S j)) by lia. exact Hn.
    + intros [Hle [Hne [atom' [Hn Hps]]]].
      destruct (Nat.eq_dec j a) as [->|Hja].
      * left. rewrite Nat.sub_diag in Hn. simpl in Hn. injection Hn as <-.
        rewrite <- Hps. destruct ps; [congruence|]. simpl. now left.
      * right. split; [lia|]. split; [assumption|]. exists atom'. split; [|assumption].
        replace (a - j) with (S (a - S j)) in Hn by lia. exact Hn.
Qed.

Lemma occurrences_from_keys_lower v body_atoms j a :
  In a (od_keys (occurrences_from v j body_atoms)) -> j <= a.
Proof.
  unfold od_keys. intros Hi. apply in_map_iff in Hi.
  destruct Hi as [[a' ps] [<- Hin]]. now apply occurrences_from_In in Hin.
Qed.

Lemma occurrences_from_keys_sorted v body_atoms : forall j,
  StronglySorted lt (od_keys (occurrences_from v j body_atoms)).
Proof.
  induction body_atoms as [|atom r IH]; intros j; simpl; [constructor|].
  unfold od_keys. rewrite map_app.
  destruct (positions_from v 0 (Atom.arg_list atom)); simpl; [apply IH|].
  constructor; [apply IH|].
  apply Forall_forall. intros a Ha.
  apply (occurrences_from_keys_lower v r (S j)) in Ha. lia.
Qed.

Lemma sorted_lt_NoDup (l : list nat) : StronglySorted lt l -> NoDup l.
Proof.
  induction 1 as [|x l Hs IH Hall]; constructor; [|assumption].
  intros Hin. rewrite Forall_forall in Hall. apply Hall in Hin. lia.
Qed.

Lemma occurrences_from_wf v body_atoms j : od_wf (occurrences_from v j body_atoms).
Proof. apply sorted_lt_NoDup, occurrences_from_keys_sorted. Qed.

Lemma occurs_at_positions body_atoms v a p :
  occurs_at body_atoms v a p <->
  exists atom, nth_error body_atoms a = Some atom /\
               In p (positions_from v 0 (Atom.arg_list atom)).
Proof.
  unfold occurs_at. split.
  - intros [atom [arg [Ha [Hp [Ht Hn]]]]]. exists atom. split; [assumption|].
    apply positions_from_In. split; [lia|]. exists arg. rewrite Nat.sub_0_r.
    split; [assumption|]. apply is_variable_true. auto.
  - intros [atom [Ha Hin]]. apply positions_from_In in Hin.
    destruct Hin as [_ [arg [Hp Hv]]]. rewrite Nat.sub_0_r in Hp.
    apply is_variable_true in Hv. exists atom, arg. tauto.
Qed.

(** An occurrence of [v] is exactly a position listed in its occurrence map. *)
Lemma occurs_at_occurrences body_atoms v a p :
  occurs_at body_atoms v a p <->
  exists ps, od_get a (occurrences_from v 0 body_atoms) = Some ps /\ In p ps.
Proof.
  rewrite occurs_at_positions. split.
  - intros [atom [Ha Hin]]. exists (positions_from v 0 (Atom.arg_list atom)).
    split; [|assumption]. apply In_od_get; [apply occurrences_from_wf|].
    apply occurrences_from_In. split; [lia|]. split.
    + intros E. rewrite E in Hin. contradiction.
    + exists atom. rewrite Nat.sub_0_r. auto.
  - intros [ps [Hg Hin]]. apply od_get_In, occurrences_from_In in Hg.
    destruct Hg as [_ [_ [atom [Ha ->]]]]. rewrite Nat.sub_0_r in Ha. eauto.
Qed.

Lemma lookup_of_Some {A} (occ o : list A) : lookup_of occ = Some o -> o = occ /\ occ <> [].
Proof. destruct occ; simpl; [discriminate|]. intros [= <-]. split; congruence. Qed.

Lemma lookup_of_None {A} (occ : list A) : lookup_of occ = None <-> occ = [].
Proof. destruct occ; simpl; split; congruence. Qed.

(** [v] is a key of the index exactly when it occurs somewhere. *)
Lemma index_key_occurs body_atoms v :
  In v (od_keys (extract_variable_arg_to_atom_map body_atoms)) <->
  exists a p, occurs_at body_atoms v a p.
Proof.
  split.
  - intros Hi. apply od_keys_get in Hi. destruct Hi as [occ Hg].
    rewrite extract_variable_arg_to_atom_map_get in Hg.
    apply lookup_of_Some in Hg. destruct Hg as [-> Hne].
    destruct (occurrences_from v 0 body_atoms) as [|[a ps] r] eqn:Eo; [congruence|].
    assert (Hin : In (a, ps) (occurrences_from v 0 body_atoms)) by (rewrite Eo; now left).
    apply occurrences_from_In in Hin. destruct Hin as [_ [Hps [atom [Ha Hp]]]].
    destruct ps as [|p ps']; [congruence|].
    exists a, p. apply occurs_at_positions. exists atom.
    rewrite Nat.sub_0_r in Ha. split; [assumption|]. rewrite <- Hp. now left.
  - intros [a [p Ho]]. apply occurs_at_occurrences in Ho. destruct Ho as [ps [Hg Hin]].
    destruct (od_get v (extract_variable_arg_to_atom_map body_atoms)) as [occ|] eqn:Eg.
    + eapply od_get_Some_keys; eauto.
    + rewrite extract_variable_arg_to_atom_map_get in Eg.
      apply lookup_of_None in Eg. rewrite Eg in Hg. discriminate.
Qed.

Lemma index_argument_wf atom_index arg_index arg (m : index) :
  od_wf m -> od_wf (index_argument atom_index arg_index arg m).
Proof.
  intros Hwf. unfold index_argument.
  destruct (negb (Arg.type arg =? "variable")%string); [assumption|].
  do 2 apply od_wf_modify.
  destruct (negb (od_mem (Arg.name arg) m)); [now apply od_wf_set | assumption].
Qed.

Lemma fold_from_invariant {St A : Type} (P : St -> Prop) (body : nat -> A -> St -> St) l :
  (forall i x s, P s -> P (body i x s)) ->
  forall j s, P s -> P (fold_from j l body s).
Proof.
  intros Hb. induction l as [|x r IH]; intros j s Hs; simpl; auto.
Qed.

Lemma extract_variable_arg_to_atom_map_wf body_atoms :
  od_wf (extract_variable_arg_to_atom_map body_atoms).
Proof.
  unfold extract_variable_arg_to_atom_map. rewrite for_range_fold_from.
  apply fold_from_invariant; [|constructor].
  intros i atom s Hs. rewrite for_range_fold_from.
  apply fold_from_invariant; [|assumption].
  intros. now apply index_argument_wf.
Qed.

Lemma fold_from_unchanged {St A : Type} (body : nat -> A -> St -> St) l :
  (forall i x s, In x l -> body i x s = s) ->
  forall j s, fold_from j l body s = s.
Proof.
  induction l as [|x r IH]; intros Hb j s; simpl; [reflexivity|].
  rewrite Hb by now left. apply IH. intros. apply Hb. now right.
Qed.

Lemma occurs_at_In body_atoms v :
  (exists a p, occurs_at body_atoms v a p) <->
  exists atom arg, In atom body_atoms /\ In arg (Atom.arg_list atom) /\
                   Arg.type arg = "variable" /\ Arg.name arg = v.
Proof.
  unfold occurs_at. split.
  - intros [a [p [atom [arg [Ha [Hp Hv]]]]]]. exists atom, arg.
    split; [eapply nth_error_In; eauto|]. split; [eapply nth_error_In; eauto|]. exact Hv.
  - intros [atom [arg [Ha [Hp Hv]]]].
    apply In_nth_error in Ha. destruct Ha as [a Ha].
    apply In_nth_error in Hp. destruct Hp as [p Hp].
    exists a, p, atom, arg. auto.
Qed.

Lemma sorted_head_lt (x : nat) l y : StronglySorted lt (x :: l) -> In y l -> x < y.
Proof.
  intros Hs Hin. inversion Hs as [|? ? _ Hall]; subst.
  rewrite Forall_forall in Hall. auto.
Qed.

(** C7. For every ordered sequence of positive body atoms, the index
    returned by [extract_variable_arg_to_atom_map] has as keys exactly the
    names of the variable-typed arguments of those atoms, each key once; the
    entry of a name lists, by increasing atom index, the atoms that contain
    it and, for each, its argument positions in increasing order; a body
    without variable arguments gives the empty index.  The function is
    total and reads nothing but the atoms it is given. *)
Theorem C7_index_contents (body_atoms : list Atom.t) :
  let idx := extract_variable_arg_to_atom_map body_atoms in
  (forall v, In v (od_keys idx) <->
             exists atom arg, In atom body_atoms /\ In arg (Atom.arg_list atom) /\
                              Arg.type arg = "variable" /\ Arg.name arg = v) /\
  od_wf idx /\
  (forall v occ, od_get v idx = Some occ ->
     (forall a p, (exists ps, od_get a occ = Some ps /\ In p ps) <->
                  occurs_at body_atoms v a p) /\
     StronglySorted lt (od_keys occ) /\
     (forall a ps, od_get a occ = Some ps -> ps <> [] /\ StronglySorted lt ps)) /\
  ((forall atom arg, In atom body_atoms -> In arg (Atom.arg_list atom) ->
                     Arg.type arg <> "variable") -> idx = []).
Proof.
  intros idx.
  assert (Hentry : forall v occ,
            od_get v idx = Some occ -> occ = occurrences_from v 0 body_atoms).
  { intros v occ Hg. unfold idx in Hg.
    rewrite extract_variable_arg_to_atom_map_get in Hg.
    now apply lookup_of_Some in Hg. }
  split; [|split; [|split]].
  - intros v. rewrite <- occurs_at_In. apply index_key_occurs.
  - apply extract_variable_arg_to_atom_map_wf.
  - intros v occ Hg. rewrite (Hentry v occ Hg). split; [|split].
    + intros a p. symmetry. apply occurs_at_occurrences.
    + apply occurrences_from_keys_sorted.
    + intros a ps Hps. apply od_get_In, occurrences_from_In in Hps.
      destruct Hps as [_ [Hne [atom [_ ->]]]]. split; [exact Hne|].
      apply positions_from_sorted.
  - intros Hnone. unfold idx, extract_variable_arg_to_atom_map.
    rewrite for_range_fold_from. apply fold_from_unchanged.
    intros i atom s Hatom. rewrite for_range_fold_from. apply fold_from_unchanged.
    intros j arg s' Harg. unfold index_argument.
    destruct (String.eqb_spec (Arg.type arg) "variable") as [E|E]; [|reflexivity].
    exfalso. eapply Hnone; eauto.
Qed.

(** The scenario of the specification: [Edge(x, y), Edge(y, z)]. *)
Example index_of_two_edges :
  extract_variable_arg_to_atom_map
    [Atom.mk "Edge" [Arg.mk "variable" "x"; Arg.mk "variable" "y"];
     Atom.mk "Edge" [Arg.mk "variable" "y"; Arg.mk "variable" "z"]]
  = [("x", [(0, [0])]); ("y", [(0, [1]); (1, [0])]); ("z", [(1, [1])])].
Proof. reflexivity. Qed.

(** ** The binding resolver *)

Lemma search_in_index body_atoms v :
  search_argument_mapping_in_body_atoms (extract_variable_arg_to_atom_map body_atoms) v =
  match occurrences_from v 0 body_atoms with
  | [] => raise KeyError
  | occ => ok (first_atom_arg occ)
  end.
Proof.
  unfold search_argument_mapping_in_body_atoms.
  rewrite extract_variable_arg_to_atom_map_get.
  destruct (occurrences_from v 0 body_atoms); reflexivity.
Qed.

(** C6. For every variable name that is a key of the index built from a
    body, the resolver returns an occurrence of that variable which comes
    first in the scan order: smallest atom index, then smallest argument
    position. *)
Theorem C6_resolver_returns_first_occurrence (body_atoms : list Atom.t) (v : string) :
  In v (od_keys (extract_variable_arg_to_atom_map body_atoms)) ->
  exists a p,
    search_argument_mapping_in_body_atoms
      (extract_variable_arg_to_atom_map body_atoms) v = ok (Some (Mapping.mk a p)) /\
    occurs_at body_atoms v a p /\
    forall a' p', occurs_at body_atoms v a' p' -> scan_le a p a' p'.
Proof.
  intros Hkey. rewrite search_in_index.
  apply index_key_occurs in Hkey. destruct Hkey as [a0 [p0 Ho0]].
  pose proof (occurrences_from_keys_sorted v body_atoms 0) as Hsorted.
  assert (Hocc : forall a p, occurs_at body_atoms v a p <->
             exists ps, od_get a (occurrences_from v 0 body_atoms) = Some ps /\ In p ps)
    by (intros; apply occurs_at_occurrences).
  assert (Hent : forall a ps, In (a, ps) (occurrences_from v 0 body_atoms) ->
             ps <> [] /\ StronglySorted lt ps).
  { intros a ps Hin. apply occurrences_from_In in Hin.
    destruct Hin as [_ [Hne [atom [_ ->]]]]. split; [assumption|].
    apply positions_from_sorted. }
  destruct (occurrences_from v 0 body_atoms) as [|[a ps] rest] eqn:Eo.
  - apply Hocc in Ho0. destruct Ho0 as [ps [Hg _]]. discriminate.
  - destruct (Hent a ps (or_introl eq_refl)) as [Hne Hps].
    destruct ps as [|p ps']; [congruence|].
    exists a, p. split; [reflexivity|]. split.
    + apply Hocc. exists (p :: ps'). simpl. rewrite Nat.eqb_refl. split; [reflexivity|now left].
    + intros a' p' Ho'. apply Hocc in Ho'. destruct Ho' as [ps'' [Hg Hin]].
      simpl in Hg. destruct (Nat.eqb_spec a' a) as [->|Hne'].
      * injection Hg as <-. right. split; [reflexivity|].
        destruct Hin as [<-|Hin]; [lia|].
        pose proof (sorted_head_lt _ _ _ Hps Hin). lia.
      * left. apply od_get_Some_keys in Hg. simpl in Hsorted.
        pose proof (sorted_head_lt _ _ _ Hsorted Hg). lia.
Qed.

Lemma C6_witness :
  exists a p,
    search_argument_mapping_in_body_atoms
      (extract_variable_arg_to_atom_map
         [Atom.mk "Edge" [Arg.mk "variable" "x"; Arg.mk "variable" "y"];
          Atom.mk "Edge" [Arg.mk "variable" "y"; Arg.mk "variable" "z"]]) "y"
      = ok (Some (Mapping.mk a p)) /\
    occurs_at
      [Atom.mk "Edge" [Arg.mk "variable" "x"; Arg.mk "variable" "y"];
       Atom.mk "Edge" [Arg.mk "variable" "y"; Arg.mk "variable" "z"]] "y" a p /\
    forall a' p',
      occurs_at
        [Atom.mk "Edge" [Arg.mk "variable" "x"; Arg.mk "variable" "y"];
         Atom.mk "Edge" [Arg.mk "variable" "y"; Arg.mk "variable" "z"]] "y" a' p' ->
      scan_le a p a' p'.
Proof.
  apply C6_resolver_returns_first_occurrence.
  simpl. right. left. reflexivity.
Defined.

(** A name that is not a key makes the resolver raise [KeyError]; it has
    no path that reports absence by a value. *)
Lemma search_missing_name_raises (variable_arg_to_atom_map : index) (var_name : string) :
  od_get var_name variable_arg_to_atom_map = None ->
  search_argument_mapping_in_body_atoms variable_arg_to_atom_map var_name = raise KeyError.
Proof.
  intros Hg. unfold search_argument_mapping_in_body_atoms. now rewrite Hg.
Qed.

(** C3, at a failing input.  Resolving ["w"] against the index of
    [Edge(x, y)], where ["w"] never occurs, raises [KeyError] instead of
    returning a "not found" value. *)
Theorem C3_missing_name_raises_KeyError :
  search_argument_mapping_in_body_atoms
    (extract_variable_arg_to_atom_map
       [Atom.mk "Edge" [Arg.mk "variable" "x"; Arg.mk "variable" "y"]]) "w"
  = raise KeyError.
Proof. reflexivity. Qed.

(** ** The join map *)

Lemma join_fold_get (idx : index) (v : string) : forall keys (acc : index),
  od_get v
    (fold_left
       (fun join_map var =>
          match od_get var idx with
          | None => join_map
          | Some occ =>
              let join_on_var := (1 <? od_len occ) || repeated_in_some_atom occ in
              if join_on_var then od_set var occ join_map else join_map
          end) keys acc) =
  match od_get v idx with
  | Some occ =>
      if needs_join occ && existsb (String.eqb v) keys then Some occ else od_get v acc
  | None => od_get v acc
  end.
Proof.
  induction keys as [|k keys IH]; intros acc; simpl.
  - destruct (od_get v idx); [rewrite andb_false_r|]; reflexivity.
  - rewrite IH. clear IH.
    destruct (String.eqb_spec v k) as [<-|Hne]; simpl.
    + destruct (od_get v idx) as [occ|] eqn:Eg; [|reflexivity].
      fold (needs_join occ). destruct (needs_join occ) eqn:En; simpl; [|reflexivity].
      rewrite od_get_set, key_eqb_refl. now destruct (existsb (String.eqb v) keys).
    + assert (Hacc : od_get v
                (match od_get k idx with
                 | Some occ =>
                     if (1 <? od_len occ) || repeated_in_some_atom occ
                     then od_set k occ acc else acc
                 | None => acc
                 end) = od_get v acc).
      { destruct (od_get k idx) as [occ|]; [|reflexivity].
        destruct ((1 <? od_len occ) || repeated_in_some_atom occ); [|reflexivity].
        rewrite od_get_set. change (key_eqb v k) with (v =? k)%string.
        destruct (String.eqb_spec v k); [contradiction|reflexivity]. }
      rewrite Hacc. reflexivity.
Qed.

Lemma existsb_eqb_keys {V : Type} (d : odict string V) v occ :
  od_get v d = Some occ -> existsb (String.eqb v) (od_keys d) = true.
Proof.
  intros Hg. apply existsb_exists. exists v. split; [|apply String.eqb_refl].
  eapply od_get_Some_keys; eauto.
Qed.

(** The join map of any index: the entries that pass the test, unchanged. *)
Lemma extract_join_map_get (idx : index) (v : string) :
  od_get v (extract_join_map idx) =
  match od_get v idx with
  | Some occ => if needs_join occ then Some occ else None
  | None => None
  end.
Proof.
  unfold extract_join_map. rewrite join_fold_get. simpl.
  destruct (od_get v idx) as [occ|] eqn:Eg; [|reflexivity].
  rewrite (existsb_eqb_keys idx v occ Eg), andb_true_r. reflexivity.
Qed.

Lemma two_members_length {A : Type} (l : list A) x y :
  In x l -> In y l -> x <> y -> 2 <= List.length l.
Proof.
  destruct l as [|a [|b r]]; simpl.
  - tauto.
  - intros [<-|[]] [<-|[]] Hne. congruence.
  - lia.
Qed.

Lemma repeated_in_some_atom_true (occ : odict nat (list nat)) :
  repeated_in_some_atom occ = true <->
  exists a ps, In (a, ps) occ /\ 2 <= List.length ps.
Proof.
  induction occ as [|[a ps] r IH]; simpl.
  - split; [discriminate|]. intros [? [? [[] _]]].
  - destruct (Nat.ltb_spec 1 (List.length ps)) as [Hlt|Hge].
    + split; [|reflexivity]. intros _. exists a, ps. split; [now left|lia].
    + rewrite IH. split.
      * intros [a' [ps' [Hin Hlen]]]. exists a', ps'. split; [now right|assumption].
      * intros [a' [ps' [[Heq|Hin] Hlen]]].
        -- injection Heq as <- <-. lia.
        -- eauto.
Qed.

Lemma needs_join_occurrences body_atoms v :
  needs_join (occurrences_from v 0 body_atoms) = true <->
  in_several_atoms body_atoms v \/ repeated_in_atom body_atoms v.
Proof.
  pose proof (occurrences_from_wf v body_atoms 0) as Hwf.
  unfold needs_join. rewrite orb_true_iff, repeated_in_some_atom_true. split.
  - intros [Hlen|[a [ps [Hin Hlen]]]].
    + left. apply Nat.ltb_lt in Hlen. unfold od_len in Hlen.
      destruct (occurrences_from v 0 body_atoms) as [|[a ps] [|[a' ps'] r]] eqn:Eo;
        simpl in Hlen; try lia.
      assert (H1 : In (a, ps) (occurrences_from v 0 body_atoms)) by (rewrite Eo; simpl; auto).
      assert (H2 : In (a', ps') (occurrences_from v 0 body_atoms)) by (rewrite Eo; simpl; auto).
      assert (Hne : a <> a').
      { unfold od_wf in Hwf. simpl in Hwf.
        inversion Hwf as [|? ? Hni _]; subst. intros ->. apply Hni. now left. }
      pose proof H1 as H1'. pose proof H2 as H2'.
      apply occurrences_from_In in H1'. destruct H1' as [_ [Hps _]].
      apply occurrences_from_In in H2'. destruct H2' as [_ [Hps' _]].
      destruct ps as [|p ps0]; [congruence|]. destruct ps' as [|p' ps0']; [congruence|].
      exists a, p, a', p'. split; [assumption|].
      split; apply occurs_at_occurrences.
      * exists (p :: ps0).
        split; [apply In_od_get; [apply occurrences_from_wf | assumption] | now left].
      * exists (p' :: ps0').
        split; [apply In_od_get; [apply occurrences_from_wf | assumption] | now left].
    + right. pose proof Hin as Hin'. apply occurrences_from_In in Hin'.
      destruct Hin' as [_ [_ [atom [_ Hps]]]].
      assert (Hnd : NoDup ps) by (subst ps; apply sorted_lt_NoDup, positions_from_sorted).
      destruct ps as [|p [|p' r]]; simpl in Hlen; try lia.
      exists a, p, p'. split.
      * inversion Hnd as [|? ? Hni _]; subst. intros ->. apply Hni. now left.
      * split; apply occurs_at_occurrences; exists (p :: p' :: r);
          (split; [now apply In_od_get | simpl; auto]).
  - intros [[a [p [a' [p' [Hne [Ho Ho']]]]]] | [a [p [p' [Hne [Ho Ho']]]]]].
    + left. apply Nat.ltb_lt. unfold od_len.
      apply occurs_at_occurrences in Ho. destruct Ho as [ps [Hg _]].
      apply occurs_at_occurrences in Ho'. destruct Ho' as [ps' [Hg' _]].
      apply od_get_In in Hg, Hg'.
      apply (two_members_length _ (a, ps) (a', ps')); auto. congruence.
    + right. apply occurs_at_occurrences in Ho. destruct Ho as [ps [Hg Hin]].
      apply occurs_at_occurrences in Ho'. destruct Ho' as [ps' [Hg' Hin']].
      assert (ps' = ps) by congruence. subst ps'.
      exists a, ps. split; [now apply od_get_In|].
      apply (two_members_length _ p p'); auto.
Qed.

(** C5. A variable is a key of the join map exactly when it occurs in more
    than one positive body atom or more than once within one atom; every
    key of the join map is a key of the index with the same occurrence map;
    a variable that occurs exactly once is not a key.  The last part holds
    of any index at all: an entry of its join map is an entry of the index,
    unchanged, that passes the test on its occurrence map. *)
Theorem C5_join_map_keys (body_atoms : list Atom.t) :
  let idx := extract_variable_arg_to_atom_map body_atoms in
  let join_map := extract_join_map idx in
  (forall v, In v (od_keys join_map) <->
             in_several_atoms body_atoms v \/ repeated_in_atom body_atoms v) /\
  (forall v occ, od_get v join_map = Some occ -> od_get v idx = Some occ) /\
  (forall v a p,
     occurs_at body_atoms v a p ->
     (forall a' p', occurs_at body_atoms v a' p' -> a' = a /\ p' = p) ->
     ~ In v (od_keys join_map)) /\
  (forall (any_index : index) v occ,
     od_get v (extract_join_map any_index) = Some occ ->
     od_get v any_index = Some occ /\ needs_join occ = true).
Proof.
  intros idx join_map.
  assert (Hkeys : forall v, In v (od_keys join_map) <->
             in_several_atoms body_atoms v \/ repeated_in_atom body_atoms v).
  { intros v. rewrite <- needs_join_occurrences. split.
    - intros Hi. apply od_keys_get in Hi. destruct Hi as [occ Hg].
      unfold join_map in Hg. rewrite extract_join_map_get in Hg.
      unfold idx in Hg. rewrite extract_variable_arg_to_atom_map_get in Hg.
      destruct (lookup_of (occurrences_from v 0 body_atoms)) as [o|] eqn:El; [|discriminate].
      apply lookup_of_Some in El. destruct El as [-> _].
      destruct (needs_join (occurrences_from v 0 body_atoms)); [reflexivity|discriminate].
    - intros Hn. apply (od_get_Some_keys _ _ (occurrences_from v 0 body_atoms)).
      unfold join_map. rewrite extract_join_map_get.
      unfold idx. rewrite extract_variable_arg_to_atom_map_get.
      destruct (occurrences_from v 0 body_atoms) eqn:Eo; [discriminate|].
      simpl. now rewrite Hn. }
  split; [exact Hkeys|]. split; [|split].
  - intros v occ Hg. unfold join_map in Hg. rewrite extract_join_map_get in Hg.
    destruct (od_get v idx) as [o|]; [|discriminate].
    destruct (needs_join o); congruence.
  - intros v a p Ho Huniq Hin. apply Hkeys in Hin.
    destruct Hin as [[a1 [p1 [a2 [p2 [Hne [H1 H2]]]]]] | [a1 [p1 [p2 [Hne [H1 H2]]]]]].
    + apply Huniq in H1, H2. destruct H1, H2. congruence.
    + apply Huniq in H1, H2. destruct H1, H2. congruence.
  - intros any_index v occ Hg. rewrite extract_join_map_get in Hg.
    destruct (od_get v any_index) as [o|]; [|discriminate].
    destruct (needs_join o) eqn:En; [|discriminate].
    injection Hg as <-. auto.
Qed.

(** The join map of the scenario [Edge(x, y), Edge(y, z)] holds [y] only. *)
Example join_map_of_two_edges :
  extract_join_map
    (extract_variable_arg_to_atom_map
       [Atom.mk "Edge" [Arg.mk "variable" "x"; Arg.mk "variable" "y"];
        Atom.mk "Edge" [Arg.mk "variable" "y"; Arg.mk "variable" "z"]])
  = [("y", [(0, [1]); (1, [0])])].
Proof. reflexivity. Qed.

(** ** The negation map *)

Lemma negation_entries_step i args : forall (m0 : negation_map_t) (pre : odict nat NegArg.t) k,
  od_get i m0 = None ->
  (forall q, In q (od_keys pre) -> q < k) ->
  fold_from k args (record_negation_argument i) (m0 ++ [(i, pre)])
  = m0 ++ [(i, pre ++ negation_entries_from k args)].
Proof.
  induction args as [|arg r IH]; intros m0 pre k Hi Hlt; simpl.
  - now rewrite app_nil_r.
  - unfold record_negation_argument at 2.
    rewrite od_modify_app_last by assumption.
    rewrite od_set_absent.
    2:{ apply od_get_None. intros Hin. apply Hlt in Hin. lia. }
    rewrite IH; [|assumption|].
    + now rewrite <- app_assoc.
    + intros q Hq. unfold od_keys in Hq. rewrite map_app in Hq.
      apply in_app_or in Hq. destruct Hq as [Hq|[<-|[]]]; [apply Hlt in Hq; lia | simpl; lia].
Qed.

Lemma record_negation_atom_eq i atom (m : negation_map_t) :
  od_get i m = None ->
  record_negation_atom i atom m = m ++ [(i, negation_entries_from 0 (Atom.arg_list atom))].
Proof.
  intros Hi. unfold record_negation_atom.
  rewrite for_range_fold_from, od_set_absent by assumption.
  apply (negation_entries_step i (Atom.arg_list atom) m [] 0 Hi). simpl. tauto.
Qed.

Lemma negation_map_step atoms : forall i (m : negation_map_t),
  (forall q, In q (od_keys m) -> q < i) ->
  fold_from i atoms record_negation_atom m = m ++ negation_map_from i atoms.
Proof.
  induction atoms as [|atom r IH]; intros i m Hlt; cbn [fold_from negation_map_from].
  - now rewrite app_nil_r.
  - assert (Hi : od_get i m = None).
    { apply od_get_None. intros Hin. apply Hlt in Hin. lia. }
    rewrite record_negation_atom_eq by assumption.
    rewrite IH.
    + now rewrite <- app_assoc.
    + intros q Hq. unfold od_keys in Hq. rewrite map_app in Hq.
      apply in_app_or in Hq. destruct Hq as [Hq|[<-|[]]]; [apply Hlt in Hq; lia | simpl; lia].
Qed.

Lemma build_negation_map_eq atoms : build_negation_map atoms = negation_map_from 0 atoms.
Proof.
  unfold build_negation_map. rewrite for_range_fold_from.
  apply (negation_map_step atoms 0 []). simpl. tauto.
Qed.

Lemma negation_entries_from_get args : forall j q arg,
  nth_error args q = Some arg ->
  od_get (j + q) (negation_entries_from j args) =
  Some (NegArg.mk (Arg.name arg) (Arg.type arg)).
Proof.
  induction args as [|x r IH]; intros j q arg Hn; [destruct q; discriminate|].
  destruct q as [|q]; simpl in *.
  - injection Hn as ->. now rewrite Nat.add_0_r, Nat.eqb_refl.
  - destruct (Nat.eqb_spec (j + S q) j); [lia|].
    replace (j + S q) with (S j + q) by lia. now apply IH.
Qed.

Lemma negation_entries_from_keys args : forall j q arg,
  nth_error args q = Some arg -> In (j + q) (od_keys (negation_entries_from j args)).
Proof.
  intros j q arg Hn. eapply od_get_Some_keys. eapply negation_entries_from_get; eauto.
Qed.

Lemma negation_map_from_get atoms : forall i q atom,
  nth_error atoms q = Some atom ->
  od_get (i + q) (negation_map_from i atoms) =
  Some (negation_entries_from 0 (Atom.arg_list atom)).
Proof.
  induction atoms as [|x r IH]; intros i q atom Hn; [destruct q; discriminate|].
  destruct q as [|q]; simpl in *.
  - injection Hn as ->. now rewrite Nat.add_0_r, Nat.eqb_refl.
  - destruct (Nat.eqb_spec (i + S q) i); [lia|].
    replace (i + S q) with (S i + q) by lia. now apply IH.
Qed.

Lemma negation_map_get atoms q atom :
  nth_error atoms q = Some atom ->
  od_get q (negation_map_from 0 atoms) = Some (negation_entries_from 0 (Atom.arg_list atom)).
Proof. exact (negation_map_from_get atoms 0 q atom). Qed.

Lemma negation_entries_get args q arg :
  nth_error args q = Some arg ->
  od_get q (negation_entries_from 0 args) = Some (NegArg.mk (Arg.name arg) (Arg.type arg)).
Proof. exact (negation_entries_from_get args 0 q arg). Qed.

Lemma fold_result_raises {St A : Type} (body : St -> A -> result St) (e : PyErr) l :
  (forall s x e', body s x = inl e' -> e' = e) ->
  (exists x, In x l /\ forall s, body s x = inl e) ->
  forall s, fold_result body l s = inl e.
Proof.
  intros Hkind. induction l as [|y r IH]; intros [x [Hin Hbad]] s; [contradiction|].
  simpl. destruct (body s y) as [e'|s'] eqn:Eb.
  - f_equal. eapply Hkind; eauto.
  - destruct Hin as [->|Hin]; [rewrite Hbad in Eb; discriminate|].
    apply IH. eauto.
Qed.

Lemma fold_result_error_kind {St A : Type} (body : St -> A -> result St) (e : PyErr) l :
  (forall s x e', body s x = inl e' -> e' = e) ->
  forall s e', fold_result body l s = inl e' -> e' = e.
Proof.
  intros Hkind. induction l as [|y r IH]; intros s e'; simpl; [discriminate|].
  destruct (body s y) as [e0|s'] eqn:Eb.
  - intros [= <-]. eapply Hkind; eauto.
  - apply IH.
Qed.

Lemma search_error_kind idx v e :
  search_argument_mapping_in_body_atoms idx v = inl e -> e = KeyError.
Proof.
  unfold search_argument_mapping_in_body_atoms.
  destruct (od_get v idx); [discriminate|]. now intros [= <-].
Qed.

Lemma anti_join_argument_error_kind idx i entries aj j e :
  anti_join_argument idx i entries aj j = inl e -> e = KeyError.
Proof.
  unfold anti_join_argument.
  destruct (od_get j entries) as [entry|]; [|now intros [= <-]].
  destruct (NegArg.arg_type entry =? "variable")%string; [|discriminate].
  destruct (search_argument_mapping_in_body_atoms idx (NegArg.arg_name entry))
    as [e0|[mp|]] eqn:Es; try discriminate.
  intros [= <-]. eapply search_error_kind; eauto.
Qed.

(** Whenever some negated atom carries a variable that is not a key of the
    index, [extract_negation_map] raises [KeyError]: the second pass looks
    the name up with [variable_arg_to_atom_map[var_name]] before the test
    [is None] can be reached. *)
Lemma extract_negation_map_unmatched_variable_raises
    (body_negation_atoms : list Atom.t) (idx : index) :
  (exists atom arg,
     In atom body_negation_atoms /\ In arg (Atom.arg_list atom) /\
     Arg.type arg = "variable" /\ od_get (Arg.name arg) idx = None) ->
  extract_negation_map body_negation_atoms idx = raise KeyError.
Proof.
  intros [atom [arg [Hatom [Harg [Htype Hmiss]]]]].
  unfold extract_negation_map, build_anti_join_map.
  rewrite build_negation_map_eq.
  apply In_nth_error in Hatom. destruct Hatom as [i Hi].
  apply In_nth_error in Harg. destruct Harg as [j Hj].
  set (body := fun (anti_join_map : anti_join_map_t) negation_atom_index => _).
  assert (Hraise : forall s, fold_result body
                     (od_keys (negation_map_from 0 body_negation_atoms)) s = inl KeyError).
  { apply fold_result_raises.
    - intros s x e'. unfold body.
      destruct (od_get x (negation_map_from 0 body_negation_atoms)); [|now intros [= <-]].
      apply fold_result_error_kind. intros. eapply anti_join_argument_error_kind; eauto.
    - exists i. split.
      + apply (od_get_Some_keys _ _ (negation_entries_from 0 (Atom.arg_list atom))).
        apply (negation_map_get body_negation_atoms i atom Hi).
      + intros s. unfold body.
        rewrite (negation_map_get body_negation_atoms i atom Hi).
        apply fold_result_raises.
        * intros. eapply anti_join_argument_error_kind; eauto.
        * exists j. split; [apply (negation_entries_from_keys _ 0 j arg Hj)|].
          intros s'. unfold anti_join_argument.
          rewrite (negation_entries_get _ j arg Hj). simpl.
          rewrite Htype. simpl.
          now rewrite (search_missing_name_raises idx (Arg.name arg) Hmiss). }
  now rewrite Hraise.
Qed.

(** C2, at a failing input.  For the rule body [Edge(x, y), !Edge(x, w)],
    where [w] does not occur in the positive body, [extract_negation_map]
    does not complete: it raises [KeyError]. *)
Theorem C2_unmatched_negated_variable_raises_KeyError :
  extract_negation_map
    [Atom.mk "Edge" [Arg.mk "variable" "x"; Arg.mk "variable" "w"]]
    (extract_variable_arg_to_atom_map
       [Atom.mk "Edge" [Arg.mk "variable" "x"; Arg.mk "variable" "y"]])
  = raise KeyError.
Proof. reflexivity. Qed.

(** When every negated variable occurs in the positive body the two maps
    are returned as described. *)
Example negation_of_matched_variables :
  extract_negation_map
    [Atom.mk "Edge" [Arg.mk "variable" "x"; Arg.mk "constant" "1"]]
    (extract_variable_arg_to_atom_map
       [Atom.mk "Edge" [Arg.mk "variable" "x"; Arg.mk "variable" "y"]])
  = ok (NegationMaps.mk
          [(0, [(0, NegArg.mk "x" "variable"); (1, NegArg.mk "1" "constant")])]
          [(0, [(0, Mapping.mk 0 0)])]).
Proof. reflexivity. Qed.

(** ** The comparison map *)

Section DictionaryTotals.
Context {K V : Type} `{Key K} (w : V -> nat).

Lemma total_app (d1 d2 : odict K V) : total w (d1 ++ d2) = total w d1 + total w d2.
Proof. unfold total. now rewrite map_app, list_sum_app. Qed.

Lemma total_set_absent (d : odict K V) k v :
  od_get k d = None -> total w (od_set k v d) = total w d + w v.
Proof.
  intros Hg. rewrite od_set_absent by assumption. rewrite total_app.
  unfold total. simpl. lia.
Qed.

Lemma total_modify (d : odict K V) k f v :
  od_get k d = Some v -> total w (od_modify k f d) + w v = total w d + w (f v).
Proof.
  unfold total. induction d as [|[k' v'] d IH]; simpl; [discriminate|].
  destruct (key_eqb k k'); simpl.
  - intros [= ->]. lia.
  - intros Hg. apply IH in Hg. lia.
Qed.
End DictionaryTotals.

Section EnsureFacts.
Context {X : Type}.
Implicit Types (d : odict nat (list X)).

Lemma od_get_ensure d k k' :
  od_get k' (ensure k d) =
  if k' =? k then Some (list_or_empty (od_get k d)) else od_get k' d.
Proof.
  unfold ensure, od_mem. destruct (od_get k d) as [l|] eqn:Eg; simpl.
  - destruct (Nat.eqb_spec k' k) as [->|]; [exact Eg | reflexivity].
  - rewrite od_get_set. reflexivity.
Qed.

Lemma total_ensure (w : list X -> nat) d k :
  w [] = 0 -> total w (ensure k d) = total w d.
Proof.
  intros Hw. unfold ensure, od_mem. destruct (od_get k d) eqn:Eg; simpl; [reflexivity|].
  rewrite total_set_absent by assumption. lia.
Qed.
End EnsureFacts.

Section ComparisonFacts.
Context {F : Type} (float : string -> option F).
Implicit Types (m : comparison_map (F:=F)) (r : comparison_struct (F:=F)).

Lemma od_get_add_record m a p r a' :
  od_get a' (add_record a p r m) =
  if a' =? a
  then Some (od_modify p (fun l => l ++ [r]) (ensure p (list_or_empty (od_get a m))))
  else od_get a' m.
Proof.
  unfold add_record. rewrite !od_get_modify.
  change (key_eqb a' a) with (a' =? a).
  rewrite od_get_ensure.
  destruct (Nat.eqb_spec a' a) as [->|]; reflexivity.
Qed.

Lemma records_at_add_record m a p r a' p' :
  records_at (add_record a p r m) a' p' =
  if (a' =? a) && (p' =? p) then records_at m a p ++ [r] else records_at m a' p'.
Proof.
  unfold records_at. rewrite od_get_add_record.
  destruct (Nat.eqb_spec a' a) as [->|]; simpl; [|reflexivity].
  rewrite od_get_modify. change (key_eqb p' p) with (p' =? p).
  rewrite od_get_ensure.
  destruct (Nat.eqb_spec p' p) as [->|]; reflexivity.
Qed.

Lemma record_count_add_record m a p r :
  record_count (add_record a p r m) = S (record_count m).
Proof.
  unfold record_count, add_record.
  set (w := total (@List.length (comparison_struct (F:=F)))).
  assert (Hw : w [] = 0) by reflexivity.
  set (inner0 := list_or_empty (od_get a m)).
  assert (H1 : od_get a (ensure a m) = Some inner0)
    by (rewrite od_get_ensure, Nat.eqb_refl; reflexivity).
  assert (H2 : od_get a (od_modify a (ensure p) (ensure a m)) = Some (ensure p inner0)).
  { rewrite od_get_modify. change (key_eqb a a) with (a =? a).
    rewrite Nat.eqb_refl, H1. reflexivity. }
  pose proof (total_modify w _ a (od_modify p (fun l => l ++ [r])) _ H2) as E3.
  pose proof (total_modify w _ a (ensure p) _ H1) as E2.
  pose proof (total_ensure w m a Hw) as E1.
  assert (E4 : w (ensure p inner0) = w inner0) by (apply total_ensure; reflexivity).
  assert (H5 : od_get p (ensure p inner0) = Some (list_or_empty (od_get p inner0)))
    by (rewrite od_get_ensure, Nat.eqb_refl; reflexivity).
  pose proof (total_modify (@List.length (comparison_struct (F:=F))) _ p
                (fun l => l ++ [r]) _ H5) as E5.
  cbv beta in E5. rewrite length_app in E5. simpl in E5.
  cbv beta in E2, E3. fold w in E5. lia.
Qed.

Lemma loop_outcome_app {St A : Type} (body : St -> A -> outcome St) l1 l2 s :
  loop_outcome body (l1 ++ l2) s =
  match loop_outcome body l1 s with
  | Normal s' => loop_outcome body l2 s'
  | Raised e s' => Raised e s'
  end.
Proof.
  revert s. induction l1 as [|x r IH]; intros s; simpl; [reflexivity|].
  destruct (body s x); auto.
Qed.

(** A comparison without a variable side raises before anything is
    recorded: the state carried by the exception is the incoming one. *)
Lemma comparison_step_no_variable_side idx m c :
  no_variable_side c ->
  comparison_step float idx m c = Raised (Exception_ no_variable_side_message) m.
Proof.
  intros [Hl Hr]. unfold comparison_step.
  destruct (String.eqb_spec (snd (Comparison.lhs c)) "var"); [contradiction|].
  destruct (String.eqb_spec (snd (Comparison.rhs c)) "var"); [contradiction|].
  reflexivity.
Qed.

Lemma no_variable_side_dec c : {no_variable_side c} + {~ no_variable_side c}.
Proof.
  unfold no_variable_side.
  destruct (string_dec (snd (Comparison.lhs c)) "var");
    destruct (string_dec (snd (Comparison.rhs c)) "var"); tauto.
Qed.

Lemma occurs_resolves body_atoms v :
  (exists a p, occurs_at body_atoms v a p) ->
  exists a p,
    search_argument_mapping_in_body_atoms
      (extract_variable_arg_to_atom_map body_atoms) v = ok (Some (Mapping.mk a p)).
Proof.
  intros [a0 [p0 Ho]]. rewrite search_in_index.
  apply occurs_at_occurrences in Ho. destruct Ho as [ps0 [Hg _]].
  destruct (occurrences_from v 0 body_atoms) as [|[a ps] rest] eqn:Eo; [discriminate|].
  assert (Hin : In (a, ps) (occurrences_from v 0 body_atoms)) by (rewrite Eo; now left).
  apply occurrences_from_In in Hin. destruct Hin as [_ [Hne _]].
  destruct ps as [|p ps']; [congruence|]. exists a, p. reflexivity.
Qed.

(** A well-formed comparison with a variable side is recorded at the
    position its base variable resolves to. *)
Lemma comparison_step_records body_atoms m c :
  comparison_ok float body_atoms c ->
  ~ no_variable_side c ->
  exists a p r,
    search_argument_mapping_in_body_atoms
      (extract_variable_arg_to_atom_map body_atoms) (base_var c)
      = ok (Some (Mapping.mk a p)) /\
    compare_op r = Comparison.op c /\
    base_variable_side r = base_side c /\
    comparison_step float (extract_variable_arg_to_atom_map body_atoms) m c
      = Normal (add_record a p r m).
Proof.
  intros [Hl Hr] Hvar. unfold comparison_step, base_var, base_side.
  unfold operand_ok in Hl, Hr.
  destruct c as [[larg ltag] [rarg rtag] cop]. simpl in *.
  unfold no_variable_side in Hvar. simpl in Hvar.
  destruct Hl as [[-> Hlo]|[-> Hlf]]; destruct Hr as [[-> Hro]|[-> Hrf]]; simpl in *.
  - destruct (occurs_resolves _ _ Hlo) as [a [p Hs]].
    destruct (occurs_resolves _ _ Hro) as [a' [p' Hs']].
    rewrite Hs, Hs'. simpl.
    exists a, p, (mk_comparison_struct "l" cop (OtherVar a' p')). auto.
  - destruct (occurs_resolves _ _ Hlo) as [a [p Hs]].
    rewrite Hs. simpl. destruct (float rarg) as [f|] eqn:Ef; [|congruence].
    exists a, p, (mk_comparison_struct "l" cop (OtherNum f)). auto.
  - destruct (occurs_resolves _ _ Hro) as [a [p Hs]].
    rewrite Hs. simpl. destruct (float larg) as [f|] eqn:Ef; [|congruence].
    exists a, p, (mk_comparison_struct "r" cop (OtherNum f)). auto.
  - exfalso. apply Hvar. split; discriminate.
Qed.

Lemma comparison_loop_covers body_atoms cs : forall m,
  (forall c, In c cs -> comparison_ok float body_atoms c) ->
  (forall c, In c cs -> ~ no_variable_side c) ->
  exists m',
    loop_outcome (comparison_step float (extract_variable_arg_to_atom_map body_atoms)) cs m
      = Normal m' /\
    record_count m' = record_count m + List.length cs /\
    (forall a p r, In r (records_at m a p) -> In r (records_at m' a p)) /\
    (forall c, In c cs -> covered (extract_variable_arg_to_atom_map body_atoms) m' c).
Proof.
  induction cs as [|c cs IH]; intros m Hok Hvar; simpl.
  - exists m. split; [reflexivity|]. split; [lia|]. split; [auto|]. intros c [].
  - destruct (comparison_step_records body_atoms m c (Hok c (or_introl eq_refl))
                (Hvar c (or_introl eq_refl))) as [a [p [r [Hs [Hop [Hside Hstep]]]]]].
    rewrite Hstep.
    destruct (IH (add_record a p r m)) as [m' [Hloop [Hcount [Hkeep Hcov]]]].
    { intros c' Hc'. apply Hok. now right. }
    { intros c' Hc'. apply Hvar. now right. }
    exists m'. split; [assumption|]. split; [|split].
    + rewrite Hcount, record_count_add_record. lia.
    + intros a0 p0 r0 Hin. apply Hkeep. rewrite records_at_add_record.
      destruct (Nat.eqb_spec a0 a) as [->|]; simpl; [|assumption].
      destruct (Nat.eqb_spec p0 p) as [->|]; [|assumption].
      apply in_or_app. now left.
    + intros c' [<-|Hc']; [|now apply Hcov].
      exists a, p, r. split; [assumption|]. split; [|split; assumption].
      apply Hkeep. rewrite records_at_add_record, !Nat.eqb_refl. simpl.
      apply in_or_app. right. now left.
Qed.

Lemma in_split_first {A : Type} (P : A -> Prop) (l : list A) :
  (forall x, {P x} + {~ P x}) ->
  (exists x, In x l /\ P x) ->
  exists pre x post, l = pre ++ x :: post /\ P x /\ forall y, In y pre -> ~ P y.
Proof.
  intros Hdec. induction l as [|y r IH]; intros [x [Hin Hx]]; [contradiction|].
  destruct (Hdec y) as [Hy|Hy].
  - exists [], y, r. repeat split; auto.
  - destruct Hin as [->|Hin]; [contradiction|].
    destruct IH as [pre [z [post [-> [Hz Hpre]]]]]; [eauto|].
    exists (y :: pre), z, post. repeat split; auto.
    intros y' [<-|Hy']; auto.
Qed.

Lemma comparison_loop_raises body_atoms pre c post :
  (forall c', In c' (pre ++ c :: post) -> comparison_ok float body_atoms c') ->
  (forall c', In c' pre -> ~ no_variable_side c') ->
  no_variable_side c ->
  exists m,
    comparison_loop float pre (extract_variable_arg_to_atom_map body_atoms) = Normal m /\
    comparison_loop float (pre ++ c :: post) (extract_variable_arg_to_atom_map body_atoms)
      = Raised (Exception_ no_variable_side_message) m.
Proof.
  intros Hok Hpre Hc. unfold comparison_loop.
  destruct (comparison_loop_covers body_atoms pre []) as [m [Hloop _]].
  { intros c' Hc'. apply Hok. apply in_or_app. now left. }
  { assumption. }
  exists m. split; [assumption|].
  rewrite loop_outcome_app, Hloop. simpl.
  now rewrite comparison_step_no_variable_side.
Qed.
End ComparisonFacts.

(** C4. For comparisons as the parser produces them (each operand tagged
    ['var'] and naming a variable of the positive body, or tagged ['num']
    with numeric text), [extract_comparison_map] raises its validation error
    exactly when some comparison has no variable operand; the state it had
    reached when raising is the map built from the comparisons before the
    offending one, nothing being recorded for that one; when there is no
    such comparison it returns a map with one record per comparison, each
    attached where the base variable of its comparison resolves. *)
Theorem C4_comparison_validation {F : Type} (float : string -> option F)
    (body_atoms : list Atom.t) (body_comparisons : list Comparison.t) :
  (forall c, In c body_comparisons -> comparison_ok float body_atoms c) ->
  let idx := extract_variable_arg_to_atom_map body_atoms in
  ((exists c, In c body_comparisons /\ no_variable_side c) <->
   extract_comparison_map float body_comparisons idx
     = raise (Exception_ no_variable_side_message)) /\
  (forall pre c post,
     body_comparisons = pre ++ c :: post ->
     (forall c', In c' pre -> ~ no_variable_side c') ->
     no_variable_side c ->
     exists m,
       comparison_loop float pre idx = Normal m /\
       comparison_loop float body_comparisons idx
         = Raised (Exception_ no_variable_side_message) m) /\
  ((forall c, In c body_comparisons -> ~ no_variable_side c) ->
   exists m,
     extract_comparison_map float body_comparisons idx = ok m /\
     record_count m = List.length body_comparisons /\
     forall c, In c body_comparisons -> covered idx m c).
Proof.
  intros Hok idx.
  assert (Hraise : forall pre c post,
            body_comparisons = pre ++ c :: post ->
            (forall c', In c' pre -> ~ no_variable_side c') ->
            no_variable_side c ->
            exists m,
              comparison_loop float pre idx = Normal m /\
              comparison_loop float body_comparisons idx
                = Raised (Exception_ no_variable_side_message) m).
  { intros pre c post -> Hpre Hc. now apply comparison_loop_raises. }
  assert (Hgood : (forall c, In c body_comparisons -> ~ no_variable_side c) ->
            exists m,
              extract_comparison_map float body_comparisons idx = ok m /\
              record_count m = List.length body_comparisons /\
              forall c, In c body_comparisons -> covered idx m c).
  { intros Hvar.
    destruct (comparison_loop_covers float body_atoms body_comparisons [] Hok Hvar)
      as [m [Hloop [Hcount [_ Hcov]]]].
    exists m. unfold extract_comparison_map, comparison_loop. fold idx in Hloop.
    rewrite Hloop. auto. }
  split; [|split; assumption].
  split.
  - intros Hex.
    destruct (in_split_first no_variable_side body_comparisons no_variable_side_dec Hex)
      as [pre [c [post [Hsplit [Hc Hpre]]]]].
    destruct (Hraise pre c post Hsplit Hpre Hc) as [m [_ Hloop]].
    unfold extract_comparison_map. now rewrite Hloop.
  - intros Hres.
    destruct (Exists_dec no_variable_side body_comparisons no_variable_side_dec) as [He|Hn].
    + apply Exists_exists in He. exact He.
    + exfalso. destruct Hgood as [m [Hm _]].
      * intros c Hc Hbad. apply Hn. apply Exists_exists. eauto.
      * rewrite Hres in Hm. discriminate.
Qed.

Lemma C4_witness :
  let body_atoms := [Atom.mk "Edge" [Arg.mk "variable" "x"; Arg.mk "variable" "y"]] in
  let body_comparisons :=
    [Comparison.mk ("x", "var") ("5", "num") ">"; Comparison.mk ("3", "num") ("4", "num") "<"] in
  let float := fun s : string => Some s in
  let idx := extract_variable_arg_to_atom_map body_atoms in
  ((exists c, In c body_comparisons /\ no_variable_side c) <->
   extract_comparison_map float body_comparisons idx
     = raise (Exception_ no_variable_side_message)) /\
  (forall pre c post,
     body_comparisons = pre ++ c :: post ->
     (forall c', In c' pre -> ~ no_variable_side c') ->
     no_variable_side c ->
     exists m,
       comparison_loop float pre idx = Normal m /\
       comparison_loop float body_comparisons idx
         = Raised (Exception_ no_variable_side_message) m) /\
  ((forall c, In c body_comparisons -> ~ no_variable_side c) ->
   exists m,
     extract_comparison_map float body_comparisons idx = ok m /\
     record_count m = List.length body_comparisons /\
     forall c, In c body_comparisons -> covered idx m c).
Proof.
  intros body_atoms body_comparisons float.
  apply (C4_comparison_validation float body_atoms body_comparisons).
  intros c [<-|[<-|[]]]; split.
  - left. split; [reflexivity|]. exists 0, 0.
    exists (Atom.mk "Edge" [Arg.mk "variable" "x"; Arg.mk "variable" "y"]).
    exists (Arg.mk "variable" "x"). repeat split.
  - right. split; [reflexivity | discriminate].
  - right. split; [reflexivity | discriminate].
  - right. split; [reflexivity | discriminate].
Defined.

(** The scenario [x > 5], [x] resolving to argument 0 of atom 0. *)
Example comparison_with_a_number :
  extract_comparison_map (fun s : string => Some s)
    [Comparison.mk ("x", "var") ("5", "num") ">"]
    (extract_variable_arg_to_atom_map
       [Atom.mk "Edge" [Arg.mk "variable" "x"; Arg.mk "variable" "y"]])
  = ok [(0, [(0, [mk_comparison_struct "l" ">" (OtherNum "5")])])].
Proof. reflexivity. Qed.

(** C9. When both operands of a comparison are tagged as variables, the
    left one is the base: the record carries side ['l'], it is appended to
    the records of the position the left variable resolves to, and it
    stores the position the right variable resolves to as its other side.
    No other position of the map changes. *)
Theorem C9_left_variable_is_base {F : Type} (float : string -> option F)
    (idx : index) (earlier : list Comparison.t) (c : Comparison.t)
    (m : comparison_map (F:=F)) (v1 v2 : string) (a p a' p' : nat) :
  Comparison.lhs c = (v1, "var") ->
  Comparison.rhs c = (v2, "var") ->
  search_argument_mapping_in_body_atoms idx v1 = ok (Some (Mapping.mk a p)) ->
  search_argument_mapping_in_body_atoms idx v2 = ok (Some (Mapping.mk a' p')) ->
  comparison_loop float earlier idx = Normal m ->
  exists m',
    extract_comparison_map float (earlier ++ [c]) idx = ok m' /\
    records_at m' a p =
      records_at m a p ++ [mk_comparison_struct "l" (Comparison.op c) (OtherVar a' p')] /\
    forall a0 p0, (a0, p0) <> (a, p) -> records_at m' a0 p0 = records_at m a0 p0.
Proof.
  intros Hl Hr Hs1 Hs2 Hloop.
  exists (add_record a p (mk_comparison_struct "l" (Comparison.op c) (OtherVar a' p')) m).
  split; [|split].
  - unfold extract_comparison_map, comparison_loop in *.
    rewrite loop_outcome_app, Hloop. simpl.
    unfold comparison_step. rewrite Hl, Hr. simpl. rewrite Hs1, Hs2. reflexivity.
  - rewrite records_at_add_record, !Nat.eqb_refl. reflexivity.
  - intros a0 p0 Hne. rewrite records_at_add_record.
    destruct (Nat.eqb_spec a0 a) as [->|]; simpl; [|reflexivity].
    destruct (Nat.eqb_spec p0 p) as [->|]; [congruence|reflexivity].
Qed.

Lemma C9_witness :
  let idx :=
    extract_variable_arg_to_atom_map
      [Atom.mk "Edge" [Arg.mk "variable" "x"; Arg.mk "variable" "y"];
       Atom.mk "Edge" [Arg.mk "variable" "y"; Arg.mk "variable" "z"]] in
  let c := Comparison.mk ("z", "var") ("x", "var") "<" in
  let float := fun s : string => Some s in
  exists m',
    extract_comparison_map float ([Comparison.mk ("x", "var") ("5", "num") ">"] ++ [c]) idx
      = ok m' /\
    records_at m' 1 1 =
      records_at [(0, [(0, [mk_comparison_struct "l" ">" (OtherNum "5")])])] 1 1
        ++ [mk_comparison_struct "l" "<" (OtherVar 0 0)] /\
    forall a0 p0, (a0, p0) <> (1, 1) ->
      records_at m' a0 p0 =
      records_at [(0, [(0, [mk_comparison_struct "l" ">" (OtherNum "5")])])] a0 p0.
Proof.
  intros idx c float.
  apply (C9_left_variable_is_base float idx
           [Comparison.mk ("x", "var") ("5", "num") ">"] c
           [(0, [(0, [mk_comparison_struct "l" ">" (OtherNum "5")])])]
           "z" "x" 1 1 0 0); reflexivity.
Defined.

(** ** Recursive alias groups *)

Section AliasFacts.
Context {R : Type} (eval : odict string R) (iter_num : Z).

Lemma list_modify_middle {A : Type} (f : A -> A) (pre : list A) x post :
  list_modify (List.length pre) f (pre ++ x :: post) = pre ++ f x :: post.
Proof. induction pre as [|y pre IH]; simpl; [reflexivity|]. now rewrite IH. Qed.

Lemma count_loop body_atoms : forall (names : list (list Alias.t)) k,
  fold_left
    (fun '(names, idb_num) atom =>
       let idb_num := if od_mem (Atom.name atom) eval then idb_num + 1 else idb_num in
       (names ++ [[]], idb_num))
    body_atoms (names, k)
  = (names ++ repeat [] (List.length body_atoms), k + idb_count eval body_atoms).
Proof.
  induction body_atoms as [|atom r IH]; intros names k; simpl.
  - now rewrite app_nil_r, Nat.add_0_r.
  - rewrite IH. unfold idb_count. simpl.
    rewrite <- app_assoc. simpl.
    destruct (od_mem (Atom.name atom) eval); simpl; f_equal; lia.
Qed.

Lemma alias_loop body_atoms : forall (done : list (list Alias.t)),
  fold_from (List.length done) body_atoms
    (fun i atom names =>
       let atom_name := Atom.name atom in
       if negb (od_mem atom_name eval) then
         list_modify i (fun l => l ++ [Alias.mk atom_name "default"]) names
       else
         let prev_idb_name := (atom_name ++ "_prev")%string in
         let delta_idb_name :=
           (atom_name ++ "_delta_" ++ string_of_Z (iter_num - 1))%string in
         list_modify i
           (fun l => (l ++ [Alias.mk prev_idb_name "prev"])
                       ++ [Alias.mk delta_idb_name "delta"])
           names)
    (done ++ repeat [] (List.length body_atoms))
  = done ++ map (alias_choices eval iter_num) body_atoms.
Proof.
  induction body_atoms as [|atom r IH]; intros done; simpl; [reflexivity|].
  specialize (IH (done ++ [alias_choices eval iter_num atom])).
  rewrite length_app, Nat.add_1_r, <- !app_assoc in IH. simpl in IH.
  rewrite <- IH. f_equal.
  unfold alias_choices. destruct (od_mem (Atom.name atom) eval); simpl;
    now rewrite list_modify_middle.
Qed.

(** What [build_recursive_atom_aliases] returns. *)
Lemma build_recursive_atom_aliases_eq body_atoms :
  build_recursive_atom_aliases body_atoms eval iter_num =
  AtomAliases.mk (map (alias_choices eval iter_num) body_atoms) (idb_count eval body_atoms).
Proof.
  unfold build_recursive_atom_aliases.
  rewrite count_loop. simpl. rewrite for_range_fold_from.
  f_equal. exact (alias_loop body_atoms []).
Qed.

Lemma expand_shift (l pre : list (list Alias.t)) : forall s,
  fold_result
    (fun groups atom_index =>
       match nth_error (pre ++ l) atom_index with
       | None => raise IndexError
       | Some atom_eval_names => extend_groups groups atom_eval_names
       end)
    (seq (List.length pre) (List.length l)) s
  = fold_result extend_groups l s.
Proof.
  revert pre. induction l as [|x r IH]; intros pre s; simpl; [reflexivity|].
  rewrite nth_error_app2 by lia. rewrite Nat.sub_diag. simpl.
  destruct (extend_groups s x) as [e|s']; [reflexivity|].
  specialize (IH (pre ++ [x]) s').
  rewrite <- app_assoc, length_app, Nat.add_1_r in IH. exact IH.
Qed.

Lemma expand_alias_groups_eq (body_atoms : list Atom.t) names :
  List.length names = List.length body_atoms ->
  expand_alias_groups body_atoms names = fold_result extend_groups names [].
Proof.
  intros Hlen. unfold expand_alias_groups. rewrite <- Hlen.
  exact (expand_shift names [] []).
Qed.

Lemma prev_count_acc group : forall n,
  fold_left
    (fun n alias => if (Alias.type alias =? "prev")%string then n + 1 else n) group n
  = n + prev_count group.
Proof.
  unfold prev_count. induction group as [|x g IH]; intros n; simpl; [lia|].
  destruct (Alias.type x =? "prev")%string.
  - rewrite IH, (IH 1). lia.
  - rewrite IH, (IH 0). lia.
Qed.

Lemma prev_count_cons x group :
  prev_count (x :: group) =
  (if (Alias.type x =? "prev")%string then 1 else 0) + prev_count group.
Proof.
  unfold prev_count at 1. simpl. rewrite prev_count_acc.
  destruct (Alias.type x =? "prev")%string; reflexivity.
Qed.

Lemma prev_count_snoc group x :
  prev_count (group ++ [x]) =
  prev_count group + (if (Alias.type x =? "prev")%string then 1 else 0).
Proof.
  induction group as [|y g IH]; simpl.
  - rewrite prev_count_cons. unfold prev_count. simpl. lia.
  - rewrite !prev_count_cons, IH. lia.
Qed.

Lemma idb_count_snoc done atom :
  idb_count eval (done ++ [atom]) =
  idb_count eval done + (if od_mem (Atom.name atom) eval then 1 else 0).
Proof.
  unfold idb_count. rewrite filter_app, length_app. simpl.
  destruct (od_mem (Atom.name atom) eval); reflexivity.
Qed.

Lemma group_of_snoc done atom g x :
  group_of eval iter_num done g ->
  In x (alias_choices eval iter_num atom) ->
  group_of eval iter_num (done ++ [atom]) (g ++ [x]).
Proof.
  intros Hg Hx. apply Forall2_app; [assumption|]. constructor; [assumption|constructor].
Qed.

(** One step of the expansion keeps [expansion_state]. *)
Lemma extend_groups_state done groups atom :
  expansion_state eval iter_num done groups ->
  exists groups',
    extend_groups groups (alias_choices eval iter_num atom) = ok groups' /\
    expansion_state eval iter_num (done ++ [atom]) groups'.
Proof.
  intros Hst. unfold alias_choices.
  assert (Hne : done ++ [atom] <> []) by (destruct done; discriminate).
  destruct (od_mem (Atom.name atom) eval) eqn:Em.
  - (* an evaluated atom: two candidates *)
    set (p := Alias.mk (Atom.name atom ++ "_prev")%string "prev").
    set (d := Alias.mk (Atom.name atom ++ "_delta_" ++ string_of_Z (iter_num - 1))%string
                "delta").
    assert (Hp : In p (alias_choices eval iter_num atom))
      by (unfold alias_choices; rewrite Em; now left).
    assert (Hd : In d (alias_choices eval iter_num atom))
      by (unfold alias_choices; rewrite Em; right; now left).
    destruct Hst as [[-> ->]|[_ [h [t [-> [Hh [Ht [Hlen Hgr]]]]]]]].
    + exists [[p]; [d]]. split; [reflexivity|]. right. split; [assumption|].
      exists [p], [[d]]. simpl. unfold idb_count. simpl. rewrite Em. simpl.
      repeat split; auto.
      * intros g [<-|[]]. unfold prev_count. simpl. lia.
      * intros g [<-|[<-|[]]]; (constructor; [assumption|constructor]).
    + exists (map (fun g => g ++ [p]) (h :: t) ++ map (fun g => g ++ [d]) (h :: t)).
      split; [reflexivity|]. right. split; [assumption|].
      exists (h ++ [p]), (map (fun g => g ++ [p]) t ++ map (fun g => g ++ [d]) (h :: t)).
      rewrite idb_count_snoc, Em.
      split; [reflexivity|]. split; [|split; [|split]].
      * rewrite prev_count_snoc. simpl. lia.
      * intros g Hg. apply in_app_or in Hg. destruct Hg as [Hg|Hg];
          apply in_map_iff in Hg; destruct Hg as [g0 [<- Hg0]];
          rewrite prev_count_snoc; simpl.
        -- apply Ht in Hg0. lia.
        -- destruct Hg0 as [<-|Hg0]; [lia|]. apply Ht in Hg0. lia.
      * rewrite length_app, !length_map, Hlen.
        rewrite Nat.add_1_r. simpl. lia.
      * intros g Hg. apply in_app_or in Hg. destruct Hg as [Hg|Hg];
          apply in_map_iff in Hg; destruct Hg as [g0 [<- Hg0]];
          apply group_of_snoc; auto.
  - (* any other atom: one candidate *)
    set (d := Alias.mk (Atom.name atom) "default").
    assert (Hd : In d (alias_choices eval iter_num atom))
      by (unfold alias_choices; rewrite Em; now left).
    destruct Hst as [[-> ->]|[_ [h [t [-> [Hh [Ht [Hlen Hgr]]]]]]]].
    + exists [[d]]. split; [reflexivity|]. right. split; [assumption|].
      exists [d], []. simpl. unfold idb_count. simpl. rewrite Em. simpl.
      repeat split; auto.
      * intros g [].
      * intros g [<-|[]]. constructor; [assumption|constructor].
    + exists (map (fun g => g ++ [d]) (h :: t)).
      split; [reflexivity|]. right. split; [assumption|].
      exists (h ++ [d]), (map (fun g => g ++ [d]) t).
      rewrite idb_count_snoc, Em, Nat.add_0_r.
      split; [reflexivity|]. split; [|split; [|split]].
      * rewrite prev_count_snoc. simpl. lia.
      * intros g Hg. apply in_map_iff in Hg. destruct Hg as [g0 [<- Hg0]].
        rewrite prev_count_snoc. simpl. apply Ht in Hg0. lia.
      * rewrite length_map. exact Hlen.
      * intros g Hg. apply in_map_iff in Hg. destruct Hg as [g0 [<- Hg0]].
        apply group_of_snoc; auto.
Qed.

Lemma expansion_reaches_state rest : forall done groups,
  expansion_state eval iter_num done groups ->
  exists groups',
    fold_result extend_groups (map (alias_choices eval iter_num) rest) groups = ok groups' /\
    expansion_state eval iter_num (done ++ rest) groups'.
Proof.
  induction rest as [|atom r IH]; intros done groups Hst; simpl.
  - exists groups. rewrite app_nil_r. auto.
  - destruct (extend_groups_state done groups atom Hst) as [g1 [E1 H1]].
    rewrite E1. destruct (IH _ _ H1) as [g2 [E2 H2]].
    exists g2. rewrite <- app_assoc in H2. auto.
Qed.
End AliasFacts.

Lemma group_eqb_refl g : group_eqb g g = true.
Proof.
  induction g as [|x g IH]; simpl; [reflexivity|].
  unfold Alias.eqb. now rewrite !String.eqb_refl, IH.
Qed.

(** The removal loop leaves a list alone when no group has [idb_num]
    aliases of type ['prev']. *)
Lemma remove_all_prev_nothing idb_num groups :
  (forall g, In g groups -> prev_count g <> idb_num) ->
  forall fuel i, remove_all_prev fuel i idb_num groups = ok groups.
Proof.
  intros Hno. induction fuel as [|fuel IH]; intros i; simpl; [reflexivity|].
  destruct (nth_error groups i) as [g|] eqn:En; [|reflexivity].
  apply nth_error_In in En. apply Hno in En.
  destruct (Nat.eqb_spec (prev_count g) idb_num); [contradiction|]. apply IH.
Qed.

Section AliasGroups.
Context {R : Type} (eval : odict string R) (iter_num : Z).

(** In a group that assigns candidates to the atoms, either every
    evaluated atom has its ['prev'] alias, or some alias is a ['delta']. *)
Lemma group_prev_or_delta body_atoms g :
  group_of eval iter_num body_atoms g ->
  idb_count eval body_atoms <= prev_count g \/
  exists alias, In alias g /\ Alias.type alias = "delta".
Proof.
  unfold group_of. induction 1 as [|atom x atoms g Hx Hrest IH].
  - left. unfold idb_count. simpl. lia.
  - destruct IH as [IH|[alias [Hin Ht]]]; [|right; exists alias; split; [now right|assumption]].
    unfold alias_choices in Hx. unfold idb_count in *. simpl.
    destruct (od_mem (Atom.name atom) eval); simpl in *.
    + destruct Hx as [<-|[<-|[]]].
      * left. rewrite prev_count_cons. simpl. lia.
      * right. eexists. split; [now left|reflexivity].
    + destruct Hx as [<-|[]]. left. rewrite prev_count_cons. simpl. lia.
Qed.

(** The groups returned for any body: the expansion without its first
    group. *)
Lemma alias_groups_emitted body_atoms :
  exists groups,
    build_recursive_atom_alias_groups body_atoms
      (build_recursive_atom_aliases body_atoms eval iter_num) = ok groups /\
    List.length groups = 2 ^ idb_count eval body_atoms - 1 /\
    forall g, In g groups ->
      prev_count g < idb_count eval body_atoms /\ group_of eval iter_num body_atoms g.
Proof.
  rewrite build_recursive_atom_aliases_eq.
  unfold build_recursive_atom_alias_groups. simpl.
  rewrite expand_alias_groups_eq by apply length_map.
  destruct (expansion_reaches_state eval iter_num body_atoms [] [])
    as [groups [Hfold Hst]]; [left; auto|].
  rewrite Hfold. simpl in Hst.
  destruct Hst as [[-> ->]|[_ [h [t [-> [Hh [Ht [Hlen Hgr]]]]]]]].
  - exists []. simpl. repeat split; auto; contradiction.
  - exists t. unfold ok. cbn [List.length remove_all_prev nth_error].
    rewrite Hh, Nat.eqb_refl. cbn [list_remove]. rewrite group_eqb_refl.
    split; [|split].
    + apply remove_all_prev_nothing. intros g Hg. apply Ht in Hg. lia.
    + simpl in Hlen. lia.
    + intros g Hg. split; [now apply Ht|]. apply Hgr. now right.
Qed.
End AliasGroups.

(** C1, as amended.  For every rule body and eval-idb set,
    [build_recursive_atom_aliases] counts in [idb_num] the body atoms whose
    relation is in the set, and [build_recursive_atom_alias_groups] emits
    exactly [2 ^ idb_num - 1] groups, whether or not those atoms are
    pairwise distinct relations: the expansion yields [2 ^ idb_num] groups
    and the one in which every recursively-evaluated atom chose ['prev'] is
    removed.  Every emitted group gives each atom one of its candidate
    aliases and contains a ['delta'] alias.  With no recursively-evaluated
    atom the removed group is the only one, and nothing is emitted. *)
Theorem C1_alias_group_count {R : Type} (body_atoms : list Atom.t)
    (eval_idb_to_rule_maps : odict string R) (iter_num : Z) :
  let atom_aliases_map :=
    build_recursive_atom_aliases body_atoms eval_idb_to_rule_maps iter_num in
  AtomAliases.idb_num atom_aliases_map = idb_count eval_idb_to_rule_maps body_atoms /\
  exists groups,
    build_recursive_atom_alias_groups body_atoms atom_aliases_map = ok groups /\
    List.length groups = 2 ^ AtomAliases.idb_num atom_aliases_map - 1 /\
    (forall g, In g groups ->
       group_of eval_idb_to_rule_maps iter_num body_atoms g /\
       exists alias, In alias g /\ Alias.type alias = "delta") /\
    (AtomAliases.idb_num atom_aliases_map = 0 -> groups = []).
Proof.
  intros atom_aliases_map.
  assert (Hk : AtomAliases.idb_num atom_aliases_map
               = idb_count eval_idb_to_rule_maps body_atoms)
    by (unfold atom_aliases_map; now rewrite build_recursive_atom_aliases_eq).
  split; [exact Hk|].
  destruct (alias_groups_emitted eval_idb_to_rule_maps iter_num body_atoms)
    as [groups [Hres [Hlen Hall]]].
  exists groups. fold atom_aliases_map in Hres.
  split; [exact Hres|]. split; [now rewrite Hk|]. split.
  - intros g Hg. destruct (Hall g Hg) as [Hlt Hof]. split; [exact Hof|].
    destruct (group_prev_or_delta eval_idb_to_rule_maps iter_num body_atoms g Hof)
      as [Hle|Hd]; [lia | exact Hd].
  - intros H0. rewrite Hk in H0. rewrite H0 in Hlen. simpl in Hlen.
    destruct groups; [reflexivity | discriminate].
Qed.

(** C1 as stated fails when no body atom is in the eval set: the single
    all-['default'] group has no ['prev'] alias, [0 = idb_num], and the
    final loop removes it. *)
Lemma C1_counterexample :
  let body_atoms := [Atom.mk "E" []] in
  let eval_idb_to_rule_maps := @nil (string * unit) in
  let atom_aliases_map := build_recursive_atom_aliases body_atoms eval_idb_to_rule_maps 1 in
  AtomAliases.idb_num atom_aliases_map = 0 /\
  build_recursive_atom_alias_groups body_atoms atom_aliases_map = ok [] /\
  ~ (exists group,
       build_recursive_atom_alias_groups body_atoms atom_aliases_map = ok [group] /\
       Forall (fun alias => Alias.type alias = "default") group).
Proof.
  simpl. split; [reflexivity|]. split; [reflexivity|].
  intros [group [Hres _]]. discriminate Hres.
Qed.

(** Two recursive atoms of the same relation: three groups, in the order
    delta/prev, prev/delta, delta/delta. *)
Example alias_groups_of_two_recursive_atoms :
  build_recursive_atom_alias_groups [Atom.mk "R" []; Atom.mk "R" []]
    (build_recursive_atom_aliases [Atom.mk "R" []; Atom.mk "R" []] [("R", tt)] 3)
  = ok [[Alias.mk "R_delta_2" "delta"; Alias.mk "R_prev" "prev"];
        [Alias.mk "R_prev" "prev"; Alias.mk "R_delta_2" "delta"];
        [Alias.mk "R_delta_2" "delta"; Alias.mk "R_delta_2" "delta"]].
Proof. reflexivity. Qed.

Lemma list_remove_length g l l' :
  list_remove g l = Some l' -> List.length l = S (List.length l').
Proof.
  revert l'. induction l as [|x r IH]; intros l'; simpl; [discriminate|].
  destruct (group_eqb x g); [now intros [= ->]|].
  destruct (list_remove g r) as [r'|]; [|discriminate].
  intros [= <-]. simpl. f_equal. now apply IH.
Qed.

(** The bound on the removal loop is never what ends it: once the bound
    covers the elements still ahead of the iterator, a larger bound gives
    the same result. *)
Lemma remove_all_prev_fuel idb_num : forall fuel i groups,
  List.length groups <= i + fuel ->
  remove_all_prev (S fuel) i idb_num groups = remove_all_prev fuel i idb_num groups.
Proof.
  induction fuel as [|fuel IH]; intros i groups Hlen.
  - simpl. destruct (nth_error groups i) eqn:En; [|reflexivity].
    assert (Hs : nth_error groups i <> None) by congruence.
    apply nth_error_Some in Hs. lia.
  - cbn [remove_all_prev]. destruct (nth_error groups i) as [g|] eqn:En; [|reflexivity].
    destruct (prev_count g =? idb_num).
    + destruct (list_remove g groups) as [groups'|] eqn:Er; [|reflexivity].
      apply list_remove_length in Er.
      apply (IH (S i) groups'). lia.
    + apply (IH (S i) groups). lia.
Qed.

(** * Properties of the object-store layer *)

Lemma env_prefix_refl (G : env) : env_prefix G G.
Proof. exists []. now rewrite app_nil_r. Qed.

Lemma env_prefix_trans (G1 G2 G3 : env) :
  env_prefix G1 G2 -> env_prefix G2 G3 -> env_prefix G1 G3.
Proof. intros [D1 ->] [D2 ->]. exists (D1 ++ D2). now rewrite app_assoc. Qed.

Lemma env_prefix_nth (G G' : env) i kt :
  env_prefix G G' -> nth_error G i = Some kt -> nth_error G' i = Some kt.
Proof.
  intros [D ->] Hn. rewrite nth_error_app1; [assumption|].
  apply nth_error_Some. congruence.
Qed.

Lemma Forall2_nth_error {A B : Type} (P : A -> B -> Prop) l1 l2 i a b :
  Forall2 P l1 l2 -> nth_error l1 i = Some a -> nth_error l2 i = Some b -> P a b.
Proof.
  intros Hall. revert i. induction Hall as [|a' b' l1 l2 Hab Hall IH]; intros i Ha Hb.
  - destruct i; discriminate.
  - destruct i as [|i]; simpl in *.
    + injection Ha as <-. injection Hb as <-. exact Hab.
    + eapply IH; eauto.
Qed.

Lemma upd_app_r {A : Type} (l1 l2 : list A) i x :
  Heap.upd (List.length l1 + i) x (l1 ++ l2) = l1 ++ Heap.upd i x l2.
Proof. induction l1 as [|y l1 IH]; simpl; [reflexivity|]. now rewrite IH. Qed.

Lemma Forall2_upd {A B : Type} (P : A -> B -> Prop) l1 l2 i x y :
  Forall2 P l1 l2 -> nth_error l2 i = Some y -> P x y ->
  Forall2 P (Heap.upd i x l1) l2.
Proof.
  intros Hall. revert i. induction Hall as [|a b l1 l2 Hab Hall IH]; intros i Hn Hp.
  - destruct i; discriminate.
  - destruct i as [|i]; simpl in *.
    + injection Hn as ->. now constructor.
    + constructor; [assumption|]. now apply IH.
Qed.

Section StoreFacts.
Context {F : Type}.
Context (float_of_int : Z -> F).
Context (float_eqb : F -> F -> bool).
Context (h0 : Heap.heap (F:=F)).

Local Abbreviation val := (Heap.val (F:=F)).
Local Abbreviation cell := (Heap.cell (F:=F)).
Local Abbreviation heap := (Heap.heap (F:=F)).
Local Abbreviation M := (Heap.M (F:=F)).
Local Abbreviation has_type := (has_type h0).
Local Abbreviation extends := (extends h0).
Local Abbreviation spec := (spec h0).
Local Abbreviation reads := (reads h0).
Local Abbreviation writes := (writes h0).

Implicit Types (G : env) (h : heap) (v x : val) (c : cell) (t : ty).

Lemma has_type_mono G G' v t : env_prefix G G' -> has_type G v t -> has_type G' v t.
Proof.
  intros Hp. destruct t as [|k t']; simpl; [auto|].
  intros [i [-> Hn]]. exists i. split; [reflexivity|]. eapply env_prefix_nth; eauto.
Qed.

Lemma cell_typed_mono G G' c kt :
  env_prefix G G' -> cell_typed h0 G c kt -> cell_typed h0 G' c kt.
Proof.
  intros Hp [Hk Hall]. split; [assumption|].
  eapply Forall_impl; [|exact Hall]. intros v. now apply has_type_mono.
Qed.

Lemma extends_length G h : extends G h -> List.length h = List.length h0 + List.length G.
Proof.
  intros [hf [-> Hall]]. rewrite length_app. f_equal. eapply Forall2_length; eauto.
Qed.

Lemma extends_initial : extends [] h0.
Proof. exists []. split; [now rewrite app_nil_r | constructor]. Qed.

Lemma extends_unchanged G h : extends G h -> unchanged h0 h.
Proof. intros [hf [-> _]]. now exists hf. Qed.

(** Reading a cell of the call gives a cell of the recorded type. *)
Lemma extends_lookup G h i c kt :
  extends G h -> nth_error h (List.length h0 + i) = Some c -> nth_error G i = Some kt ->
  cell_typed h0 G c kt.
Proof.
  intros [hf [-> Hall]] Hn Hg.
  rewrite nth_error_app2 in Hn by lia.
  replace (List.length h0 + i - List.length h0) with i in Hn by lia.
  eapply Forall2_nth_error; eauto.
Qed.

Lemma extends_alloc G h c t :
  extends G h ->
  Forall (fun v => has_type G v t) (children c) ->
  extends (G ++ [(kind_of c, t)]) (h ++ [c]) /\
  has_type (G ++ [(kind_of c, t)]) (Heap.VRef (List.length h)) (Fresh (kind_of c) t).
Proof.
  intros Hext Hch. pose proof (extends_length G h Hext) as Hlen.
  destruct Hext as [hf [-> Hall]].
  assert (Hp : env_prefix G (G ++ [(kind_of c, t)])) by (now exists [(kind_of c, t)]).
  split.
  - exists (hf ++ [c]). split; [now rewrite app_assoc|].
    apply Forall2_app.
    + eapply Forall2_impl; [|exact Hall]. intros c' kt'. now apply cell_typed_mono.
    + constructor; [|constructor]. split; [reflexivity|]. simpl.
      eapply Forall_impl; [|exact Hch]. intros v. now apply has_type_mono.
  - simpl. exists (List.length G). split; [now rewrite Hlen|].
    rewrite nth_error_app2 by lia. now rewrite Nat.sub_diag.
Qed.

(** Replacing a cell of the call by one of the same type. *)
Lemma extends_store G h i c kt :
  extends G h -> nth_error G i = Some kt -> cell_typed h0 G c kt ->
  extends G (Heap.upd (List.length h0 + i) c h).
Proof.
  intros [hf [-> Hall]] Hn Hc. exists (Heap.upd i c hf).
  split; [apply upd_app_r|]. eapply Forall2_upd; eauto.
Qed.

(** ** Rules for sequencing *)

Lemma spec_ret {A : Type} G (a : A) (Q : env -> A -> Prop) :
  Q G a -> spec G (Heap.ret a) Q.
Proof.
  intros HQ h Hext. exists G. split; [apply env_prefix_refl|]. split; [exact Hext|].
  simpl. now intros a' [= <-].
Qed.

Lemma spec_throw {A : Type} G e (Q : env -> A -> Prop) : spec G (Heap.throw e) Q.
Proof.
  intros h Hext. exists G. split; [apply env_prefix_refl|]. split; [exact Hext|].
  simpl. discriminate.
Qed.

Lemma spec_bind {A B : Type} G (m : M A) (f : A -> M B) Q R :
  spec G m Q ->
  (forall G' a, env_prefix G G' -> Q G' a -> spec G' (f a) R) ->
  spec G (Heap.bind m f) R.
Proof.
  intros Hm Hf h Hext. destruct (Hm h Hext) as [G1 [Hp1 [Hext1 HQ]]].
  unfold Heap.bind. destruct (m h) as [h1 [e|a]] eqn:Em; simpl in *.
  - exists G1. split; [assumption|]. split; [assumption|]. discriminate.
  - destruct (Hf G1 a Hp1 (HQ a eq_refl) h1 Hext1) as [G2 [Hp2 [Hext2 HR]]].
    exists G2. split; [eapply env_prefix_trans; eauto|]. auto.
Qed.

Lemma spec_weaken {A : Type} G (m : M A) (Q Q' : env -> A -> Prop) :
  spec G m Q ->
  (forall G' a, env_prefix G G' -> Q G' a -> Q' G' a) ->
  spec G m Q'.
Proof.
  intros Hm Hw h Hext. destruct (Hm h Hext) as [G1 [Hp1 [Hext1 HQ]]].
  exists G1. split; [assumption|]. split; [assumption|]. auto.
Qed.

Lemma spec_reads {A : Type} G (m : M A) P (Q : env -> A -> Prop) :
  reads G m P -> (forall a, P a -> Q G a) -> spec G m Q.
Proof.
  intros Hm HQ h Hext. destruct (Hm h Hext) as [Hh HP].
  exists G. split; [apply env_prefix_refl|]. rewrite Hh. auto.
Qed.

Lemma spec_writes {A : Type} G (m : M A) (Q : env -> A -> Prop) :
  writes G m -> (forall a, Q G a) -> spec G m Q.
Proof.
  intros Hm HQ h Hext. exists G. split; [apply env_prefix_refl|]. auto.
Qed.

Lemma spec_bind_reads {A B : Type} G (m : M A) (f : A -> M B) P R :
  reads G m P -> (forall a, P a -> spec G (f a) R) -> spec G (Heap.bind m f) R.
Proof.
  intros Hm Hf. apply (spec_bind G m f (fun G' a => G' = G /\ P a)).
  - apply (spec_reads G m P); [exact Hm|]. intros a Ha. split; [reflexivity|exact Ha].
  - intros G' a _ [-> Ha]. auto.
Qed.

Lemma spec_bind_writes {A B : Type} G (m : M A) (f : A -> M B) R :
  writes G m -> (forall a, spec G (f a) R) -> spec G (Heap.bind m f) R.
Proof.
  intros Hm Hf. apply (spec_bind G m f (fun G' _ => G' = G)).
  - apply (spec_writes G m); [exact Hm|]. reflexivity.
  - intros G' a _ ->. auto.
Qed.

Lemma spec_alloc G c t (Q : env -> val -> Prop) :
  Forall (fun v => has_type G v t) (children c) ->
  (forall G' v, env_prefix G G' -> has_type G' v (Fresh (kind_of c) t) -> Q G' v) ->
  spec G (Heap.alloc c) Q.
Proof.
  intros Hch HQ h Hext. destruct (extends_alloc G h c t Hext Hch) as [Hext' Hty].
  assert (Hp : env_prefix G (G ++ [(kind_of c, t)])) by (now exists [(kind_of c, t)]).
  exists (G ++ [(kind_of c, t)]). split; [assumption|]. split; [exact Hext'|].
  simpl. intros a [= <-]. auto.
Qed.

Lemma spec_bind_alloc {B : Type} G c t (f : val -> M B) R :
  Forall (fun v => has_type G v t) (children c) ->
  (forall G' v, env_prefix G G' -> has_type G' v (Fresh (kind_of c) t) -> spec G' (f v) R) ->
  spec G (Heap.bind (Heap.alloc c) f) R.
Proof.
  intros Hch Hf.
  apply (spec_bind G (Heap.alloc c) f (fun G' v => has_type G' v (Fresh (kind_of c) t))).
  - apply (spec_alloc G c t); [exact Hch|]. auto.
  - intros G' v Hp Hv. auto.
Qed.

(** ** Operations that only read *)

Lemma pure_read_ret {A : Type} (a : A) : pure_read (Heap.ret (F:=F) a).
Proof. intros h. reflexivity. Qed.

Lemma pure_read_throw {A : Type} e : pure_read (Heap.throw (F:=F) (A:=A) e).
Proof. intros h. reflexivity. Qed.

Lemma pure_read_bind {A B : Type} (m : M A) (f : A -> M B) :
  pure_read m -> (forall a, pure_read (f a)) -> pure_read (Heap.bind m f).
Proof.
  intros Hm Hf h. unfold Heap.bind. specialize (Hm h).
  destruct (m h) as [h1 [e|a]]; simpl in *; [assumption|].
  rewrite Hf. assumption.
Qed.

Lemma pure_read_load a : pure_read (Heap.load (F:=F) a).
Proof. intros h. unfold Heap.load. destruct (nth_error h a); reflexivity. Qed.

Lemma pure_read_for_each {X St : Type} (l : list X) (body : St -> X -> M (Heap.control St)) :
  (forall s a, pure_read (body s a)) -> forall s, pure_read (Heap.for_each l s body).
Proof.
  intros Hb. induction l as [|a l IH]; intros s; simpl.
  - apply pure_read_ret.
  - apply pure_read_bind; [apply Hb|]. intros [s'|s']; [apply IH | apply pure_read_ret].
Qed.

Lemma reads_of_pure {A : Type} G (m : M A) : pure_read m -> reads G m (fun _ => True).
Proof. intros Hm h _. split; [apply Hm | auto]. Qed.

Ltac pure_read_tac :=
  repeat first
    [ apply pure_read_ret | apply pure_read_throw | apply pure_read_load
    | apply pure_read_bind; [|intros ?]
    | match goal with
      | |- pure_read (match ?d with _ => _ end) => destruct d
      | |- pure_read (if ?d then _ else _) => destruct d
      end ].

Lemma pure_read_hashable v : pure_read (Heap.hashable v).
Proof. unfold Heap.hashable. pure_read_tac. Qed.

Lemma pure_read_getitem v x : pure_read (Heap.py_getitem float_of_int float_eqb v x).
Proof. unfold Heap.py_getitem. pure_read_tac; apply pure_read_hashable. Qed.

Lemma pure_read_getattr v name : pure_read (Heap.py_getattr v name).
Proof. unfold Heap.py_getattr. pure_read_tac. Qed.

Lemma pure_read_contains v x : pure_read (Heap.py_contains float_of_int float_eqb v x).
Proof. unfold Heap.py_contains. pure_read_tac; apply pure_read_hashable. Qed.

Lemma pure_read_len v : pure_read (Heap.py_len v).
Proof. unfold Heap.py_len. pure_read_tac. Qed.

Lemma pure_read_lower v : pure_read (Heap.py_lower v).
Proof. unfold Heap.py_lower. pure_read_tac. Qed.

Lemma pure_read_str v : pure_read (Heap.py_str v).
Proof. unfold Heap.py_str. pure_read_tac. Qed.

Lemma pure_read_pred v : pure_read (Heap.py_pred v).
Proof. unfold Heap.py_pred. pure_read_tac. Qed.

Lemma pure_read_float (float_of_string : string -> option F) v :
  pure_read (Heap.py_float float_of_string float_of_int v).
Proof. unfold Heap.py_float. pure_read_tac. Qed.

Lemma pure_read_eq fuel : forall v x, pure_read (Heap.py_eq float_of_int float_eqb fuel v x).
Proof.
  induction fuel as [|fuel IH]; intros v x; simpl; [apply pure_read_throw|].
  destruct v, x; try apply pure_read_ret.
  destruct (a =? a0); [apply pure_read_ret|].
  apply pure_read_bind; [apply pure_read_load|]. intros ca.
  apply pure_read_bind; [apply pure_read_load|]. intros cb.
  destruct ca, cb; try apply pure_read_ret.
  - destruct (negb _); [apply pure_read_ret|].
    apply pure_read_for_each. intros s [u w].
    apply pure_read_bind; [apply IH|]. intros []; apply pure_read_ret.
  - destruct (negb _); [apply pure_read_ret|].
    apply pure_read_for_each. intros s [k u].
    destruct (Heap.entries_get _ _ k entries0); [|apply pure_read_ret].
    apply pure_read_bind; [apply IH|]. intros []; apply pure_read_ret.
Qed.

Lemma pure_read_remove_first fuel x items :
  pure_read (Heap.remove_first float_of_int float_eqb fuel x items).
Proof.
  induction items as [|y items IH]; simpl; [apply pure_read_ret|].
  apply pure_read_bind; [apply pure_read_eq|]. intros [|]; [apply pure_read_ret|].
  apply pure_read_bind; [apply IH|]. intros [r|]; apply pure_read_ret.
Qed.

(** ** Typed reads *)

Lemma entries_get_In k (entries : list (val * val)) x :
  Heap.entries_get float_of_int float_eqb k entries = Some x -> In x (map snd entries).
Proof.
  induction entries as [|[k' v'] entries IH]; simpl; [discriminate|].
  destruct (Heap.val_eqb _ _ k k'); [intros [= ->]; now left | auto].
Qed.

Lemma attrs_get_In name (attrs : list (string * val)) x :
  Heap.attrs_get name attrs = Some x -> In x (map snd attrs).
Proof.
  induction attrs as [|[n v'] attrs IH]; simpl; [discriminate|].
  destruct (name =? n)%string; [intros [= ->]; now left | auto].
Qed.

(** The cell behind a reference of the call has the recorded type. *)
Lemma typed_cell G h v kd t a c :
  extends G h -> has_type G v (Fresh kd t) -> v = Heap.VRef a -> nth_error h a = Some c ->
  kind_of c = kd /\ Forall (fun x => has_type G x t) (children c).
Proof.
  intros Hext [i [-> Hn]] [= <-] Hc.
  exact (extends_lookup G h i c (kd, t) Hext Hc Hn).
Qed.

Lemma reads_getitem G v k :
  reads G (Heap.py_getitem float_of_int float_eqb v k)
    (fun x => forall kd t, has_type G v (Fresh kd t) -> has_type G x t).
Proof.
  intros h Hext. split; [apply pure_read_getitem|].
  intros x Hx kd t Hv. unfold Heap.py_getitem in Hx.
  destruct v as [| | | |a]; try (destruct Hv as [i [Hv _]]; discriminate).
  unfold Heap.bind, Heap.load in Hx.
  destruct (nth_error h a) as [c|] eqn:Ec; simpl in Hx; [|discriminate].
  destruct (typed_cell G h _ kd t a c Hext Hv eq_refl Ec) as [_ Hall].
  rewrite Forall_forall in Hall. apply Hall.
  destruct c as [items|entries|attrs]; simpl in *.
  - destruct k; try discriminate.
    destruct (Heap.sequence_index z (List.length items)); [|discriminate].
    destruct (nth_error items n) eqn:En; [|discriminate].
    injection Hx as <-. eapply nth_error_In; eauto.
  - destruct (Heap.hashable k h) as [h1 [e|u]]; simpl in Hx; [discriminate|].
    destruct (Heap.entries_get _ _ k entries) eqn:Eg; [|discriminate].
    injection Hx as <-. eapply entries_get_In; eauto.
  - discriminate.
Qed.

Lemma reads_getattr G v name :
  reads G (Heap.py_getattr v name)
    (fun x => forall kd t, has_type G v (Fresh kd t) -> has_type G x t).
Proof.
  intros h Hext. split; [apply pure_read_getattr|].
  intros x Hx kd t Hv. unfold Heap.py_getattr in Hx.
  destruct v as [| | | |a]; try discriminate.
  unfold Heap.bind, Heap.load in Hx.
  destruct (nth_error h a) as [c|] eqn:Ec; simpl in Hx; [|discriminate].
  destruct (typed_cell G h _ kd t a c Hext Hv eq_refl Ec) as [_ Hall].
  rewrite Forall_forall in Hall. apply Hall.
  destruct c as [items|entries|attrs]; simpl in *; try discriminate.
  destruct (Heap.attrs_get name attrs) eqn:Eg; [|discriminate].
  injection Hx as <-. eapply attrs_get_In; eauto.
Qed.

Lemma reads_load G a :
  reads G (Heap.load a)
    (fun c => a < List.length h0 + List.length G /\
              forall i kt, a = List.length h0 + i -> nth_error G i = Some kt ->
                           cell_typed h0 G c kt).
Proof.
  intros h Hext. split; [apply pure_read_load|].
  intros c Hc. unfold Heap.load in Hc.
  destruct (nth_error h a) as [c'|] eqn:Ec; simpl in Hc; [|discriminate].
  injection Hc as <-. split.
  - rewrite <- (extends_length G h Hext). apply nth_error_Some. congruence.
  - intros i kt -> Hn. eapply extends_lookup; eauto.
Qed.

(** ** Writes through a reference of the call *)

Lemma entries_set_children k x (entries : list (val * val)) y :
  In y (map snd (Heap.entries_set float_of_int float_eqb k x entries)) ->
  y = x \/ In y (map snd entries).
Proof.
  induction entries as [|[k' v'] entries IH]; simpl.
  - intros [<-|[]]. now left.
  - destruct (Heap.val_eqb _ _ k k'); simpl.
    + intros [<-|Hin]; [now left | right; now right].
    + intros [<-|Hin]; [right; now left|]. apply IH in Hin. tauto.
Qed.

Lemma attrs_set_children name x (attrs : list (string * val)) y :
  In y (map snd (Heap.attrs_set name x attrs)) -> y = x \/ In y (map snd attrs).
Proof.
  induction attrs as [|[n v'] attrs IH]; simpl.
  - intros [<-|[]]. now left.
  - destruct (name =? n)%string; simpl.
    + intros [<-|Hin]; [now left | right; now right].
    + intros [<-|Hin]; [right; now left|]. apply IH in Hin. tauto.
Qed.

Lemma upd_children {A : Type} i (a : A) l b : In b (Heap.upd i a l) -> b = a \/ In b l.
Proof.
  revert i. induction l as [|y l IH]; intros i; [destruct i; simpl; tauto|].
  destruct i as [|i]; simpl.
  - intros [<-|Hin]; [now left | right; now right].
  - intros [<-|Hin]; [right; now left|]. apply IH in Hin. tauto.
Qed.

(** Storing, at a reference of the call, a cell of the same kind whose
    values are the old ones and possibly [x]. *)
Lemma extends_replace G h v kd t a c c' x :
  extends G h -> has_type G v (Fresh kd t) -> v = Heap.VRef a -> nth_error h a = Some c ->
  has_type G x t ->
  kind_of c' = kind_of c ->
  (forall y, In y (children c') -> y = x \/ In y (children c)) ->
  extends G (Heap.upd a c' h).
Proof.
  intros Hext Hv -> Hc Hx Hk Hsub.
  destruct (typed_cell G h _ kd t a c Hext Hv eq_refl Hc) as [Hkd Hall].
  destruct Hv as [i [[= ->] Hn]].
  apply (extends_store G h i c' (kd, t) Hext Hn).
  split; [simpl; congruence|]. simpl.
  apply Forall_forall. intros y Hy. apply Hsub in Hy.
  destruct Hy as [->|Hy]; [assumption|]. rewrite Forall_forall in Hall. auto.
Qed.

Lemma writes_append G v x kd t :
  has_type G v (Fresh kd t) -> has_type G x t -> writes G (Heap.py_append v x).
Proof.
  intros Hv Hx h Hext. unfold Heap.py_append.
  destruct v as [| | | |a]; try exact Hext.
  unfold Heap.bind, Heap.load.
  destruct (nth_error h a) as [c|] eqn:Ec; simpl; [|exact Hext].
  destruct c as [items|entries|attrs]; simpl; try exact Hext.
  eapply extends_replace; eauto.
  simpl. intros y Hy. apply in_app_or in Hy. destruct Hy as [Hy|[<-|[]]]; auto.
Qed.

Lemma hashable_heap k h : fst (Heap.hashable (F:=F) k h) = h.
Proof. apply pure_read_hashable. Qed.

Lemma writes_setitem G v k x kd t :
  has_type G v (Fresh kd t) -> has_type G x t ->
  writes G (Heap.py_setitem float_of_int float_eqb v k x).
Proof.
  intros Hv Hx h Hext. unfold Heap.py_setitem.
  destruct v as [| | | |a]; try exact Hext.
  unfold Heap.bind, Heap.load.
  destruct (nth_error h a) as [c|] eqn:Ec; simpl; [|exact Hext].
  destruct c as [items|entries|attrs]; simpl; try exact Hext.
  - destruct k; try exact Hext.
    destruct (Heap.sequence_index z (List.length items)); [|exact Hext].
    simpl. eapply extends_replace; eauto. simpl. apply upd_children.
  - pose proof (hashable_heap k h) as Hh.
    destruct (Heap.hashable k h) as [h1 [e|u]]; simpl in *; subst h1; [exact Hext|].
    eapply extends_replace; eauto. simpl. apply entries_set_children.
Qed.

Lemma writes_setattr G v name x kd t :
  has_type G v (Fresh kd t) -> has_type G x t -> writes G (Heap.py_setattr v name x).
Proof.
  intros Hv Hx h Hext. unfold Heap.py_setattr.
  destruct v as [| | | |a]; try exact Hext.
  unfold Heap.bind, Heap.load.
  destruct (nth_error h a) as [c|] eqn:Ec; simpl; [|exact Hext].
  destruct c as [items|entries|attrs]; simpl; try exact Hext.
  eapply extends_replace; eauto. simpl. apply attrs_set_children.
Qed.

Lemma remove_first_sublist fuel x : forall items h items',
  snd (Heap.remove_first float_of_int float_eqb fuel x items h) = inr (Some items') ->
  forall y, In y items' -> In y items.
Proof.
  induction items as [|z items IH]; intros h items'; simpl.
  - discriminate.
  - unfold Heap.bind.
    pose proof (pure_read_eq fuel z x h) as Hh.
    destruct (Heap.py_eq _ _ fuel z x h) as [h1 [e|b]]; simpl in *; [discriminate|].
    subst h1. destruct b; simpl.
    + intros [= <-] y Hy. now right.
    + specialize (IH h).
      destruct (Heap.remove_first _ _ fuel x items h) as [h2 [e|[r|]]]; simpl in *;
        try discriminate.
      intros [= <-] y [<-|Hy]; [now left|]. right. eapply IH; eauto.
Qed.

Lemma writes_list_remove G fuel v x kd t :
  has_type G v (Fresh kd t) ->
  writes G (Heap.py_list_remove float_of_int float_eqb fuel v x).
Proof.
  intros Hv h Hext. unfold Heap.py_list_remove.
  destruct v as [| | | |a]; try exact Hext.
  unfold Heap.bind, Heap.load.
  destruct (nth_error h a) as [c|] eqn:Ec; simpl; [|exact Hext].
  destruct c as [items|entries|attrs]; simpl; try exact Hext.
  pose proof (pure_read_remove_first fuel x items h) as Hh.
  pose proof (remove_first_sublist fuel x items h) as Hsub.
  destruct (Heap.remove_first _ _ fuel x items h) as [h1 [e|[items'|]]]; simpl in *;
    subst h1; try exact Hext.
  destruct (typed_cell G h _ kd t a _ Hext Hv eq_refl Ec) as [Hkd Hall].
  destruct Hv as [i [[= ->] Hn]].
  apply (extends_store G h i (Heap.CList items') (kd, t) Hext Hn).
  split; [exact Hkd|]. simpl in *.
  apply Forall_forall. intros y Hy. rewrite Forall_forall in Hall.
  apply Hall. eapply Hsub; eauto.
Qed.

(** ** Rules for loops *)

Lemma spec_for_each {X St : Type} (l : list X) (body : St -> X -> M (Heap.control St))
    (I : env -> St -> Prop) : forall G s,
  I G s ->
  (forall G' s' a, In a l -> env_prefix G G' -> I G' s' ->
     spec G' (body s' a) (fun G'' r => I G'' (control_state r))) ->
  spec G (Heap.for_each l s body) I.
Proof.
  induction l as [|a l IH]; intros G s HI Hb; simpl.
  - now apply spec_ret.
  - eapply spec_bind; [apply (Hb G s a (or_introl eq_refl) (env_prefix_refl G) HI)|].
    intros G' [s'|s'] Hp Hc; simpl in Hc.
    + apply IH; [exact Hc|]. intros G'' s'' a' Hin Hp' HI'.
      apply Hb; [now right | eapply env_prefix_trans; eauto | exact HI'].
    + now apply spec_ret.
Qed.

Lemma spec_for_range {St : Type} n (body : St -> nat -> M (Heap.control St))
    (I : env -> St -> Prop) G s :
  I G s ->
  (forall G' s' i, env_prefix G G' -> I G' s' ->
     spec G' (body s' i) (fun G'' r => I G'' (control_state r))) ->
  spec G (Heap.for_range n s body) I.
Proof. intros HI Hb. apply spec_for_each; [exact HI|]. intros; now apply Hb. Qed.

Lemma spec_iterate_list {St : Type} (lst : val) (body : St -> val -> M (Heap.control St))
    (I : env -> St -> Prop) : forall fuel i G s,
  I G s ->
  (forall G' s' x, env_prefix G G' -> I G' s' ->
     (forall kd t, has_type G' lst (Fresh kd t) -> has_type G' x t) ->
     spec G' (body s' x) (fun G'' r => I G'' (control_state r))) ->
  spec G (Heap.iterate_list float_of_int float_eqb fuel i lst s body) I.
Proof.
  induction fuel as [|fuel IH]; intros i G s HI Hb; simpl.
  - now apply spec_ret.
  - eapply spec_bind_reads; [apply reads_of_pure, pure_read_len|]. intros n _.
    destruct (i <? n); [|now apply spec_ret].
    eapply spec_bind_reads; [apply reads_getitem|]. intros x Hx.
    eapply spec_bind; [apply (Hb G s x (env_prefix_refl G) HI Hx)|].
    intros G' [s'|s'] Hp Hc; simpl in Hc.
    + apply IH; [exact Hc|]. intros G'' s'' x' Hp' HI' Hx'.
      apply Hb; [eapply env_prefix_trans; eauto | exact HI' | exact Hx'].
    + now apply spec_ret.
Qed.

Lemma spec_py_for {St : Type} (v : val) (body : St -> val -> M (Heap.control St))
    (I : env -> St -> Prop) G s :
  I G s ->
  (forall G' s' x, env_prefix G G' -> I G' s' ->
     (forall t, has_type G' v (Fresh KList t) -> has_type G' x t) ->
     spec G' (body s' x) (fun G'' r => I G'' (control_state r))) ->
  spec G (Heap.py_for float_of_int float_eqb v s body) I.
Proof.
  intros HI Hb. unfold Heap.py_for.
  destruct v as [| | | |a]; try apply spec_throw.
  eapply spec_bind_reads; [apply reads_load|]. intros c [Hlt Hc].
  destruct c as [items|entries|attrs]; [| |apply spec_throw].
  - apply spec_iterate_list; [exact HI|].
    intros G' s' x Hp HI' Hx. apply Hb; [exact Hp | exact HI' |].
    intros t Ht. exact (Hx KList t Ht).
  - apply spec_for_each; [exact HI|].
    intros G' s' x _ Hp HI'. apply Hb; [exact Hp | exact HI' |].
    intros t [i [[= ->] Hn]]. exfalso.
    assert (Hi : i < List.length G) by lia.
    apply nth_error_Some in Hi.
    destruct (nth_error G i) as [kt|] eqn:En; [|congruence].
    pose proof (env_prefix_nth G G' i kt Hp En) as En'.
    rewrite En' in Hn. injection Hn as ->.
    destruct (Hc i _ eq_refl En) as [Hk _]. discriminate Hk.
Qed.

Lemma spec_for_range_ n (body : nat -> M unit) G :
  (forall G' i, env_prefix G G' -> spec G' (body i) (fun _ _ => True)) ->
  spec G (Heap.for_range_ n body) (fun _ _ => True).
Proof.
  intros Hb. unfold Heap.for_range_. apply spec_for_range; [exact I|].
  intros G' s' i Hp _. eapply spec_bind; [apply Hb; exact Hp|].
  intros G'' _ _ _. now apply spec_ret.
Qed.

Lemma spec_py_for_ (v : val) (body : val -> M unit) G :
  (forall G' x, env_prefix G G' ->
     (forall t, has_type G' v (Fresh KList t) -> has_type G' x t) ->
     spec G' (body x) (fun _ _ => True)) ->
  spec G (Heap.py_for_ float_of_int float_eqb v body) (fun _ _ => True).
Proof.
  intros Hb. unfold Heap.py_for_. apply spec_py_for; [exact I|].
  intros G' s' x Hp _ Hx. eapply spec_bind; [apply Hb; [exact Hp | exact Hx]|].
  intros G'' _ _ _. now apply spec_ret.
Qed.

Lemma spec_dict_of G l : spec G (Heap.dict_of l) (fun _ _ => True).
Proof.
  apply (spec_alloc G _ Any); [apply Forall_forall; intros; exact I | auto].
Qed.

(** ** The resolver *)

Lemma spec_search G idx name :
  spec G (Heap.search_argument_mapping_in_body_atoms float_of_int float_eqb idx name)
    (fun _ _ => True).
Proof.
  unfold Heap.search_argument_mapping_in_body_atoms.
  eapply spec_bind_reads; [apply reads_of_pure, pure_read_getitem|]. intros occ _.
  apply (spec_bind _ _ _ (fun _ _ => True)).
  - apply (spec_py_for _ _ (fun _ _ => True)); [exact I|].
    intros G' s' atom_index Hp _ _.
    eapply spec_bind_reads; [apply reads_of_pure, pure_read_getitem|]. intros arg_indices _.
    apply (spec_bind _ _ _ (fun _ _ => True)).
    + apply (spec_py_for _ _ (fun _ _ => True)); [exact I|].
      intros G'' s'' arg_index Hp' _ _.
      apply (spec_bind _ _ _ (fun _ _ => True)); [apply spec_dict_of|].
      intros G3 d _ _. now apply spec_ret.
    + intros G'' [d|] _ _; now apply spec_ret.
  - intros G' [d|] _ _; now apply spec_ret.
Qed.

(** ** Tactics for straight-line code *)

Ltac pure_op :=
  first
    [ apply pure_read_getitem | apply pure_read_getattr | apply pure_read_contains
    | apply pure_read_len | apply pure_read_lower | apply pure_read_str
    | apply pure_read_pred | apply pure_read_float | apply pure_read_ret ].

(** Moves the typing facts of the context to a later environment. *)
Ltac forward_to Hp :=
  match type of Hp with
  | env_prefix ?G ?G' =>
      repeat match goal with
             | H : has_type G _ _ |- _ => apply (has_type_mono G G' _ _ Hp) in H
             end
  end.

Ltac typed_premises :=
  first [ eassumption | exact I ].

Ltac write_op :=
  first
    [ eapply writes_append; [eassumption | typed_premises]
    | eapply writes_setitem; [eassumption | typed_premises]
    | eapply writes_setattr; [eassumption | typed_premises] ].

(** Records the type of a value read through a typed reference. *)
Ltac learn Hx v :=
  try match goal with
      | Hv : has_type _ v (Fresh ?kd ?t) |- _ =>
          let Hn := fresh "Hty" in pose proof (Hx kd t Hv) as Hn
      end;
  clear Hx.

(** One statement of a sequence. *)
Ltac step :=
  lazymatch goal with
  | |- spec _ (Heap.bind (Heap.py_getitem _ _ ?v _) _) _ =>
      eapply spec_bind_reads;
      [apply reads_getitem
      |let x := fresh "x" in let Hx := fresh "Hx" in intros x Hx; learn Hx v]
  | |- spec _ (Heap.bind (Heap.py_getattr ?v _) _) _ =>
      eapply spec_bind_reads;
      [apply reads_getattr
      |let x := fresh "x" in let Hx := fresh "Hx" in intros x Hx; learn Hx v]
  | |- spec _ (Heap.bind (Heap.search_argument_mapping_in_body_atoms _ _ _ _) _) _ =>
      apply (spec_bind _ _ _ (fun _ _ => True));
      [apply spec_search
      |let Hp := fresh "Hp" in intros ? ? Hp _; forward_to Hp]
  | |- spec _ (Heap.bind (Heap.py_append _ _) _) _ =>
      eapply spec_bind_writes; [write_op | intros _]
  | |- spec _ (Heap.bind (Heap.py_setitem _ _ _ _ _) _) _ =>
      eapply spec_bind_writes; [write_op | intros _]
  | |- spec _ (Heap.bind (Heap.py_setattr _ _ _) _) _ =>
      eapply spec_bind_writes; [write_op | intros _]
  | |- spec _ (Heap.bind (Heap.throw _) _) _ =>
      eapply spec_bind; [apply spec_throw | intros ? ? ? []]
  | |- spec _ (Heap.bind _ _) _ =>
      eapply spec_bind_reads; [apply reads_of_pure; pure_op | intros ? _]
  | |- spec _ (Heap.py_append _ _) _ => apply spec_writes; [write_op | auto]
  | |- spec _ (Heap.py_setitem _ _ _ _ _) _ => apply spec_writes; [write_op | auto]
  | |- spec _ (Heap.ret _) _ => apply spec_ret; auto
  | |- spec _ (Heap.throw _) _ => apply spec_throw
  end.

(** Allocation of a cell whose values have type [t]. *)
Ltac alloc_as t :=
  lazymatch goal with
  | |- spec ?G (Heap.bind Heap.new_dict _) _ =>
      apply (spec_bind_alloc G (Heap.CDict []) t); [constructor|];
      let G' := fresh "G" in let v := fresh "v" in let Hp := fresh "Hp" in
      let Hv := fresh "Hv" in
      intros G' v Hp Hv; cbn [kind_of] in Hv; forward_to Hp
  | |- spec ?G (Heap.bind Heap.new_list _) _ =>
      apply (spec_bind_alloc G (Heap.CList []) t); [constructor|];
      let G' := fresh "G" in let v := fresh "v" in let Hp := fresh "Hp" in
      let Hv := fresh "Hv" in
      intros G' v Hp Hv; cbn [kind_of] in Hv; forward_to Hp
  | |- spec ?G (Heap.bind (Heap.dict_of ?l) _) _ =>
      apply (spec_bind_alloc G (Heap.CDict (map (fun kv => (Heap.VStr (fst kv), snd kv)) l)) Any);
      [apply Forall_forall; intros; exact I|];
      let G' := fresh "G" in let v := fresh "v" in let Hp := fresh "Hp" in
      let Hv := fresh "Hv" in
      intros G' v Hp Hv; cbn [kind_of] in Hv; forward_to Hp
  | |- spec ?G (Heap.bind (Heap.alloc ?c) _) _ =>
      apply (spec_bind_alloc G c t); [apply Forall_forall; intros; exact I|];
      let G' := fresh "G" in let v := fresh "v" in let Hp := fresh "Hp" in
      let Hv := fresh "Hv" in
      intros G' v Hp Hv; cbn [kind_of] in Hv; forward_to Hp
  end.

(** ** [deepcopy] *)

Lemma memo_ok_mono G G' memo : env_prefix G G' -> memo_ok h0 G memo -> memo_ok h0 G' memo.
Proof.
  intros Hp Hm a y Hg. destruct (Hm a y Hg) as [Hlt Hty].
  pose proof Hp as [D ->]. split; [rewrite length_app; lia|].
  intros i kt -> Hn. rewrite nth_error_app1 in Hn by lia.
  eapply has_type_mono; [exact Hp|]. exact (Hty i kt eq_refl Hn).
Qed.

Lemma memo_ok_cons G memo a y :
  memo_ok h0 G memo ->
  a < List.length h0 + List.length G ->
  (forall i kt, a = List.length h0 + i -> nth_error G i = Some kt ->
                has_type G y (Fresh (fst kt) (snd kt))) ->
  memo_ok h0 G ((a, y) :: memo).
Proof.
  intros Hm Hlt Hty b z. simpl. destruct (Nat.eqb_spec b a) as [->|Hne].
  - intros [= <-]. auto.
  - apply Hm.
Qed.

(** The values of a loaded cell have the type given to its copy. *)
Lemma copy_child_type_children G a c :
  (forall i kt, a = List.length h0 + i -> nth_error G i = Some kt -> cell_typed h0 G c kt) ->
  Forall (fun x => has_type G x (copy_child_type h0 G a)) (children c).
Proof.
  intros Hc. unfold copy_child_type.
  destruct (Nat.leb_spec (List.length h0) a) as [Hle|Hlt];
    [|apply Forall_forall; intros; exact I].
  destruct (nth_error G (a - List.length h0)) as [kt|] eqn:En;
    [|apply Forall_forall; intros; exact I].
  apply (Hc (a - List.length h0) kt); [lia | exact En].
Qed.

Lemma copy_child_type_fresh G a c i kt :
  (forall i kt, a = List.length h0 + i -> nth_error G i = Some kt -> cell_typed h0 G c kt) ->
  a = List.length h0 + i -> nth_error G i = Some kt ->
  kind_of c = fst kt /\ copy_child_type h0 G a = snd kt.
Proof.
  intros Hc -> Hn. split; [apply (Hc i kt eq_refl Hn)|].
  unfold copy_child_type.
  destruct (Nat.leb_spec (List.length h0) (List.length h0 + i)); [|lia].
  replace (List.length h0 + i - List.length h0) with i by lia. now rewrite Hn.
Qed.

(** The copy of a cell, once typed, answers for every type its original
    has. *)
Lemma copy_has_type G G1 a c y :
  (forall i kt, a = List.length h0 + i -> nth_error G i = Some kt -> cell_typed h0 G c kt) ->
  env_prefix G G1 ->
  has_type G1 y (Fresh (kind_of c) (copy_child_type h0 G a)) ->
  forall t, has_type G (Heap.VRef a) t -> has_type G1 y t.
Proof.
  intros Hc Hp Hy [|k t']; [intros; exact I|].
  intros [i [[= ->] Hn]].
  destruct (copy_child_type_fresh G _ c i (k, t') Hc eq_refl Hn) as [Hk Ht].
  simpl in Hk, Ht. rewrite <- Hk, <- Ht. exact Hy.
Qed.

Lemma copy_memo_ok G G1 memo a c y :
  memo_ok h0 G memo ->
  a < List.length h0 + List.length G ->
  (forall i kt, a = List.length h0 + i -> nth_error G i = Some kt -> cell_typed h0 G c kt) ->
  env_prefix G G1 ->
  has_type G1 y (Fresh (kind_of c) (copy_child_type h0 G a)) ->
  memo_ok h0 G1 ((a, y) :: memo).
Proof.
  intros Hm Hlt Hc Hp Hy. pose proof Hp as [D HD].
  apply memo_ok_cons.
  - eapply memo_ok_mono; eauto.
  - subst G1. rewrite length_app. lia.
  - intros i kt Ha Hn. subst G1. rewrite nth_error_app1 in Hn by lia.
    destruct kt as [k t'].
    apply (copy_has_type G (G ++ D) a c y Hc Hp Hy (Fresh k t')).
    exists i. split; [now rewrite Ha | exact Hn].
Qed.

Lemma spec_deepcopy_memo fuel : forall x memo G,
  memo_ok h0 G memo ->
  spec G (Heap.deepcopy_memo float_of_int float_eqb fuel x memo)
    (fun G' r => memo_ok h0 G' (snd r) /\
                 forall t, has_type G x t -> has_type G' (fst r) t).
Proof.
  induction fuel as [|fuel IH]; intros x memo G Hm; simpl; [apply spec_throw|].
  destruct x as [| | | |a];
    try (apply spec_ret; split; [exact Hm | intros t Ht; exact Ht]).
  destruct (Heap.memo_get a memo) as [y|] eqn:Eg.
  - apply spec_ret. split; [exact Hm|]. simpl.
    intros [|k t']; [intros; exact I|]. intros [i [[= ->] Hn]].
    destruct (Hm _ y Eg) as [_ Hty]. exact (Hty i (k, t') eq_refl Hn).
  - eapply spec_bind_reads; [apply reads_load|]. intros c [Hlt Hc].
    pose proof (copy_child_type_children G a c Hc) as Hch.
    set (ct := copy_child_type h0 G a) in *.
    destruct c as [items|entries|attrs].
    + apply (spec_bind_alloc G (Heap.CList []) ct); [constructor|].
      intros G1 y Hp1 Hy.
      eapply spec_bind.
      * apply (spec_for_each items _ (fun G' memo' => memo_ok h0 G' memo')).
        -- exact (copy_memo_ok G G1 memo a (Heap.CList items) y Hm Hlt Hc Hp1 Hy).
        -- intros G2 memo2 item Hin Hp2 Hm2.
           assert (Hitem : has_type G2 item ct).
           { apply (has_type_mono G G2); [eapply env_prefix_trans; eauto|].
             simpl in Hch. rewrite Forall_forall in Hch. now apply Hch. }
           eapply spec_bind; [apply (IH item memo2 G2 Hm2)|].
           intros G3 r Hp3 [Hm3 Hr].
           eapply spec_bind_writes.
           ++ eapply writes_append; [|exact (Hr ct Hitem)].
              apply (has_type_mono G1 G3); [eapply env_prefix_trans; eauto | exact Hy].
           ++ intros _. apply spec_ret. exact Hm3.
      * intros G2 memo2 Hp2 Hm2. apply spec_ret. split; [exact Hm2|]. simpl.
        apply (copy_has_type G G2 a (Heap.CList items) y Hc);
          [eapply env_prefix_trans; eauto|].
        apply (has_type_mono G1 G2); [exact Hp2 | exact Hy].
    + apply (spec_bind_alloc G (Heap.CDict []) ct); [constructor|].
      intros G1 y Hp1 Hy.
      eapply spec_bind.
      * apply (spec_for_each entries _ (fun G' memo' => memo_ok h0 G' memo')).
        -- exact (copy_memo_ok G G1 memo a (Heap.CDict entries) y Hm Hlt Hc Hp1 Hy).
        -- intros G2 memo2 [key value] Hin Hp2 Hm2.
           assert (Hvalue : has_type G2 value ct).
           { apply (has_type_mono G G2); [eapply env_prefix_trans; eauto|].
             simpl in Hch. rewrite Forall_forall in Hch. apply Hch.
             apply in_map_iff. exists (key, value). auto. }
           eapply spec_bind; [apply (IH key memo2 G2 Hm2)|].
           intros G3 rk Hp3 [Hm3 _].
           forward_to Hp3.
           eapply spec_bind; [apply (IH value (snd rk) G3 Hm3)|].
           intros G4 rv Hp4 [Hm4 Hrv].
           eapply spec_bind_writes.
           ++ eapply writes_setitem; [|exact (Hrv ct Hvalue)].
              apply (has_type_mono G1 G4); [|exact Hy].
              eapply env_prefix_trans; [exact Hp2|]. eapply env_prefix_trans; eauto.
           ++ intros _. apply spec_ret. exact Hm4.
      * intros G2 memo2 Hp2 Hm2. apply spec_ret. split; [exact Hm2|]. simpl.
        apply (copy_has_type G G2 a (Heap.CDict entries) y Hc);
          [eapply env_prefix_trans; eauto|].
        apply (has_type_mono G1 G2); [exact Hp2 | exact Hy].
    + apply (spec_bind_alloc G (Heap.CObj []) ct); [constructor|].
      intros G1 y Hp1 Hy.
      eapply spec_bind.
      * apply (spec_for_each attrs _ (fun G' memo' => memo_ok h0 G' memo')).
        -- exact (copy_memo_ok G G1 memo a (Heap.CObj attrs) y Hm Hlt Hc Hp1 Hy).
        -- intros G2 memo2 [name value] Hin Hp2 Hm2.
           assert (Hvalue : has_type G2 value ct).
           { apply (has_type_mono G G2); [eapply env_prefix_trans; eauto|].
             simpl in Hch. rewrite Forall_forall in Hch. apply Hch.
             apply in_map_iff. exists (name, value). auto. }
           eapply spec_bind; [apply (IH value memo2 G2 Hm2)|].
           intros G3 rv Hp3 [Hm3 Hrv].
           eapply spec_bind_writes.
           ++ eapply writes_setattr; [|exact (Hrv ct Hvalue)].
              apply (has_type_mono G1 G3); [eapply env_prefix_trans; eauto | exact Hy].
           ++ intros _. apply spec_ret. exact Hm3.
      * intros G2 memo2 Hp2 Hm2. apply spec_ret. split; [exact Hm2|]. simpl.
        apply (copy_has_type G G2 a (Heap.CObj attrs) y Hc);
          [eapply env_prefix_trans; eauto|].
        apply (has_type_mono G1 G2); [exact Hp2 | exact Hy].
Qed.

Lemma spec_deepcopy G fuel x :
  spec G (Heap.deepcopy float_of_int float_eqb fuel x)
    (fun G' y => forall t, has_type G x t -> has_type G' y t).
Proof.
  unfold Heap.deepcopy. eapply spec_bind.
  - apply (spec_deepcopy_memo fuel x [] G). intros a y. discriminate.
  - intros G' r Hp [_ Hr]. apply spec_ret. intros t Ht.
    (* the typing fact is about the environment the copy started from *)
    exact (Hr t Ht).
Qed.

(** ** The functions of [translator.py] *)

(** A statement block whose effects are all that matters. *)
Ltac block := apply (spec_bind _ _ _ (fun _ _ => True)).

(** What follows a block. *)
Ltac next :=
  let Hp := fresh "Hp" in intros ? ? Hp _; forward_to Hp.

Ltac loop_range :=
  apply spec_for_range_;
  let Hp := fresh "Hp" in intros ? ? Hp; forward_to Hp.

(** A loop over [v]; when [v] is a list of the call its elements get
    their type. *)
Ltac loop_for :=
  lazymatch goal with
  | |- spec _ (Heap.py_for_ _ _ ?v _) _ =>
      apply spec_py_for_;
      let Hp := fresh "Hp" in let Hx := fresh "Hx" in
      intros ? ? Hp Hx; forward_to Hp;
      try match goal with
          | Hv : has_type _ v (Fresh KList ?t) |- _ =>
              let Hn := fresh "Hty" in pose proof (Hx t Hv) as Hn
          end;
      clear Hx
  end.

Lemma spec_extract_variable_arg_to_atom_map G body_atoms :
  spec G (Heap.extract_variable_arg_to_atom_map float_of_int float_eqb body_atoms)
    (fun _ _ => True).
Proof.
  unfold Heap.extract_variable_arg_to_atom_map.
  step.
  alloc_as (Fresh KDict (Fresh KList Any)).
  block; [|intros; step].
  loop_range. do 3 step.
  loop_range. do 2 step.
  destruct (negb _); [step|].
  do 2 step.
  block.
  { destruct (negb _); [|step]. alloc_as (Fresh KList Any). step. }
  next. do 2 step.
  block.
  { destruct (negb _); [|step]. alloc_as Any. do 2 step. }
  next. do 3 step.
Qed.

Lemma spec_math_expr_mapping G idx math_expr :
  spec G (Heap.math_expr_mapping float_of_int float_eqb idx math_expr) (fun _ _ => True).
Proof.
  unfold Heap.math_expr_mapping.
  do 5 step. apply spec_dict_of.
Qed.

Lemma spec_extract_selection_map G head idx :
  spec G (Heap.extract_selection_map float_of_int float_eqb head idx) (fun _ _ => True).
Proof.
  unfold Heap.extract_selection_map.
  do 2 step.
  alloc_as Any. alloc_as Any. alloc_as Any.
  block; [|intros; apply spec_dict_of].
  loop_range. do 2 step.
  destruct (Heap.is_str _ _ _ "variable"); [do 4 step|].
  step. destruct (Heap.is_str _ _ _ "aggregation").
  { do 7 step. destruct (Heap.is_str _ _ _ "attribute").
    - do 2 step. alloc_as Any. step.
    - step. destruct (Heap.is_str _ _ _ "math_expr"); [|step].
      step. block; [apply spec_math_expr_mapping|]. next. step. }
  step. destruct (Heap.is_str _ _ _ "math_expr").
  { do 2 step. block; [apply spec_math_expr_mapping|]. next. step. }
  step. destruct (Heap.is_str _ _ _ "constant"); [do 3 step | step].
Qed.

Lemma spec_extract_join_map G idx :
  spec G (Heap.extract_join_map float_of_int float_eqb idx) (fun _ _ => True).
Proof.
  unfold Heap.extract_join_map.
  alloc_as Any.
  block; [|intros; step].
  loop_for. do 3 step.
  block.
  { apply (spec_py_for _ _ (fun _ _ => True)); [exact I|].
    intros G2 s2 atom Hp2 _ _. do 3 step. destruct (1 <? _); step. }
  intros G2 join_on_var Hp2 _. forward_to Hp2.
  destruct join_on_var; [do 2 step | step].
Qed.

Lemma spec_extract_comparison_map (float_of_string : string -> option F)
    G body_comparisons idx :
  spec G
    (Heap.extract_comparison_map float_of_string float_of_int float_eqb body_comparisons idx)
    (fun _ _ => True).
Proof.
  unfold Heap.extract_comparison_map.
  alloc_as (Fresh KDict (Fresh KList Any)).
  block; [|intros; step].
  loop_for. do 6 step.
  destruct (negb _ && negb _); [step|].
  destruct (Heap.is_str _ _ _ "var").
  - do 4 step.
    block.
    { destruct (negb _); [|step]. alloc_as (Fresh KList Any). step. }
    next. do 2 step.
    block.
    { destruct (negb _); [|step]. alloc_as Any. do 2 step. }
    next. alloc_as Any. do 3 step.
    block.
    { destruct (Heap.is_str _ _ _ "num"); [do 3 step|]. do 6 step. }
    next. do 3 step.
  - do 4 step.
    block.
    { destruct (negb _); [|step]. alloc_as (Fresh KList Any). step. }
    next. do 2 step.
    block.
    { destruct (negb _); [|step]. alloc_as Any. do 2 step. }
    next. alloc_as Any. do 3 step.
    block.
    { destruct (Heap.is_str _ _ _ "num"); [do 3 step|]. do 6 step. }
    next. do 3 step.
Qed.

Lemma spec_extract_constant_constraint_map G body_atoms :
  spec G (Heap.extract_constant_constraint_map float_of_int float_eqb body_atoms)
    (fun _ _ => True).
Proof.
  unfold Heap.extract_constant_constraint_map.
  step. alloc_as (Fresh KDict Any).
  block; [|intros; step].
  loop_range. do 3 step.
  loop_range. do 4 step.
  destruct (Heap.is_str _ _ _ "constant"); [|step].
  step.
  block.
  { destruct (negb _); [|step]. alloc_as Any. step. }
  next. do 2 step.
Qed.

Lemma spec_extract_negation_map G body_negation_atoms idx :
  spec G (Heap.extract_negation_map float_of_int float_eqb body_negation_atoms idx)
    (fun _ _ => True).
Proof.
  unfold Heap.extract_negation_map.
  step. alloc_as (Fresh KDict (Fresh KDict Any)). alloc_as (Fresh KDict Any).
  block.
  { loop_range. do 3 step. alloc_as (Fresh KDict Any). do 2 step.
    loop_range. do 3 step. alloc_as Any. do 5 step. }
  next.
  block; [|intros; apply spec_dict_of].
  apply spec_py_for_. intros G3 negation_atom_index Hp3 _. forward_to Hp3.
  step.
  apply spec_py_for_. intros G4 arg_index Hp4 _. forward_to Hp4.
  do 2 step.
  destruct (Heap.is_str _ _ _ "variable"); [|step].
  do 3 step.
  match goal with |- spec _ (match ?r with _ => _ end) _ => destruct r end;
    step;
    try (block;
         [destruct (negb _); [|step]; alloc_as Any; step
         |next; do 2 step]).
Qed.

Lemma spec_atom_alias G prefix atom n :
  spec G (Heap.atom_alias float_of_int float_eqb prefix atom n) (fun _ _ => True).
Proof. unfold Heap.atom_alias. do 6 step. Qed.

Lemma spec_build_atom_aliases G body_atoms :
  spec G (Heap.build_atom_aliases float_of_int float_eqb body_atoms) (fun _ _ => True).
Proof.
  unfold Heap.build_atom_aliases.
  alloc_as Any.
  block; [|intros; step].
  apply (spec_py_for _ _ (fun _ _ => True)); [exact I|].
  intros G2 n atom Hp2 _ _. forward_to Hp2.
  block; [apply spec_atom_alias|]. next. do 2 step.
Qed.

Lemma spec_build_negation_atom_aliases G negation_atoms :
  spec G (Heap.build_negation_atom_aliases float_of_int float_eqb negation_atoms)
    (fun _ _ => True).
Proof.
  unfold Heap.build_negation_atom_aliases.
  alloc_as Any.
  block; [|intros; step].
  apply (spec_py_for _ _ (fun _ _ => True)); [exact I|].
  intros G2 n atom Hp2 _ _. forward_to Hp2.
  block; [apply spec_atom_alias|]. next. do 2 step.
Qed.

Lemma spec_build_recursive_atom_aliases G body_atoms eval iter_num :
  spec G (Heap.build_recursive_atom_aliases float_of_int float_eqb body_atoms eval iter_num)
    (fun _ _ => True).
Proof.
  unfold Heap.build_recursive_atom_aliases.
  step. alloc_as (Fresh KList Any).
  block.
  { apply (spec_py_for _ _ (fun _ _ => True)); [exact I|].
    intros G2 n atom Hp2 _ _. forward_to Hp2.
    do 2 step. alloc_as Any. do 2 step. }
  intros G2 idb_num Hp2 _. forward_to Hp2.
  block; [|intros; apply spec_dict_of].
  loop_range. do 4 step.
  destruct (negb _).
  - alloc_as Any. step.
  - do 4 step. alloc_as Any. step. alloc_as Any. step.
Qed.

Lemma spec_build_recursive_atom_alias_groups G recursion_limit body_atoms atom_aliases_map :
  spec G
    (Heap.build_recursive_atom_alias_groups float_of_int float_eqb recursion_limit
       body_atoms atom_aliases_map)
    (fun _ _ => True).
Proof.
  unfold Heap.build_recursive_atom_alias_groups.
  do 3 step. alloc_as (Fresh KList Any).
  block.
  { loop_range. do 2 step.
    destruct (_ =? 0).
    - apply spec_py_for_. intros G3 name Hp3 _. forward_to Hp3.
      alloc_as Any. step.
    - step. destruct (1 <? _).
      + step. alloc_as (Fresh KList (Fresh KList Any)).
        block.
        { loop_range.
          apply (spec_bind _ _ _ (fun G' y => has_type G' y (Fresh KList (Fresh KList Any)))).
          - eapply spec_weaken; [apply spec_deepcopy|].
            intros G5 y Hp5 Hy. apply Hy. assumption.
          - intros G5 y Hp5 Hy. forward_to Hp5. step. }
        next.
        block.
        { loop_for. do 2 step. }
        next.
        loop_range. step.
        loop_for. do 3 step.
      + loop_for. do 2 step. }
  next.
  block; [|intros; step].
  loop_for.
  block.
  { apply (spec_py_for _ _ (fun _ _ => True)); [exact I|].
    intros G5 n alias Hp5 _ _. do 2 step. }
  intros G5 prev_count Hp5 _. forward_to Hp5.
  destruct (Heap.val_eqb _ _ _ _); [|step].
  apply spec_writes; [eapply writes_list_remove; eassumption | auto].
Qed.
End StoreFacts.

(** ** What a call leaves unchanged *)

Lemma unchanged_lookup {F : Type} (h h' : Heap.heap (F:=F)) a c :
  unchanged h h' -> nth_error h a = Some c -> nth_error h' a = Some c.
Proof.
  intros [hf ->] Hn. rewrite nth_error_app1; [exact Hn|].
  apply nth_error_Some. congruence.
Qed.

Lemma spec_unchanged {F A : Type} (h : Heap.heap (F:=F)) (m : Heap.M (F:=F) A)
    (Q : env -> A -> Prop) :
  spec h [] m Q -> unchanged h (fst (m h)).
Proof.
  intros Hm. destruct (Hm h (extends_initial h)) as [G' [_ [Hext _]]].
  eapply extends_unchanged; eauto.
Qed.

(** C10. Every analysis function leaves the objects it is given as they
    were: whatever the store and the arguments, and whether the call
    returns or raises, the store after the call is the store before it
    followed by the cells the call allocated.  The body atoms, the head,
    the comparisons, the variable-occurrence index, the eval-idb set and
    the alias map, together with everything reachable from them, are
    therefore the same before and after. *)
Theorem C10_inputs_unchanged {F : Type}
    (float_of_string : string -> option F) (float_of_int : Z -> F)
    (float_eqb : F -> F -> bool) (recursion_limit : nat)
    (h : Heap.heap (F:=F)) (x y z : Heap.val (F:=F)) :
  unchanged h (fst (Heap.extract_variable_arg_to_atom_map float_of_int float_eqb x h)) /\
  unchanged h (fst (Heap.search_argument_mapping_in_body_atoms float_of_int float_eqb x y h)) /\
  unchanged h (fst (Heap.extract_selection_map float_of_int float_eqb x y h)) /\
  unchanged h (fst (Heap.extract_join_map float_of_int float_eqb x h)) /\
  unchanged h
    (fst (Heap.extract_comparison_map float_of_string float_of_int float_eqb x y h)) /\
  unchanged h (fst (Heap.extract_constant_constraint_map float_of_int float_eqb x h)) /\
  unchanged h (fst (Heap.extract_negation_map float_of_int float_eqb x y h)) /\
  unchanged h (fst (Heap.build_atom_aliases float_of_int float_eqb x h)) /\
  unchanged h (fst (Heap.build_negation_atom_aliases float_of_int float_eqb x h)) /\
  unchanged h (fst (Heap.build_recursive_atom_aliases float_of_int float_eqb x y z h)) /\
  unchanged h
    (fst (Heap.build_recursive_atom_alias_groups float_of_int float_eqb recursion_limit x y h)).
Proof.
  repeat match goal with |- _ /\ _ => split end; eapply spec_unchanged.
  - apply spec_extract_variable_arg_to_atom_map.
  - apply spec_search.
  - apply spec_extract_selection_map.
  - apply spec_extract_join_map.
  - apply spec_extract_comparison_map.
  - apply spec_extract_constant_constraint_map.
  - apply spec_extract_negation_map.
  - apply spec_build_atom_aliases.
  - apply spec_build_negation_atom_aliases.
  - apply spec_build_recursive_atom_aliases.
  - apply spec_build_recursive_atom_alias_groups.
Qed.

(** ** The two layers on one rule

    The store below holds the body [Edge(x, y), Edge(y, z)] (cells 0 to 7)
    and an eval-idb set containing [Edge] (cell 8). *)

Example store_of_two_edges_index :
  let h : Heap.heap (F:=unit) :=
    [Heap.CObj [("type", Heap.VStr "variable"); ("name", Heap.VStr "x")];
     Heap.CObj [("type", Heap.VStr "variable"); ("name", Heap.VStr "y")];
     Heap.CObj [("type", Heap.VStr "variable"); ("name", Heap.VStr "z")];
     Heap.CList [Heap.VRef 0; Heap.VRef 1];
     Heap.CList [Heap.VRef 1; Heap.VRef 2];
     Heap.CDict [(Heap.VStr "name", Heap.VStr "Edge"); (Heap.VStr "arg_list", Heap.VRef 3)];
     Heap.CDict [(Heap.VStr "name", Heap.VStr "Edge"); (Heap.VStr "arg_list", Heap.VRef 4)];
     Heap.CList [Heap.VRef 5; Heap.VRef 6];
     Heap.CDict [(Heap.VStr "Edge", Heap.VNone)]] in
  let run := Heap.extract_variable_arg_to_atom_map (fun _ => tt) (fun _ _ => true)
               (Heap.VRef 7) h in
  snd run = ok (Heap.VRef 9) /\
  skipn 9 (fst run) =
    [Heap.CDict [(Heap.VStr "x", Heap.VRef 10); (Heap.VStr "y", Heap.VRef 12);
                 (Heap.VStr "z", Heap.VRef 15)];
     Heap.CDict [(Heap.VInt 0, Heap.VRef 11)]; Heap.CList [Heap.VInt 0];
     Heap.CDict [(Heap.VInt 0, Heap.VRef 13); (Heap.VInt 1, Heap.VRef 14)];
     Heap.CList [Heap.VInt 1]; Heap.CList [Heap.VInt 0];
     Heap.CDict [(Heap.VInt 1, Heap.VRef 16)]; Heap.CList [Heap.VInt 1]].
Proof. split; reflexivity. Qed.

(** The join map holds the very occurrence map of the index (cell 12), not
    a copy of it. *)
Example store_join_map_shares_the_occurrence_map :
  let h : Heap.heap (F:=unit) :=
    [Heap.CDict [(Heap.VStr "x", Heap.VRef 1); (Heap.VStr "y", Heap.VRef 3)];
     Heap.CDict [(Heap.VInt 0, Heap.VRef 2)]; Heap.CList [Heap.VInt 0];
     Heap.CDict [(Heap.VInt 0, Heap.VRef 4); (Heap.VInt 1, Heap.VRef 5)];
     Heap.CList [Heap.VInt 1]; Heap.CList [Heap.VInt 0]] in
  let run := Heap.extract_join_map (fun _ => tt) (fun _ _ => true) (Heap.VRef 0) h in
  snd run = ok (Heap.VRef 6) /\
  fst run = h ++ [Heap.CDict [(Heap.VStr "y", Heap.VRef 3)]].
Proof. split; reflexivity. Qed.

(** Two recursive atoms [R], [R]: the store-level builder returns three
    groups, as the typed one does. *)
Example store_alias_groups_of_two_recursive_atoms :
  let h : Heap.heap (F:=unit) :=
    [Heap.CDict [(Heap.VStr "name", Heap.VStr "R")];
     Heap.CDict [(Heap.VStr "name", Heap.VStr "R")];
     Heap.CList [Heap.VRef 0; Heap.VRef 1];
     Heap.CDict [(Heap.VStr "R", Heap.VNone)]] in
  let aliases := Heap.build_recursive_atom_aliases (fun _ => tt) (fun _ _ => true)
                   (Heap.VRef 2) (Heap.VRef 3) (Heap.VInt 3) h in
  exists atom_aliases_map store,
    snd aliases = ok atom_aliases_map /\
    Heap.build_recursive_atom_alias_groups (fun _ => tt) (fun _ _ => true) 1000
      (Heap.VRef 2) atom_aliases_map (fst aliases)
    = (store, ok (Heap.VRef 12)) /\
    nth_error store 12 = Some (Heap.CList [Heap.VRef 14; Heap.VRef 17; Heap.VRef 19]) /\
    firstn 4 store = h.
Proof.
  eexists. eexists. split; [reflexivity|]. split; [vm_compute; reflexivity|].
  split; reflexivity.
Qed.

(** * Further properties of the typed layer *)

(** ** Two-level dictionaries filled in increasing key order *)

Lemma sparse_entry_keys {V : Type} (j : nat) (inner : odict nat V) k :
  In k (od_keys (sparse_entry j inner)) -> k = j.
Proof.
  destruct inner; simpl; [tauto|]. intros [H|[]]. auto.
Qed.

Lemma put_entry_last {V : Type} (i j : nat) (v : V) (m : odict nat (odict nat V)) inner :
  od_get i m = None ->
  od_get j inner = None ->
  put_entry i j v (m ++ sparse_entry i inner) = m ++ sparse_entry i (inner ++ [(j, v)]).
Proof.
  intros Hi Hj. unfold put_entry.
  assert (Hs : sparse_entry i (inner ++ [(j, v)]) = [(i, inner ++ [(j, v)])]).
  { destruct inner; reflexivity. }
  rewrite Hs. destruct inner as [|e inner'].
  - simpl sparse_entry. rewrite app_nil_r.
    assert (Hm : od_mem i m = false) by (apply od_mem_false; exact Hi).
    rewrite Hm. simpl negb. cbv iota.
    rewrite (od_set_absent m i [] Hi).
    rewrite (od_modify_app_last m i [] _ Hi). reflexivity.
  - simpl sparse_entry.
    assert (Hm : od_mem i (m ++ [(i, e :: inner')]) = true).
    { apply od_mem_true. unfold od_keys. rewrite map_app. apply in_or_app. right. simpl. auto. }
    rewrite Hm. simpl negb. cbv iota.
    rewrite (od_modify_app_last m i _ _ Hi).
    rewrite (od_set_absent (e :: inner') j v Hj). reflexivity.
Qed.

(** ** Maps from atom index and argument index, built position by position *)

Section PickedFacts.
Context {A V : Type} (pick : A -> option V).

Lemma picked_from_lower args : forall i p,
  In p (od_keys (picked_from pick i args)) -> i <= p.
Proof.
  induction args as [|arg r IH]; intros i p; simpl; [tauto|].
  destruct (pick arg); simpl.
  - intros [<-|Hin]; [lia|]. apply IH in Hin. lia.
  - intros Hin. apply IH in Hin. lia.
Qed.

Lemma picked_from_get args : forall i p,
  od_get p (picked_from pick i args) =
  if p <? i then None
  else match nth_error args (p - i) with
       | Some arg => pick arg
       | None => None
       end.
Proof.
  induction args as [|arg r IH]; intros i p.
  - simpl. destruct (p <? i); [reflexivity|]. destruct (p - i); reflexivity.
  - assert (Hr : od_get p (picked_from pick (S i) r) =
                 if p <? S i then None
                 else match nth_error r (p - S i) with
                      | Some arg => pick arg
                      | None => None
                      end) by apply IH.
    simpl picked_from.
    destruct (Nat.ltb_spec p i) as [Hlt|Hge].
    + assert (Hlt' : (p <? S i) = true) by (apply Nat.ltb_lt; lia).
      rewrite Hlt' in Hr.
      destruct (pick arg); [|exact Hr].
      simpl od_get. assert (Hne : (p =? i) = false) by (apply Nat.eqb_neq; lia).
      rewrite Hne. exact Hr.
    + destruct (Nat.eq_dec p i) as [->|Hne].
      * rewrite Nat.sub_diag. cbn [nth_error].
        assert (Hlt' : (i <? S i) = true) by (apply Nat.ltb_lt; lia).
        rewrite Hlt' in Hr.
        destruct (pick arg); [|exact Hr].
        simpl od_get. rewrite Nat.eqb_refl. reflexivity.
      * assert (Hlt' : (p <? S i) = false) by (apply Nat.ltb_ge; lia).
        rewrite Hlt' in Hr.
        replace (p - i) with (S (p - S i)) by lia. cbn [nth_error].
        destruct (pick arg); [|exact Hr].
        simpl od_get. assert (Hne' : (p =? i) = false) by (apply Nat.eqb_neq; lia).
        rewrite Hne'. exact Hr.
Qed.

Lemma picked_from_sorted args : forall i, StronglySorted lt (od_keys (picked_from pick i args)).
Proof.
  induction args as [|arg r IH]; intros i; simpl; [constructor|].
  destruct (pick arg); simpl; [|apply IH].
  constructor; [apply IH|].
  apply Forall_forall. intros q Hq. apply picked_from_lower in Hq. lia.
Qed.

End PickedFacts.

Section SparseMapFacts.
Context {V : Type} (pick : Arg.t -> option V).

Lemma sparse_map_from_lower atoms : forall j a,
  In a (od_keys (sparse_map_from pick j atoms)) -> j <= a.
Proof.
  induction atoms as [|atom r IH]; intros j a; simpl; [tauto|].
  unfold od_keys. rewrite map_app. intros Hin. apply in_app_or in Hin.
  destruct Hin as [Hin|Hin].
  - apply sparse_entry_keys in Hin. lia.
  - apply IH in Hin. lia.
Qed.

Lemma sparse_map_from_get atoms : forall j a,
  od_get a (sparse_map_from pick j atoms) =
  if a <? j then None
  else match nth_error atoms (a - j) with
       | Some atom => lookup_of (picked_from pick 0 (Atom.arg_list atom))
       | None => None
       end.
Proof.
  induction atoms as [|atom r IH]; intros j a.
  - simpl. destruct (a <? j); [reflexivity|]. destruct (a - j); reflexivity.
  - assert (Hr : od_get a (sparse_map_from pick (S j) r) =
                 if a <? S j then None
                 else match nth_error r (a - S j) with
                      | Some atom => lookup_of (picked_from pick 0 (Atom.arg_list atom))
                      | None => None
                      end) by apply IH.
    simpl sparse_map_from. rewrite od_get_app.
    destruct (Nat.ltb_spec a j) as [Hlt|Hge].
    + assert (Hlt' : (a <? S j) = true) by (apply Nat.ltb_lt; lia).
      rewrite Hlt' in Hr. rewrite Hr.
      destruct (picked_from pick 0 (Atom.arg_list atom)); simpl; [reflexivity|].
      assert (Hne : (a =? j) = false) by (apply Nat.eqb_neq; lia).
      rewrite Hne. reflexivity.
    + destruct (Nat.eq_dec a j) as [->|Hne].
      * rewrite Nat.sub_diag. cbn [nth_error].
        assert (Hlt' : (j <? S j) = true) by (apply Nat.ltb_lt; lia).
        rewrite Hlt' in Hr. rewrite Hr.
        destruct (picked_from pick 0 (Atom.arg_list atom)); simpl; [reflexivity|].
        rewrite Nat.eqb_refl. reflexivity.
      * assert (Hlt' : (a <? S j) = false) by (apply Nat.ltb_ge; lia).
        rewrite Hlt' in Hr. rewrite Hr.
        replace (a - j) with (S (a - S j)) by lia. cbn [nth_error].
        destruct (picked_from pick 0 (Atom.arg_list atom)); simpl; [reflexivity|].
        assert (Hne' : (a =? j) = false) by (apply Nat.eqb_neq; lia).
        rewrite Hne'. reflexivity.
Qed.

Lemma sparse_map_from_sorted atoms : forall j,
  StronglySorted lt (od_keys (sparse_map_from pick j atoms)).
Proof.
  induction atoms as [|atom r IH]; intros j; simpl; [constructor|].
  destruct (picked_from pick 0 (Atom.arg_list atom)); simpl; [apply IH|].
  constructor; [apply IH|].
  apply Forall_forall. intros q Hq. apply sparse_map_from_lower in Hq. lia.
Qed.

(** An inner dictionary of the map is the non-empty, sorted list of the
    recorded arguments of its atom. *)
Lemma sparse_map_inner atoms a inner :
  od_get a (sparse_map_from pick 0 atoms) = Some inner ->
  inner <> [] /\ StronglySorted lt (od_keys inner) /\
  exists atom, nth_error atoms a = Some atom /\
               inner = picked_from pick 0 (Atom.arg_list atom).
Proof.
  intros Ha. rewrite sparse_map_from_get in Ha. simpl in Ha.
  rewrite Nat.sub_0_r in Ha.
  destruct (nth_error atoms a) as [atom|] eqn:Hatom; [|discriminate].
  apply lookup_of_Some in Ha. destruct Ha as [-> Hne].
  repeat split; [exact Hne|apply picked_from_sorted|].
  exists atom. auto.
Qed.

Lemma sparse_map_lookup atoms a p v :
  (exists inner, od_get a (sparse_map_from pick 0 atoms) = Some inner /\
                 od_get p inner = Some v) <->
  exists atom arg,
    nth_error atoms a = Some atom /\
    nth_error (Atom.arg_list atom) p = Some arg /\
    pick arg = Some v.
Proof.
  rewrite sparse_map_from_get. simpl. rewrite Nat.sub_0_r. split.
  - intros (inner & Ha & Hp).
    destruct (nth_error atoms a) as [atom|] eqn:Hatom; [|discriminate].
    apply lookup_of_Some in Ha. destruct Ha as [-> _].
    rewrite picked_from_get in Hp. simpl in Hp. rewrite Nat.sub_0_r in Hp.
    destruct (nth_error (Atom.arg_list atom) p) as [arg|] eqn:Harg; [|discriminate].
    exists atom, arg. auto.
  - intros (atom & arg & Hatom & Harg & Hpick).
    rewrite Hatom.
    assert (Hp : od_get p (picked_from pick 0 (Atom.arg_list atom)) = Some v).
    { rewrite picked_from_get. simpl. rewrite Nat.sub_0_r, Harg. exact Hpick. }
    exists (picked_from pick 0 (Atom.arg_list atom)). split; [|exact Hp].
    destruct (picked_from pick 0 (Atom.arg_list atom)); [discriminate|reflexivity].
Qed.

(** The first entry of a non-empty map gives a recorded argument. *)
Lemma sparse_map_nonempty atoms :
  sparse_map_from pick 0 atoms <> [] ->
  exists atom arg v, In atom atoms /\ In arg (Atom.arg_list atom) /\ pick arg = Some v.
Proof.
  intros Hne.
  destruct (sparse_map_from pick 0 atoms) as [|[a inner] rest] eqn:Hm; [congruence|].
  assert (Ha : od_get a (sparse_map_from pick 0 atoms) = Some inner).
  { rewrite Hm. simpl. rewrite Nat.eqb_refl. reflexivity. }
  destruct (sparse_map_inner atoms a inner Ha) as (Hin & _ & _).
  destruct inner as [|[p v] rest']; [congruence|].
  assert (Hl : exists atom arg,
             nth_error atoms a = Some atom /\
             nth_error (Atom.arg_list atom) p = Some arg /\ pick arg = Some v).
  { apply sparse_map_lookup. exists ((p, v) :: rest'). split; [exact Ha|].
    simpl. rewrite Nat.eqb_refl. reflexivity. }
  destruct Hl as (atom & arg & Hatom & Harg & Hpick).
  exists atom, arg, v. repeat split; [eapply nth_error_In; eauto|eapply nth_error_In; eauto|auto].
Qed.
End SparseMapFacts.

(** ** Constant constraints *)

Lemma pick_constant_Some arg c :
  pick_constant arg = Some c <-> Arg.type arg = "constant" /\ Arg.name arg = c.
Proof.
  unfold pick_constant.
  destruct (String.eqb_spec (Arg.type arg) "constant") as [Ht|Ht]; split.
  - intros [= <-]. auto.
  - intros [_ <-]. reflexivity.
  - discriminate.
  - intros [Ht' _]. contradiction.
Qed.

Lemma record_constants_step i args : forall k (m : constant_constraint_map_t) pre,
  od_get i m = None ->
  (forall q, In q (od_keys pre) -> q < k) ->
  fold_from k args (record_constant i) (m ++ sparse_entry i pre)
  = m ++ sparse_entry i (pre ++ picked_from pick_constant k args).
Proof.
  induction args as [|arg r IH]; intros k m pre Hi Hpre; simpl.
  - rewrite app_nil_r. reflexivity.
  - unfold record_constant at 2. unfold pick_constant at 1.
    destruct (Arg.type arg =? "constant")%string.
    + fold (put_entry i k (Arg.name arg) (m ++ sparse_entry i pre)).
      rewrite put_entry_last; [|exact Hi|].
      * rewrite IH; [|exact Hi|].
        -- rewrite <- app_assoc. reflexivity.
        -- intros q Hq. unfold od_keys in Hq. rewrite map_app in Hq.
           apply in_app_or in Hq. destruct Hq as [Hq|[<-|[]]]; [|simpl; lia].
           apply Hpre in Hq. lia.
      * apply od_get_None. intros Hin. apply Hpre in Hin. lia.
    + apply IH; [exact Hi|]. intros q Hq. apply Hpre in Hq. lia.
Qed.

Lemma record_constant_atoms_step atoms : forall j (m : constant_constraint_map_t),
  (forall q, In q (od_keys m) -> q < j) ->
  fold_from j atoms
    (fun atom_index atom constant_constraint_map =>
       for_range (Atom.arg_list atom)
         (fun arg_index arg m => record_constant atom_index arg_index arg m)
         constant_constraint_map) m
  = m ++ sparse_map_from pick_constant j atoms.
Proof.
  induction atoms as [|atom r IH]; intros j m Hm; simpl.
  - rewrite app_nil_r. reflexivity.
  - rewrite for_range_fold_from.
    change (fun arg_index arg m0 => record_constant j arg_index arg m0)
      with (record_constant j).
    assert (Hstep := record_constants_step j (Atom.arg_list atom) 0 m []).
    simpl sparse_entry in Hstep. rewrite app_nil_r in Hstep. simpl app in Hstep.
    rewrite Hstep.
    + rewrite IH.
      * rewrite <- app_assoc. reflexivity.
      * intros q Hq. unfold od_keys in Hq. rewrite map_app in Hq.
        apply in_app_or in Hq. destruct Hq as [Hq|Hq].
        -- apply Hm in Hq. lia.
        -- apply sparse_entry_keys in Hq. lia.
    + apply od_get_None. intros Hin. apply Hm in Hin. lia.
    + simpl. tauto.
Qed.

Lemma extract_constant_constraint_map_eq body_atoms :
  extract_constant_constraint_map body_atoms = sparse_map_from pick_constant 0 body_atoms.
Proof.
  unfold extract_constant_constraint_map. rewrite for_range_fold_from.
  rewrite record_constant_atoms_step; [reflexivity|]. simpl. tauto.
Qed.

Lemma constant_lookup body_atoms a p c :
  (exists inner, od_get a (sparse_map_from pick_constant 0 body_atoms) = Some inner /\
                 od_get p inner = Some c) <->
  constant_at body_atoms a p c.
Proof.
  rewrite sparse_map_lookup. unfold constant_at. split.
  - intros (atom & arg & Hatom & Harg & Hpick). apply pick_constant_Some in Hpick.
    exists atom, arg. tauto.
  - intros (atom & arg & Hatom & Harg & Ht & Hn).
    exists atom, arg. repeat split; [exact Hatom|exact Harg|].
    apply pick_constant_Some. auto.
Qed.

(** X1.  [extract_constant_constraint_map]: the map holds the text [c] at
    [map[a][p]] exactly when argument [p] of body atom [a] is a constant
    whose name is [c]. *)
Theorem constant_constraint_map_entries (body_atoms : list Atom.t) (a p : nat) (c : string) :
  (exists inner,
     od_get a (extract_constant_constraint_map body_atoms) = Some inner /\
     od_get p inner = Some c) <->
  constant_at body_atoms a p c.
Proof.
  rewrite extract_constant_constraint_map_eq. apply constant_lookup.
Qed.

(** X2.  [extract_constant_constraint_map]: an atom index is a key exactly
    when that atom has a constant argument; keys and inner keys are in
    increasing order, no inner dictionary is empty, and a body without
    constants gives the empty map. *)
Theorem constant_constraint_map_keys (body_atoms : list Atom.t) :
  let m := extract_constant_constraint_map body_atoms in
  (forall a, In a (od_keys m) <-> exists p c, constant_at body_atoms a p c) /\
  StronglySorted lt (od_keys m) /\
  (forall a inner, od_get a m = Some inner ->
     inner <> [] /\ StronglySorted lt (od_keys inner)) /\
  ((forall atom arg, In atom body_atoms -> In arg (Atom.arg_list atom) ->
                     Arg.type arg <> "constant") -> m = []).
Proof.
  cbv zeta. rewrite extract_constant_constraint_map_eq.
  repeat match goal with |- _ /\ _ => split end.
  - intros a. split.
    + intros Hin. apply od_keys_get in Hin. destruct Hin as [inner Ha].
      destruct (sparse_map_inner pick_constant body_atoms a inner Ha) as (Hne & _ & _).
      destruct inner as [|[p c] rest]; [congruence|].
      exists p, c. apply constant_lookup. exists ((p, c) :: rest). split; [exact Ha|].
      simpl. rewrite Nat.eqb_refl. reflexivity.
    + intros (p & c & Hc). apply constant_lookup in Hc. destruct Hc as (inner & Ha & _).
      apply od_get_Some_keys in Ha. exact Ha.
  - apply sparse_map_from_sorted.
  - intros a inner Ha.
    destruct (sparse_map_inner pick_constant body_atoms a inner Ha) as (Hne & Hs & _). auto.
  - intros Hnone.
    destruct (sparse_map_from pick_constant 0 body_atoms) as [|e rest] eqn:Hm; [reflexivity|].
    exfalso.
    destruct (sparse_map_nonempty pick_constant body_atoms) as (atom & arg & c & Hin & Hin' & Hp).
    { rewrite Hm. discriminate. }
    apply pick_constant_Some in Hp. destruct Hp as [Ht _].
    apply (Hnone atom arg Hin Hin' Ht).
Qed.

(** X3.  A position recorded by [extract_variable_arg_to_atom_map] is
    never a position of [extract_constant_constraint_map]: the two maps
    built from one body are disjoint. *)
Theorem variable_and_constant_positions_disjoint (body_atoms : list Atom.t)
    (v : string) (a p : nat) (occ : odict nat (list nat)) (ps : list nat)
    (inner : odict nat string) :
  od_get v (extract_variable_arg_to_atom_map body_atoms) = Some occ ->
  od_get a occ = Some ps ->
  In p ps ->
  od_get a (extract_constant_constraint_map body_atoms) = Some inner ->
  od_get p inner = None.
Proof.
  intros Hv Ha Hp Hc.
  destruct (od_get p inner) as [c|] eqn:Hpc; [|reflexivity]. exfalso.
  assert (Hconst : constant_at body_atoms a p c).
  { rewrite extract_constant_constraint_map_eq in Hc.
    apply constant_lookup. exists inner. auto. }
  assert (Hocc : occurs_at body_atoms v a p).
  { apply occurs_at_occurrences. exists ps. split; [|exact Hp].
    rewrite extract_variable_arg_to_atom_map_get in Hv.
    apply lookup_of_Some in Hv. destruct Hv as [-> _]. exact Ha. }
  destruct Hconst as (atom & arg & Hatom & Harg & Ht & _).
  destruct Hocc as (atom' & arg' & Hatom' & Harg' & Ht' & _).
  rewrite Hatom in Hatom'. injection Hatom' as <-.
  rewrite Harg in Harg'. injection Harg' as <-.
  rewrite Ht in Ht'. discriminate.
Qed.

Lemma variable_and_constant_positions_disjoint_witness :
  od_get 0 [(1, "1")] = None.
Proof.
  apply (variable_and_constant_positions_disjoint
           [Atom.mk "Edge" [Arg.mk "variable" "x"; Arg.mk "constant" "1"]]
           "x" 0 0 [(0, [0])] [0] [(1, "1")]);
    try reflexivity.
  simpl. auto.
Defined.

(** ** Atom aliases *)

Lemma to_int_not_nil z :
  Z.to_int z <> Decimal.Pos Decimal.Nil /\ Z.to_int z <> Decimal.Neg Decimal.Nil.
Proof.
  assert (Hn : Z.to_int z = Decimal.norm (Z.to_int z)).
  { rewrite <- (DecimalZ.to_of (Z.to_int z)). rewrite DecimalZ.of_to. reflexivity. }
  split; intros Heq; rewrite Heq in Hn; discriminate Hn.
Qed.

Lemma string_of_Z_inj z z' : string_of_Z z = string_of_Z z' -> z = z'.
Proof.
  unfold string_of_Z. intros Heq.
  apply DecimalZ.to_int_inj.
  destruct (to_int_not_nil z) as [Hp Hn].
  destruct (to_int_not_nil z') as [Hp' Hn'].
  assert (H1 := NilZero.isi (Z.to_int z) Hp Hn).
  assert (H2 := NilZero.isi (Z.to_int z') Hp' Hn').
  rewrite Heq in H1. rewrite H1 in H2. injection H2 as H2. exact H2.
Qed.

(** The decimal text of a number holds no underscore. *)
Lemma string_of_uint_no_underscore (d : Decimal.uint) :
  absent "_" (NilEmpty.string_of_uint d).
Proof.
  induction d; simpl; try exact I; (split; [discriminate|assumption]).
Qed.

Lemma string_of_Z_no_underscore (z : Z) : absent "_" (string_of_Z z).
Proof.
  unfold string_of_Z, NilZero.string_of_int, NilZero.string_of_uint.
  destruct (Z.to_int z) as [d|d].
  - destruct d; try apply string_of_uint_no_underscore.
    simpl. split; [discriminate|exact I].
  - split; [discriminate|].
    destruct d; try apply string_of_uint_no_underscore.
    simpl. split; [discriminate|exact I].
Qed.

Lemma absent_after_separator (c : ascii) (s t : string) :
  ~ absent c (s ++ String c t)%string.
Proof.
  induction s as [|c' s IH]; simpl.
  - intros [Hne _]. apply Hne. reflexivity.
  - intros [_ Hrest]. exact (IH Hrest).
Qed.

(** A text is cut in one way only at its last underscore. *)
Lemma last_separator_unique (s s' t t' : string) :
  absent "_" t -> absent "_" t' ->
  (s ++ String "_" t)%string = (s' ++ String "_" t')%string ->
  s = s' /\ t = t'.
Proof.
  intros Ht Ht'. revert s'.
  induction s as [|c s IH]; intros [|c' s'] Heq; simpl in Heq.
  - injection Heq as Heq. auto.
  - injection Heq as Hc Heq. exfalso.
    rewrite Heq in Ht. exact (absent_after_separator _ _ _ Ht).
  - injection Heq as Hc Heq. exfalso.
    rewrite <- Heq in Ht'. exact (absent_after_separator _ _ _ Ht').
  - injection Heq as -> Heq. destruct (IH s' Heq) as [-> ->]. auto.
Qed.

Lemma string_append_assoc (s t u : string) :
  ((s ++ t) ++ u)%string = (s ++ t ++ u)%string.
Proof.
  induction s as [|c s IH]; simpl; [reflexivity|]. rewrite IH. reflexivity.
Qed.

(** Equal aliases have the same prefix with initial, and the same index. *)
Lemma alias_text_inj (prefix prefix' initial initial' : string) (i j : nat) :
  alias_text prefix initial i = alias_text prefix' initial' j ->
  (prefix ++ initial)%string = (prefix' ++ initial')%string /\ i = j.
Proof.
  unfold alias_text. intros Heq.
  rewrite <- (string_append_assoc prefix initial),
    <- (string_append_assoc prefix' initial') in Heq.
  change ("_" ++ string_of_Z (Z.of_nat i))%string
    with (String "_" (string_of_Z (Z.of_nat i))) in Heq.
  change ("_" ++ string_of_Z (Z.of_nat j))%string
    with (String "_" (string_of_Z (Z.of_nat j))) in Heq.
  apply last_separator_unique in Heq; try apply string_of_Z_no_underscore.
  destruct Heq as [Hinit Hdec]. split; [exact Hinit|].
  apply string_of_Z_inj in Hdec. lia.
Qed.

Lemma prefix_neg (s : string) : String.prefix "neg_" ("neg_" ++ s) = true.
Proof.
  apply prefix_correct. simpl. destruct s; reflexivity.
Qed.

Section AliasBuilders.
Context (unicode_lower : string -> string).

Lemma initial_lower_cases (name : string) :
  match initial_lower unicode_lower name with
  | None => name = ""
  | Some initial => exists c rest, name = String c rest /\ initial = lowered unicode_lower c name
  end.
Proof.
  destruct name as [|c rest]; simpl; [reflexivity|].
  exists c, rest. auto.
Qed.

Lemma atom_alias_text prefix atom i :
  match atom_alias unicode_lower prefix atom i with
  | inl e => e = IndexError /\ Atom.name atom = ""
  | inr alias =>
      exists c rest,
        Atom.name atom = String c rest /\
        alias = alias_text prefix (lowered unicode_lower c (Atom.name atom)) i
  end.
Proof.
  unfold atom_alias.
  assert (H := initial_lower_cases (Atom.name atom)).
  destruct (initial_lower unicode_lower (Atom.name atom)) as [initial|].
  - destruct H as (c & rest & Hname & ->). simpl. exists c, rest.
    split; [exact Hname|reflexivity].
  - simpl. split; [reflexivity|exact H].
Qed.

Lemma naming_loop_spec prefix atoms : forall aliases i,
  match naming_loop unicode_lower prefix atoms (aliases, i) with
  | inl e => e = IndexError /\ exists atom, In atom atoms /\ Atom.name atom = ""
  | inr (aliases', i') =>
      i' = i + List.length atoms /\
      exists added,
        aliases' = aliases ++ added /\
        List.length added = List.length atoms /\
        forall k atom, nth_error atoms k = Some atom ->
          exists c rest,
            Atom.name atom = String c rest /\
            nth_error added k =
              Some (alias_text prefix (lowered unicode_lower c (Atom.name atom)) (i + k))
  end.
Proof.
  induction atoms as [|atom r IH]; intros aliases i.
  - simpl. split; [lia|]. exists []. rewrite app_nil_r.
    repeat split. intros [|k] atom Hk; discriminate.
  - unfold naming_loop. simpl fold_result.
    assert (Hone := atom_alias_text prefix atom i).
    destruct (atom_alias unicode_lower prefix atom i) as [e|alias].
    + destruct Hone as [-> Hname]. split; [reflexivity|].
      exists atom. split; [left; reflexivity|exact Hname].
    + unfold ok. cbv iota.
      change (fold_result _ r (aliases ++ [alias], i + 1))
        with (naming_loop unicode_lower prefix r (aliases ++ [alias], i + 1)).
      specialize (IH (aliases ++ [alias]) (i + 1)).
      destruct (naming_loop unicode_lower prefix r (aliases ++ [alias], i + 1))
        as [e|[aliases' i']].
      * destruct IH as [-> (atom' & Hin & Hname)]. split; [reflexivity|].
        exists atom'. split; [right; exact Hin|exact Hname].
      * destruct IH as (-> & added & -> & Hlen & Hnth).
        destruct Hone as (c & rest & Hname & ->).
        split; [simpl; lia|].
        exists (alias_text prefix (lowered unicode_lower c (Atom.name atom)) i :: added).
        repeat split.
        -- rewrite <- app_assoc. reflexivity.
        -- simpl. rewrite Hlen. reflexivity.
        -- intros [|k] atom' Hk; simpl in Hk.
           ++ injection Hk as <-. exists c, rest. rewrite Nat.add_0_r. auto.
           ++ destruct (Hnth k atom' Hk) as (c' & rest' & Hname' & Hk').
              exists c', rest'. split; [exact Hname'|]. simpl.
              rewrite Hk'. replace (i + 1 + k) with (i + S k) by lia. reflexivity.
Qed.

Lemma alias_texts_distinct prefix (atoms : list Atom.t) (aliases : list string) :
  List.length aliases = List.length atoms ->
  (forall k atom, nth_error atoms k = Some atom ->
     exists c rest,
       Atom.name atom = String c rest /\
       nth_error aliases k =
         Some (alias_text prefix (lowered unicode_lower c (Atom.name atom)) k)) ->
  NoDup aliases.
Proof.
  intros Hlen Hnth. apply NoDup_nth_error. intros i j Hi Heq.
  rewrite Hlen in Hi.
  destruct (nth_error atoms i) as [atom|] eqn:Hatom;
    [|apply nth_error_None in Hatom; lia].
  destruct (Hnth i atom Hatom) as (c & rest & _ & Hi').
  rewrite Hi' in Heq. symmetry in Heq.
  assert (Hj : j < List.length atoms).
  { rewrite <- Hlen. apply nth_error_Some. rewrite Heq. discriminate. }
  destruct (nth_error atoms j) as [atom'|] eqn:Hatom';
    [|apply nth_error_None in Hatom'; lia].
  destruct (Hnth j atom' Hatom') as (c' & rest' & _ & Hj').
  rewrite Hj' in Heq. injection Heq as Heq.
  symmetry. eapply alias_text_inj. exact Heq.
Qed.

(** X4.  [build_atom_aliases] raises [IndexError] exactly when some atom
    has an empty relation name; otherwise it returns one alias per atom,
    in order, the alias of atom [i] being the lower-cased first character
    of its name, an underscore and the decimal text of [i].  The
    lower-cased first character is the ASCII one ([A]-[Z] to [a]-[z],
    others unchanged) when the name starts with an ASCII character, and
    what Python's Unicode lower-casing gives otherwise. *)
Theorem build_atom_aliases_spec (body_atoms : list Atom.t) :
  match build_atom_aliases unicode_lower body_atoms with
  | inl e => e = IndexError /\ exists atom, In atom body_atoms /\ Atom.name atom = ""
  | inr aliases =>
      List.length aliases = List.length body_atoms /\
      forall i atom, nth_error body_atoms i = Some atom ->
        exists c rest,
          Atom.name atom = String c rest /\
          nth_error aliases i =
            Some ((if is_ascii c then String (Heap.lower_ascii c) ""
                   else unicode_lower (Atom.name atom))
                  ++ "_" ++ string_of_Z (Z.of_nat i))%string
  end.
Proof.
  unfold build_atom_aliases.
  fold (naming_loop unicode_lower "" body_atoms ([], 0)).
  assert (H := naming_loop_spec "" body_atoms [] 0).
  destruct (naming_loop unicode_lower "" body_atoms ([], 0)) as [e|[aliases i']].
  - exact H.
  - destruct H as (_ & added & -> & Hlen & Hnth). simpl.
    split; [exact Hlen|]. intros i atom Hatom.
    destruct (Hnth i atom Hatom) as (c & rest & Hname & Hi).
    exists c, rest. split; [exact Hname|exact Hi].
Qed.

(** X5.  [build_negation_atom_aliases] behaves as [build_atom_aliases]
    with the prefix ["neg_"]: [IndexError] exactly on an empty relation
    name, otherwise one alias ["neg_<initial>_<i>"] per negated atom,
    [<initial>] being the lower-cased first character of the name (the
    ASCII rule for an ASCII character, Python's Unicode lower-casing for
    any other). *)
Theorem build_negation_atom_aliases_spec (negation_atoms : list Atom.t) :
  match build_negation_atom_aliases unicode_lower negation_atoms with
  | inl e => e = IndexError /\ exists atom, In atom negation_atoms /\ Atom.name atom = ""
  | inr aliases =>
      List.length aliases = List.length negation_atoms /\
      forall i atom, nth_error negation_atoms i = Some atom ->
        exists c rest,
          Atom.name atom = String c rest /\
          nth_error aliases i =
            Some ("neg_"
                  ++ (if is_ascii c then String (Heap.lower_ascii c) ""
                      else unicode_lower (Atom.name atom))
                  ++ "_" ++ string_of_Z (Z.of_nat i))%string
  end.
Proof.
  unfold build_negation_atom_aliases.
  fold (naming_loop unicode_lower "neg_" negation_atoms ([], 0)).
  assert (H := naming_loop_spec "neg_" negation_atoms [] 0).
  destruct (naming_loop unicode_lower "neg_" negation_atoms ([], 0)) as [e|[aliases i']].
  - exact H.
  - destruct H as (_ & added & -> & Hlen & Hnth).
    split; [exact Hlen|]. intros i atom Hatom.
    destruct (Hnth i atom Hatom) as (c & rest & Hname & Hi).
    exists c, rest. split; [exact Hname|exact Hi].
Qed.

Lemma naming_loop_result prefix atoms aliases :
  match naming_loop unicode_lower prefix atoms ([], 0) with
  | inl e => inl e
  | inr (l, _) => ok l
  end = ok aliases ->
  List.length aliases = List.length atoms /\
  forall k atom, nth_error atoms k = Some atom ->
    exists c rest,
      Atom.name atom = String c rest /\
      nth_error aliases k =
        Some (alias_text prefix (lowered unicode_lower c (Atom.name atom)) k).
Proof.
  intros Hres.
  assert (H := naming_loop_spec prefix atoms [] 0).
  destruct (naming_loop unicode_lower prefix atoms ([], 0)) as [e|[l i']]; [discriminate|].
  injection Hres as ->.
  destruct H as (_ & added & -> & Hlen & Hnth). simpl. auto.
Qed.

(** X6.  The aliases are collision-free: those of the positive atoms are
    pairwise distinct, those of the negated atoms are pairwise distinct,
    and no positive alias equals a negated one.  This holds for every
    lower-casing of the non-ASCII characters that never gives a text
    starting with ["neg_"]; Unicode's is one, a character being mapped to
    at most three. *)
Theorem atom_aliases_collision_free (body_atoms negation_atoms : list Atom.t)
    (aliases negation_aliases : list string) :
  (forall name, String.prefix "neg_" (unicode_lower name) = false) ->
  build_atom_aliases unicode_lower body_atoms = ok aliases ->
  build_negation_atom_aliases unicode_lower negation_atoms = ok negation_aliases ->
  NoDup (aliases ++ negation_aliases).
Proof.
  intros Hlower Hpos Hneg.
  apply (naming_loop_result "" body_atoms aliases) in Hpos.
  apply (naming_loop_result "neg_" negation_atoms negation_aliases) in Hneg.
  destruct Hpos as [Hlen Hnth]. destruct Hneg as [Hlen' Hnth'].
  apply NoDup_app.
  - eapply alias_texts_distinct; eauto.
  - eapply alias_texts_distinct; eauto.
  - intros x Hin Hin'.
    apply In_nth_error in Hin. destruct Hin as [i Hi].
    apply In_nth_error in Hin'. destruct Hin' as [j Hj].
    assert (Hi' : i < List.length body_atoms).
    { rewrite <- Hlen. apply nth_error_Some. rewrite Hi. discriminate. }
    assert (Hj' : j < List.length negation_atoms).
    { rewrite <- Hlen'. apply nth_error_Some. rewrite Hj. discriminate. }
    destruct (nth_error body_atoms i) as [atom|] eqn:Hatom;
      [|apply nth_error_None in Hatom; lia].
    destruct (nth_error negation_atoms j) as [atom'|] eqn:Hatom';
      [|apply nth_error_None in Hatom'; lia].
    destruct (Hnth i atom Hatom) as (c & rest & _ & Hx).
    destruct (Hnth' j atom' Hatom') as (c' & rest' & _ & Hx').
    rewrite Hi in Hx. rewrite Hj in Hx'.
    assert (Heq : alias_text "" (lowered unicode_lower c (Atom.name atom)) i
                  = alias_text "neg_" (lowered unicode_lower c' (Atom.name atom')) j)
      by congruence.
    apply alias_text_inj in Heq. destruct Heq as [Heq _].
    cbn [String.append] in Heq. unfold lowered at 1 in Heq.
    destruct (is_ascii c).
    + discriminate Heq.
    + specialize (Hlower (Atom.name atom)). rewrite Heq in Hlower.
      change (String "n" (String "e" (String "g" (String "_" ?s))))
        with ("neg_" ++ s)%string in Hlower.
      rewrite prefix_neg in Hlower. discriminate Hlower.
Qed.
End AliasBuilders.

Lemma atom_aliases_collision_free_witness :
  NoDup (["e_0"; "p_1"] ++ ["neg_e_0"]).
Proof.
  apply (atom_aliases_collision_free (fun _ : string => "?")
           [Atom.mk "Edge" []; Atom.mk "path" []] [Atom.mk "Edge" []]);
    reflexivity.
Defined.

(** A relation name whose first character is not an ASCII one: the alias
    starts with the text Python's lower-casing gives for that character. *)
Example alias_of_non_ascii_initial (unicode_lower : string -> string) :
  build_atom_aliases unicode_lower [Atom.mk "Édge" []; Atom.mk "Path" []]
  = ok [(unicode_lower "Édge" ++ "_0")%string; "p_1"].
Proof. reflexivity. Qed.

(** ** Negation map: the matched case and the error case *)

Lemma pick_anti_join_Some idx arg found :
  pick_anti_join idx arg = Some found <->
  Arg.type arg = "variable" /\
  search_argument_mapping_in_body_atoms idx (Arg.name arg) = ok (Some found).
Proof.
  unfold pick_anti_join.
  destruct (String.eqb_spec (Arg.type arg) "variable") as [Ht|Ht].
  - destruct (search_argument_mapping_in_body_atoms idx (Arg.name arg)) as [e|[m|]]; split.
    + discriminate.
    + intros [_ H]. discriminate.
    + intros [= <-]. auto.
    + intros [_ H]. unfold ok in H. congruence.
    + discriminate.
    + intros [_ H]. discriminate.
  - split; [discriminate|]. intros [Ht' _]. contradiction.
Qed.

Lemma negation_entries_keys args : forall j,
  od_keys (negation_entries_from j args) = seq j (List.length args).
Proof.
  induction args as [|arg r IH]; intros j; simpl; [reflexivity|].
  f_equal. apply IH.
Qed.

Lemma negation_map_keys atoms : forall i,
  od_keys (negation_map_from i atoms) = seq i (List.length atoms).
Proof.
  induction atoms as [|atom r IH]; intros i; simpl; [reflexivity|].
  f_equal. apply IH.
Qed.

Lemma anti_join_arguments_step idx i (entries : odict nat NegArg.t) args :
  forall j (aj : anti_join_map_t) (pre : odict nat Mapping.t),
  (forall q arg, nth_error args q = Some arg ->
     od_get (j + q) entries = Some (NegArg.mk (Arg.name arg) (Arg.type arg))) ->
  od_get i aj = None ->
  (forall q, In q (od_keys pre) -> q < j) ->
  (forall arg, In arg args -> Arg.type arg = "variable" -> od_get (Arg.name arg) idx <> None) ->
  fold_result (anti_join_argument idx i entries) (seq j (List.length args))
    (aj ++ sparse_entry i pre)
  = ok (aj ++ sparse_entry i (pre ++ picked_from (pick_anti_join idx) j args)).
Proof.
  induction args as [|arg r IH]; intros j aj pre Hent Hi Hpre Hkeyed.
  - simpl. rewrite app_nil_r. reflexivity.
  - cbn [List.length seq fold_result picked_from].
    assert (Hj : od_get j entries = Some (NegArg.mk (Arg.name arg) (Arg.type arg))).
    { rewrite <- (Nat.add_0_r j). apply Hent. reflexivity. }
    assert (Hrest : forall q arg', nth_error r q = Some arg' ->
              od_get (S j + q) entries = Some (NegArg.mk (Arg.name arg') (Arg.type arg'))).
    { intros q arg' Hq. replace (S j + q) with (j + S q) by lia. apply Hent. exact Hq. }
    assert (Hkeyed' : forall arg', In arg' r -> Arg.type arg' = "variable" ->
              od_get (Arg.name arg') idx <> None).
    { intros arg' Hin. apply Hkeyed. right. exact Hin. }
    assert (Hpre' : forall q, In q (od_keys pre) -> q < S j).
    { intros q Hq. apply Hpre in Hq. lia. }
    unfold anti_join_argument at 1. rewrite Hj. cbn [NegArg.arg_type NegArg.arg_name].
    unfold pick_anti_join at 1.
    destruct (String.eqb_spec (Arg.type arg) "variable") as [Ht|Ht].
    + unfold search_argument_mapping_in_body_atoms.
      destruct (od_get (Arg.name arg) idx) as [occ|] eqn:Hocc.
      * unfold ok at 1 2. cbv iota.
        destruct (first_atom_arg occ) as [found|].
        -- fold (put_entry i j found (aj ++ sparse_entry i pre)).
           rewrite put_entry_last; [|exact Hi|].
           ++ unfold ok at 1. cbv iota.
              rewrite IH; [|exact Hrest|exact Hi| |exact Hkeyed'].
              ** rewrite <- app_assoc. reflexivity.
              ** intros q Hq. unfold od_keys in Hq. rewrite map_app in Hq.
                 apply in_app_or in Hq. destruct Hq as [Hq|[<-|[]]]; [|simpl; lia].
                 apply Hpre in Hq. lia.
           ++ apply od_get_None. intros Hin. apply Hpre in Hin. lia.
        -- unfold ok at 1. cbv iota. apply IH; assumption.
      * exfalso. apply (Hkeyed arg); [left; reflexivity|exact Ht|exact Hocc].
    + unfold ok at 1. cbv iota. apply IH; assumption.
Qed.

Lemma anti_join_atoms_step idx (nm : negation_map_t) atoms :
  forall i (aj : anti_join_map_t),
  (forall q atom, nth_error atoms q = Some atom ->
     od_get (i + q) nm = Some (negation_entries_from 0 (Atom.arg_list atom))) ->
  (forall q, In q (od_keys aj) -> q < i) ->
  (forall atom arg, In atom atoms -> In arg (Atom.arg_list atom) ->
     Arg.type arg = "variable" -> od_get (Arg.name arg) idx <> None) ->
  fold_result
    (fun anti_join_map negation_atom_index =>
       match od_get negation_atom_index nm with
       | None => raise KeyError
       | Some negation_atom_map =>
           fold_result
             (anti_join_argument idx negation_atom_index negation_atom_map)
             (od_keys negation_atom_map) anti_join_map
       end)
    (seq i (List.length atoms)) aj
  = ok (aj ++ sparse_map_from (pick_anti_join idx) i atoms).
Proof.
  induction atoms as [|atom r IH]; intros i aj Hnm Haj Hkeyed.
  - simpl. rewrite app_nil_r. reflexivity.
  - cbn [List.length seq fold_result sparse_map_from].
    assert (Hi : od_get i nm = Some (negation_entries_from 0 (Atom.arg_list atom))).
    { rewrite <- (Nat.add_0_r i). apply Hnm. reflexivity. }
    rewrite Hi. rewrite negation_entries_keys.
    assert (Hstep := anti_join_arguments_step idx i
                       (negation_entries_from 0 (Atom.arg_list atom))
                       (Atom.arg_list atom) 0 aj []).
    simpl sparse_entry in Hstep. rewrite app_nil_r in Hstep. simpl app in Hstep.
    rewrite Hstep.
    + unfold ok at 1. cbv iota. rewrite IH.
      * rewrite <- app_assoc. reflexivity.
      * intros q atom' Hq. replace (S i + q) with (i + S q) by lia. apply Hnm. exact Hq.
      * intros q Hq. unfold od_keys in Hq. rewrite map_app in Hq.
        apply in_app_or in Hq. destruct Hq as [Hq|Hq].
        -- apply Haj in Hq. lia.
        -- apply sparse_entry_keys in Hq. lia.
      * intros atom' arg Hin. apply Hkeyed. right. exact Hin.
    + intros q arg Hq. simpl. apply negation_entries_get. exact Hq.
    + apply od_get_None. intros Hin. apply Haj in Hin. lia.
    + simpl. tauto.
    + intros arg Hin. apply (Hkeyed atom); [left; reflexivity|exact Hin].
Qed.

Lemma extract_negation_map_matched_eq (body_negation_atoms : list Atom.t) (idx : index) :
  (forall atom arg, In atom body_negation_atoms -> In arg (Atom.arg_list atom) ->
     Arg.type arg = "variable" -> od_get (Arg.name arg) idx <> None) ->
  extract_negation_map body_negation_atoms idx =
  ok (NegationMaps.mk (negation_map_from 0 body_negation_atoms)
        (sparse_map_from (pick_anti_join idx) 0 body_negation_atoms)).
Proof.
  intros Hkeyed. unfold extract_negation_map, build_anti_join_map.
  rewrite build_negation_map_eq. rewrite negation_map_keys.
  rewrite (anti_join_atoms_step idx (negation_map_from 0 body_negation_atoms)
             body_negation_atoms 0 []).
  - reflexivity.
  - intros q atom Hq. simpl. apply negation_map_get. exact Hq.
  - simpl. tauto.
  - exact Hkeyed.
Qed.

Lemma unmatched_variableb_spec atoms idx :
  unmatched_variableb atoms idx = true <-> unmatched_variable atoms idx.
Proof.
  unfold unmatched_variableb, unmatched_variable. rewrite existsb_exists. split.
  - intros (atom & Hin & Hex). apply existsb_exists in Hex.
    destruct Hex as (arg & Hin' & Hb). apply andb_true_iff in Hb. destruct Hb as [Ht Hm].
    apply String.eqb_eq in Ht. apply negb_true_iff in Hm. apply od_mem_false in Hm.
    exists atom, arg. auto.
  - intros (atom & arg & Hin & Hin' & Ht & Hm).
    exists atom. split; [exact Hin|]. apply existsb_exists. exists arg. split; [exact Hin'|].
    apply andb_true_iff. split; [apply String.eqb_eq; exact Ht|].
    apply negb_true_iff. apply od_mem_false. exact Hm.
Qed.

(** X7.  [extract_negation_map], every variable of the negated atoms
    being a key of the index: the call returns; the negation map has one
    entry per negated atom, in order, holding the name and type of every
    argument; the anti-join map holds a pair at [(i, j)] exactly when
    argument [j] of negated atom [i] is a variable, and the pair is the
    resolver's answer for it. *)
Theorem extract_negation_map_matched (body_negation_atoms : list Atom.t) (idx : index) :
  (forall atom arg, In atom body_negation_atoms -> In arg (Atom.arg_list atom) ->
     Arg.type arg = "variable" -> od_get (Arg.name arg) idx <> None) ->
  exists maps,
    extract_negation_map body_negation_atoms idx = ok maps /\
    od_keys (NegationMaps.negation_map maps) = seq 0 (List.length body_negation_atoms) /\
    (forall i atom, nth_error body_negation_atoms i = Some atom ->
       exists entries,
         od_get i (NegationMaps.negation_map maps) = Some entries /\
         od_keys entries = seq 0 (List.length (Atom.arg_list atom)) /\
         forall j arg, nth_error (Atom.arg_list atom) j = Some arg ->
           od_get j entries = Some (NegArg.mk (Arg.name arg) (Arg.type arg))) /\
    (forall i j found,
       (exists inner,
          od_get i (NegationMaps.anti_join_map maps) = Some inner /\
          od_get j inner = Some found) <->
       (exists atom arg,
          nth_error body_negation_atoms i = Some atom /\
          nth_error (Atom.arg_list atom) j = Some arg /\
          Arg.type arg = "variable" /\
          search_argument_mapping_in_body_atoms idx (Arg.name arg) = ok (Some found))).
Proof.
  intros Hkeyed.
  exists (NegationMaps.mk (negation_map_from 0 body_negation_atoms)
            (sparse_map_from (pick_anti_join idx) 0 body_negation_atoms)).
  split; [apply extract_negation_map_matched_eq; exact Hkeyed|].
  cbn [NegationMaps.negation_map NegationMaps.anti_join_map].
  split; [apply negation_map_keys|]. split.
  - intros i atom Hatom.
    exists (negation_entries_from 0 (Atom.arg_list atom)).
    split; [apply negation_map_get; exact Hatom|].
    split; [apply negation_entries_keys|].
    intros j arg Harg. apply negation_entries_get. exact Harg.
  - intros i j found. rewrite sparse_map_lookup. split.
    + intros (atom & arg & Hatom & Harg & Hpick). apply pick_anti_join_Some in Hpick.
      exists atom, arg. tauto.
    + intros (atom & arg & Hatom & Harg & Ht & Hs).
      exists atom, arg. repeat split; [exact Hatom|exact Harg|].
      apply pick_anti_join_Some. auto.
Qed.

Lemma extract_negation_map_matched_witness :
  exists maps,
    extract_negation_map
      [Atom.mk "Edge" [Arg.mk "variable" "x"; Arg.mk "constant" "1"]]
      [("x", [(0, [0])]); ("y", [(0, [1])])] = ok maps /\
    od_keys (NegationMaps.negation_map maps) = [0].
Proof.
  destruct (extract_negation_map_matched
              [Atom.mk "Edge" [Arg.mk "variable" "x"; Arg.mk "constant" "1"]]
              [("x", [(0, [0])]); ("y", [(0, [1])])]) as (maps & Hok & Hkeys & _).
  - intros atom arg [<-|[]] [<-|[<-|[]]] Ht; simpl; discriminate.
  - exists maps. split; [exact Hok|exact Hkeys].
Defined.

(** X8.  [extract_negation_map] raises exactly when some variable of a
    negated atom is not a key of the index, and the exception is then
    [KeyError]; no other exception leaves the function. *)
Theorem extract_negation_map_raises_iff_unmatched
    (body_negation_atoms : list Atom.t) (idx : index) :
  match extract_negation_map body_negation_atoms idx with
  | inl e => e = KeyError /\ unmatched_variable body_negation_atoms idx
  | inr _ => ~ unmatched_variable body_negation_atoms idx
  end.
Proof.
  destruct (unmatched_variableb body_negation_atoms idx) eqn:Hb.
  - apply unmatched_variableb_spec in Hb.
    rewrite (extract_negation_map_unmatched_variable_raises body_negation_atoms idx Hb).
    unfold raise. auto.
  - assert (Hno : ~ unmatched_variable body_negation_atoms idx).
    { intros Hu. apply unmatched_variableb_spec in Hu. congruence. }
    rewrite extract_negation_map_matched_eq; [exact Hno|].
    intros atom arg Hin Hin' Ht Hnone. apply Hno. exists atom, arg. auto.
Qed.

(** ** The resolver on an index built from a body *)

Lemma first_atom_arg_occurrences v body_atoms :
  occurrences_from v 0 body_atoms <> [] ->
  exists a p, first_atom_arg (occurrences_from v 0 body_atoms) = Some (Mapping.mk a p) /\
              occurs_at body_atoms v a p.
Proof.
  intros Hne.
  destruct (occurrences_from v 0 body_atoms) as [|[a ps] rest] eqn:Hocc; [congruence|].
  assert (Hin : In (a, ps) (occurrences_from v 0 body_atoms)) by (rewrite Hocc; left; reflexivity).
  assert (Hget : od_get a (occurrences_from v 0 body_atoms) = Some ps).
  { rewrite Hocc. simpl. rewrite Nat.eqb_refl. reflexivity. }
  apply occurrences_from_In in Hin. destruct Hin as (_ & Hps & _).
  destruct ps as [|p ps']; [congruence|].
  exists a, p. split; [reflexivity|].
  apply occurs_at_occurrences. exists (p :: ps'). split; [exact Hget|left; reflexivity].
Qed.

Lemma search_built_cases body_atoms v :
  (search_argument_mapping_in_body_atoms (extract_variable_arg_to_atom_map body_atoms) v
     = raise KeyError /\ ~ body_variable body_atoms v) \/
  (exists a p,
     search_argument_mapping_in_body_atoms (extract_variable_arg_to_atom_map body_atoms) v
       = ok (Some (Mapping.mk a p)) /\ occurs_at body_atoms v a p).
Proof.
  rewrite search_in_index.
  destruct (occurrences_from v 0 body_atoms) as [|e rest] eqn:Hocc.
  - left. split; [reflexivity|]. intros (a & p & Hat).
    apply occurs_at_occurrences in Hat. rewrite Hocc in Hat.
    destruct Hat as (ps & Hget & _). discriminate.
  - right. rewrite <- Hocc.
    destruct (first_atom_arg_occurrences v body_atoms) as (a & p & Hfirst & Hat).
    { rewrite Hocc. discriminate. }
    exists a, p. rewrite Hfirst. auto.
Qed.

(** X9.  On an index built by [extract_variable_arg_to_atom_map] the
    resolver never returns [None]: it raises [KeyError] when the name is
    not a variable of the body, and returns a position of the variable
    otherwise. *)
Theorem resolver_never_returns_None (body_atoms : list Atom.t) (v : string) :
  match search_argument_mapping_in_body_atoms
          (extract_variable_arg_to_atom_map body_atoms) v with
  | inl e => e = KeyError /\ ~ body_variable body_atoms v
  | inr None => False
  | inr (Some found) =>
      occurs_at body_atoms v (Mapping.atom_index found) (Mapping.arg_index found)
  end.
Proof.
  destruct (search_built_cases body_atoms v) as [[Hs Hno]|(a & p & Hs & Hat)]; rewrite Hs.
  - unfold raise. auto.
  - unfold ok. exact Hat.
Qed.

(** ** Comparison map: errors and the right-hand base *)

Section ComparisonErrors.
Context {F : Type} (float : string -> option F).

Lemma some_variable_side c :
  ~ no_variable_side c ->
  (snd (Comparison.lhs c) =? "var")%string || (snd (Comparison.rhs c) =? "var")%string = true.
Proof.
  intros Hno. unfold no_variable_side in Hno.
  destruct (String.eqb_spec (snd (Comparison.lhs c)) "var") as [|Hl]; [reflexivity|].
  destruct (String.eqb_spec (snd (Comparison.rhs c)) "var") as [|Hr]; [reflexivity|].
  exfalso. apply Hno. auto.
Qed.

(** The step written with the base and the compared operand. *)
Lemma comparison_step_by_base idx (m : comparison_map (F:=F)) c :
  ~ no_variable_side c ->
  comparison_step float idx m c =
  match search_argument_mapping_in_body_atoms idx (base_var c) with
  | inl e => Raised e m
  | inr None => Raised TypeError m
  | inr (Some found) =>
      let a := Mapping.atom_index found in
      let p := Mapping.arg_index found in
      let m2 := od_modify a (ensure p) (ensure a m) in
      let finish (o : other_side) :=
        Normal (add_record a p (mk_comparison_struct (base_side c) (Comparison.op c) o) m) in
      if (compare_arg_type c =? "num")%string then
        match float (compare_arg c) with
        | None => Raised ValueError m2
        | Some x => finish (OtherNum x)
        end
      else
        match search_argument_mapping_in_body_atoms idx (compare_arg c) with
        | inl e => Raised e m2
        | inr None => Raised TypeError m2
        | inr (Some other) =>
            finish (OtherVar (Mapping.atom_index other) (Mapping.arg_index other))
        end
  end.
Proof.
  intros Hno. assert (Hb := some_variable_side c Hno).
  unfold comparison_step, base_var, base_side, compare_arg, compare_arg_type.
  destruct (snd (Comparison.lhs c) =? "var")%string eqn:Hl.
  - simpl. reflexivity.
  - simpl in Hb. rewrite Hb. simpl. reflexivity.
Qed.

Lemma comparison_loop_step idx earlier c later (m : comparison_map (F:=F)) :
  comparison_loop float earlier idx = Normal m ->
  comparison_loop float (earlier ++ c :: later) idx =
  match comparison_step float idx m c with
  | Normal m' => loop_outcome (comparison_step float idx) later m'
  | Raised e m' => Raised e m'
  end.
Proof.
  intros Hloop. unfold comparison_loop in *.
  rewrite loop_outcome_app, Hloop. reflexivity.
Qed.

(** X10.  [extract_comparison_map] raises [KeyError] at the first
    comparison whose base operand, or whose other operand when it is not
    tagged ['num'], is not a variable of the body. *)
Theorem comparison_unresolved_variable_raises (body_atoms : list Atom.t)
    (earlier later : list Comparison.t) (c : Comparison.t) (m : comparison_map (F:=F)) :
  comparison_loop float earlier (extract_variable_arg_to_atom_map body_atoms) = Normal m ->
  ~ no_variable_side c ->
  ~ body_variable body_atoms (base_var c) \/
  (compare_arg_type c <> "num" /\ ~ body_variable body_atoms (compare_arg c)) ->
  extract_comparison_map float (earlier ++ c :: later)
    (extract_variable_arg_to_atom_map body_atoms) = raise KeyError.
Proof.
  intros Hloop Hno Hun. unfold extract_comparison_map.
  rewrite (comparison_loop_step _ earlier c later m Hloop).
  rewrite (comparison_step_by_base _ m c Hno).
  destruct (search_built_cases body_atoms (base_var c)) as [[Hs _]|(a & p & Hs & Hat)];
    rewrite Hs.
  - reflexivity.
  - unfold ok. cbv iota zeta.
    destruct Hun as [Hbase|[Hty Hother]].
    + exfalso. apply Hbase. exists a, p. exact Hat.
    + apply String.eqb_neq in Hty. rewrite Hty.
      destruct (search_built_cases body_atoms (compare_arg c))
        as [[Hs' _]|(a' & p' & _ & Hat')].
      * rewrite Hs'. reflexivity.
      * exfalso. apply Hother. exists a', p'. exact Hat'.
Qed.

(** X11.  [extract_comparison_map] raises [ValueError] at the first
    comparison of a body variable with an operand tagged ['num'] whose
    text [float] rejects. *)
Theorem comparison_bad_number_raises (body_atoms : list Atom.t)
    (earlier later : list Comparison.t) (c : Comparison.t) (m : comparison_map (F:=F)) :
  comparison_loop float earlier (extract_variable_arg_to_atom_map body_atoms) = Normal m ->
  ~ no_variable_side c ->
  body_variable body_atoms (base_var c) ->
  compare_arg_type c = "num" ->
  float (compare_arg c) = None ->
  extract_comparison_map float (earlier ++ c :: later)
    (extract_variable_arg_to_atom_map body_atoms) = raise ValueError.
Proof.
  intros Hloop Hno Hbase Hty Hfloat. unfold extract_comparison_map.
  rewrite (comparison_loop_step _ earlier c later m Hloop).
  rewrite (comparison_step_by_base _ m c Hno).
  destruct (search_built_cases body_atoms (base_var c)) as [[_ Hnot]|(a & p & Hs & _)].
  - contradiction.
  - rewrite Hs. unfold ok. cbv iota zeta. rewrite Hty, Hfloat. reflexivity.
Qed.

(** X12.  A comparison of a number on the left with a variable on the
    right is attached to the position of the variable, the base side is
    ['r'], the operator is kept as written and the numerical value is
    [float] of the left text. *)
Theorem right_variable_is_base (idx : index) (earlier : list Comparison.t)
    (c : Comparison.t) (m : comparison_map (F:=F)) (t v : string) (x : F) (a p : nat) :
  Comparison.lhs c = (t, "num") ->
  Comparison.rhs c = (v, "var") ->
  float t = Some x ->
  search_argument_mapping_in_body_atoms idx v = ok (Some (Mapping.mk a p)) ->
  comparison_loop float earlier idx = Normal m ->
  exists m',
    extract_comparison_map float (earlier ++ [c]) idx = ok m' /\
    records_at m' a p =
      records_at m a p ++ [mk_comparison_struct "r" (Comparison.op c) (OtherNum x)] /\
    forall a0 p0, (a0, p0) <> (a, p) -> records_at m' a0 p0 = records_at m a0 p0.
Proof.
  intros Hl Hr Hfloat Hs Hloop.
  exists (add_record a p (mk_comparison_struct "r" (Comparison.op c) (OtherNum x)) m).
  split; [|split].
  - unfold extract_comparison_map.
    rewrite (comparison_loop_step idx earlier c [] m Hloop).
    unfold comparison_step. rewrite Hl, Hr. simpl. rewrite Hs, Hfloat. reflexivity.
  - rewrite records_at_add_record, !Nat.eqb_refl. reflexivity.
  - intros a0 p0 Hne. rewrite records_at_add_record.
    destruct (Nat.eqb_spec a0 a) as [->|]; simpl; [|reflexivity].
    destruct (Nat.eqb_spec p0 p) as [->|]; [congruence|reflexivity].
Qed.

Lemma comparison_step_error_kind body_atoms (m m' : comparison_map (F:=F)) c e :
  comparison_step float (extract_variable_arg_to_atom_map body_atoms) m c = Raised e m' ->
  e = Exception_ no_variable_side_message \/ e = KeyError \/ e = ValueError.
Proof.
  destruct (no_variable_side_dec c) as [Hno|Hno].
  - rewrite (comparison_step_no_variable_side float _ m c Hno). intros [= <- _]. auto.
  - rewrite (comparison_step_by_base _ m c Hno).
    destruct (search_built_cases body_atoms (base_var c)) as [[Hs _]|(a & p & Hs & _)];
      rewrite Hs.
    + intros [= <- _]. auto.
    + unfold ok. cbv iota zeta.
      destruct (compare_arg_type c =? "num")%string.
      * destruct (float (compare_arg c)); [discriminate|]. intros [= <- _]. auto.
      * destruct (search_built_cases body_atoms (compare_arg c))
          as [[Hs' _]|(a' & p' & Hs' & _)]; rewrite Hs'.
        -- intros [= <- _]. auto.
        -- discriminate.
Qed.

(** X13.  On an index built from a body, [extract_comparison_map] raises
    nothing but the validation [Exception], [KeyError] (an operand that is
    not a body variable) and [ValueError] (a number [float] rejects); in
    particular the resolver's answer is never [None] when subscripted. *)
Theorem extract_comparison_map_error_kinds (body_atoms : list Atom.t)
    (body_comparisons : list Comparison.t) (e : PyErr) :
  extract_comparison_map float body_comparisons
    (extract_variable_arg_to_atom_map body_atoms) = raise e ->
  e = Exception_ no_variable_side_message \/ e = KeyError \/ e = ValueError.
Proof.
  unfold extract_comparison_map, comparison_loop.
  generalize (@nil (nat * odict nat (list (comparison_struct (F:=F))))).
  induction body_comparisons as [|c cs IH]; intros m; simpl.
  - discriminate.
  - destruct (comparison_step float (extract_variable_arg_to_atom_map body_atoms) m c)
      as [m'|e' m'] eqn:Hstep.
    + apply IH.
    + simpl. intros [= <-]. eapply comparison_step_error_kind. exact Hstep.
Qed.
End ComparisonErrors.

Lemma comparison_unresolved_variable_raises_witness :
  extract_comparison_map (fun s : string => Some s)
    ([] ++ Comparison.mk ("w", "var") ("5", "num") ">" :: [])
    (extract_variable_arg_to_atom_map
       [Atom.mk "Edge" [Arg.mk "variable" "x"; Arg.mk "variable" "y"]])
  = raise KeyError.
Proof.
  apply (comparison_unresolved_variable_raises (fun s : string => Some s)
           [Atom.mk "Edge" [Arg.mk "variable" "x"; Arg.mk "variable" "y"]]
           [] [] (Comparison.mk ("w", "var") ("5", "num") ">") []).
  - reflexivity.
  - intros [Hl _]. apply Hl. reflexivity.
  - left. intros (a & p & atom & arg & Hatom & Harg & _ & Hname).
    destruct a as [|a]; [|destruct a; discriminate Hatom].
    injection Hatom as <-.
    destruct p as [|[|p]]; simpl in Harg;
      [injection Harg as <-; discriminate Hname
      |injection Harg as <-; discriminate Hname
      |destruct p; discriminate Harg].
Defined.

Lemma comparison_bad_number_raises_witness :
  extract_comparison_map (fun s : string => if (s =? "five")%string then None else Some s)
    ([] ++ Comparison.mk ("x", "var") ("five", "num") ">" :: [])
    (extract_variable_arg_to_atom_map
       [Atom.mk "Edge" [Arg.mk "variable" "x"; Arg.mk "variable" "y"]])
  = raise ValueError.
Proof.
  apply (comparison_bad_number_raises
           (fun s : string => if (s =? "five")%string then None else Some s)
           [Atom.mk "Edge" [Arg.mk "variable" "x"; Arg.mk "variable" "y"]]
           [] [] (Comparison.mk ("x", "var") ("five", "num") ">") []).
  - reflexivity.
  - intros [Hl _]. apply Hl. reflexivity.
  - exists 0, 0, (Atom.mk "Edge" [Arg.mk "variable" "x"; Arg.mk "variable" "y"]),
      (Arg.mk "variable" "x").
    repeat split.
  - reflexivity.
  - reflexivity.
Defined.

Lemma right_variable_is_base_witness :
  exists m',
    extract_comparison_map (fun s : string => Some s)
      ([] ++ [Comparison.mk ("5", "num") ("x", "var") "<"])
      [("x", [(0, [0])])] = ok m' /\
    records_at m' 0 0 =
      records_at [] 0 0 ++ [mk_comparison_struct "r" "<" (OtherNum "5")] /\
    forall a0 p0, (a0, p0) <> (0, 0) -> records_at m' a0 p0 = records_at [] a0 p0.
Proof.
  apply (right_variable_is_base (fun s : string => Some s) [("x", [(0, [0])])] []
           (Comparison.mk ("5", "num") ("x", "var") "<") [] "5" "x" "5" 0 0);
    reflexivity.
Defined.

Lemma extract_comparison_map_error_kinds_witness :
  Exception_ no_variable_side_message = Exception_ no_variable_side_message \/
  Exception_ no_variable_side_message = KeyError \/
  Exception_ no_variable_side_message = ValueError.
Proof.
  apply (extract_comparison_map_error_kinds (fun s : string => Some s)
           [Atom.mk "Edge" [Arg.mk "variable" "x"; Arg.mk "variable" "y"]]
           [Comparison.mk ("3", "num") ("4", "num") "<"]).
  reflexivity.
Defined.

(** ** Join map: a sub-dictionary of the index *)

Lemma join_fold_filter (idx : index) : forall rest pre (acc : index),
  idx = pre ++ rest ->
  od_wf idx ->
  (forall k, In k (od_keys acc) -> In k (od_keys pre)) ->
  fold_left
    (fun join_map var =>
       match od_get var idx with
       | None => join_map
       | Some occ =>
           let join_on_var := (1 <? od_len occ) || repeated_in_some_atom occ in
           if join_on_var then od_set var occ join_map else join_map
       end)
    (od_keys rest) acc
  = acc ++ filter (fun e => needs_join (snd e)) rest.
Proof.
  induction rest as [|[k occ] rest IH]; intros pre acc Hidx Hwf Hacc.
  - simpl. rewrite app_nil_r. reflexivity.
  - cbn [od_keys map fst fold_left filter snd].
    assert (Hnot : ~ In k (od_keys pre)).
    { unfold od_wf in Hwf. rewrite Hidx in Hwf. unfold od_keys in Hwf.
      rewrite map_app in Hwf. simpl in Hwf. apply NoDup_remove_2 in Hwf.
      intros Hin. apply Hwf. apply in_or_app. left. exact Hin. }
    assert (Hget : od_get k idx = Some occ).
    { rewrite Hidx, od_get_app.
      assert (Hpre : od_get k pre = None) by (apply od_get_None; exact Hnot).
      rewrite Hpre. simpl. rewrite String.eqb_refl. reflexivity. }
    rewrite Hget. cbv zeta in IH |- *. fold (needs_join occ).
    assert (Hnext : idx = (pre ++ [(k, occ)]) ++ rest).
    { rewrite <- app_assoc. exact Hidx. }
    change (map fst rest) with (od_keys rest).
    destruct (needs_join occ).
    + assert (Habs : od_get k acc = None).
      { apply od_get_None. intros Hin. apply Hnot. apply Hacc. exact Hin. }
      rewrite (od_set_absent acc k occ Habs).
      rewrite (IH (pre ++ [(k, occ)]) (acc ++ [(k, occ)]) Hnext Hwf).
      * rewrite <- app_assoc. reflexivity.
      * intros k' Hin. unfold od_keys in *. rewrite map_app in *.
        apply in_app_or in Hin. apply in_or_app.
        destruct Hin as [Hin|Hin]; [left; apply Hacc; exact Hin|right; exact Hin].
    + apply (IH (pre ++ [(k, occ)]) acc Hnext Hwf).
      intros k' Hin. unfold od_keys. rewrite map_app. apply in_or_app.
      left. apply Hacc. exact Hin.
Qed.

Lemma extract_join_map_filter (idx : index) :
  od_wf idx -> extract_join_map idx = filter (fun e => needs_join (snd e)) idx.
Proof.
  intros Hwf. unfold extract_join_map.
  exact (join_fold_filter idx idx [] [] eq_refl Hwf (fun k Hin => Hin)).
Qed.

Lemma filter_keys_NoDup {V : Type} (f : string * V -> bool) (d : odict string V) :
  od_wf d -> od_wf (filter f d).
Proof.
  unfold od_wf, od_keys. induction d as [|[k v] d IH]; simpl; intros Hwf; [constructor|].
  inversion Hwf as [|k' l Hnot Hrest]; subst.
  destruct (f (k, v)); simpl.
  - constructor; [|apply IH; exact Hrest].
    intros Hin. apply Hnot. apply in_map_iff in Hin. destruct Hin as ([k' v'] & Hk & Hin).
    apply filter_In in Hin. destruct Hin as [Hin _].
    apply in_map_iff. exists (k', v'). auto.
  - apply IH. exact Hrest.
Qed.

Lemma filter_idempotent {A : Type} (f : A -> bool) (l : list A) :
  filter f (filter f l) = filter f l.
Proof.
  induction l as [|x l IH]; simpl; [reflexivity|].
  destruct (f x) eqn:Hf; simpl; [rewrite Hf, IH; reflexivity|exact IH].
Qed.

(** X14.  [extract_join_map] keeps, in the order of the index and with
    their occurrence maps, exactly the entries of a variable that occurs in
    two atoms or twice in one atom; the result is again a dictionary and
    applying the function to it changes nothing. *)
Theorem join_map_is_sub_dictionary (idx : index) :
  od_wf idx ->
  extract_join_map idx = filter (fun entry => needs_join (snd entry)) idx /\
  od_wf (extract_join_map idx) /\
  extract_join_map (extract_join_map idx) = extract_join_map idx.
Proof.
  intros Hwf. rewrite (extract_join_map_filter idx Hwf).
  assert (Hwf' : od_wf (filter (fun entry => needs_join (snd entry)) idx)).
  { apply filter_keys_NoDup. exact Hwf. }
  repeat split.
  - exact Hwf'.
  - rewrite (extract_join_map_filter _ Hwf'). apply filter_idempotent.
Qed.

Lemma join_map_is_sub_dictionary_witness :
  let idx := [("x", [(0, [0])]); ("y", [(0, [1]); (1, [0])]); ("z", [(1, [1])])] in
  extract_join_map idx = filter (fun entry => needs_join (snd entry)) idx /\
  od_wf (extract_join_map idx) /\
  extract_join_map (extract_join_map idx) = extract_join_map idx.
Proof.
  intros idx. apply (join_map_is_sub_dictionary idx).
  unfold od_wf, idx. simpl.
  repeat constructor; simpl; intuition discriminate.
Defined.

(** ** Recursive aliases and alias groups *)

Section AliasGroupFacts.
Context {R : Type} (eval : odict string R) (iter_num : Z).

(** X15.  [build_recursive_atom_aliases] returns one candidate list per
    body atom, in order: the relation name typed ['default'] for an atom
    whose relation is not being evaluated, otherwise ["<name>_prev"] typed
    ['prev'] followed by ["<name>_delta_<iter_num - 1>"] typed ['delta'];
    [idb_num] counts the atoms of the second kind. *)
Theorem build_recursive_atom_aliases_positions (body_atoms : list Atom.t) :
  let result := build_recursive_atom_aliases body_atoms eval iter_num in
  List.length (AtomAliases.body_atom_eval_names result) = List.length body_atoms /\
  AtomAliases.idb_num result =
    List.length (filter (fun atom => od_mem (Atom.name atom) eval) body_atoms) /\
  forall i atom, nth_error body_atoms i = Some atom ->
    nth_error (AtomAliases.body_atom_eval_names result) i =
    Some (if od_mem (Atom.name atom) eval
          then [Alias.mk (Atom.name atom ++ "_prev")%string "prev";
                Alias.mk (Atom.name atom ++ "_delta_" ++ string_of_Z (iter_num - 1))%string
                  "delta"]
          else [Alias.mk (Atom.name atom) "default"]).
Proof.
  cbv zeta. rewrite build_recursive_atom_aliases_eq.
  cbn [AtomAliases.body_atom_eval_names AtomAliases.idb_num].
  split; [apply length_map|]. split; [reflexivity|].
  intros i atom Hatom. rewrite nth_error_map, Hatom. reflexivity.
Qed.

Lemma alias_choices_NoDup atom : NoDup (alias_choices eval iter_num atom).
Proof.
  unfold alias_choices. destruct (od_mem (Atom.name atom) eval).
  - constructor; [|constructor; [simpl; tauto|constructor]].
    intros [H|[]]. discriminate H.
  - constructor; [simpl; tauto|constructor].
Qed.

Lemma alias_choices_nonempty atom : alias_choices eval iter_num atom <> [].
Proof. unfold alias_choices. destruct (od_mem (Atom.name atom) eval); discriminate. Qed.

(** The groups after one more atom. *)
Lemma extend_groups_choices groups atom :
  extend_groups groups (alias_choices eval iter_num atom) =
  ok (match groups with
      | [] => map (fun x => [x]) (alias_choices eval iter_num atom)
      | _ => extensions groups (alias_choices eval iter_num atom)
      end).
Proof.
  unfold alias_choices, extensions.
  destruct (od_mem (Atom.name atom) eval); destruct groups as [|h t];
    try reflexivity.
  - cbn [flat_map]. rewrite app_nil_r. reflexivity.
  - cbn [flat_map]. rewrite app_nil_r. reflexivity.
Qed.

Lemma snoc_map_NoDup (groups : list (list Alias.t)) x :
  NoDup groups -> NoDup (map (fun g => g ++ [x]) groups).
Proof.
  induction 1 as [|g l Hnot Hnd IH]; simpl; constructor; [|exact IH].
  intros Hin. apply in_map_iff in Hin. destruct Hin as (g' & Heq & Hin').
  apply app_inj_tail in Heq. destruct Heq as [-> _]. contradiction.
Qed.

Lemma extensions_NoDup (groups : list (list Alias.t)) choices :
  NoDup groups -> NoDup choices -> NoDup (extensions groups choices).
Proof.
  intros Hg. unfold extensions. induction 1 as [|x l Hnot Hnd IH]; simpl; [constructor|].
  apply NoDup_app; [apply snoc_map_NoDup; exact Hg|exact IH|].
  intros g Hin Hin'. apply in_map_iff in Hin. destruct Hin as (g0 & <- & _).
  apply in_flat_map in Hin'. destruct Hin' as (x' & Hx' & Hin').
  apply in_map_iff in Hin'. destruct Hin' as (g1 & Heq & _).
  apply app_inj_tail in Heq. destruct Heq as [_ ->]. contradiction.
Qed.

Lemma singletons_NoDup (choices : list Alias.t) :
  NoDup choices -> NoDup (map (fun x => [x]) choices).
Proof.
  induction 1 as [|x l Hnot Hnd IH]; simpl; constructor; [|exact IH].
  intros Hin. apply in_map_iff in Hin. destruct Hin as (x' & [= ->] & Hin'). contradiction.
Qed.

Lemma group_of_snoc_inv done atom g :
  group_of eval iter_num (done ++ [atom]) g ->
  exists g0 x, g = g0 ++ [x] /\ group_of eval iter_num done g0 /\
               In x (alias_choices eval iter_num atom).
Proof.
  unfold group_of. intros H. apply Forall2_app_inv_l in H.
  destruct H as (g0 & l & Hg0 & Hl & ->).
  inversion Hl as [|a x l1 l2 Hx Hnil]; subst. inversion Hnil; subst.
  exists g0, x. auto.
Qed.

Lemma extend_groups_complete done groups atom groups' :
  expansion_complete eval iter_num done groups ->
  extend_groups groups (alias_choices eval iter_num atom) = ok groups' ->
  expansion_complete eval iter_num (done ++ [atom]) groups'.
Proof.
  intros (Hnd & Hempty & Hfull) Hext.
  rewrite extend_groups_choices in Hext. injection Hext as <-.
  assert (Hne : done ++ [atom] <> []) by (destruct done; discriminate).
  destruct done as [|a0 done'].
  - rewrite (Hempty eq_refl). simpl app.
    split; [apply singletons_NoDup; apply alias_choices_NoDup|].
    split; [intros H; discriminate H|]. intros _. split.
    + intros Heq. apply map_eq_nil in Heq. exact (alias_choices_nonempty atom Heq).
    + intros g Hg. inversion Hg as [|a x l1 l2 Hx Hnil]; subst. inversion Hnil; subst.
      apply in_map_iff. exists x. auto.
  - destruct Hfull as [Hgne Hall]; [discriminate|].
    destruct groups as [|h t]; [congruence|].
    split; [apply extensions_NoDup; [exact Hnd|apply alias_choices_NoDup]|].
    split; [intros H; discriminate H|]. intros _. split.
    + unfold extensions.
      destruct (alias_choices eval iter_num atom) as [|x l] eqn:Hc;
        [exact (False_ind _ (alias_choices_nonempty atom Hc))|].
      simpl. discriminate.
    + intros g Hg. apply group_of_snoc_inv in Hg.
      destruct Hg as (g0 & x & -> & Hg0 & Hx).
      unfold extensions. apply in_flat_map. exists x. split; [exact Hx|].
      apply in_map_iff. exists g0. split; [reflexivity|]. apply Hall. exact Hg0.
Qed.

Lemma expansion_reaches_complete rest : forall done groups groups',
  expansion_complete eval iter_num done groups ->
  fold_result extend_groups (map (alias_choices eval iter_num) rest) groups = ok groups' ->
  expansion_complete eval iter_num (done ++ rest) groups'.
Proof.
  induction rest as [|atom r IH]; intros done groups groups' Hc Hfold; simpl in Hfold.
  - injection Hfold as <-. rewrite app_nil_r. exact Hc.
  - destruct (extend_groups groups (alias_choices eval iter_num atom)) as [e|g1] eqn:E1;
      [discriminate|].
    assert (H1 := extend_groups_complete done groups atom g1 Hc E1).
    specialize (IH (done ++ [atom]) g1 groups' H1 Hfold).
    rewrite <- app_assoc in IH. exact IH.
Qed.

Lemma delta_group_prev_count body_atoms g :
  group_of eval iter_num body_atoms g ->
  prev_count g <= idb_count eval body_atoms /\
  (has_delta g -> prev_count g < idb_count eval body_atoms).
Proof.
  unfold group_of. induction 1 as [|atom x atoms g Hx Hrest IH].
  - split; [unfold prev_count; simpl; lia|]. intros (alias & [] & _).
  - destruct IH as [Hle Hlt].
    assert (Hcount : idb_count eval (atom :: atoms) =
                     (if od_mem (Atom.name atom) eval then 1 else 0) + idb_count eval atoms).
    { unfold idb_count. simpl. destruct (od_mem (Atom.name atom) eval); reflexivity. }
    rewrite Hcount, prev_count_cons.
    unfold alias_choices in Hx.
    destruct (od_mem (Atom.name atom) eval).
    + destruct Hx as [<-|[<-|[]]]; simpl.
      * split; [lia|]. intros (alias & [<-|Hin] & Ht); [discriminate Ht|].
        assert (prev_count g < idb_count eval atoms) by (apply Hlt; exists alias; auto). lia.
      * split; lia.
    + destruct Hx as [<-|[]]; simpl.
      split; [lia|]. intros (alias & [<-|Hin] & Ht); [discriminate Ht|].
      apply Hlt. exists alias. auto.
Qed.

(** X16.  The groups emitted for a rule are, each exactly once, the
    assignments of one candidate alias per body atom in which at least one
    atom takes its ['delta'] alias. *)
Theorem alias_groups_are_the_delta_assignments (body_atoms : list Atom.t) :
  exists groups,
    build_recursive_atom_alias_groups body_atoms
      (build_recursive_atom_aliases body_atoms eval iter_num) = ok groups /\
    NoDup groups /\
    forall g, In g groups <-> group_of eval iter_num body_atoms g /\ has_delta g.
Proof.
  rewrite build_recursive_atom_aliases_eq.
  unfold build_recursive_atom_alias_groups.
  cbn [AtomAliases.body_atom_eval_names AtomAliases.idb_num].
  rewrite expand_alias_groups_eq by apply length_map.
  destruct (expansion_reaches_state eval iter_num body_atoms [] [])
    as [groups [Hfold Hst]]; [left; auto|].
  assert (Hc : expansion_complete eval iter_num ([] ++ body_atoms) groups).
  { apply (expansion_reaches_complete body_atoms [] [] groups); [|exact Hfold].
    split; [constructor|]. split; [reflexivity|]. intros H. congruence. }
  rewrite Hfold. simpl app in Hst, Hc.
  destruct Hc as (Hnd & Hempty & Hfull).
  destruct Hst as [[-> ->]|[Hne [h [t [-> [Hh [Ht [Hlen Hgr]]]]]]]].
  - exists []. split; [reflexivity|]. split; [constructor|].
    intros g. split; [intros []|]. intros [Hg (alias & Hin & _)].
    inversion Hg; subst. destruct Hin.
  - exists t. unfold ok. cbn [List.length remove_all_prev nth_error].
    rewrite Hh, Nat.eqb_refl. cbn [list_remove]. rewrite group_eqb_refl.
    split; [apply remove_all_prev_nothing; intros g Hg; apply Ht in Hg; lia|].
    inversion Hnd as [|h' t' Hnot Hnd']; subst.
    split; [exact Hnd'|].
    destruct (Hfull Hne) as [_ Hall].
    intros g. split.
    + intros Hin. split; [apply Hgr; right; exact Hin|].
      destruct (group_prev_or_delta eval iter_num body_atoms g) as [Hge|Hd];
        [apply Hgr; right; exact Hin| |exact Hd].
      apply Ht in Hin. lia.
    + intros [Hg Hd]. destruct (Hall g Hg) as [<-|Hin]; [|exact Hin].
      exfalso. apply (delta_group_prev_count body_atoms h Hg) in Hd. lia.
Qed.
End AliasGroupFacts.

Lemma extend_groups_error_kind groups names e :
  extend_groups groups names = inl e -> e = IndexError.
Proof.
  unfold extend_groups.
  destruct (List.length groups =? 0); [discriminate|].
  destruct (nth_error names 0) as [first_name|]; [|intros [= <-]; reflexivity].
  destruct (1 <? List.length names); [|discriminate].
  apply fold_result_error_kind. intros s k e'.
  destruct (nth_error (repeat groups (List.length names - 1)) k);
    [|intros [= <-]; reflexivity].
  destruct (nth_error names (k + 1)); [discriminate|intros [= <-]; reflexivity].
Qed.

(** X17.  [build_recursive_atom_alias_groups] raises [IndexError] when
    [body_atom_eval_names] has fewer entries than the body has atoms. *)
Theorem alias_groups_short_names_raise (body_atoms : list Atom.t)
    (atom_aliases_map : AtomAliases.t) :
  List.length (AtomAliases.body_atom_eval_names atom_aliases_map) < List.length body_atoms ->
  build_recursive_atom_alias_groups body_atoms atom_aliases_map = raise IndexError.
Proof.
  intros Hshort. unfold build_recursive_atom_alias_groups, expand_alias_groups.
  rewrite (fold_result_raises _ IndexError); [reflexivity| |].
  - intros s x e.
    destruct (nth_error (AtomAliases.body_atom_eval_names atom_aliases_map) x);
      [apply extend_groups_error_kind|intros [= <-]; reflexivity].
  - exists (List.length (AtomAliases.body_atom_eval_names atom_aliases_map)).
    split; [apply in_seq; lia|]. intros s.
    assert (Hnone : nth_error (AtomAliases.body_atom_eval_names atom_aliases_map)
                      (List.length (AtomAliases.body_atom_eval_names atom_aliases_map)) = None)
      by (apply nth_error_None; lia).
    rewrite Hnone. reflexivity.
Qed.

Lemma alias_groups_short_names_raise_witness :
  build_recursive_atom_alias_groups [Atom.mk "R" []; Atom.mk "E" []]
    (AtomAliases.mk [[Alias.mk "R_prev" "prev"; Alias.mk "R_delta_0" "delta"]] 1)
  = raise IndexError.
Proof.
  apply (alias_groups_short_names_raise [Atom.mk "R" []; Atom.mk "E" []]
           (AtomAliases.mk [[Alias.mk "R_prev" "prev"; Alias.mk "R_delta_0" "delta"]] 1)).
  simpl. lia.
Defined.

(** ** The removal loop *)

Lemma alias_eqb_eq x y : Alias.eqb x y = true -> x = y.
Proof.
  unfold Alias.eqb. intros H. apply andb_true_iff in H. destruct H as [Ha Ht].
  apply String.eqb_eq in Ha. apply String.eqb_eq in Ht.
  destruct x, y. simpl in *. congruence.
Qed.

Lemma group_eqb_eq g1 : forall g2, group_eqb g1 g2 = true -> g1 = g2.
Proof.
  induction g1 as [|x r1 IH]; intros [|y r2] H; simpl in H; try discriminate.
  - reflexivity.
  - apply andb_true_iff in H. destruct H as [Hx Hr].
    apply alias_eqb_eq in Hx. apply IH in Hr. congruence.
Qed.

(** [remove] takes out the element the iterator stands on when no equal
    group precedes it. *)
Lemma list_remove_at kept x rest :
  ~ In x kept -> list_remove x (kept ++ x :: rest) = Some (kept ++ rest).
Proof.
  induction kept as [|k kept IH]; intros Hnot; simpl.
  - rewrite group_eqb_refl. reflexivity.
  - destruct (group_eqb k x) eqn:Heq.
    + apply group_eqb_eq in Heq. exfalso. apply Hnot. left. exact Heq.
    + rewrite IH; [reflexivity|]. intros Hin. apply Hnot. right. exact Hin.
Qed.

Lemma nth_error_at {A : Type} (kept : list A) x rest :
  nth_error (kept ++ x :: rest) (List.length kept) = Some x.
Proof. rewrite nth_error_app2 by lia. rewrite Nat.sub_diag. reflexivity. Qed.

Lemma nth_error_end {A : Type} (kept : list A) :
  nth_error kept (List.length kept) = None.
Proof. apply nth_error_None. lia. Qed.

Lemma remove_all_prev_filter idb_num : forall n rest kept fuel,
  List.length rest <= n ->
  List.length rest <= fuel ->
  (forall g, In g kept -> all_prev idb_num g = false) ->
  no_adjacent (all_prev idb_num) rest = true ->
  remove_all_prev fuel (List.length kept) idb_num (kept ++ rest)
  = ok (kept ++ filter (fun g => negb (all_prev idb_num g)) rest).
Proof.
  induction n as [|n IH]; intros rest kept fuel Hn Hfuel Hkept Hadj.
  - destruct rest; [|simpl in Hn; lia]. cbn [filter odd_positions]. rewrite ?app_nil_r.
    destruct fuel; cbn [remove_all_prev]; [reflexivity|]. rewrite nth_error_end. reflexivity.
  - destruct rest as [|x rest'].
    + cbn [filter odd_positions]. rewrite ?app_nil_r. destruct fuel; cbn [remove_all_prev]; [reflexivity|].
      rewrite nth_error_end. reflexivity.
    + destruct fuel as [|fuel]; [simpl in Hfuel; lia|].
      cbn [remove_all_prev]. rewrite nth_error_at.
      cbn [filter]. fold (all_prev idb_num x).
      destruct (all_prev idb_num x) eqn:Hx; cbn [negb].
      * rewrite list_remove_at.
        2:{ intros Hin. apply Hkept in Hin. congruence. }
        destruct rest' as [|y rest''].
        -- cbn [filter odd_positions]. rewrite ?app_nil_r. destruct fuel; cbn [remove_all_prev]; [reflexivity|].
           assert (Hnone : nth_error kept (S (List.length kept)) = None)
             by (apply nth_error_None; lia).
           rewrite Hnone. reflexivity.
        -- cbn [no_adjacent] in Hadj. rewrite Hx in Hadj. simpl in Hadj.
           apply andb_true_iff in Hadj. destruct Hadj as [Hy Hadj].
           apply negb_true_iff in Hy.
           cbn [filter]. rewrite Hy. cbn [negb].
           simpl in Hn, Hfuel.
           assert (Hstep := IH rest'' (kept ++ [y]) fuel).
           rewrite length_app, Nat.add_1_r, <- !app_assoc in Hstep. simpl in Hstep.
           apply Hstep; [lia|lia| |].
           ++ intros g Hin. apply in_app_or in Hin.
              destruct Hin as [Hin|[<-|[]]]; [apply Hkept; exact Hin|exact Hy].
           ++ destruct rest'' as [|z r]; [reflexivity|].
              cbn [no_adjacent] in Hadj. apply andb_true_iff in Hadj. apply Hadj.
      * simpl in Hn, Hfuel.
        assert (Hstep := IH rest' (kept ++ [x]) fuel).
        rewrite length_app, Nat.add_1_r, <- !app_assoc in Hstep. simpl in Hstep.
        apply Hstep; [lia|lia| |].
        -- intros g Hin. apply in_app_or in Hin.
           destruct Hin as [Hin|[<-|[]]]; [apply Hkept; exact Hin|exact Hx].
        -- destruct rest' as [|y r]; [reflexivity|].
           cbn [no_adjacent] in Hadj. apply andb_true_iff in Hadj. apply Hadj.
Qed.

(** X18.  When no two neighbouring groups of the expansion both have
    [idb_num] aliases of type ['prev'], the removal loop is a filter: the
    function returns the expansion without those groups, in order. *)
Theorem removal_is_a_filter (body_atoms : list Atom.t) (atom_aliases_map : AtomAliases.t)
    (expanded : list (list Alias.t)) :
  expand_alias_groups body_atoms (AtomAliases.body_atom_eval_names atom_aliases_map)
    = ok expanded ->
  no_adjacent (all_prev (AtomAliases.idb_num atom_aliases_map)) expanded = true ->
  build_recursive_atom_alias_groups body_atoms atom_aliases_map =
  ok (filter (fun group => negb (all_prev (AtomAliases.idb_num atom_aliases_map) group))
        expanded).
Proof.
  intros Hexp Hadj. unfold build_recursive_atom_alias_groups. rewrite Hexp.
  unfold ok at 1. cbv iota.
  apply (remove_all_prev_filter (AtomAliases.idb_num atom_aliases_map)
           (List.length expanded) expanded [] (List.length expanded));
    [lia|lia|intros g []|exact Hadj].
Qed.

Lemma removal_is_a_filter_witness :
  build_recursive_atom_alias_groups [Atom.mk "R" []; Atom.mk "E" []]
    (AtomAliases.mk
       [[Alias.mk "R_prev" "prev"; Alias.mk "R_delta_0" "delta"]; [Alias.mk "E" "default"]] 1)
  = ok [[Alias.mk "R_delta_0" "delta"; Alias.mk "E" "default"]].
Proof.
  apply (removal_is_a_filter [Atom.mk "R" []; Atom.mk "E" []]
           (AtomAliases.mk
              [[Alias.mk "R_prev" "prev"; Alias.mk "R_delta_0" "delta"];
               [Alias.mk "E" "default"]] 1)
           [[Alias.mk "R_prev" "prev"; Alias.mk "E" "default"];
            [Alias.mk "R_delta_0" "delta"; Alias.mk "E" "default"]]);
    reflexivity.
Defined.

Lemma remove_all_prev_skips idb_num : forall n rest kept fuel,
  List.length rest <= n ->
  List.length rest <= fuel ->
  NoDup (kept ++ rest) ->
  (forall g, In g rest -> all_prev idb_num g = true) ->
  remove_all_prev fuel (List.length kept) idb_num (kept ++ rest)
  = ok (kept ++ odd_positions rest).
Proof.
  induction n as [|n IH]; intros rest kept fuel Hn Hfuel Hnd Hall.
  - destruct rest; [|simpl in Hn; lia]. cbn [filter odd_positions]. rewrite ?app_nil_r.
    destruct fuel; cbn [remove_all_prev]; [reflexivity|]. rewrite nth_error_end. reflexivity.
  - destruct rest as [|x rest'].
    + cbn [filter odd_positions]. rewrite ?app_nil_r. destruct fuel; cbn [remove_all_prev]; [reflexivity|].
      rewrite nth_error_end. reflexivity.
    + destruct fuel as [|fuel]; [simpl in Hfuel; lia|].
      cbn [remove_all_prev]. rewrite nth_error_at.
      assert (Hx : all_prev idb_num x = true) by (apply Hall; left; reflexivity).
      unfold all_prev in Hx. rewrite Hx.
      rewrite list_remove_at.
      2:{ apply NoDup_remove_2 in Hnd. intros Hin. apply Hnd.
          apply in_or_app. left. exact Hin. }
      apply NoDup_remove_1 in Hnd.
      destruct rest' as [|y rest''].
      * cbn [filter odd_positions]. rewrite ?app_nil_r. destruct fuel; cbn [remove_all_prev]; [reflexivity|].
        assert (Hnone : nth_error kept (S (List.length kept)) = None)
          by (apply nth_error_None; lia).
        rewrite Hnone. reflexivity.
      * cbn [odd_positions]. simpl in Hn, Hfuel.
        assert (Hstep := IH rest'' (kept ++ [y]) fuel).
        rewrite length_app, Nat.add_1_r, <- !app_assoc in Hstep. simpl in Hstep.
        apply Hstep; [lia|lia|exact Hnd|].
        intros g Hin. apply Hall. right. right. exact Hin.
Qed.

(** X19.  The removal loop removes from the list it iterates over, so the
    group that follows a removed one is never examined: when the groups of
    the expansion are pairwise distinct and every one of them has [idb_num]
    aliases of type ['prev'], the groups at the odd positions survive. *)
Theorem removal_skips_the_next_group (body_atoms : list Atom.t)
    (atom_aliases_map : AtomAliases.t) (expanded : list (list Alias.t)) :
  expand_alias_groups body_atoms (AtomAliases.body_atom_eval_names atom_aliases_map)
    = ok expanded ->
  NoDup expanded ->
  (forall group, In group expanded ->
     prev_count group = AtomAliases.idb_num atom_aliases_map) ->
  build_recursive_atom_alias_groups body_atoms atom_aliases_map =
  ok (odd_positions expanded).
Proof.
  intros Hexp Hnd Hall. unfold build_recursive_atom_alias_groups. rewrite Hexp.
  unfold ok at 1. cbv iota.
  apply (remove_all_prev_skips (AtomAliases.idb_num atom_aliases_map)
           (List.length expanded) expanded [] (List.length expanded));
    [lia|lia|exact Hnd|].
  intros g Hin. unfold all_prev. apply Nat.eqb_eq. apply Hall. exact Hin.
Qed.

Lemma removal_skips_the_next_group_witness :
  build_recursive_atom_alias_groups [Atom.mk "E" []]
    (AtomAliases.mk [[Alias.mk "E" "default"; Alias.mk "E_copy" "default"]] 0)
  = ok (odd_positions [[Alias.mk "E" "default"]; [Alias.mk "E_copy" "default"]]).
Proof.
  apply (removal_skips_the_next_group [Atom.mk "E" []]
           (AtomAliases.mk [[Alias.mk "E" "default"; Alias.mk "E_copy" "default"]] 0)
           [[Alias.mk "E" "default"]; [Alias.mk "E_copy" "default"]]).
  - reflexivity.
  - constructor; [|constructor; [simpl; tauto|constructor]].
    intros [H|[]]. discriminate H.
  - intros group [<-|[<-|[]]]; reflexivity.
Defined.

(** ** Selection map *)

Lemma for_range_result_shift {St A : Type} (body : St -> nat -> A -> result St) (l : list A) :
  forall (pre : list A) (s : St),
  fold_result
    (fun s i => match nth_error (pre ++ l) i with
                | Some x => body s i x
                | None => raise IndexError
                end)
    (seq (List.length pre) (List.length l)) s
  = fold_result_from (List.length pre) l body s.
Proof.
  induction l as [|x r IH]; intros pre s; simpl; [reflexivity|].
  rewrite nth_error_at.
  destruct (body s (List.length pre) x) as [e|s']; [reflexivity|].
  specialize (IH (pre ++ [x]) s').
  rewrite <- app_assoc, length_app, Nat.add_1_r in IH. exact IH.
Qed.

Lemma for_range_result_from {St A : Type} (l : list A)
    (body : St -> nat -> A -> result St) (s : St) :
  for_range_result l body s = fold_result_from 0 l body s.
Proof. exact (for_range_result_shift body l [] s). Qed.

Lemma indexed_from_keys {V : Type} (l : list V) : forall j,
  od_keys (indexed_from j l) = seq j (List.length l).
Proof.
  induction l as [|v r IH]; intros j; simpl; [reflexivity|]. f_equal. apply IH.
Qed.

Lemma indexed_from_get {V : Type} (l : list V) : forall j i,
  od_get (j + i) (indexed_from j l) = nth_error l i.
Proof.
  induction l as [|v r IH]; intros j i.
  - destruct i; reflexivity.
  - destruct i as [|i].
    + rewrite Nat.add_0_r. simpl. rewrite Nat.eqb_refl. reflexivity.
    + simpl. assert (Hne : (j + S i =? j) = false) by (apply Nat.eqb_neq; lia).
      rewrite Hne. replace (j + S i) with (S j + i) by lia. apply IH.
Qed.

Lemma od_set_fresh {V : Type} (d : odict nat V) j v :
  (forall q, In q (od_keys d) -> q < j) -> od_set j v d = d ++ [(j, v)].
Proof.
  intros Hd. apply od_set_absent. apply od_get_None. intros Hin. apply Hd in Hin. lia.
Qed.

Lemma keys_below_snoc {V : Type} (d : odict nat V) j v :
  (forall q, In q (od_keys d) -> q < j) ->
  forall q, In q (od_keys (d ++ [(j, v)])) -> q < S j.
Proof.
  intros Hd q Hq. unfold od_keys in Hq. rewrite map_app in Hq.
  apply in_app_or in Hq. destruct Hq as [Hq|[<-|[]]]; [apply Hd in Hq; lia|simpl; lia].
Qed.

Lemma keys_below_S {V : Type} (d : odict nat V) j :
  (forall q, In q (od_keys d) -> q < j) -> forall q, In q (od_keys d) -> q < S j.
Proof. intros Hd q Hq. apply Hd in Hq. lia. Qed.

Lemma body_variable_resolves body_atoms v :
  body_variable body_atoms v ->
  exists found,
    search_argument_mapping_in_body_atoms (extract_variable_arg_to_atom_map body_atoms) v
      = ok (Some found).
Proof.
  intros Hv.
  destruct (search_built_cases body_atoms v) as [[_ Hno]|(a & p & Hs & _)];
    [contradiction|].
  exists (Mapping.mk a p). exact Hs.
Qed.

Lemma not_body_variable_raises body_atoms v :
  ~ body_variable body_atoms v ->
  search_argument_mapping_in_body_atoms (extract_variable_arg_to_atom_map body_atoms) v
    = raise KeyError.
Proof.
  intros Hv.
  destruct (search_built_cases body_atoms v) as [[Hs _]|(a & p & _ & Hat)];
    [exact Hs|].
  exfalso. apply Hv. exists a, p. exact Hat.
Qed.

Lemma body_variable_cases body_atoms v :
  body_variable body_atoms v \/ ~ body_variable body_atoms v.
Proof.
  destruct (search_built_cases body_atoms v) as [[_ Hno]|(a & p & _ & Hat)].
  - right. exact Hno.
  - left. exists a, p. exact Hat.
Qed.

(** One iteration on a well-shaped argument whose variables are all
    variables of the body. *)
Lemma select_head_argument_resolved body_atoms head_arg vars s i :
  head_arg_shape head_arg vars ->
  (forall v, In v vars -> body_variable body_atoms v) ->
  exists source,
    selected (extract_variable_arg_to_atom_map body_atoms) head_arg source /\
    select_head_argument (extract_variable_arg_to_atom_map body_atoms) s i head_arg =
    ok (SelectionMap.mk
          (od_set i source (SelectionMap.head_arg_to_body_atom_arg_map s))
          (SelectionMap.head_arg_type_map s ++ type_tags head_arg)
          (match pick_aggregation head_arg with
           | Some agg_op => od_set i agg_op (SelectionMap.head_aggregation_map s)
           | None => SelectionMap.head_aggregation_map s
           end)).
Proof.
  intros Hshape Hvars.
  destruct Hshape as [v|v agg_op|math_expr agg_op|math_expr|name].
  - destruct (body_variable_resolves body_atoms v) as [found Hs];
      [apply Hvars; left; reflexivity|].
    exists (FromBody (Some found)). split; [constructor; exact Hs|].
    unfold select_head_argument. simpl. rewrite Hs. reflexivity.
  - destruct (body_variable_resolves body_atoms v) as [found Hs];
      [apply Hvars; left; reflexivity|].
    exists (FromAttribute (Some found)). split; [constructor; exact Hs|].
    unfold select_head_argument. simpl. rewrite Hs. reflexivity.
  - destruct (body_variable_resolves body_atoms (MathExpr.lhs math_expr)) as [l Hl];
      [apply Hvars; left; reflexivity|].
    destruct (body_variable_resolves body_atoms (MathExpr.rhs math_expr)) as [r Hr];
      [apply Hvars; right; left; reflexivity|].
    exists (FromMath (Some l) (Some r) (MathExpr.op math_expr)).
    split; [constructor; assumption|].
    unfold select_head_argument, math_expr_source. simpl. rewrite Hl, Hr. reflexivity.
  - destruct (body_variable_resolves body_atoms (MathExpr.lhs math_expr)) as [l Hl];
      [apply Hvars; left; reflexivity|].
    destruct (body_variable_resolves body_atoms (MathExpr.rhs math_expr)) as [r Hr];
      [apply Hvars; right; left; reflexivity|].
    exists (FromMath (Some l) (Some r) (MathExpr.op math_expr)).
    split; [constructor; assumption|].
    unfold select_head_argument, math_expr_source. simpl. rewrite Hl, Hr. reflexivity.
  - exists (FromConstant name). split; [constructor|]. reflexivity.
Qed.

(** One iteration on a well-shaped argument one of whose variables is not
    a variable of the body. *)
Lemma select_head_argument_unresolved body_atoms head_arg vars s i :
  head_arg_shape head_arg vars ->
  (exists v, In v vars /\ ~ body_variable body_atoms v) ->
  select_head_argument (extract_variable_arg_to_atom_map body_atoms) s i head_arg =
  raise KeyError.
Proof.
  intros Hshape (v & Hin & Hno).
  destruct Hshape as [v0|v0 agg_op|math_expr agg_op|math_expr|name].
  - destruct Hin as [<-|[]].
    unfold select_head_argument. simpl.
    rewrite (not_body_variable_raises body_atoms v0 Hno). reflexivity.
  - destruct Hin as [<-|[]].
    unfold select_head_argument. simpl.
    rewrite (not_body_variable_raises body_atoms v0 Hno). reflexivity.
  - unfold select_head_argument, math_expr_source. simpl.
    destruct (search_built_cases body_atoms (MathExpr.lhs math_expr))
      as [[Hs _]|(a & p & Hs & Hat)]; rewrite Hs; [reflexivity|].
    destruct Hin as [<-|[<-|[]]].
    + exfalso. apply Hno. exists a, p. exact Hat.
    + rewrite (not_body_variable_raises body_atoms _ Hno). reflexivity.
  - unfold select_head_argument, math_expr_source. simpl.
    destruct (search_built_cases body_atoms (MathExpr.lhs math_expr))
      as [[Hs _]|(a & p & Hs & Hat)]; rewrite Hs; [reflexivity|].
    destruct Hin as [<-|[<-|[]]].
    + exfalso. apply Hno. exists a, p. exact Hat.
    + rewrite (not_body_variable_raises body_atoms _ Hno). reflexivity.
  - destruct Hin.
Qed.

Lemma select_loop_resolved body_atoms args : forall j m types aggs,
  (forall head_arg, In head_arg args ->
     exists vars, head_arg_shape head_arg vars /\
                  forall v, In v vars -> body_variable body_atoms v) ->
  (forall q, In q (od_keys m) -> q < j) ->
  (forall q, In q (od_keys aggs) -> q < j) ->
  exists sources,
    Forall2 (selected (extract_variable_arg_to_atom_map body_atoms)) args sources /\
    fold_result_from j args
      (select_head_argument (extract_variable_arg_to_atom_map body_atoms))
      (SelectionMap.mk m types aggs)
    = ok (SelectionMap.mk (m ++ indexed_from j sources)
            (types ++ flat_map type_tags args)
            (aggs ++ picked_from pick_aggregation j args)).
Proof.
  induction args as [|head_arg r IH]; intros j m types aggs Hok Hm Haggs.
  - exists []. split; [constructor|]. simpl. rewrite !app_nil_r. reflexivity.
  - destruct (Hok head_arg (or_introl eq_refl)) as (vars & Hshape & Hvars).
    destruct (select_head_argument_resolved body_atoms head_arg vars
                (SelectionMap.mk m types aggs) j Hshape Hvars) as (source & Hsel & Hstep).
    cbn [fold_result_from]. rewrite Hstep. unfold ok at 1. cbv iota.
    cbn [SelectionMap.head_arg_to_body_atom_arg_map SelectionMap.head_arg_type_map
         SelectionMap.head_aggregation_map].
    rewrite (od_set_fresh m j source Hm).
    assert (Hrest : forall head_arg', In head_arg' r ->
              exists vars', head_arg_shape head_arg' vars' /\
                            forall v, In v vars' -> body_variable body_atoms v).
    { intros head_arg' Hin. apply Hok. right. exact Hin. }
    cbn [picked_from flat_map].
    destruct (pick_aggregation head_arg) as [agg_op|].
    + rewrite (od_set_fresh aggs j agg_op Haggs).
      destruct (IH (S j) (m ++ [(j, source)]) (types ++ type_tags head_arg)
                  (aggs ++ [(j, agg_op)]) Hrest
                  (keys_below_snoc m j source Hm) (keys_below_snoc aggs j agg_op Haggs))
        as (sources & Hall & Hfold).
      exists (source :: sources). split; [constructor; assumption|].
      rewrite Hfold. cbn [indexed_from]. rewrite <- !app_assoc. reflexivity.
    + destruct (IH (S j) (m ++ [(j, source)]) (types ++ type_tags head_arg) aggs Hrest
                  (keys_below_snoc m j source Hm) (keys_below_S aggs j Haggs))
        as (sources & Hall & Hfold).
      exists (source :: sources). split; [constructor; assumption|].
      rewrite Hfold. cbn [indexed_from]. rewrite <- !app_assoc. reflexivity.
Qed.

(** X20.  [extract_selection_map] on a head whose arguments have the
    shapes the parser produces and refer to variables of the body only:
    the call returns; [head_arg_type_map] holds one tag per argument, in
    order; [head_arg_to_body_atom_arg_map] has the keys [0 .. n-1] in
    order and holds for each argument the positions the resolver finds for
    its variables (the literal for a constant); [head_aggregation_map]
    holds the operator of exactly the aggregation arguments. *)
Theorem extract_selection_map_resolved (body_atoms : list Atom.t) (head : Head.t) :
  (forall head_arg, In head_arg (Head.arg_list head) ->
     exists vars, head_arg_shape head_arg vars /\
                  forall v, In v vars -> body_variable body_atoms v) ->
  exists selection,
    extract_selection_map head (extract_variable_arg_to_atom_map body_atoms) = ok selection /\
    map (fun tag => Some tag) (SelectionMap.head_arg_type_map selection) =
      map (fun head_arg => type_tag (HeadArg.type head_arg)) (Head.arg_list head) /\
    od_keys (SelectionMap.head_arg_to_body_atom_arg_map selection) =
      seq 0 (List.length (Head.arg_list head)) /\
    (forall i head_arg, nth_error (Head.arg_list head) i = Some head_arg ->
       exists source,
         od_get i (SelectionMap.head_arg_to_body_atom_arg_map selection) = Some source /\
         selected (extract_variable_arg_to_atom_map body_atoms) head_arg source) /\
    (forall i agg_op,
       od_get i (SelectionMap.head_aggregation_map selection) = Some agg_op <->
       exists aggregation,
         nth_error (Head.arg_list head) i =
           Some (HeadArg.mk "aggregation" (NameAggregation aggregation)) /\
         Aggregation.agg_op aggregation = agg_op).
Proof.
  intros Hok.
  destruct (select_loop_resolved body_atoms (Head.arg_list head) 0 [] [] [] Hok)
    as (sources & Hall & Hfold); [simpl; tauto|simpl; tauto|].
  simpl app in Hfold.
  exists (SelectionMap.mk (indexed_from 0 sources)
            (flat_map type_tags (Head.arg_list head))
            (picked_from pick_aggregation 0 (Head.arg_list head))).
  unfold extract_selection_map. rewrite for_range_result_from.
  split; [exact Hfold|].
  cbn [SelectionMap.head_arg_to_body_atom_arg_map SelectionMap.head_arg_type_map
       SelectionMap.head_aggregation_map].
  assert (Hlen : List.length sources = List.length (Head.arg_list head)).
  { symmetry. eapply Forall2_length. exact Hall. }
  split; [|split; [|split]].
  - clear Hall Hfold Hlen. induction (Head.arg_list head) as [|head_arg r IH];
      [reflexivity|].
    destruct (Hok head_arg (or_introl eq_refl)) as (vars & Hshape & _).
    cbn [flat_map map]. unfold type_tags at 1.
    destruct Hshape; cbn [HeadArg.type type_tag String.eqb Ascii.eqb Bool.eqb]; simpl;
      (f_equal; apply IH; intros h Hin; apply Hok; right; exact Hin).
  - rewrite indexed_from_keys, Hlen. reflexivity.
  - intros i head_arg Hi.
    destruct (nth_error sources i) as [source|] eqn:Hsrc.
    + exists source. split.
      * rewrite <- Hsrc. exact (indexed_from_get sources 0 i).
      * exact (Forall2_nth_error _ _ _ i head_arg source Hall Hi Hsrc).
    + exfalso. apply nth_error_None in Hsrc.
      assert (i < List.length (Head.arg_list head))
        by (apply nth_error_Some; rewrite Hi; discriminate).
      lia.
  - intros i agg_op. rewrite picked_from_get. simpl. rewrite Nat.sub_0_r. split.
    + destruct (nth_error (Head.arg_list head) i) as [head_arg|] eqn:Hi; [|discriminate].
      intros Hpick.
      destruct (Hok head_arg (nth_error_In _ _ Hi)) as (vars & Hshape & _).
      destruct Hshape; simpl in Hpick; try discriminate; injection Hpick as <-;
        eexists; split; reflexivity.
    + intros (aggregation & Hi & <-). rewrite Hi. reflexivity.
Qed.

Lemma extract_selection_map_resolved_witness :
  exists selection,
    extract_selection_map
      (Head.mk "T" [HeadArg.mk "variable" (NameText "x");
                    HeadArg.mk "aggregation"
                      (NameAggregation
                         (Aggregation.mk (AggArg.mk "attribute" (ContentName "y")) "MIN"))])
      (extract_variable_arg_to_atom_map
         [Atom.mk "Edge" [Arg.mk "variable" "x"; Arg.mk "variable" "y"]]) = ok selection /\
    SelectionMap.head_arg_type_map selection = ["var"; "agg"] /\
    od_keys (SelectionMap.head_arg_to_body_atom_arg_map selection) = [0; 1].
Proof.
  destruct (extract_selection_map_resolved
              [Atom.mk "Edge" [Arg.mk "variable" "x"; Arg.mk "variable" "y"]]
              (Head.mk "T" [HeadArg.mk "variable" (NameText "x");
                            HeadArg.mk "aggregation"
                              (NameAggregation
                                 (Aggregation.mk (AggArg.mk "attribute" (ContentName "y"))
                                    "MIN"))]))
    as (selection & Hok & Htags & Hkeys & _).
  - intros head_arg [<-|[<-|[]]].
    + exists ["x"]. split; [constructor|]. intros v [<-|[]].
      exists 0, 0, (Atom.mk "Edge" [Arg.mk "variable" "x"; Arg.mk "variable" "y"]),
        (Arg.mk "variable" "x"). repeat split.
    + exists ["y"]. split; [constructor|]. intros v [<-|[]].
      exists 0, 1, (Atom.mk "Edge" [Arg.mk "variable" "x"; Arg.mk "variable" "y"]),
        (Arg.mk "variable" "y"). repeat split.
  - exists selection. split; [exact Hok|]. split; [|exact Hkeys].
    simpl in Htags. destruct (SelectionMap.head_arg_type_map selection) as [|t1 [|t2 [|t3 r]]];
      try discriminate Htags.
    injection Htags as -> ->. reflexivity.
Defined.

Lemma head_arg_shape_functional head_arg vars vars' :
  head_arg_shape head_arg vars -> head_arg_shape head_arg vars' -> vars = vars'.
Proof.
  intros H1 H2. destruct H1; inversion H2; reflexivity.
Qed.

Lemma body_variables_cases body_atoms (vars : list string) :
  (forall v, In v vars -> body_variable body_atoms v) \/
  (exists v, In v vars /\ ~ body_variable body_atoms v).
Proof.
  induction vars as [|v r IH].
  - left. intros v [].
  - destruct (body_variable_cases body_atoms v) as [Hv|Hv].
    + destruct IH as [IH|(v' & Hin & Hno)].
      * left. intros v' [<-|Hin]; auto.
      * right. exists v'. split; [right; exact Hin|exact Hno].
    + right. exists v. split; [left; reflexivity|exact Hv].
Qed.

Lemma select_loop_unresolved body_atoms args : forall j s,
  (forall head_arg, In head_arg args -> exists vars, head_arg_shape head_arg vars) ->
  (exists head_arg vars v,
     In head_arg args /\ head_arg_shape head_arg vars /\
     In v vars /\ ~ body_variable body_atoms v) ->
  fold_result_from j args
    (select_head_argument (extract_variable_arg_to_atom_map body_atoms)) s
  = raise KeyError.
Proof.
  induction args as [|head_arg r IH]; intros j s Hshapes (bad & vars & v & Hin & Hshape & Hv & Hno).
  - destruct Hin.
  - cbn [fold_result_from].
    destruct (Hshapes head_arg (or_introl eq_refl)) as (vars0 & Hshape0).
    destruct (body_variables_cases body_atoms vars0) as [Hall|Hbad].
    + destruct (select_head_argument_resolved body_atoms head_arg vars0 s j Hshape0 Hall)
        as (source & _ & Hstep).
      rewrite Hstep. unfold ok. cbv iota.
      apply IH.
      * intros h Hh. apply Hshapes. right. exact Hh.
      * destruct Hin as [<-|Hin].
        -- exfalso. apply Hno. apply Hall.
           rewrite (head_arg_shape_functional head_arg vars0 vars Hshape0 Hshape). exact Hv.
        -- exists bad, vars, v. auto.
    + rewrite (select_head_argument_unresolved body_atoms head_arg vars0 s j Hshape0 Hbad).
      reflexivity.
Qed.

(** X21.  [extract_selection_map] on a head whose arguments have the
    shapes the parser produces raises [KeyError] as soon as one of them
    refers to a name that is not a variable of the body. *)
Theorem extract_selection_map_unresolved (body_atoms : list Atom.t) (head : Head.t) :
  (forall head_arg, In head_arg (Head.arg_list head) ->
     exists vars, head_arg_shape head_arg vars) ->
  (exists head_arg vars v,
     In head_arg (Head.arg_list head) /\ head_arg_shape head_arg vars /\
     In v vars /\ ~ body_variable body_atoms v) ->
  extract_selection_map head (extract_variable_arg_to_atom_map body_atoms) = raise KeyError.
Proof.
  intros Hshapes Hbad. unfold extract_selection_map. rewrite for_range_result_from.
  apply select_loop_unresolved; assumption.
Qed.

Lemma extract_selection_map_unresolved_witness :
  extract_selection_map (Head.mk "T" [HeadArg.mk "variable" (NameText "x")])
    (extract_variable_arg_to_atom_map []) = raise KeyError.
Proof.
  apply (extract_selection_map_unresolved []
           (Head.mk "T" [HeadArg.mk "variable" (NameText "x")])).
  - intros head_arg [<-|[]]. exists ["x"]. constructor.
  - exists (HeadArg.mk "variable" (NameText "x")), ["x"], "x".
    split; [left; reflexivity|]. split; [constructor|]. split; [left; reflexivity|].
    intros (a & p & atom & arg & Hatom & _). destruct a; discriminate Hatom.
Defined.

Ltac selection_outputs Hset :=
  intros [= <-]; cbn [SelectionMap.head_arg_type_map SelectionMap.head_aggregation_map
                      SelectionMap.head_arg_to_body_atom_arg_map];
  repeat match goal with |- _ /\ _ => split end;
  try reflexivity;
  try (intros ? ?; eapply Hset; eassumption);
  try (let H := fresh in intros H; discriminate H);
  try (intros _; discriminate);
  try (intros; contradiction);
  try (intros; left; assumption).

(** What a successful iteration does to the three outputs, whatever the
    argument. *)
Lemma select_head_argument_outputs idx s i head_arg s' :
  select_head_argument idx s i head_arg = ok s' ->
  SelectionMap.head_arg_type_map s' =
    SelectionMap.head_arg_type_map s ++ type_tags head_arg /\
  SelectionMap.head_aggregation_map s' =
    match pick_aggregation head_arg with
    | Some agg_op => od_set i agg_op (SelectionMap.head_aggregation_map s)
    | None => SelectionMap.head_aggregation_map s
    end /\
  (HeadArg.type head_arg = "aggregation" -> pick_aggregation head_arg <> None) /\
  (forall q, In q (od_keys (SelectionMap.head_arg_to_body_atom_arg_map s')) ->
             In q (od_keys (SelectionMap.head_arg_to_body_atom_arg_map s)) \/ q = i) /\
  (type_tags head_arg = [] ->
   SelectionMap.head_arg_to_body_atom_arg_map s' = SelectionMap.head_arg_to_body_atom_arg_map s).
Proof.
  unfold select_head_argument, pick_aggregation, type_tags, type_tag, math_expr_source.
  unfold ok, raise.
  assert (Hset : forall (src : head_source) q,
            In q (od_keys (od_set i src (SelectionMap.head_arg_to_body_atom_arg_map s))) ->
            In q (od_keys (SelectionMap.head_arg_to_body_atom_arg_map s)) \/ q = i).
  { intros src q. rewrite od_keys_set.
    destruct (od_mem i (SelectionMap.head_arg_to_body_atom_arg_map s)); [auto|].
    intros Hin. apply in_app_or in Hin. destruct Hin as [Hin|[<-|[]]]; auto. }
  destruct (String.eqb_spec (HeadArg.type head_arg) "variable") as [Ht|Ht].
  { rewrite Ht. simpl.
    destruct (HeadArg.name head_arg); try (intros H; discriminate H).
    destruct (search_argument_mapping_in_body_atoms idx text); [intros H; discriminate H|].
    selection_outputs Hset. }
  destruct (String.eqb_spec (HeadArg.type head_arg) "aggregation") as [Ha|Ha].
  { destruct (HeadArg.name head_arg) as [|aggregation|]; try (intros H; discriminate H).
    destruct (AggArg.type (Aggregation.agg_arg aggregation) =? "attribute")%string.
    - destruct (AggArg.content (Aggregation.agg_arg aggregation));
        try (intros H; discriminate H).
      destruct (search_argument_mapping_in_body_atoms idx var_name);
        [intros H; discriminate H|].
      selection_outputs Hset.
    - destruct (AggArg.type (Aggregation.agg_arg aggregation) =? "math_expr")%string.
      + destruct (AggArg.content (Aggregation.agg_arg aggregation));
          try (intros H; discriminate H).
        destruct (search_argument_mapping_in_body_atoms idx (MathExpr.lhs math_expr));
          [intros H; discriminate H|].
        destruct (search_argument_mapping_in_body_atoms idx (MathExpr.rhs math_expr));
          [intros H; discriminate H|].
        selection_outputs Hset.
      + selection_outputs Hset. }
  destruct (String.eqb_spec (HeadArg.type head_arg) "math_expr") as [Hm|Hm].
  { destruct (HeadArg.name head_arg) as [| |math_expr]; try (intros H; discriminate H).
    destruct (search_argument_mapping_in_body_atoms idx (MathExpr.lhs math_expr));
      [intros H; discriminate H|].
    destruct (search_argument_mapping_in_body_atoms idx (MathExpr.rhs math_expr));
      [intros H; discriminate H|].
    selection_outputs Hset. }
  destruct (String.eqb_spec (HeadArg.type head_arg) "constant") as [Hc|Hc].
  { selection_outputs Hset. }
  selection_outputs Hset. rewrite app_nil_r. reflexivity.
Qed.

Lemma select_loop_outputs idx args : forall j s s',
  (forall q, In q (od_keys (SelectionMap.head_aggregation_map s)) -> q < j) ->
  fold_result_from j args (select_head_argument idx) s = ok s' ->
  SelectionMap.head_arg_type_map s' =
    SelectionMap.head_arg_type_map s ++ flat_map type_tags args /\
  SelectionMap.head_aggregation_map s' =
    SelectionMap.head_aggregation_map s ++ picked_from pick_aggregation j args /\
  (forall head_arg, In head_arg args ->
     HeadArg.type head_arg = "aggregation" -> pick_aggregation head_arg <> None) /\
  (forall q, In q (od_keys (SelectionMap.head_arg_to_body_atom_arg_map s')) ->
     In q (od_keys (SelectionMap.head_arg_to_body_atom_arg_map s)) \/
     exists head_arg, nth_error args (q - j) = Some head_arg /\ j <= q /\
                      type_tags head_arg <> []).
Proof.
  induction args as [|head_arg r IH]; intros j s s' Haggs Hfold; cbn [fold_result_from] in Hfold.
  - injection Hfold as <-. simpl. rewrite !app_nil_r. repeat split; auto.
  - destruct (select_head_argument idx s j head_arg) as [e|s1] eqn:Hstep; [discriminate|].
    destruct (select_head_argument_outputs idx s j head_arg s1 Hstep)
      as (Ht1 & Ha1 & Hagg1 & Hk1 & Hskip1).
    assert (Haggs1 : forall q, In q (od_keys (SelectionMap.head_aggregation_map s1)) -> q < S j).
    { rewrite Ha1. destruct (pick_aggregation head_arg) as [agg_op|].
      - rewrite (od_set_fresh _ j agg_op Haggs). apply keys_below_snoc. exact Haggs.
      - apply keys_below_S. exact Haggs. }
    destruct (IH (S j) s1 s' Haggs1 Hfold) as (Ht & Ha & Hagg & Hk).
    split; [|split; [|split]].
    + rewrite Ht, Ht1. cbn [flat_map]. rewrite <- app_assoc. reflexivity.
    + rewrite Ha, Ha1. cbn [picked_from].
      destruct (pick_aggregation head_arg) as [agg_op|]; [|reflexivity].
      rewrite (od_set_fresh _ j agg_op Haggs). rewrite <- app_assoc. reflexivity.
    + intros h [<-|Hin]; [exact Hagg1|apply Hagg; exact Hin].
    + intros q Hq. destruct (Hk q Hq) as [Hq1|(h & Hnth & Hle & Htag)].
      * destruct (list_eq_dec string_dec (type_tags head_arg) []) as [Hnil|Hnonnil].
        -- left. rewrite <- (Hskip1 Hnil). exact Hq1.
        -- destruct (Hk1 q Hq1) as [Hq0 | ->]; [left; exact Hq0|].
           right. exists head_arg. rewrite Nat.sub_diag. auto.
      * right. exists h. replace (q - j) with (S (q - S j)) by lia.
        split; [exact Hnth|]. split; [lia|exact Htag].
Qed.

(** X22.  Whatever the head and the index, when [extract_selection_map]
    returns: [head_arg_type_map] holds the tags of the arguments whose
    type is one of the four known ones, in order, and nothing for the
    others, which are skipped without an error (the list is then shorter
    than the head); the keys of [head_aggregation_map] are the positions
    of the arguments of type ['aggregation']; and [head_arg_to_body_atom_arg_map]
    has keys only at positions of arguments of a known type. *)
Theorem extract_selection_map_outputs (head : Head.t) (idx : index)
    (selection : SelectionMap.t) :
  extract_selection_map head idx = ok selection ->
  SelectionMap.head_arg_type_map selection = flat_map type_tags (Head.arg_list head) /\
  (forall i, In i (od_keys (SelectionMap.head_aggregation_map selection)) <->
             exists head_arg, nth_error (Head.arg_list head) i = Some head_arg /\
                              HeadArg.type head_arg = "aggregation") /\
  (forall i, In i (od_keys (SelectionMap.head_arg_to_body_atom_arg_map selection)) ->
             exists head_arg, nth_error (Head.arg_list head) i = Some head_arg /\
                              type_tag (HeadArg.type head_arg) <> None).
Proof.
  unfold extract_selection_map. rewrite for_range_result_from. intros Hfold.
  destruct (select_loop_outputs idx (Head.arg_list head) 0 (SelectionMap.mk [] [] [])
              selection) as (Ht & Ha & Hagg & Hk); [simpl; tauto|exact Hfold|].
  cbn [SelectionMap.head_arg_type_map SelectionMap.head_aggregation_map
       SelectionMap.head_arg_to_body_atom_arg_map app od_keys map] in Ht, Ha, Hk.
  split; [exact Ht|]. split.
  - intros i. rewrite Ha. split.
    + intros Hin. apply od_keys_get in Hin. destruct Hin as [agg_op Hget].
      rewrite picked_from_get in Hget. simpl in Hget. rewrite Nat.sub_0_r in Hget.
      destruct (nth_error (Head.arg_list head) i) as [head_arg|]; [|discriminate].
      exists head_arg. split; [reflexivity|].
      unfold pick_aggregation in Hget.
      destruct (String.eqb_spec (HeadArg.type head_arg) "aggregation"); [auto|discriminate].
    + intros (head_arg & Hi & Hty).
      assert (Hpick : pick_aggregation head_arg <> None).
      { apply Hagg; [eapply nth_error_In; exact Hi|exact Hty]. }
      destruct (pick_aggregation head_arg) as [agg_op|] eqn:Hp; [|congruence].
      apply (od_get_Some_keys _ i agg_op).
      rewrite picked_from_get. simpl. rewrite Nat.sub_0_r, Hi. exact Hp.
  - intros i Hin. destruct (Hk i Hin) as [[]|(head_arg & Hnth & _ & Htag)].
    rewrite Nat.sub_0_r in Hnth. exists head_arg. split; [exact Hnth|].
    unfold type_tags in Htag. destruct (type_tag (HeadArg.type head_arg)); congruence.
Qed.

Lemma extract_selection_map_outputs_witness :
  SelectionMap.head_arg_type_map (SelectionMap.mk [(1, FromConstant (NameText "7"))] ["constant"] [])
  = flat_map type_tags [HeadArg.mk "wildcard" (NameText "_"); HeadArg.mk "constant" (NameText "7")].
Proof.
  apply (extract_selection_map_outputs
           (Head.mk "T" [HeadArg.mk "wildcard" (NameText "_"); HeadArg.mk "constant" (NameText "7")])
           []
           (SelectionMap.mk [(1, FromConstant (NameText "7"))] ["constant"] [])).
  reflexivity.
Defined.

(** ** Key order of the index *)

Lemma od_mem_existsb {V : Type} (d : odict string V) v :
  od_mem v d = existsb (String.eqb v) (od_keys d).
Proof.
  unfold od_mem. induction d as [|[k x] d IH]; simpl; [reflexivity|].
  destruct (String.eqb v k); simpl; [reflexivity|exact IH].
Qed.

Lemma index_argument_keys atom_index arg_index arg (m : index) :
  od_keys (index_argument atom_index arg_index arg m) =
  if (Arg.type arg =? "variable")%string then add_key (od_keys m) (Arg.name arg)
  else od_keys m.
Proof.
  unfold index_argument, add_key.
  destruct (Arg.type arg =? "variable")%string; simpl; [|reflexivity].
  rewrite !od_keys_modify. rewrite <- od_mem_existsb.
  destruct (od_mem (Arg.name arg) m) eqn:Hmem; simpl; [reflexivity|].
  rewrite od_keys_set, Hmem. reflexivity.
Qed.

Lemma index_arguments_keys atom_index args : forall i (m : index),
  od_keys (fold_from i args (index_argument atom_index) m) =
  fold_left add_key
    (map Arg.name (filter (fun arg => (Arg.type arg =? "variable")%string) args))
    (od_keys m).
Proof.
  induction args as [|arg r IH]; intros i m; simpl; [reflexivity|].
  rewrite IH, index_argument_keys.
  destruct (Arg.type arg =? "variable")%string; reflexivity.
Qed.

Lemma index_atoms_keys body_atoms : forall j (m : index),
  od_keys
    (fold_from j body_atoms
       (fun atom_index atom m =>
          for_range (Atom.arg_list atom)
            (fun arg_index arg m => index_argument atom_index arg_index arg m) m)
       m) =
  fold_left add_key (variable_names body_atoms) (od_keys m).
Proof.
  induction body_atoms as [|atom r IH]; intros j m; simpl; [reflexivity|].
  rewrite IH, for_range_fold_from.
  change (fun arg_index arg m0 => index_argument j arg_index arg m0)
    with (index_argument j).
  rewrite index_arguments_keys. unfold variable_names. simpl.
  rewrite fold_left_app. reflexivity.
Qed.

(** X24.  The keys of the index built by
    [extract_variable_arg_to_atom_map] are the names of the variable
    arguments of the body in scan order, each at the place of its first
    occurrence; the index of a longer body starts with the keys of the
    index of the shorter one. *)
Theorem index_keys_in_first_occurrence_order (body_atoms more_atoms : list Atom.t) :
  od_keys (extract_variable_arg_to_atom_map body_atoms) =
    first_occurrences (variable_names body_atoms) /\
  exists later,
    od_keys (extract_variable_arg_to_atom_map (body_atoms ++ more_atoms)) =
    od_keys (extract_variable_arg_to_atom_map body_atoms) ++ later.
Proof.
  assert (Hkeys : forall atoms,
            od_keys (extract_variable_arg_to_atom_map atoms) =
            first_occurrences (variable_names atoms)).
  { intros atoms. unfold extract_variable_arg_to_atom_map.
    rewrite for_range_fold_from. exact (index_atoms_keys atoms 0 []). }
  split; [apply Hkeys|].
  rewrite !Hkeys. unfold first_occurrences, variable_names.
  rewrite flat_map_app, fold_left_app.
  generalize (flat_map
                (fun atom =>
                   map Arg.name
                     (filter (fun arg => (Arg.type arg =? "variable")%string)
                        (Atom.arg_list atom))) more_atoms).
  generalize (fold_left add_key
                (flat_map
                   (fun atom =>
                      map Arg.name
                        (filter (fun arg => (Arg.type arg =? "variable")%string)
                           (Atom.arg_list atom))) body_atoms) []).
  intros keys names. revert keys.
  induction names as [|v names IH]; intros keys; simpl.
  - exists []. rewrite app_nil_r. reflexivity.
  - unfold add_key at 2. destruct (existsb (String.eqb v) keys).
    + apply IH.
    + destruct (IH (keys ++ [v])) as [later Hlater].
      exists (v :: later). rewrite Hlater, <- app_assoc. reflexivity.
Qed.

(** ** The maps of a rule, built on the index of its body *)

Lemma search_built_first body_atoms v a p :
  search_argument_mapping_in_body_atoms (extract_variable_arg_to_atom_map body_atoms) v
    = ok (Some (Mapping.mk a p)) ->
  occurs_at body_atoms v a p /\
  forall a' p', occurs_at body_atoms v a' p' -> scan_le a p a' p'.
Proof.
  rewrite search_in_index.
  pose proof (occurrences_from_keys_sorted v body_atoms 0) as Hsorted.
  assert (Hocc : forall a p, occurs_at body_atoms v a p <->
             exists ps, od_get a (occurrences_from v 0 body_atoms) = Some ps /\ In p ps)
    by (intros; apply occurs_at_occurrences).
  assert (Hent : forall a ps, In (a, ps) (occurrences_from v 0 body_atoms) ->
             ps <> [] /\ StronglySorted lt ps).
  { intros a0 ps Hin. apply occurrences_from_In in Hin.
    destruct Hin as [_ [Hne [atom [_ ->]]]]. split; [assumption|].
    apply positions_from_sorted. }
  destruct (occurrences_from v 0 body_atoms) as [|[a0 ps] rest] eqn:Eo; [discriminate|].
  destruct (Hent a0 ps (or_introl eq_refl)) as [Hne Hps].
  destruct ps as [|p0 ps']; [congruence|].
  cbn [first_atom_arg]. intros [= <- <-]. split.
  - apply Hocc. exists (p0 :: ps'). simpl. rewrite Nat.eqb_refl.
    split; [reflexivity|left; reflexivity].
  - intros a' p' Ho'. apply Hocc in Ho'. destruct Ho' as [ps'' [Hg Hin]].
    simpl in Hg. destruct (Nat.eqb_spec a' a0) as [->|Hne'].
    + injection Hg as <-. right. split; [reflexivity|].
      destruct Hin as [<-|Hin]; [lia|].
      pose proof (sorted_head_lt _ _ _ Hps Hin). lia.
    + left. apply od_get_Some_keys in Hg. simpl in Hsorted.
      pose proof (sorted_head_lt _ _ _ Hsorted Hg). lia.
Qed.

(** X25.  Index and negation map of one rule: when every variable of the
    negated atoms is a variable of the positive body,
    [extract_negation_map] on the index of the body returns, and the
    anti-join map sends every variable position of a negated atom to the
    first occurrence of that variable in the positive body (lowest atom,
    then lowest argument position). *)
Theorem negated_variables_join_first_occurrence
    (body_atoms body_negation_atoms : list Atom.t) :
  (forall atom arg, In atom body_negation_atoms -> In arg (Atom.arg_list atom) ->
     Arg.type arg = "variable" -> body_variable body_atoms (Arg.name arg)) ->
  exists maps,
    extract_negation_map body_negation_atoms (extract_variable_arg_to_atom_map body_atoms)
      = ok maps /\
    forall i j atom arg,
      nth_error body_negation_atoms i = Some atom ->
      nth_error (Atom.arg_list atom) j = Some arg ->
      Arg.type arg = "variable" ->
      exists inner a p,
        od_get i (NegationMaps.anti_join_map maps) = Some inner /\
        od_get j inner = Some (Mapping.mk a p) /\
        occurs_at body_atoms (Arg.name arg) a p /\
        forall a' p', occurs_at body_atoms (Arg.name arg) a' p' -> scan_le a p a' p'.
Proof.
  intros Hvars.
  set (idx := extract_variable_arg_to_atom_map body_atoms).
  assert (Hkeyed : forall atom arg, In atom body_negation_atoms ->
            In arg (Atom.arg_list atom) -> Arg.type arg = "variable" ->
            od_get (Arg.name arg) idx <> None).
  { intros atom arg Hin Hin' Ht Hnone.
    destruct (body_variable_resolves body_atoms (Arg.name arg) (Hvars atom arg Hin Hin' Ht))
      as [found Hs].
    fold idx in Hs. rewrite (search_missing_name_raises idx _ Hnone) in Hs. discriminate. }
  exists (NegationMaps.mk (negation_map_from 0 body_negation_atoms)
            (sparse_map_from (pick_anti_join idx) 0 body_negation_atoms)).
  split; [apply extract_negation_map_matched_eq; exact Hkeyed|].
  cbn [NegationMaps.anti_join_map].
  intros i j atom arg Hatom Harg Ht.
  destruct (body_variable_resolves body_atoms (Arg.name arg)
              (Hvars atom arg (nth_error_In _ _ Hatom) (nth_error_In _ _ Harg) Ht))
    as [[a p] Hs].
  assert (Hlook : exists inner,
             od_get i (sparse_map_from (pick_anti_join idx) 0 body_negation_atoms)
               = Some inner /\
             od_get j inner = Some (Mapping.mk a p)).
  { apply sparse_map_lookup. exists atom, arg. repeat split; [exact Hatom|exact Harg|].
    apply pick_anti_join_Some. split; [exact Ht|exact Hs]. }
  destruct Hlook as (inner & Hi & Hj).
  exists inner, a, p. split; [exact Hi|]. split; [exact Hj|].
  apply search_built_first. exact Hs.
Qed.

Lemma negated_variables_join_first_occurrence_witness :
  exists maps,
    extract_negation_map
      [Atom.mk "Edge" [Arg.mk "variable" "y"; Arg.mk "constant" "1"]]
      (extract_variable_arg_to_atom_map
         [Atom.mk "Edge" [Arg.mk "variable" "x"; Arg.mk "variable" "y"];
          Atom.mk "Edge" [Arg.mk "variable" "y"; Arg.mk "variable" "z"]])
      = ok maps /\
    od_get 0 (NegationMaps.anti_join_map maps) = Some [(0, Mapping.mk 0 1)].
Proof.
  destruct (negated_variables_join_first_occurrence
              [Atom.mk "Edge" [Arg.mk "variable" "x"; Arg.mk "variable" "y"];
               Atom.mk "Edge" [Arg.mk "variable" "y"; Arg.mk "variable" "z"]]
              [Atom.mk "Edge" [Arg.mk "variable" "y"; Arg.mk "constant" "1"]])
    as (maps & Hok & _).
  - intros atom arg [<-|[]] [<-|[<-|[]]] Ht; [|discriminate Ht].
    exists 0, 1, (Atom.mk "Edge" [Arg.mk "variable" "x"; Arg.mk "variable" "y"]),
      (Arg.mk "variable" "y"). repeat split.
  - exists maps. split; [exact Hok|].
    vm_compute in Hok. injection Hok as <-. reflexivity.
Defined.

(** X26.  Index and selection map of one rule: for a head whose arguments
    have the shapes the parser produces and refer to variables of the body
    only, [extract_selection_map] on the index of the body maps every
    variable argument of the head to the first occurrence of that variable
    in the positive body, and every attribute aggregation to the first
    occurrence of the aggregated variable. *)
Theorem head_variables_select_first_occurrence (body_atoms : list Atom.t) (head : Head.t) :
  (forall head_arg, In head_arg (Head.arg_list head) ->
     exists vars, head_arg_shape head_arg vars /\
                  forall v, In v vars -> body_variable body_atoms v) ->
  exists selection,
    extract_selection_map head (extract_variable_arg_to_atom_map body_atoms) = ok selection /\
    (forall i v,
       nth_error (Head.arg_list head) i = Some (HeadArg.mk "variable" (NameText v)) ->
       exists a p,
         od_get i (SelectionMap.head_arg_to_body_atom_arg_map selection)
           = Some (FromBody (Some (Mapping.mk a p))) /\
         occurs_at body_atoms v a p /\
         forall a' p', occurs_at body_atoms v a' p' -> scan_le a p a' p') /\
    (forall i v agg_op,
       nth_error (Head.arg_list head) i =
         Some (HeadArg.mk "aggregation"
                 (NameAggregation
                    (Aggregation.mk (AggArg.mk "attribute" (ContentName v)) agg_op))) ->
       exists a p,
         od_get i (SelectionMap.head_arg_to_body_atom_arg_map selection)
           = Some (FromAttribute (Some (Mapping.mk a p))) /\
         od_get i (SelectionMap.head_aggregation_map selection) = Some agg_op /\
         occurs_at body_atoms v a p /\
         forall a' p', occurs_at body_atoms v a' p' -> scan_le a p a' p').
Proof.
  intros Hok.
  destruct (select_loop_resolved body_atoms (Head.arg_list head) 0 [] [] [] Hok)
    as (sources & Hall & Hfold); [simpl; tauto|simpl; tauto|].
  simpl app in Hfold.
  exists (SelectionMap.mk (indexed_from 0 sources)
            (flat_map type_tags (Head.arg_list head))
            (picked_from pick_aggregation 0 (Head.arg_list head))).
  unfold extract_selection_map. rewrite for_range_result_from.
  split; [exact Hfold|].
  cbn [SelectionMap.head_arg_to_body_atom_arg_map SelectionMap.head_aggregation_map].
  assert (Hsource : forall i head_arg,
            nth_error (Head.arg_list head) i = Some head_arg ->
            exists source,
              od_get i (indexed_from 0 sources) = Some source /\
              selected (extract_variable_arg_to_atom_map body_atoms) head_arg source).
  { intros i head_arg Hi.
    destruct (nth_error sources i) as [source|] eqn:Hsrc.
    - exists source. split.
      + rewrite <- Hsrc. exact (indexed_from_get sources 0 i).
      + exact (Forall2_nth_error _ _ _ i head_arg source Hall Hi Hsrc).
    - exfalso. apply nth_error_None in Hsrc.
      assert (Hlen : List.length (Head.arg_list head) = List.length sources)
        by (eapply Forall2_length; exact Hall).
      assert (i < List.length (Head.arg_list head))
        by (apply nth_error_Some; rewrite Hi; discriminate).
      lia. }
  split.
  - intros i v Hi. destruct (Hsource i _ Hi) as (source & Hget & Hsel).
    inversion Hsel as [v0 [a p] Hs| | | |]; subst.
    exists a, p. split; [exact Hget|]. apply search_built_first. exact Hs.
  - intros i v agg_op Hi. destruct (Hsource i _ Hi) as (source & Hget & Hsel).
    inversion Hsel as [|v0 op0 [a p] Hs| | |]; subst.
    exists a, p. split; [exact Hget|]. split.
    + rewrite picked_from_get. simpl. rewrite Nat.sub_0_r, Hi. reflexivity.
    + apply search_built_first. exact Hs.
Qed.

Lemma head_variables_select_first_occurrence_witness :
  exists selection,
    extract_selection_map (Head.mk "T" [HeadArg.mk "variable" (NameText "y")])
      (extract_variable_arg_to_atom_map
         [Atom.mk "Edge" [Arg.mk "variable" "x"; Arg.mk "variable" "y"];
          Atom.mk "Edge" [Arg.mk "variable" "y"; Arg.mk "variable" "z"]]) = ok selection /\
    od_get 0 (SelectionMap.head_arg_to_body_atom_arg_map selection)
      = Some (FromBody (Some (Mapping.mk 0 1))).
Proof.
  destruct (head_variables_select_first_occurrence
              [Atom.mk "Edge" [Arg.mk "variable" "x"; Arg.mk "variable" "y"];
               Atom.mk "Edge" [Arg.mk "variable" "y"; Arg.mk "variable" "z"]]
              (Head.mk "T" [HeadArg.mk "variable" (NameText "y")]))
    as (selection & Hok & _).
  - intros head_arg [<-|[]]. exists ["y"]. split; [constructor|].
    intros v [<-|[]].
    exists 0, 1, (Atom.mk "Edge" [Arg.mk "variable" "x"; Arg.mk "variable" "y"]),
      (Arg.mk "variable" "y"). repeat split.
  - exists selection. split; [exact Hok|].
    vm_compute in Hok. injection Hok as <-. reflexivity.
Defined.

(** ** The numerical value of a comparison *)

Section NearestDouble.
Local Open Scope Z_scope.

(** A positive number of [d] binary digits lies in [[2^(d-1), 2^d)]. *)
Lemma digits2_pos_bounds (p : positive) :
  2 ^ (Zpos (digits2_pos p) - 1) <= Zpos p < 2 ^ Zpos (digits2_pos p).
Proof.
  induction p as [p IH|p IH|]; cbn [digits2_pos].
  - rewrite Pos2Z.inj_succ, (Pos2Z.inj_xI p).
    replace (Z.succ (Zpos (digits2_pos p)) - 1) with (Z.succ (Zpos (digits2_pos p) - 1)) by lia.
    rewrite !Z.pow_succ_r by lia. lia.
  - rewrite Pos2Z.inj_succ, (Pos2Z.inj_xO p).
    replace (Z.succ (Zpos (digits2_pos p)) - 1) with (Z.succ (Zpos (digits2_pos p) - 1)) by lia.
    rewrite !Z.pow_succ_r by lia. lia.
  - simpl. lia.
Qed.

Lemma digits2_pos_unique (p : positive) (d : Z) :
  2 ^ (d - 1) <= Zpos p < 2 ^ d -> 0 < d -> Zpos (digits2_pos p) = d.
Proof.
  intros [Hlo Hhi] Hd. destruct (digits2_pos_bounds p) as [Hlo' Hhi'].
  assert (H1 : Zpos (digits2_pos p) - 1 < d).
  { apply (Z.pow_lt_mono_r_iff 2); lia. }
  assert (H2 : d - 1 < Zpos (digits2_pos p)).
  { apply (Z.pow_lt_mono_r_iff 2); lia. }
  lia.
Qed.

Lemma iter_xO_value (p k : positive) : Zpos (Pos.iter xO p k) = Zpos p * 2 ^ Zpos k.
Proof.
  change (Pos.iter xO p k) with (shift_pos k p).
  rewrite shift_pos_correct.
  change (Zpower_pos 2 k) with (2 ^ Zpos k). apply Z.mul_comm.
Qed.

(** A mantissa of 53 digits with an exponent in range is kept as it is. *)
Lemma binary_round_aux_exact (s : bool) (m : positive) (e : Z) :
  Zpos (digits2_pos m) = 53 -> -1074 <= e <= 971 ->
  binary_round_aux 53 1024 s (Zpos m) e loc_Exact = S754_finite s m e.
Proof.
  intros Hd He.
  unfold binary_round_aux, shr_fexp, fexp, emin, Zdigits2.
  cbn [shr_record_of_loc].
  rewrite Hd.
  replace (Z.max (53 + e - 53) (3 - 1024 - 53) - e) with 0 by lia.
  cbn [shr shr_m loc_of_shr_record round_nearest_even Zdigits2].
  rewrite Hd.
  replace (Z.max (53 + e - 53) (3 - 1024 - 53) - e) with 0 by lia.
  cbn [shr shr_m].
  replace (e <=? 1024 - 53) with true by (symmetry; apply Z.leb_le; lia).
  reflexivity.
Qed.

(** Below [2^53] the nearest double of an integer is the integer. *)
Lemma binary_round_small (s : bool) (p : positive) :
  Zpos p < 2 ^ 53 ->
  integer_value (binary_round 53 1024 s p 0) = Some (if s then Zneg p else Zpos p).
Proof.
  intros Hp. destruct (digits2_pos_bounds p) as [Hlo Hhi].
  assert (Hd : Zpos (digits2_pos p) <= 53).
  { assert (Zpos (digits2_pos p) - 1 < 53) by (apply (Z.pow_lt_mono_r_iff 2); lia). lia. }
  unfold binary_round, shl_align, fexp, emin.
  replace (Z.max (Zpos (digits2_pos p) + 0 - 53) (3 - 1024 - 53) - 0)
    with (Zpos (digits2_pos p) - 53) by lia.
  destruct (Zpos (digits2_pos p) - 53) as [|k|k] eqn:Hk; [|lia|].
  - replace (Z.max (Zpos (digits2_pos p) + 0 - 53) (3 - 1024 - 53)) with 0 by lia.
    rewrite binary_round_aux_exact by lia.
    unfold integer_value. simpl. destruct s; f_equal; lia.
  - replace (Z.max (Zpos (digits2_pos p) + 0 - 53) (3 - 1024 - 53)) with (Zneg k) by lia.
    assert (Hv := iter_xO_value p k).
    rewrite binary_round_aux_exact.
    + unfold integer_value.
      replace (0 <=? Zneg k) with false by (symmetry; apply Z.leb_gt; lia).
      change (- Zneg k) with (Zpos k).
      destruct s.
      * change (Zneg (Pos.iter xO p k)) with (- Zpos (Pos.iter xO p k)).
        rewrite Hv.
        replace (- (Zpos p * 2 ^ Zpos k)) with ((- Zpos p) * 2 ^ Zpos k) by lia.
        rewrite Z.mod_mul, Z.div_mul by lia. reflexivity.
      * rewrite Hv. rewrite Z.mod_mul, Z.div_mul by lia. reflexivity.
    + apply digits2_pos_unique; [|lia]. rewrite Hv.
      assert (Hlow : 2 ^ (53 - 1) = 2 ^ (Zpos (digits2_pos p) - 1) * 2 ^ Zpos k).
      { rewrite <- Z.pow_add_r by lia. f_equal. lia. }
      assert (Hhigh : 2 ^ 53 = 2 ^ Zpos (digits2_pos p) * 2 ^ Zpos k).
      { rewrite <- Z.pow_add_r by lia. f_equal. lia. }
      rewrite Hlow, Hhigh.
      assert (0 < 2 ^ Zpos k) by (apply Z.pow_pos_nonneg; lia).
      nia.
    + lia.
Qed.

Lemma nearest_double_exact (negative : bool) (magnitude : Z) :
  0 <= magnitude <= 2 ^ 53 ->
  integer_value (nearest_double negative magnitude) = Some (signed negative magnitude).
Proof.
  intros [H0 Hle]. unfold nearest_double, signed.
  destruct (Z.eq_dec magnitude (2 ^ 53)) as [->|Hne].
  - destruct negative; vm_compute; reflexivity.
  - destruct magnitude as [|p|p]; [| |lia].
    + destruct negative; reflexivity.
    + destruct negative.
      * change (- Zpos p) with (Zneg p). cbn [binary_normalize].
        apply (binary_round_small true). lia.
      * cbn [binary_normalize]. apply (binary_round_small false). lia.
Qed.

Lemma integer_literal_nonneg (text : string) (negative : bool) (magnitude : Z) :
  integer_literal text = Some (negative, magnitude) -> 0 <= magnitude.
Proof.
  assert (Hsome : forall (b : bool) (o : option Decimal.uint),
            option_map (fun d => (b, Z.of_uint d)) o = Some (negative, magnitude) ->
            0 <= magnitude).
  { intros b [d|]; [|discriminate]. simpl. intros [= _ <-].
    unfold Z.of_uint. apply N2Z.is_nonneg. }
  unfold integer_literal.
  destruct text as [|c digits]; [apply Hsome|].
  destruct (Ascii.eqb_spec c "-") as [->|Hm]; [apply Hsome|].
  destruct (Ascii.eqb_spec c "+") as [->|Hp]; [apply Hsome|].
  intros Hlit. apply (Hsome false (NilZero.uint_of_string (String c digits))).
  rewrite <- Hlit.
  destruct c as [[] [] [] [] [] [] [] []]; try reflexivity; congruence.
Qed.
End NearestDouble.

(** C8, as amended.  A comparison of a body variable with an operand
    tagged ['num'] whose text [float] accepts adds one record at the
    position of the variable, with [numerical_value] the result of
    [float] on the text.  When the text is an integer literal, that
    result is the double nearest to the integer written, and it is equal
    to that integer whenever the magnitude is at most [2^53]. *)
Theorem C8_numerical_value_is_nearest_double
    (other : string -> option spec_float) (idx : index)
    (earlier : list Comparison.t) (c : Comparison.t)
    (m : comparison_map (F:=spec_float)) (a p : nat) (x : spec_float) :
  comparison_loop (float_of_text other) earlier idx = Normal m ->
  ~ no_variable_side c ->
  compare_arg_type c = "num" ->
  search_argument_mapping_in_body_atoms idx (base_var c) = ok (Some (Mapping.mk a p)) ->
  float_of_text other (compare_arg c) = Some x ->
  exists m',
    extract_comparison_map (float_of_text other) (earlier ++ [c]) idx = ok m' /\
    records_at m' a p =
      records_at m a p
        ++ [mk_comparison_struct (base_side c) (Comparison.op c) (OtherNum x)] /\
    forall (negative : bool) (magnitude : Z),
      integer_literal (compare_arg c) = Some (negative, magnitude) ->
      x = nearest_double negative magnitude /\
      ((magnitude <= 2 ^ 53)%Z -> integer_value x = Some (signed negative magnitude)).
Proof.
  intros Hloop Hno Hty Hs Hfloat.
  exists (add_record a p
            (mk_comparison_struct (base_side c) (Comparison.op c) (OtherNum x)) m).
  split; [|split].
  - unfold extract_comparison_map.
    rewrite (comparison_loop_step (float_of_text other) idx earlier c [] m Hloop).
    rewrite (comparison_step_by_base (float_of_text other) idx m c Hno).
    rewrite Hs. unfold ok. cbv iota zeta. rewrite Hty, Hfloat. reflexivity.
  - rewrite records_at_add_record, !Nat.eqb_refl. reflexivity.
  - intros negative magnitude Hlit.
    unfold float_of_text in Hfloat. rewrite Hlit in Hfloat. injection Hfloat as <-.
    split; [reflexivity|]. intros Hle.
    apply nearest_double_exact. split; [|exact Hle].
    eapply integer_literal_nonneg. exact Hlit.
Qed.

Lemma C8_witness :
  let idx :=
    extract_variable_arg_to_atom_map
      [Atom.mk "Edge" [Arg.mk "variable" "x"; Arg.mk "variable" "y"]] in
  let c := Comparison.mk ("5", "num") ("y", "var") "<" in
  let float := float_of_text (fun _ : string => None) in
  exists m',
    extract_comparison_map float ([] ++ [c]) idx = ok m' /\
    records_at m' 0 1 =
      records_at [] 0 1
        ++ [mk_comparison_struct "r" "<" (OtherNum (S754_finite false 5629499534213120 (-50)))] /\
    forall (negative : bool) (magnitude : Z),
      integer_literal "5" = Some (negative, magnitude) ->
      S754_finite false 5629499534213120 (-50) = nearest_double negative magnitude /\
      ((magnitude <= 2 ^ 53)%Z ->
       integer_value (S754_finite false 5629499534213120 (-50))
         = Some (signed negative magnitude)).
Proof.
  intros idx c float.
  apply (C8_numerical_value_is_nearest_double (fun _ : string => None) idx [] c [] 0 1
           (S754_finite false 5629499534213120 (-50))).
  - reflexivity.
  - intros [_ Hr]. apply Hr. reflexivity.
  - reflexivity.
  - reflexivity.
  - reflexivity.
Defined.

(** C8, the claim as written, fails.  The literal [9007199254740993] is
    [2^53 + 1]; [float] gives the double [2^52 * 2^1], that is
    [9007199254740992], and this is the numerical value stored: it is not
    the value of the literal, and it is also what [float] gives for the
    literal [9007199254740992], so that nothing read back from the record
    tells the two literals apart. *)
Lemma C8_counterexample :
  let idx :=
    extract_variable_arg_to_atom_map
      [Atom.mk "Edge" [Arg.mk "variable" "x"; Arg.mk "variable" "y"]] in
  let c := Comparison.mk ("x", "var") ("9007199254740993", "num") ">" in
  let float := float_of_text (fun _ : string => None) in
  let stored := S754_finite false 4503599627370496 1 in
  integer_literal "9007199254740993" = Some (false, 9007199254740993%Z) /\
  float "9007199254740993" = Some stored /\
  float "9007199254740992" = Some stored /\
  extract_comparison_map float [c] idx
    = ok [(0, [(0, [mk_comparison_struct "l" ">" (OtherNum stored)])])] /\
  integer_value stored = Some 9007199254740992%Z /\
  integer_value stored <> Some 9007199254740993%Z.
Proof.
  intros idx c float stored.
  split; [reflexivity|]. split; [reflexivity|]. split; [reflexivity|].
  split; [reflexivity|]. split; [reflexivity|]. intros Heq. discriminate Heq.
Qed.

(** * Further properties of the object-store layer *)

Section SharingFacts.
Context {F : Type}.
Context (float_of_int : Z -> F).
Context (float_eqb : F -> F -> bool).

Lemma bind_pure {A B : Type} (m : Heap.M (F:=F) A) (f : A -> Heap.M (F:=F) B) h :
  pure_read m ->
  Heap.bind m f h =
  match snd (m h) with
  | inl e => (h, inl e)
  | inr x => f x h
  end.
Proof.
  intros Hm. unfold Heap.bind. specialize (Hm h).
  destruct (m h) as [h1 [e|x]]; simpl in *; subst; reflexivity.
Qed.

Lemma pure_read_iterate_list {St : Type}
    (body : St -> Heap.val (F:=F) -> Heap.M (F:=F) (Heap.control St)) :
  (forall s x, pure_read (body s x)) ->
  forall fuel i lst s,
    pure_read (Heap.iterate_list float_of_int float_eqb fuel i lst s body).
Proof.
  intros Hb. induction fuel as [|fuel IH]; intros i lst s; simpl.
  - apply pure_read_ret.
  - apply pure_read_bind; [apply pure_read_len|]. intros n.
    destruct (i <? n); [|apply pure_read_ret].
    apply pure_read_bind; [apply pure_read_getitem|]. intros x.
    apply pure_read_bind; [apply Hb|]. intros [s'|s']; [apply IH|apply pure_read_ret].
Qed.

Lemma pure_read_py_for {St : Type} v (s : St)
    (body : St -> Heap.val (F:=F) -> Heap.M (F:=F) (Heap.control St)) :
  (forall s x, pure_read (body s x)) ->
  pure_read (Heap.py_for float_of_int float_eqb v s body).
Proof.
  intros Hb. unfold Heap.py_for. destruct v; try apply pure_read_throw.
  apply pure_read_bind; [apply pure_read_load|]. intros [items|entries|attrs].
  - apply pure_read_iterate_list. exact Hb.
  - apply pure_read_for_each. exact Hb.
  - apply pure_read_throw.
Qed.

(** A successful [d[k]] on a dictionary cell returns the value the cell
    holds under [k]. *)
Lemma getitem_dict h a entries k x :
  nth_error h a = Some (Heap.CDict entries) ->
  snd (Heap.py_getitem float_of_int float_eqb (Heap.VRef a) k h) = inr x ->
  Heap.entries_get float_of_int float_eqb k entries = Some x.
Proof.
  intros Ha. unfold Heap.py_getitem.
  rewrite (bind_pure _ _ h (pure_read_load a)).
  unfold Heap.load at 1. rewrite Ha. cbn [snd ok].
  rewrite (bind_pure _ _ h (pure_read_hashable k)).
  destruct (snd (Heap.hashable k h)) as [e|u]; [discriminate|].
  destruct (Heap.entries_get float_of_int float_eqb k entries) as [y|]; [|discriminate].
  cbn. intros [= <-]. reflexivity.
Qed.

Lemma upd_last {A : Type} (l : list A) x y :
  Heap.upd (List.length l) y (l ++ [x]) = l ++ [y].
Proof. induction l as [|z l IH]; simpl; [reflexivity|]. rewrite IH. reflexivity. Qed.

(** [d[k] = x] on the dictionary allocated last either raises, leaving
    the store as it is, or replaces that one cell. *)
Lemma setitem_last h acc k x :
  fst (Heap.py_setitem float_of_int float_eqb (Heap.VRef (List.length h)) k x
         (h ++ [Heap.CDict acc])) = h ++ [Heap.CDict acc] \/
  fst (Heap.py_setitem float_of_int float_eqb (Heap.VRef (List.length h)) k x
         (h ++ [Heap.CDict acc]))
  = h ++ [Heap.CDict (Heap.entries_set float_of_int float_eqb k x acc)].
Proof.
  assert (Hrun :
            Heap.py_setitem float_of_int float_eqb (Heap.VRef (List.length h)) k x
              (h ++ [Heap.CDict acc]) =
            match snd (Heap.hashable k (h ++ [Heap.CDict acc])) with
            | inl e => (h ++ [Heap.CDict acc], inl e)
            | inr _ =>
                (h ++ [Heap.CDict (Heap.entries_set float_of_int float_eqb k x acc)], ok tt)
            end).
  { unfold Heap.py_setitem.
    rewrite (bind_pure _ _ _ (pure_read_load (List.length h))).
    unfold Heap.load at 1. rewrite nth_error_at. cbn [snd ok].
    rewrite (bind_pure _ _ _ (pure_read_hashable k)).
    destruct (snd (Heap.hashable k (h ++ [Heap.CDict acc]))) as [e|u]; [reflexivity|].
    unfold Heap.store. rewrite upd_last. reflexivity. }
  rewrite Hrun.
  destruct (snd (Heap.hashable k (h ++ [Heap.CDict acc]))) as [e|u];
    [left|right]; reflexivity.
Qed.

Lemma entries_set_In k x (acc : list (Heap.val (F:=F) * Heap.val (F:=F))) k' v :
  In (k', v) (Heap.entries_set float_of_int float_eqb k x acc) ->
  In (k', v) acc \/ (v = x /\ (k' = k \/ Heap.val_eqb float_of_int float_eqb k k' = true)).
Proof.
  induction acc as [|[k0 v0] acc IH]; simpl.
  - intros [[= <- <-]|[]]. right. auto.
  - destruct (Heap.val_eqb float_of_int float_eqb k k0) eqn:Heq; simpl.
    + intros [[= <- <-]|Hin]; [right; auto|left; right; exact Hin].
    + intros [Hin|Hin]; [left; left; exact Hin|].
      destruct (IH Hin) as [Hacc|Hnew]; [left; right; exact Hacc|right; exact Hnew].
Qed.

Lemma val_eqb_string s (k : Heap.val (F:=F)) :
  Heap.val_eqb float_of_int float_eqb (Heap.VStr s) k = true -> k = Heap.VStr s.
Proof.
  destruct k; simpl; try discriminate. intros H. apply String.eqb_eq in H. congruence.
Qed.

(** Case analysis on a statement that only reads. *)
Lemma bind_pure_cases {A B : Type} (m : Heap.M (F:=F) A) (f : A -> Heap.M (F:=F) B) h
    (P : Heap.heap (F:=F) * result B -> Prop) :
  pure_read m ->
  (forall e, snd (m h) = inl e -> P (h, inl e)) ->
  (forall x, snd (m h) = inr x -> P (f x h)) ->
  P (Heap.bind m f h).
Proof.
  intros Hm He Hx. rewrite (bind_pure m f h Hm).
  destruct (snd (m h)) as [e|x]; [apply He|apply Hx]; reflexivity.
Qed.

Lemma bind_ret_fst {A B : Type} (m : Heap.M (F:=F) A) (b : B) h :
  fst (Heap.bind m (fun _ => Heap.ret b) h) = fst (m h).
Proof. unfold Heap.bind. destruct (m h) as [h1 [e|x]]; reflexivity. Qed.

Lemma bind_ret_snd {A B : Type} (m : Heap.M (F:=F) A) (b b' : B) h :
  snd (Heap.bind m (fun _ => Heap.ret b) h) = inr b' -> b' = b.
Proof.
  unfold Heap.bind. destruct (m h) as [h1 [e|x]]; simpl; [discriminate|].
  intros [= <-]. reflexivity.
Qed.

Section JoinMapOnTheStore.
(** The store before the call, the index at [a], and the store during the
    loop: the initial one followed by the join map under construction. *)
Context (h : Heap.heap (F:=F)) (a : nat) (entries : list (Heap.val (F:=F) * Heap.val (F:=F))).
Context (Ha : nth_error h a = Some (Heap.CDict entries)).

Lemma index_still_there acc :
  nth_error (h ++ [Heap.CDict acc]) a = Some (Heap.CDict entries).
Proof.
  rewrite nth_error_app1; [exact Ha|]. apply nth_error_Some. rewrite Ha. discriminate.
Qed.

Lemma join_map_iteration_shares (s : string) acc :
  (forall k v, In (k, v) acc -> Heap.entries_get float_of_int float_eqb k entries = Some v) ->
  shares_with float_of_int float_eqb h entries
    (join_map_iteration float_of_int float_eqb (Heap.VRef a) (Heap.VRef (List.length h))
       (Heap.VStr s) (h ++ [Heap.CDict acc])).
Proof.
  intros Hinv. unfold join_map_iteration.
  assert (Hstay : forall (e : PyErr),
            shares_with float_of_int float_eqb h entries
              (h ++ [Heap.CDict acc], @inl PyErr unit e)).
  { intros e. exists acc. split; [reflexivity|exact Hinv]. }
  apply bind_pure_cases; [apply pure_read_getitem|intros e _; apply Hstay|intros occ _].
  apply bind_pure_cases; [apply pure_read_len|intros e _; apply Hstay|intros atoms _].
  apply bind_pure_cases; [apply pure_read_getitem|intros e _; apply Hstay|intros occ1 _].
  apply bind_pure_cases; [|intros e _; apply Hstay|intros join_on_var _].
  { apply pure_read_py_for. intros s0 x0.
    apply pure_read_bind; [apply pure_read_getitem|]. intros occ2.
    apply pure_read_bind; [apply pure_read_getitem|]. intros arg_indices.
    apply pure_read_bind; [apply pure_read_len|]. intros n.
    destruct (1 <? n); apply pure_read_ret. }
  destruct join_on_var.
  - apply bind_pure_cases; [apply pure_read_getitem|intros e _; apply Hstay|].
    intros occ3 Hocc3.
    apply (getitem_dict _ a entries _ _ (index_still_there acc)) in Hocc3.
    destruct (setitem_last h acc (Heap.VStr s) occ3) as [Hsame|Hset].
    + exists acc. split; [exact Hsame|exact Hinv].
    + exists (Heap.entries_set float_of_int float_eqb (Heap.VStr s) occ3 acc).
      split; [exact Hset|]. intros k v Hin.
      apply entries_set_In in Hin. destruct Hin as [Hin|[-> Hk]]; [apply Hinv; exact Hin|].
      assert (Hks : k = Heap.VStr s).
      { destruct Hk as [Hk|Hk]; [exact Hk|apply val_eqb_string; exact Hk]. }
      rewrite Hks. exact Hocc3.
  - exists acc. split; [reflexivity|exact Hinv].
Qed.

Lemma join_map_loop_shares keys : forall acc,
  (forall k, In k keys -> exists s, k = Heap.VStr s) ->
  (forall k v, In (k, v) acc -> Heap.entries_get float_of_int float_eqb k entries = Some v) ->
  shares_with float_of_int float_eqb h entries
    (Heap.for_each keys tt
       (fun _ var =>
          Heap.bind
            (join_map_iteration float_of_int float_eqb (Heap.VRef a)
               (Heap.VRef (List.length h)) var)
            (fun _ => Heap.ret (Heap.Continue tt)))
       (h ++ [Heap.CDict acc])).
Proof.
  induction keys as [|var keys IH]; intros acc Hkeys Hinv.
  - exists acc. split; [reflexivity|exact Hinv].
  - destruct (Hkeys var (or_introl eq_refl)) as [s ->].
    destruct (join_map_iteration_shares s acc Hinv) as (acc' & Hfst & Hinv').
    cbn [Heap.for_each]. unfold Heap.bind at 1 2.
    destruct (join_map_iteration float_of_int float_eqb (Heap.VRef a)
                (Heap.VRef (List.length h)) (Heap.VStr s) (h ++ [Heap.CDict acc]))
      as [h1 [e|u]]; simpl in Hfst; subst h1.
    + exists acc'. split; [reflexivity|exact Hinv'].
    + cbn. apply IH; [|exact Hinv'].
      intros k Hin. apply Hkeys. right. exact Hin.
Qed.
End JoinMapOnTheStore.

(** X23.  [extract_join_map] on the store, the keys of the index being
    strings: whether it returns or raises, the store after the call is
    the store before it followed by one new dictionary; the value that
    dictionary holds under a key is the very value the index holds under
    that key, so an occurrence map is shared by the two dictionaries and
    not copied; and the value returned is the reference to the new
    dictionary. *)
Theorem join_map_shares_occurrence_maps (h : Heap.heap (F:=F)) (a : nat)
    (entries : list (Heap.val (F:=F) * Heap.val (F:=F))) :
  nth_error h a = Some (Heap.CDict entries) ->
  (forall k, In k (map fst entries) -> exists s, k = Heap.VStr s) ->
  (exists joined,
     fst (Heap.extract_join_map float_of_int float_eqb (Heap.VRef a) h)
       = h ++ [Heap.CDict joined] /\
     forall k v, In (k, v) joined ->
       Heap.entries_get float_of_int float_eqb k entries = Some v) /\
  (forall result,
     snd (Heap.extract_join_map float_of_int float_eqb (Heap.VRef a) h) = inr result ->
     result = Heap.VRef (List.length h)).
Proof.
  intros Ha Hkeys.
  assert (Hrun :
            Heap.extract_join_map float_of_int float_eqb (Heap.VRef a) h =
            Heap.bind
              (Heap.for_each (map fst entries) tt
                 (fun _ var =>
                    Heap.bind
                      (join_map_iteration float_of_int float_eqb (Heap.VRef a)
                         (Heap.VRef (List.length h)) var)
                      (fun _ => Heap.ret (Heap.Continue tt))))
              (fun _ => Heap.ret (Heap.VRef (List.length h)))
              (h ++ [Heap.CDict []])).
  { assert (Hloop : forall body,
              Heap.py_for float_of_int float_eqb (Heap.VRef a) tt body (h ++ [Heap.CDict []])
              = Heap.for_each (map fst entries) tt body (h ++ [Heap.CDict []])).
    { intros body. unfold Heap.py_for.
      rewrite (bind_pure _ _ _ (pure_read_load a)).
      unfold Heap.load at 1. rewrite (index_still_there h a entries Ha []).
      reflexivity. }
    unfold Heap.extract_join_map. unfold Heap.bind at 1.
    unfold Heap.new_dict, Heap.alloc, ok. cbv beta iota.
    unfold Heap.py_for_. unfold Heap.bind at 1. rewrite Hloop.
    reflexivity. }
  rewrite Hrun. split.
  - rewrite bind_ret_fst.
    apply (join_map_loop_shares h a entries Ha (map fst entries) [] Hkeys).
    intros k v [].
  - intros result Hres. apply bind_ret_snd in Hres. exact Hres.
Qed.
End SharingFacts.

Lemma join_map_shares_occurrence_maps_witness :
  let h : Heap.heap (F:=unit) :=
    [Heap.CDict [(Heap.VStr "x", Heap.VRef 1); (Heap.VStr "y", Heap.VRef 3)];
     Heap.CDict [(Heap.VInt 0, Heap.VRef 2)]; Heap.CList [Heap.VInt 0];
     Heap.CDict [(Heap.VInt 0, Heap.VRef 4); (Heap.VInt 1, Heap.VRef 5)];
     Heap.CList [Heap.VInt 1]; Heap.CList [Heap.VInt 0]] in
  exists joined,
    fst (Heap.extract_join_map (fun _ => tt) (fun _ _ => true) (Heap.VRef 0) h)
      = h ++ [Heap.CDict joined] /\
    forall k v, In (k, v) joined ->
      Heap.entries_get (fun _ => tt) (fun _ _ => true) k
        [(Heap.VStr "x", Heap.VRef 1); (Heap.VStr "y", Heap.VRef 3)] = Some v.
Proof.
  intros h.
  apply (join_map_shares_occurrence_maps (fun _ => tt) (fun _ _ => true) h 0
           [(Heap.VStr "x", Heap.VRef 1); (Heap.VStr "y", Heap.VRef 3)]).
  - reflexivity.
  - intros k [<-|[<-|[]]]; eexists; reflexivity.
Defined.
